(** * Instagram private API client: endpoint helpers, comment validation,
      settings snapshot, compatibility patches and user-agent descriptor.

    A shallow embedding of
      - [endpoints/feed.py]   ([feed_timeline] and the listing endpoints),
      - [endpoints/media.py]  ([media_n_comments], [post_comment] and the
        single-request endpoints),
      - [examples/savesettings_logincallback.py] ([to_json], [from_json]),
    followed by the properties the specification states about them and by
    further properties read off the code.

    Conventions.  Python values are JSON trees; JSON numbers are integers.
    A Python [str] is a [string] of 8-bit characters; the text of a comment,
    whose characters [post_comment] examines, is a list of code points.
    Exceptions are the [Raise] branch of [result].  The client object and the remote server
    form an explicit [World] that every call threads through. *)

From Stdlib Require Import String Ascii NArith ZArith Lia Bool Arith PeanoNat.
From Stdlib Require Import Decimal DecimalNat DecimalString.
From Stdlib Require OrderedTypeEx.
From Stdlib Require Import List Permutation Sorted.
Import ListNotations.
#[local] Set Warnings "-register-all".
Local Open Scope string_scope.
Local Open Scope list_scope.

Set Implicit Arguments.

(** ** Exceptions and results *)

Inductive exn : Type :=
| ValueError (msg : string)
| TypeError
| KeyError (key : string)
| AttributeError
| ClientError (code : Z)
| BinasciiError.

Inductive result (A : Type) : Type :=
| Ok (a : A)
| Raise (e : exn).
Arguments Ok {A} a.
Arguments Raise {A} e.

Definition rbind {A B} (r : result A) (k : A -> result B) : result B :=
  match r with
  | Ok a => k a
  | Raise e => Raise e
  end.

Fixpoint rmap {A B} (f : A -> result B) (l : list A) : result (list B) :=
  match l with
  | [] => Ok []
  | x :: l' => rbind (f x) (fun y => rbind (rmap f l') (fun ys => Ok (y :: ys)))
  end.

(** ** Python values decoded from JSON

    [JRef l] is a reference to the object stored in cell [l] of the heap:
    the elements of a response's top-level arrays are objects that the
    endpoints mutate in place and that several lists may share. *)

Inductive json : Type :=
| JNull
| JBool (b : bool)
| JInt (z : Z)
| JStr (s : string)
| JList (xs : list json)
| JDict (kvs : list (string * json))
| JRef (l : nat).

Definition dict := list (string * json).

Fixpoint dict_find (k : string) (d : dict) : option json :=
  match d with
  | [] => None
  | (k', v) :: d' => if String.eqb k k' then Some v else dict_find k d'
  end.

(** [d.get(k)] and [d.get(k, default)] *)
Definition get (d : dict) (k : string) : json :=
  match dict_find k d with
  | Some v => v
  | None => JNull
  end.

Definition get_default (d : dict) (k : string) (default : json) : json :=
  match dict_find k d with
  | Some v => v
  | None => default
  end.

(** [d[k] = v] *)
Fixpoint dict_set (k : string) (v : json) (d : dict) : dict :=
  match d with
  | [] => [(k, v)]
  | (k', v') :: d' =>
      if String.eqb k k' then (k', v) :: d' else (k', v') :: dict_set k v d'
  end.

(** [d.update(upd)] *)
Definition dict_update (d upd : dict) : dict :=
  fold_left (fun acc kv => dict_set (fst kv) (snd kv) acc) upd d.

(** Truth value of an object, as [if x], [not x], [x and y] test it.
    A field value is never a reference. *)
Definition truthy (v : json) : bool :=
  match v with
  | JNull => false
  | JBool b => b
  | JInt z => negb (z =? 0)%Z
  | JStr s => negb (String.eqb s "")
  | JList xs => match xs with [] => false | _ => true end
  | JDict kvs => match kvs with [] => false | _ => true end
  | JRef _ => true
  end.

Definition chars (s : string) : list json :=
  map (fun c => JStr (String c EmptyString)) (list_ascii_of_string s).

(** The elements [for x in v] yields; [list.extend(v)] appends them. *)
Definition iter_values (v : json) : result (list json) :=
  match v with
  | JList xs => Ok xs
  | JStr s => Ok (chars s)
  | JDict kvs => Ok (map (fun kv => JStr (fst kv)) kvs)
  | _ => Raise TypeError
  end.

Definition extend (acc : list json) (v : json) : result (list json) :=
  rbind (iter_values v) (fun xs => Ok (acc ++ xs)).

(** ** The world: scripted server, request log, object heap *)

Record request : Type := {
  endpoint : string;
  params : dict;
  query : dict;
  unsigned : bool
}.

(** [script i] is what the server answers to the [i]-th request issued:
    a decoded JSON object, or the exception [_call_api] raises. *)
Record World : Type := {
  script : nat -> result dict;
  log : list (request * result dict);
  heap : list json
}.

Definition requests (w : World) : nat := length (log w).

Definition M (A : Type) : Type := World -> World * result A.

Definition ret {A} (a : A) : M A := fun w => (w, Ok a).
Definition raise {A} (e : exn) : M A := fun w => (w, Raise e).
Definition bind {A B} (c : M A) (k : A -> M B) : M B :=
  fun w => match c w with
           | (w1, Ok a) => k a w1
           | (w1, Raise e) => (w1, Raise e)
           end.
Definition lift {A} (r : result A) : M A := fun w => (w, r).

Notation "x <- c ;; k" := (bind c (fun x => k))
  (at level 61, c at next level, right associativity).
Notation "c ;;; k" := (bind c (fun _ => k))
  (at level 61, right associativity).

Fixpoint mapM_ {A} (f : A -> M unit) (l : list A) : M unit :=
  match l with
  | [] => ret tt
  | x :: l' => f x ;;; mapM_ f l'
  end.

Definition deref (h : list json) (v : json) : json :=
  match v with
  | JRef l => nth l h JNull
  | _ => v
  end.

Fixpoint update (l : nat) (v : json) (h : list json) : list json :=
  match h, l with
  | [], _ => []
  | _ :: h', O => v :: h'
  | x :: h', S l' => x :: update l' v h'
  end.

Definition store (l : nat) (v : json) : M unit :=
  fun w => ({| script := script w; log := log w; heap := update l v (heap w) |}, Ok tt).

(** Decoding a response body creates fresh objects: the elements of every
    top-level array are allocated and the array holds their references. *)
Definition alloc (h : list json) (xs : list json) : list json * list json :=
  (h ++ xs, map JRef (seq (length h) (length xs))).

Fixpoint materialize (h : list json) (body : dict) : list json * dict :=
  match body with
  | [] => (h, [])
  | (k, JList xs) :: body' =>
      let (h1, refs) := alloc h xs in
      let (h2, d) := materialize h1 body' in
      (h2, (k, JList refs) :: d)
  | (k, v) :: body' =>
      let (h2, d) := materialize h body' in
      (h2, (k, v) :: d)
  end.

(** [self._call_api(endpoint, params=..., query=..., unsigned=...)] *)
Definition _call_api (ep : string) (ps qs : dict) (uns : bool) : M dict :=
  fun w =>
    let rq := {| endpoint := ep; params := ps; query := qs; unsigned := uns |} in
    match script w (length (log w)) with
    | Raise e =>
        ({| script := script w; log := log w ++ [(rq, Raise e)]; heap := heap w |},
         Raise e)
    | Ok body =>
        let (h, d) := materialize (heap w) body in
        ({| script := script w; log := log w ++ [(rq, Ok d)]; heap := h |}, Ok d)
    end.

(** The client object: the attributes the endpoints read. *)
Record Client : Type := {
  uuid : json;
  csrftoken : json;
  phone_id : json;
  timezone_offset : json;
  auto_patch : bool;
  drop_incompat_keys : bool;
  authenticated_params : dict
}.

(** [ClientCompatPatch]: its module is not part of the sources at hand, the
    endpoints only call it.  A patch receives an object and the
    [drop_incompat_keys] flag and either raises or leaves the object in a
    new state. *)
Record ClientCompatPatch : Type := {
  media : json -> bool -> result json;
  comment : json -> bool -> result json
}.

(** ** Built-ins the endpoints use *)

(** [v[k]] for a string key *)
Definition getitem (v : json) (k : string) : result json :=
  match v with
  | JDict kvs =>
      match dict_find k kvs with
      | Some x => Ok x
      | None => Raise (KeyError k)
      end
  | _ => Raise TypeError
  end.

Definition as_number (v : json) : option Z :=
  match v with
  | JInt z => Some z
  | JBool true => Some 1%Z
  | JBool false => Some 0%Z
  | _ => None
  end.

(** [a == b] *)
Fixpoint py_eq (a b : json) : bool :=
  match a, b with
  | JNull, JNull => true
  | JStr x, JStr y => String.eqb x y
  | JList xs, JList ys =>
      (fix go (xs ys : list json) : bool :=
         match xs, ys with
         | [], [] => true
         | x :: xs', y :: ys' => py_eq x y && go xs' ys'
         | _, _ => false
         end) xs ys
  | JDict d1, JDict d2 =>
      Nat.eqb (length d1) (length d2)
      && (fix all (d : list (string * json)) : bool :=
            match d with
            | [] => true
            | (k, v) :: d' =>
                match dict_find k d2 with
                | Some v' => py_eq v v'
                | None => false
                end && all d'
            end) d1
  | JRef x, JRef y => Nat.eqb x y
  | _, _ =>
      match as_number a, as_number b with
      | Some x, Some y => (x =? y)%Z
      | _, _ => false
      end
  end.

(** [a < b]: numbers among themselves, strings among themselves (by code
    point), arrays by their first differing elements; any other pairing
    raises [TypeError], as [None], objects and mixed pairs do. *)
Fixpoint py_lt (a b : json) : result bool :=
  match a, b with
  | JStr x, JStr y => Ok (String.ltb x y)
  | JList xs, JList ys =>
      (fix go (xs ys : list json) : result bool :=
         match xs, ys with
         | [], [] => Ok false
         | [], _ :: _ => Ok true
         | _ :: _, [] => Ok false
         | x :: xs', y :: ys' => if py_eq x y then go xs' ys' else py_lt x y
         end) xs ys
  | _, _ =>
      match as_number a, as_number b with
      | Some x, Some y => Ok (x <? y)%Z
      | _, _ => Raise TypeError
      end
  end.

(** [sorted(l, key=key, reverse=reverse)].  The sort is stable: an element
    is placed before the first one that does not compare below it.  With
    [reverse] the list is reversed, sorted, and reversed again, which keeps
    elements with equal keys in their original order. *)
Fixpoint insert_by (x : json * json) (l : list (json * json))
  : result (list (json * json)) :=
  match l with
  | [] => Ok [x]
  | y :: l' =>
      rbind (py_lt (fst y) (fst x)) (fun b =>
        if b then rbind (insert_by x l') (fun r => Ok (y :: r))
        else Ok (x :: y :: l'))
  end.

Fixpoint sort_by (l : list (json * json)) : result (list (json * json)) :=
  match l with
  | [] => Ok []
  | x :: l' => rbind (sort_by l') (insert_by x)
  end.

Definition sorted (key : json -> result json) (l : list json) (reverse : bool)
  : result (list json) :=
  rbind (rmap key l) (fun keys =>
    let kl := combine keys l in
    rbind (if reverse then rbind (sort_by (rev kl)) (fun r => Ok (rev r))
           else sort_by kl)
      (fun r => Ok (map snd r))).

(** ** endpoints/feed.py: [feed_timeline]

    The [while] loop runs on fuel: [None] means the fuel ran out before the
    loop condition became false. *)
Fixpoint timeline_loop (fuel : nat) (n : Z) (params res : dict)
    (media : list json) (w : World)
  : option (World * result (dict * list json)) :=
  if truthy (get res "more_available") && truthy (get res "next_max_id")
     && (Z.of_nat (length media) <? n)%Z
  then
    match fuel with
    | O => None
    | S fuel' =>
        let params := dict_update params [("max_id", get res "next_max_id")] in
        match _call_api "feed/timeline/" params [] true w with
        | (w1, Raise e) => Some (w1, Raise e)
        | (w1, Ok res) =>
            match extend media (get_default res "feed_items" (JList [])) with
            | Raise e => Some (w1, Raise e)
            | Ok media =>
                if negb (truthy (get res "next_max_id"))
                   || negb (truthy (get res "feed_items"))
                then Some (w1, Ok (res, media))
                else timeline_loop fuel' n params res media w1
            end
        end
    end
  else Some (w, Ok (res, media)).

(** Lines 20-37: the first request and the loop. *)
Definition timeline_pages (fuel : nat) (self : Client) (n : Z) (kwargs : dict)
    (w : World) : option (World * result (dict * list json)) :=
  let params :=
    dict_update
      [("_uuid", uuid self);
       ("_csrftoken", csrftoken self);
       ("is_prefetch", JStr "0");
       ("is_pull_to_refresh", JStr "0");
       ("phone_id", phone_id self);
       ("timezone_offset", timezone_offset self)]
      kwargs in
  match _call_api "feed/timeline/" params [] true w with
  | (w1, Raise e) => Some (w1, Raise e)
  | (w1, Ok res) =>
      match extend [] (get_default res "feed_items" (JList [])) with
      | Raise e => Some (w1, Raise e)
      | Ok media => timeline_loop fuel n params res media w1
      end
  end.

(** One element of the comprehension of lines 40-42:
    [patch(m['media_or_ad']) if m.get('media_or_ad') else m]. *)
Definition patch_feed_item (P : ClientCompatPatch) (drop : bool) (m : json)
  : M unit :=
  fun w =>
    match m with
    | JRef l =>
        match nth l (heap w) JNull with
        | JDict kvs =>
            let v := get kvs "media_or_ad" in
            if truthy v then
              match media P v drop with
              | Ok v' => store l (JDict (dict_set "media_or_ad" v' kvs)) w
              | Raise e => (w, Raise e)
              end
            else (w, Ok tt)
        | _ => (w, Raise AttributeError)
        end
    | _ => (w, Raise AttributeError)
    end.

Definition feed_timeline (P : ClientCompatPatch) (fuel : nat) (self : Client)
    (n : Z) (kwargs : dict) (w : World)
  : option (World * result (list json)) :=
  match timeline_pages fuel self n kwargs w with
  | None => None
  | Some (w1, Raise e) => Some (w1, Raise e)
  | Some (w1, Ok (res, media)) =>
      if auto_patch self then
        match (items <- lift (iter_values (get_default res "feed_items" (JList []))) ;;
               mapM_ (patch_feed_item P (drop_incompat_keys self)) items) w1 with
        | (w2, Raise e) => Some (w2, Raise e)
        | (w2, Ok _) => Some (w2, Ok media)
        end
      else Some (w1, Ok media)
  end.

(** ** endpoints/media.py: [media_n_comments] *)
Fixpoint comments_loop (fuel : nat) (n : Z) (endpoint : string)
    (kwargs results : dict) (comments : list json) (w : World)
  : option (World * result (dict * list json)) :=
  if truthy (get results "has_more_comments") && truthy (get results "next_max_id")
     && (Z.of_nat (length comments) <? n)%Z
  then
    match fuel with
    | O => None
    | S fuel' =>
        let kwargs := dict_update kwargs [("max_id", get results "next_max_id")] in
        match _call_api endpoint [] kwargs false w with
        | (w1, Raise e) => Some (w1, Raise e)
        | (w1, Ok results) =>
            match extend comments (get_default results "comments" (JList [])) with
            | Raise e => Some (w1, Raise e)
            | Ok comments =>
                if negb (truthy (get results "next_max_id"))
                   || negb (truthy (get results "comments"))
                then Some (w1, Ok (results, comments))
                else comments_loop fuel' n endpoint kwargs results comments w1
            end
        end
    end
  else Some (w, Ok (results, comments)).

(** Lines 85-96: the first request and the loop. *)
Definition comments_pages (fuel : nat) (media_id : string) (n : Z)
    (kwargs : dict) (w : World)
  : option (World * result (dict * list json)) :=
  let endpoint := ("media/" ++ media_id ++ "/comments/")%string in
  match _call_api endpoint [] kwargs false w with
  | (w1, Raise e) => Some (w1, Raise e)
  | (w1, Ok results) =>
      match extend [] (get_default results "comments" (JList [])) with
      | Raise e => Some (w1, Raise e)
      | Ok comments => comments_loop fuel n endpoint kwargs results comments w1
      end
  end.

(** [ClientCompatPatch.comment(c, ...)] on one element of [comments]: an
    object is patched in place, an immutable value cannot change. *)
Definition patch_comment (P : ClientCompatPatch) (drop : bool) (c : json)
  : M unit :=
  fun w =>
    match c with
    | JRef l =>
        match comment P (nth l (heap w) JNull) drop with
        | Ok v' => store l v' w
        | Raise e => (w, Raise e)
        end
    | _ =>
        match comment P c drop with
        | Ok _ => (w, Ok tt)
        | Raise e => (w, Raise e)
        end
    end.

(** [lambda k: k['created_time']] *)
Definition created_time (h : list json) (k : json) : result json :=
  getitem (deref h k) "created_time".

Definition media_n_comments (P : ClientCompatPatch) (fuel : nat) (self : Client)
    (media_id : string) (n : Z) (reverse : bool) (kwargs : dict) (w : World)
  : option (World * result (list json)) :=
  match comments_pages fuel media_id n kwargs w with
  | None => None
  | Some (w1, Raise e) => Some (w1, Raise e)
  | Some (w1, Ok (results, comments)) =>
      Some ((_ <- (if auto_patch self
                   then mapM_ (patch_comment P (drop_incompat_keys self)) comments
                   else ret tt) ;;
             fun w2 => (w2, sorted (created_time (heap w2)) comments reverse)) w1)
  end.

(** What the caller sees of a returned list of objects. *)
Definition view (w : World) (l : list json) : list json :=
  map (deref (heap w)) l.

(** ** The two pagination loops as instances of one loop

    [timeline_loop] and [comments_loop] differ in the name of the
    more-pages flag, the name of the item field and the way the request is
    issued.  [page_loop] abstracts these three; the lemmas
    [timeline_loop_page_loop] and [comments_loop_page_loop] show it equal to
    each of them. *)
Fixpoint page_loop (flag items : string) (call : dict -> M dict) (fuel : nat)
    (n : Z) (args res : dict) (acc : list json) (w : World)
  : option (World * result (dict * list json)) :=
  if truthy (get res flag) && truthy (get res "next_max_id")
     && (Z.of_nat (length acc) <? n)%Z
  then
    match fuel with
    | O => None
    | S fuel' =>
        let args := dict_update args [("max_id", get res "next_max_id")] in
        match call args w with
        | (w1, Raise e) => Some (w1, Raise e)
        | (w1, Ok res) =>
            match extend acc (get_default res items (JList [])) with
            | Raise e => Some (w1, Raise e)
            | Ok acc =>
                if negb (truthy (get res "next_max_id"))
                   || negb (truthy (get res items))
                then Some (w1, Ok (res, acc))
                else page_loop flag items call fuel' n args res acc w1
            end
        end
    end
  else Some (w, Ok (res, acc)).

(** The first request followed by the loop. *)
Definition page_fetch (flag items : string) (call : dict -> M dict) (fuel : nat)
    (n : Z) (args : dict) (w : World)
  : option (World * result (dict * list json)) :=
  match call args w with
  | (w1, Raise e) => Some (w1, Raise e)
  | (w1, Ok res) =>
      match extend [] (get_default res items (JList [])) with
      | Raise e => Some (w1, Raise e)
      | Ok acc => page_loop flag items call fuel n args res acc w1
      end
  end.

Definition timeline_call (ps : dict) : M dict :=
  _call_api "feed/timeline/" ps [] true.

Definition comments_call (endpoint : string) (qs : dict) : M dict :=
  _call_api endpoint [] qs false.

(** The request parameters of [feed_timeline], lines 20-29. *)
Definition timeline_params (self : Client) (kwargs : dict) : dict :=
  dict_update
    [("_uuid", uuid self);
     ("_csrftoken", csrftoken self);
     ("is_prefetch", JStr "0");
     ("is_pull_to_refresh", JStr "0");
     ("phone_id", phone_id self);
     ("timezone_offset", timezone_offset self)]
    kwargs.

(** ** Page sequences

    The pages a helper is served are the answers of the script from the
    current request count on. *)
Definition served (w : World) (i : nat) : result dict :=
  script w (requests w + i).

(** The item list of a page as the server sent it. *)
Definition wire_items (items : string) (p : result dict) : list json :=
  match p with
  | Ok d =>
      match iter_values (get_default d items (JList [])) with
      | Ok l => l
      | Raise _ => []
      end
  | Raise _ => []
  end.

(** Concatenation, in fetch order, of the item lists of the first [k] pages. *)
Definition pages_items (items : string) (s : nat -> result dict) (k : nat)
  : list json :=
  concat (map (fun i => wire_items items (s i)) (seq 0 k)).

Definition page_truthy (key : string) (p : result dict) : bool :=
  match p with
  | Ok d => truthy (get d key)
  | Raise _ => false
  end.

(** The [while] condition as it stands once pages [0..j] are accumulated. *)
Definition continue_after (flag items : string) (s : nat -> result dict)
    (n : Z) (j : nat) : bool :=
  page_truthy flag (s j) && page_truthy "next_max_id" (s j)
  && (Z.of_nat (length (pages_items items s (S j))) <? n)%Z.

(** The bail-out test of the loop body on page [j]. *)
Definition bail_after (items : string) (s : nat -> result dict) (j : nat)
  : bool :=
  negb (page_truthy "next_max_id" (s j)) || negb (page_truthy items (s j)).

(** Page [j] meets one of the conditions that end the loop. *)
Definition stops_at (flag items : string) (s : nat -> result dict) (n : Z)
    (j : nat) : Prop :=
  page_truthy flag (s j) = false \/
  page_truthy "next_max_id" (s j) = false \/
  wire_items items (s j) = [] \/
  (n <= Z.of_nat (length (pages_items items s (S j))))%Z.

(** A page is well formed when the call succeeds and the item field, if
    present, can be iterated. *)
Definition wf_page (items : string) (p : result dict) : Prop :=
  exists d l, p = Ok d /\ iter_values (get_default d items (JList [])) = Ok l.

(** A page whose item field is absent or a JSON array. *)
Definition list_page (items : string) (p : result dict) : Prop :=
  exists d xs, p = Ok d /\ get_default d items (JList []) = JList xs.

(** The value [patch_feed_item] leaves in an object that held [x]. *)
Definition patched_feed_item (P : ClientCompatPatch) (drop : bool) (x : json)
  : result json :=
  match x with
  | JDict kvs =>
      let v := get kvs "media_or_ad" in
      if truthy v then
        rbind (media P v drop) (fun v' => Ok (JDict (dict_set "media_or_ad" v' kvs)))
      else Ok x
  | _ => Raise AttributeError
  end.

(** Order of two objects of the heap by their [created_time] keys:
    [b] does not sort below [a]. *)
Definition key_le (h : list json) (a b : json) : Prop :=
  exists ka kb, created_time h a = Ok ka /\ created_time h b = Ok kb /\
                py_lt kb ka = Ok false.

(** References below, resp. from, a heap address. *)
Definition ref_below (b : nat) (v : json) : Prop :=
  match v with
  | JRef l => l < b
  | _ => True
  end.

Definition ref_in (a b : nat) (v : json) : Prop :=
  match v with
  | JRef l => a <= l < b
  | _ => True
  end.

Definition is_ref (v : json) : Prop :=
  match v with
  | JRef _ => True
  | _ => False
  end.

(** The heap addresses a list of values refers to. *)
Fixpoint refs_of (l : list json) : list nat :=
  match l with
  | [] => []
  | JRef a :: l' => a :: refs_of l'
  | _ :: l' => refs_of l'
  end.

(** Loop invariant: [res] is page [j] as decoded on top of heap [hp], and
    [acc] holds the objects of the pages [0..j] in fetch order. *)
Definition fetched (items : string) (s : nat -> result dict) (j : nat)
    (w : World) (res : dict) (acc : list json) : Prop :=
  exists body hp earlier last,
    s j = Ok body /\ materialize hp body = (heap w, res) /\
    iter_values (get_default res items (JList [])) = Ok last /\
    acc = earlier ++ last /\
    Forall (ref_below (length hp)) earlier /\
    map (deref hp) earlier = pages_items items s j /\
    NoDup (refs_of earlier) /\
    ((forall i, i < j -> list_page items (s i)) -> Forall is_ref earlier).

(** Sort keys of one kind. *)
Definition is_int (v : json) : Prop := exists z, v = JInt z.
Definition is_str (v : json) : Prop := exists s, v = JStr s.

(** The order [sorted] leaves two elements in: the later one does not
    compare below the earlier one ([reverse = false]), or the other way
    round ([reverse = true]). *)
Definition in_order (key : json -> result json) (reverse : bool) (a b : json)
  : Prop :=
  exists ka kb, key a = Ok ka /\ key b = Ok kb /\
    (if reverse then py_lt ka kb else py_lt kb ka) = Ok false.

(** The value [media_n_comments] leaves in a comment object served as [x]. *)
Definition final_comment (self : Client) (P : ClientCompatPatch) (x : json)
  : result json :=
  if auto_patch self then comment P x (drop_incompat_keys self) else Ok x.

(** A served comment ends up with a [created_time] of the given kind. *)
Definition keyed (kind : json -> Prop) (self : Client) (P : ClientCompatPatch)
    (x : json) : Prop :=
  exists v k, final_comment self P x = Ok v /\
              getitem v "created_time" = Ok k /\ kind k.

(** ** Characters

    The text of a comment is a Python [str], a sequence of code points.
    [post_comment] looks at it through [len], [str.upper] and three patterns
    of the [re] module, and these consult the character database of the
    interpreter.  The tables below are the database of Unicode 14.0.0, as
    CPython 3.11 carries it, by ranges of code points. *)
Definition text : Type := list N.

Local Open Scope N_scope.

(** [str.isalpha]: the ranges of the letters *)
Definition alpha_ranges : list (N * N) :=
  [(65, 90); (97, 122); (170, 170); (181, 181); (186, 186); (192, 214);
   (216, 246); (248, 705); (710, 721); (736, 740); (748, 748); (750, 750);
   (880, 884); (886, 887); (890, 893); (895, 895); (902, 902); (904, 906);
   (908, 908); (910, 929); (931, 1013); (1015, 1153); (1162, 1327);
   (1329, 1366); (1369, 1369); (1376, 1416); (1488, 1514); (1519, 1522);
   (1568, 1610); (1646, 1647); (1649, 1747); (1749, 1749); (1765, 1766);
   (1774, 1775); (1786, 1788); (1791, 1791); (1808, 1808); (1810, 1839);
   (1869, 1957); (1969, 1969); (1994, 2026); (2036, 2037); (2042, 2042);
   (2048, 2069); (2074, 2074); (2084, 2084); (2088, 2088); (2112, 2136);
   (2144, 2154); (2160, 2183); (2185, 2190); (2208, 2249); (2308, 2361);
   (2365, 2365); (2384, 2384); (2392, 2401); (2417, 2432); (2437, 2444);
   (2447, 2448); (2451, 2472); (2474, 2480); (2482, 2482); (2486, 2489);
   (2493, 2493); (2510, 2510); (2524, 2525); (2527, 2529); (2544, 2545);
   (2556, 2556); (2565, 2570); (2575, 2576); (2579, 2600); (2602, 2608);
   (2610, 2611); (2613, 2614); (2616, 2617); (2649, 2652); (2654, 2654);
   (2674, 2676); (2693, 2701); (2703, 2705); (2707, 2728); (2730, 2736);
   (2738, 2739); (2741, 2745); (2749, 2749); (2768, 2768); (2784, 2785);
   (2809, 2809); (2821, 2828); (2831, 2832); (2835, 2856); (2858, 2864);
   (2866, 2867); (2869, 2873); (2877, 2877); (2908, 2909); (2911, 2913);
   (2929, 2929); (2947, 2947); (2949, 2954); (2958, 2960); (2962, 2965);
   (2969, 2970); (2972, 2972); (2974, 2975); (2979, 2980); (2984, 2986);
   (2990, 3001); (3024, 3024); (3077, 3084); (3086, 3088); (3090, 3112);
   (3114, 3129); (3133, 3133); (3160, 3162); (3165, 3165); (3168, 3169);
   (3200, 3200); (3205, 3212); (3214, 3216); (3218, 3240); (3242, 3251);
   (3253, 3257); (3261, 3261); (3293, 3294); (3296, 3297); (3313, 3314);
   (3332, 3340); (3342, 3344); (3346, 3386); (3389, 3389); (3406, 3406);
   (3412, 3414); (3423, 3425); (3450, 3455); (3461, 3478); (3482, 3505);
   (3507, 3515); (3517, 3517); (3520, 3526); (3585, 3632); (3634, 3635);
   (3648, 3654); (3713, 3714); (3716, 3716); (3718, 3722); (3724, 3747);
   (3749, 3749); (3751, 3760); (3762, 3763); (3773, 3773); (3776, 3780);
   (3782, 3782); (3804, 3807); (3840, 3840); (3904, 3911); (3913, 3948);
   (3976, 3980); (4096, 4138); (4159, 4159); (4176, 4181); (4186, 4189);
   (4193, 4193); (4197, 4198); (4206, 4208); (4213, 4225); (4238, 4238);
   (4256, 4293); (4295, 4295); (4301, 4301); (4304, 4346); (4348, 4680);
   (4682, 4685); (4688, 4694); (4696, 4696); (4698, 4701); (4704, 4744);
   (4746, 4749); (4752, 4784); (4786, 4789); (4792, 4798); (4800, 4800);
   (4802, 4805); (4808, 4822); (4824, 4880); (4882, 4885); (4888, 4954);
   (4992, 5007); (5024, 5109); (5112, 5117); (5121, 5740); (5743, 5759);
   (5761, 5786); (5792, 5866); (5873, 5880); (5888, 5905); (5919, 5937);
   (5952, 5969); (5984, 5996); (5998, 6000); (6016, 6067); (6103, 6103);
   (6108, 6108); (6176, 6264); (6272, 6276); (6279, 6312); (6314, 6314);
   (6320, 6389); (6400, 6430); (6480, 6509); (6512, 6516); (6528, 6571);
   (6576, 6601); (6656, 6678); (6688, 6740); (6823, 6823); (6917, 6963);
   (6981, 6988); (7043, 7072); (7086, 7087); (7098, 7141); (7168, 7203);
   (7245, 7247); (7258, 7293); (7296, 7304); (7312, 7354); (7357, 7359);
   (7401, 7404); (7406, 7411); (7413, 7414); (7418, 7418); (7424, 7615);
   (7680, 7957); (7960, 7965); (7968, 8005); (8008, 8013); (8016, 8023);
   (8025, 8025); (8027, 8027); (8029, 8029); (8031, 8061); (8064, 8116);
   (8118, 8124); (8126, 8126); (8130, 8132); (8134, 8140); (8144, 8147);
   (8150, 8155); (8160, 8172); (8178, 8180); (8182, 8188); (8305, 8305);
   (8319, 8319); (8336, 8348); (8450, 8450); (8455, 8455); (8458, 8467);
   (8469, 8469); (8473, 8477); (8484, 8484); (8486, 8486); (8488, 8488);
   (8490, 8493); (8495, 8505); (8508, 8511); (8517, 8521); (8526, 8526);
   (8579, 8580); (11264, 11492); (11499, 11502); (11506, 11507);
   (11520, 11557); (11559, 11559); (11565, 11565); (11568, 11623);
   (11631, 11631); (11648, 11670); (11680, 11686); (11688, 11694);
   (11696, 11702); (11704, 11710); (11712, 11718); (11720, 11726);
   (11728, 11734); (11736, 11742); (11823, 11823); (12293, 12294);
   (12337, 12341); (12347, 12348); (12353, 12438); (12445, 12447);
   (12449, 12538); (12540, 12543); (12549, 12591); (12593, 12686);
   (12704, 12735); (12784, 12799); (13312, 19903); (19968, 42124);
   (42192, 42237); (42240, 42508); (42512, 42527); (42538, 42539);
   (42560, 42606); (42623, 42653); (42656, 42725); (42775, 42783);
   (42786, 42888); (42891, 42954); (42960, 42961); (42963, 42963);
   (42965, 42969); (42994, 43009); (43011, 43013); (43015, 43018);
   (43020, 43042); (43072, 43123); (43138, 43187); (43250, 43255);
   (43259, 43259); (43261, 43262); (43274, 43301); (43312, 43334);
   (43360, 43388); (43396, 43442); (43471, 43471); (43488, 43492);
   (43494, 43503); (43514, 43518); (43520, 43560); (43584, 43586);
   (43588, 43595); (43616, 43638); (43642, 43642); (43646, 43695);
   (43697, 43697); (43701, 43702); (43705, 43709); (43712, 43712);
   (43714, 43714); (43739, 43741); (43744, 43754); (43762, 43764);
   (43777, 43782); (43785, 43790); (43793, 43798); (43808, 43814);
   (43816, 43822); (43824, 43866); (43868, 43881); (43888, 44002);
   (44032, 55203); (55216, 55238); (55243, 55291); (63744, 64109);
   (64112, 64217); (64256, 64262); (64275, 64279); (64285, 64285);
   (64287, 64296); (64298, 64310); (64312, 64316); (64318, 64318);
   (64320, 64321); (64323, 64324); (64326, 64433); (64467, 64829);
   (64848, 64911); (64914, 64967); (65008, 65019); (65136, 65140);
   (65142, 65276); (65313, 65338); (65345, 65370); (65382, 65470);
   (65474, 65479); (65482, 65487); (65490, 65495); (65498, 65500);
   (65536, 65547); (65549, 65574); (65576, 65594); (65596, 65597);
   (65599, 65613); (65616, 65629); (65664, 65786); (66176, 66204);
   (66208, 66256); (66304, 66335); (66349, 66368); (66370, 66377);
   (66384, 66421); (66432, 66461); (66464, 66499); (66504, 66511);
   (66560, 66717); (66736, 66771); (66776, 66811); (66816, 66855);
   (66864, 66915); (66928, 66938); (66940, 66954); (66956, 66962);
   (66964, 66965); (66967, 66977); (66979, 66993); (66995, 67001);
   (67003, 67004); (67072, 67382); (67392, 67413); (67424, 67431);
   (67456, 67461); (67463, 67504); (67506, 67514); (67584, 67589);
   (67592, 67592); (67594, 67637); (67639, 67640); (67644, 67644);
   (67647, 67669); (67680, 67702); (67712, 67742); (67808, 67826);
   (67828, 67829); (67840, 67861); (67872, 67897); (67968, 68023);
   (68030, 68031); (68096, 68096); (68112, 68115); (68117, 68119);
   (68121, 68149); (68192, 68220); (68224, 68252); (68288, 68295);
   (68297, 68324); (68352, 68405); (68416, 68437); (68448, 68466);
   (68480, 68497); (68608, 68680); (68736, 68786); (68800, 68850);
   (68864, 68899); (69248, 69289); (69296, 69297); (69376, 69404);
   (69415, 69415); (69424, 69445); (69488, 69505); (69552, 69572);
   (69600, 69622); (69635, 69687); (69745, 69746); (69749, 69749);
   (69763, 69807); (69840, 69864); (69891, 69926); (69956, 69956);
   (69959, 69959); (69968, 70002); (70006, 70006); (70019, 70066);
   (70081, 70084); (70106, 70106); (70108, 70108); (70144, 70161);
   (70163, 70187); (70272, 70278); (70280, 70280); (70282, 70285);
   (70287, 70301); (70303, 70312); (70320, 70366); (70405, 70412);
   (70415, 70416); (70419, 70440); (70442, 70448); (70450, 70451);
   (70453, 70457); (70461, 70461); (70480, 70480); (70493, 70497);
   (70656, 70708); (70727, 70730); (70751, 70753); (70784, 70831);
   (70852, 70853); (70855, 70855); (71040, 71086); (71128, 71131);
   (71168, 71215); (71236, 71236); (71296, 71338); (71352, 71352);
   (71424, 71450); (71488, 71494); (71680, 71723); (71840, 71903);
   (71935, 71942); (71945, 71945); (71948, 71955); (71957, 71958);
   (71960, 71983); (71999, 71999); (72001, 72001); (72096, 72103);
   (72106, 72144); (72161, 72161); (72163, 72163); (72192, 72192);
   (72203, 72242); (72250, 72250); (72272, 72272); (72284, 72329);
   (72349, 72349); (72368, 72440); (72704, 72712); (72714, 72750);
   (72768, 72768); (72818, 72847); (72960, 72966); (72968, 72969);
   (72971, 73008); (73030, 73030); (73056, 73061); (73063, 73064);
   (73066, 73097); (73112, 73112); (73440, 73458); (73648, 73648);
   (73728, 74649); (74880, 75075); (77712, 77808); (77824, 78894);
   (82944, 83526); (92160, 92728); (92736, 92766); (92784, 92862);
   (92880, 92909); (92928, 92975); (92992, 92995); (93027, 93047);
   (93053, 93071); (93760, 93823); (93952, 94026); (94032, 94032);
   (94099, 94111); (94176, 94177); (94179, 94179); (94208, 100343);
   (100352, 101589); (101632, 101640); (110576, 110579); (110581, 110587);
   (110589, 110590); (110592, 110882); (110928, 110930); (110948, 110951);
   (110960, 111355); (113664, 113770); (113776, 113788); (113792, 113800);
   (113808, 113817); (119808, 119892); (119894, 119964); (119966, 119967);
   (119970, 119970); (119973, 119974); (119977, 119980); (119982, 119993);
   (119995, 119995); (119997, 120003); (120005, 120069); (120071, 120074);
   (120077, 120084); (120086, 120092); (120094, 120121); (120123, 120126);
   (120128, 120132); (120134, 120134); (120138, 120144); (120146, 120485);
   (120488, 120512); (120514, 120538); (120540, 120570); (120572, 120596);
   (120598, 120628); (120630, 120654); (120656, 120686); (120688, 120712);
   (120714, 120744); (120746, 120770); (120772, 120779); (122624, 122654);
   (123136, 123180); (123191, 123197); (123214, 123214); (123536, 123565);
   (123584, 123627); (124896, 124902); (124904, 124907); (124909, 124910);
   (124912, 124926); (124928, 125124); (125184, 125251); (125259, 125259);
   (126464, 126467); (126469, 126495); (126497, 126498); (126500, 126500);
   (126503, 126503); (126505, 126514); (126516, 126519); (126521, 126521);
   (126523, 126523); (126530, 126530); (126535, 126535); (126537, 126537);
   (126539, 126539); (126541, 126543); (126545, 126546); (126548, 126548);
   (126551, 126551); (126553, 126553); (126555, 126555); (126557, 126557);
   (126559, 126559); (126561, 126562); (126564, 126564); (126567, 126570);
   (126572, 126578); (126580, 126583); (126585, 126588); (126590, 126590);
   (126592, 126601); (126603, 126619); (126625, 126627); (126629, 126633);
   (126635, 126651); (131072, 173791); (173824, 177976); (177984, 178205);
   (178208, 183969); (183984, 191456); (194560, 195101); (196608, 201546)].

(** the ranges of the digits and numerals, the characters of
    [str.isalnum] that are not letters *)
Definition numeric_ranges : list (N * N) :=
  [(48, 57); (178, 179); (185, 185); (188, 190); (1632, 1641); (1776, 1785);
   (1984, 1993); (2406, 2415); (2534, 2543); (2548, 2553); (2662, 2671);
   (2790, 2799); (2918, 2927); (2930, 2935); (3046, 3058); (3174, 3183);
   (3192, 3198); (3302, 3311); (3416, 3422); (3430, 3448); (3558, 3567);
   (3664, 3673); (3792, 3801); (3872, 3891); (4160, 4169); (4240, 4249);
   (4969, 4988); (5870, 5872); (6112, 6121); (6128, 6137); (6160, 6169);
   (6470, 6479); (6608, 6618); (6784, 6793); (6800, 6809); (6992, 7001);
   (7088, 7097); (7232, 7241); (7248, 7257); (8304, 8304); (8308, 8313);
   (8320, 8329); (8528, 8578); (8581, 8585); (9312, 9371); (9450, 9471);
   (10102, 10131); (11517, 11517); (12295, 12295); (12321, 12329);
   (12344, 12346); (12690, 12693); (12832, 12841); (12872, 12879);
   (12881, 12895); (12928, 12937); (12977, 12991); (42528, 42537);
   (42726, 42735); (43056, 43061); (43216, 43225); (43264, 43273);
   (43472, 43481); (43504, 43513); (43600, 43609); (44016, 44025);
   (65296, 65305); (65799, 65843); (65856, 65912); (65930, 65931);
   (66273, 66299); (66336, 66339); (66369, 66369); (66378, 66378);
   (66513, 66517); (66720, 66729); (67672, 67679); (67705, 67711);
   (67751, 67759); (67835, 67839); (67862, 67867); (68028, 68029);
   (68032, 68047); (68050, 68095); (68160, 68168); (68221, 68222);
   (68253, 68255); (68331, 68335); (68440, 68447); (68472, 68479);
   (68521, 68527); (68858, 68863); (68912, 68921); (69216, 69246);
   (69405, 69414); (69457, 69460); (69573, 69579); (69714, 69743);
   (69872, 69881); (69942, 69951); (70096, 70105); (70113, 70132);
   (70384, 70393); (70736, 70745); (70864, 70873); (71248, 71257);
   (71360, 71369); (71472, 71483); (71904, 71922); (72016, 72025);
   (72784, 72812); (73040, 73049); (73120, 73129); (73664, 73684);
   (74752, 74862); (92768, 92777); (92864, 92873); (93008, 93017);
   (93019, 93025); (93824, 93846); (119520, 119539); (119648, 119672);
   (120782, 120831); (123200, 123209); (123632, 123641); (125127, 125135);
   (125264, 125273); (126065, 126123); (126125, 126127); (126129, 126132);
   (126209, 126253); (126255, 126269); (127232, 127244); (130032, 130041)].

(** [str.isspace] *)
Definition space_ranges : list (N * N) :=
  [(9, 13); (28, 32); (133, 133); (160, 160); (5760, 5760); (8192, 8202);
   (8232, 8233); (8239, 8239); (8287, 8287); (12288, 12288)].

(** [str.upper] of the characters with a one-character upper case other
    than themselves: runs [(lo, hi, step, image of lo)] *)
Definition upper_runs : list (N * N * N * N) :=
  [(97, 122, 1, 65); (181, 181, 1, 924); (224, 246, 1, 192);
   (248, 254, 1, 216); (255, 255, 1, 376); (257, 303, 2, 256);
   (305, 305, 1, 73); (307, 311, 2, 306); (314, 328, 2, 313);
   (331, 375, 2, 330); (378, 382, 2, 377); (383, 383, 1, 83);
   (384, 384, 1, 579); (387, 389, 2, 386); (392, 392, 1, 391);
   (396, 396, 1, 395); (402, 402, 1, 401); (405, 405, 1, 502);
   (409, 409, 1, 408); (410, 410, 1, 573); (414, 414, 1, 544);
   (417, 421, 2, 416); (424, 424, 1, 423); (429, 429, 1, 428);
   (432, 432, 1, 431); (436, 438, 2, 435); (441, 441, 1, 440);
   (445, 445, 1, 444); (447, 447, 1, 503); (453, 453, 1, 452);
   (454, 454, 1, 452); (456, 456, 1, 455); (457, 457, 1, 455);
   (459, 459, 1, 458); (460, 460, 1, 458); (462, 476, 2, 461);
   (477, 477, 1, 398); (479, 495, 2, 478); (498, 498, 1, 497);
   (499, 499, 1, 497); (501, 501, 1, 500); (505, 543, 2, 504);
   (547, 563, 2, 546); (572, 572, 1, 571); (575, 576, 1, 11390);
   (578, 578, 1, 577); (583, 591, 2, 582); (592, 592, 1, 11375);
   (593, 593, 1, 11373); (594, 594, 1, 11376); (595, 595, 1, 385);
   (596, 596, 1, 390); (598, 599, 1, 393); (601, 601, 1, 399);
   (603, 603, 1, 400); (604, 604, 1, 42923); (608, 608, 1, 403);
   (609, 609, 1, 42924); (611, 611, 1, 404); (613, 613, 1, 42893);
   (614, 614, 1, 42922); (616, 616, 1, 407); (617, 617, 1, 406);
   (618, 618, 1, 42926); (619, 619, 1, 11362); (620, 620, 1, 42925);
   (623, 623, 1, 412); (625, 625, 1, 11374); (626, 626, 1, 413);
   (629, 629, 1, 415); (637, 637, 1, 11364); (640, 640, 1, 422);
   (642, 642, 1, 42949); (643, 643, 1, 425); (647, 647, 1, 42929);
   (648, 648, 1, 430); (649, 649, 1, 580); (650, 651, 1, 433);
   (652, 652, 1, 581); (658, 658, 1, 439); (669, 669, 1, 42930);
   (670, 670, 1, 42928); (837, 837, 1, 921); (881, 883, 2, 880);
   (887, 887, 1, 886); (891, 893, 1, 1021); (940, 940, 1, 902);
   (941, 943, 1, 904); (945, 961, 1, 913); (962, 962, 1, 931);
   (963, 971, 1, 931); (972, 972, 1, 908); (973, 974, 1, 910);
   (976, 976, 1, 914); (977, 977, 1, 920); (981, 981, 1, 934);
   (982, 982, 1, 928); (983, 983, 1, 975); (985, 1007, 2, 984);
   (1008, 1008, 1, 922); (1009, 1009, 1, 929); (1010, 1010, 1, 1017);
   (1011, 1011, 1, 895); (1013, 1013, 1, 917); (1016, 1016, 1, 1015);
   (1019, 1019, 1, 1018); (1072, 1103, 1, 1040); (1104, 1119, 1, 1024);
   (1121, 1153, 2, 1120); (1163, 1215, 2, 1162); (1218, 1230, 2, 1217);
   (1231, 1231, 1, 1216); (1233, 1327, 2, 1232); (1377, 1414, 1, 1329);
   (4304, 4346, 1, 7312); (4349, 4351, 1, 7357); (5112, 5117, 1, 5104);
   (7296, 7296, 1, 1042); (7297, 7297, 1, 1044); (7298, 7298, 1, 1054);
   (7299, 7300, 1, 1057); (7301, 7301, 1, 1058); (7302, 7302, 1, 1066);
   (7303, 7303, 1, 1122); (7304, 7304, 1, 42570); (7545, 7545, 1, 42877);
   (7549, 7549, 1, 11363); (7566, 7566, 1, 42950); (7681, 7829, 2, 7680);
   (7835, 7835, 1, 7776); (7841, 7935, 2, 7840); (7936, 7943, 1, 7944);
   (7952, 7957, 1, 7960); (7968, 7975, 1, 7976); (7984, 7991, 1, 7992);
   (8000, 8005, 1, 8008); (8017, 8023, 2, 8025); (8032, 8039, 1, 8040);
   (8048, 8049, 1, 8122); (8050, 8053, 1, 8136); (8054, 8055, 1, 8154);
   (8056, 8057, 1, 8184); (8058, 8059, 1, 8170); (8060, 8061, 1, 8186);
   (8112, 8113, 1, 8120); (8126, 8126, 1, 921); (8144, 8145, 1, 8152);
   (8160, 8161, 1, 8168); (8165, 8165, 1, 8172); (8526, 8526, 1, 8498);
   (8560, 8575, 1, 8544); (8580, 8580, 1, 8579); (9424, 9449, 1, 9398);
   (11312, 11359, 1, 11264); (11361, 11361, 1, 11360);
   (11365, 11365, 1, 570); (11366, 11366, 1, 574); (11368, 11372, 2, 11367);
   (11379, 11379, 1, 11378); (11382, 11382, 1, 11381);
   (11393, 11491, 2, 11392); (11500, 11502, 2, 11499);
   (11507, 11507, 1, 11506); (11520, 11557, 1, 4256);
   (11559, 11559, 1, 4295); (11565, 11565, 1, 4301);
   (42561, 42605, 2, 42560); (42625, 42651, 2, 42624);
   (42787, 42799, 2, 42786); (42803, 42863, 2, 42802);
   (42874, 42876, 2, 42873); (42879, 42887, 2, 42878);
   (42892, 42892, 1, 42891); (42897, 42899, 2, 42896);
   (42900, 42900, 1, 42948); (42903, 42921, 2, 42902);
   (42933, 42947, 2, 42932); (42952, 42954, 2, 42951);
   (42961, 42961, 1, 42960); (42967, 42969, 2, 42966);
   (42998, 42998, 1, 42997); (43859, 43859, 1, 42931);
   (43888, 43967, 1, 5024); (65345, 65370, 1, 65313);
   (66600, 66639, 1, 66560); (66776, 66811, 1, 66736);
   (66967, 67003, 2, 66928); (66968, 66976, 2, 66929);
   (66980, 66992, 2, 66941); (66996, 67000, 2, 66957);
   (67004, 67004, 1, 66965); (68800, 68850, 1, 68736);
   (71872, 71903, 1, 71840); (93792, 93823, 1, 93760);
   (125218, 125251, 1, 125184)].

(** [str.upper] of the characters whose upper case is longer: its first
    character and the others *)
Definition upper_long : list (N * (N * list N)) :=
  [(223, (83, [83])); (329, (700, [78])); (496, (74, [780]));
   (912, (921, [776; 769])); (944, (933, [776; 769]));
   (1415, (1333, [1362])); (7830, (72, [817])); (7831, (84, [776]));
   (7832, (87, [778])); (7833, (89, [778])); (7834, (65, [702]));
   (8016, (933, [787])); (8018, (933, [787; 768]));
   (8020, (933, [787; 769])); (8022, (933, [787; 834]));
   (8064, (7944, [921])); (8065, (7945, [921])); (8066, (7946, [921]));
   (8067, (7947, [921])); (8068, (7948, [921])); (8069, (7949, [921]));
   (8070, (7950, [921])); (8071, (7951, [921])); (8072, (7944, [921]));
   (8073, (7945, [921])); (8074, (7946, [921])); (8075, (7947, [921]));
   (8076, (7948, [921])); (8077, (7949, [921])); (8078, (7950, [921]));
   (8079, (7951, [921])); (8080, (7976, [921])); (8081, (7977, [921]));
   (8082, (7978, [921])); (8083, (7979, [921])); (8084, (7980, [921]));
   (8085, (7981, [921])); (8086, (7982, [921])); (8087, (7983, [921]));
   (8088, (7976, [921])); (8089, (7977, [921])); (8090, (7978, [921]));
   (8091, (7979, [921])); (8092, (7980, [921])); (8093, (7981, [921]));
   (8094, (7982, [921])); (8095, (7983, [921])); (8096, (8040, [921]));
   (8097, (8041, [921])); (8098, (8042, [921])); (8099, (8043, [921]));
   (8100, (8044, [921])); (8101, (8045, [921])); (8102, (8046, [921]));
   (8103, (8047, [921])); (8104, (8040, [921])); (8105, (8041, [921]));
   (8106, (8042, [921])); (8107, (8043, [921])); (8108, (8044, [921]));
   (8109, (8045, [921])); (8110, (8046, [921])); (8111, (8047, [921]));
   (8114, (8122, [921])); (8115, (913, [921])); (8116, (902, [921]));
   (8118, (913, [834])); (8119, (913, [834; 921])); (8124, (913, [921]));
   (8130, (8138, [921])); (8131, (919, [921])); (8132, (905, [921]));
   (8134, (919, [834])); (8135, (919, [834; 921])); (8140, (919, [921]));
   (8146, (921, [776; 768])); (8147, (921, [776; 769]));
   (8150, (921, [834])); (8151, (921, [776; 834]));
   (8162, (933, [776; 768])); (8163, (933, [776; 769]));
   (8164, (929, [787])); (8166, (933, [834])); (8167, (933, [776; 834]));
   (8178, (8186, [921])); (8179, (937, [921])); (8180, (911, [921]));
   (8182, (937, [834])); (8183, (937, [834; 921])); (8188, (937, [921]));
   (64256, (70, [70])); (64257, (70, [73])); (64258, (70, [76]));
   (64259, (70, [70; 73])); (64260, (70, [70; 76])); (64261, (83, [84]));
   (64262, (83, [84])); (64275, (1348, [1350])); (64276, (1348, [1333]));
   (64277, (1348, [1339])); (64278, (1358, [1350])); (64279, (1348, [1341]))].

Definition in_ranges (t : list (N * N)) (c : N) : bool :=
  existsb (fun r => (fst r <=? c) && (c <=? snd r)) t.

(** [str.isalpha], [str.isalnum] and [str.isspace] of one character *)
Definition is_alpha (c : N) : bool := in_ranges alpha_ranges c.

Definition is_alnum (c : N) : bool := is_alpha c || in_ranges numeric_ranges c.

Definition is_space (c : N) : bool := in_ranges space_ranges c.

Fixpoint run_image (t : list (N * N * N * N)) (c : N) : N :=
  match t with
  | [] => c
  | (lo, hi, step, image) :: t' =>
      if (lo <=? c) && (c <=? hi) && ((c - lo) mod step =? 0)
      then image + (c - lo)
      else run_image t' c
  end.

(** [str.upper] of one character *)
Definition upper_char (c : N) : list N :=
  match find (fun e => fst e =? c) upper_long with
  | Some (_, (first, others)) => first :: others
  | None => [run_image upper_runs c]
  end.

Close Scope N_scope.

Arguments is_alpha : simpl never.
Arguments is_alnum : simpl never.
Arguments is_space : simpl never.
Arguments upper_char : simpl never.

(** ** Regular expressions of [post_comment]

    The patterns are sequences of atoms over code points; matching
    backtracks in the order of the [re] module: a greedy repetition first
    tries to take one more character, an optional character is first tried
    present. *)
Inductive re_atom : Type :=
| Chr (c : N)                   (* a literal character *)
| Opt (c : N)                   (* [c?] *)
| Plus (cls : N -> bool)        (* [[class]+] *)
| WordB.                        (* [\b] *)

Definition regex := list re_atom.

(** The code point of an ASCII character, and the text of an ASCII
    literal. *)
Definition ch (a : ascii) : N := N_of_ascii a.

Definition text_of (s : string) : text := map ch (list_ascii_of_string s).

(** The code of an 8-bit character, and a range of codes. *)
Definition code (c : ascii) : nat := nat_of_ascii c.

Definition between (lo hi : nat) (c : ascii) : bool :=
  Nat.leb lo (code c) && Nat.leb (code c) hi.

(** A range of code points. *)
Definition within (lo hi c : N) : bool := (lo <=? c)%N && (c <=? hi)%N.

(** [[a-z]] under [re.IGNORECASE]: the letters a-z and A-Z, and the four
    other characters that have a case variant among a-z, U+0130 and U+0131
    (dotted I, dotless i), U+017F (long s) and U+212A (the Kelvin sign). *)
Definition is_letter (c : N) : bool :=
  within 97 122 c || within 65 90 c
  || (c =? 304)%N || (c =? 305)%N || (c =? 383)%N || (c =? 8490)%N.

(** [\w]: the alphanumeric characters and the underscore *)
Definition is_word (c : N) : bool := is_alnum c || (c =? 95)%N.

Definition is_word_at (o : option N) : bool :=
  match o with
  | Some c => is_word c
  | None => false
  end.

(** [match_here r prev s]: the pattern matched at the start of [s], where
    [prev] is the character before it; the result is what follows the
    match. *)
Fixpoint match_here (r : regex) : option N -> text -> option text :=
  match r with
  | [] => fun _ s => Some s
  | a :: r' =>
      let k := match_here r' in
      match a with
      | Chr c => fun _ s =>
          match s with
          | x :: s' => if (x =? c)%N then k (Some x) s' else None
          | [] => None
          end
      | Opt c => fun prev s =>
          match (match s with
                 | x :: s' => if (x =? c)%N then k (Some x) s' else None
                 | [] => None
                 end) with
          | Some rest => Some rest
          | None => k prev s
          end
      | Plus cls => fun _ =>
          fix plus (s : text) : option text :=
            match s with
            | x :: s' =>
                if cls x then
                  match plus s' with
                  | Some rest => Some rest
                  | None => k (Some x) s'
                  end
                else None
            | [] => None
            end
      | WordB => fun prev s =>
          if xorb (is_word_at prev) (is_word_at (hd_error s)) then k prev s
          else None
      end
  end.

(** [re.findall]: the matches found scanning from left to right, each
    search resuming where the previous match ended.  [skip] counts the
    characters of the last match still to step over.  (None of the patterns
    below matches the empty string.) *)
Fixpoint findall_from (r : regex) (prev : option N) (s : text)
    (skip : nat) : list text :=
  match s with
  | [] => []
  | x :: s' =>
      match skip with
      | S k => findall_from r (Some x) s' k
      | O =>
          match match_here r prev s with
          | Some rest =>
              let len := length s - length rest in
              firstn len s :: findall_from r (Some x) s' (len - 1)
          | None => findall_from r (Some x) s' 0
          end
      end
  end.

Definition re_findall (r : regex) (s : text) : list text :=
  findall_from r None s 0.

(** [re.search(...)] used as a truth value *)
Definition re_search (r : regex) (s : text) : bool :=
  match re_findall r s with
  | [] => false
  | _ => true
  end.

(** [r'[a-z]+'] with [re.IGNORECASE] *)
Definition letters_re : regex := [Plus is_letter].

(** [r'#[^#]+\b'] *)
Definition hashtag_re : regex :=
  [Chr (ch "#"); Plus (fun c => negb (c =? ch "#")%N); WordB].

(** [r'\bhttps?://\S+\.\S+'] *)
Definition url_re : regex :=
  [WordB; Chr (ch "h"); Chr (ch "t"); Chr (ch "t"); Chr (ch "p"); Opt (ch "s");
   Chr (ch ":"); Chr (ch "/"); Chr (ch "/");
   Plus (fun c => negb (is_space c)); Chr (ch ".");
   Plus (fun c => negb (is_space c))].

(** [str.upper()]: the upper case of a character may be several characters
    long. *)
Definition upper (s : text) : text := flat_map upper_char s.

(** [comment_text == comment_text.upper()] *)
Definition is_upper (s : text) : bool :=
  if list_eq_dec N.eq_dec s (upper s) then true else false.

(** A request field is a [string]; it holds a text in UTF-8, which for an
    ASCII text is the text itself. *)
Definition utf8_bytes (c : N) : list ascii :=
  if (c <? 128)%N then [ascii_of_N c]
  else if (c <? 2048)%N then
    [ascii_of_N (192 + c / 64); ascii_of_N (128 + c mod 64)]
  else if (c <? 65536)%N then
    [ascii_of_N (224 + c / 4096); ascii_of_N (128 + (c / 64) mod 64);
     ascii_of_N (128 + c mod 64)]
  else
    [ascii_of_N (240 + c / 262144); ascii_of_N (128 + (c / 4096) mod 64);
     ascii_of_N (128 + (c / 64) mod 64); ascii_of_N (128 + c mod 64)].

Definition utf8 (t : text) : string :=
  string_of_list_ascii (flat_map utf8_bytes t).

(** Helpers of the client that [post_comment] calls after validation;
    their modules are not part of the sources at hand.  They read the
    clock and a random source, which the world stands for. *)
Record Helpers : Type := {
  gen_user_breadcrumb : nat -> World -> json;
  generate_uuid : World -> json
}.

(** ** endpoints/media.py: [post_comment] *)
Definition post_comment (P : ClientCompatPatch) (E : Helpers) (self : Client)
    (media_id : string) (comment_text : text) : M dict :=
  fun w =>
    if Nat.ltb 300 (length comment_text) then
      (w, Raise (ValueError
                   "The total length of the comment cannot exceed 300 characters."))
    else if re_search letters_re comment_text && is_upper comment_text then
      (w, Raise (ValueError "The comment cannot consist of all capital letters."))
    else if Nat.ltb 4 (length (re_findall hashtag_re comment_text)) then
      (w, Raise (ValueError "The comment cannot contain more than 4 hashtags."))
    else if Nat.ltb 1 (length (re_findall url_re comment_text)) then
      (w, Raise (ValueError "The comment cannot contain more than 1 URL."))
    else
      let endpoint := ("media/" ++ media_id ++ "/comment/")%string in
      let params :=
        dict_update
          [("comment_text", JStr (utf8 comment_text));
           ("user_breadcrumb",
            gen_user_breadcrumb E (length comment_text) w);
           ("idempotence_token", generate_uuid E w);
           ("containermodule", JStr "comments_feed_timeline")]
          (authenticated_params self) in
      match _call_api endpoint params [] false w with
      | (w1, Raise e) => (w1, Raise e)
      | (w1, Ok res) =>
          if auto_patch self then
            match getitem (JDict res) "comment" with
            | Raise e => (w1, Raise e)
            | Ok c =>
                match comment P c (drop_incompat_keys self) with
                | Raise e => (w1, Raise e)
                | Ok c' => (w1, Ok (dict_set "comment" c' res))
                end
            end
          else (w1, Ok res)
      end.

(** The four validation tests. *)
Definition too_long (t : text) : Prop := 300 < length t.
Definition all_capitals (t : text) : Prop :=
  re_search letters_re t = true /\ t = upper t.
Definition too_many_hashtags (t : text) : Prop :=
  4 < length (re_findall hashtag_re t).
Definition too_many_urls (t : text) : Prop :=
  1 < length (re_findall url_re t).

Definition invalid_comment (t : text) : Prop :=
  too_long t \/ all_capitals t \/ too_many_hashtags t \/ too_many_urls t.

(** *** The four rules in words

    The notions that the specification names, said on the text itself and
    not through the patterns. *)


(** Hashtag tokens: the [#] characters directly followed by a letter, a
    digit or an underscore. *)
Fixpoint hashtag_tokens (t : text) : nat :=
  match t with
  | [] => 0
  | c :: t' =>
      (if (c =? ch "#")%N && is_word_at (hd_error t') then 1 else 0)
      + hashtag_tokens t'
  end.


(** What the hashtag pattern counts: the [#] characters followed, before
    the next [#], by a letter, a digit or an underscore.  [hash_scan t] is
    whether the characters of [t] before its first [#] hold one, and the
    count for [t]. *)
Fixpoint hash_scan (t : text) : bool * nat :=
  match t with
  | [] => (false, 0)
  | c :: t' =>
      let (word, n) := hash_scan t' in
      if (c =? ch "#")%N then (false, if word then S n else n)
      else (word || is_word c, n)
  end.

Definition hash_segments (t : text) : nat := snd (hash_scan t).

(** [s] without the prefix [p] *)
Fixpoint strip (p s : text) : option text :=
  match p, s with
  | [], _ => Some s
  | a :: p', b :: s' => if (b =? a)%N then strip p' s' else None
  | _ :: _, [] => None
  end.

(** What follows [https://] or [http://] at the start of [s] *)
Definition after_scheme (s : text) : option text :=
  match strip (text_of "https://") s with
  | Some u => Some u
  | None => strip (text_of "http://") s
  end.

(** The run of non-blank characters at the start of a text, and what
    follows it *)
Fixpoint run (u : text) : text :=
  match u with
  | x :: u' => if is_space x then [] else x :: run u'
  | [] => []
  end.

Fixpoint after_run (u : text) : text :=
  match u with
  | x :: u' => if is_space x then u else after_run u'
  | [] => []
  end.

(** The run at the start of [u] has a dot inside: a dot that is neither
    its first nor its last character. *)
Definition dot_inside (u : text) : bool :=
  existsb (fun c => (c =? ch ".")%N) (removelast (tl (run u))).

(** A URL starts at [s], after the character [prev]: [http://] or
    [https://], not directly after a letter, a digit or an underscore, and
    followed by a run of non-blank characters with a dot inside.  The URL
    extends to the end of that run. *)
Definition url_starts (prev : option N) (s : text) : bool :=
  negb (is_word_at prev)
  && match after_scheme s with
     | Some u => dot_inside u
     | None => false
     end.

(** The URLs of a text, counted from left to right; [inside] says that
    the scan is inside a URL, which the next blank ends. *)
Fixpoint urls (inside : bool) (prev : option N) (s : text) : nat :=
  match s with
  | [] => 0
  | c :: s' =>
      if inside then urls (negb (is_space c)) (Some c) s'
      else if url_starts prev s then S (urls true (Some c) s')
      else urls false (Some c) s'
  end.

Definition url_count (t : text) : nat := urls false None t.


Definition demo_helpers : Helpers :=
  {| gen_user_breadcrumb := fun size w => JInt (Z.of_nat (size + requests w));
     generate_uuid := fun w => JInt (Z.of_nat (requests w)) |}.

(** ** examples/savesettings_logincallback.py: the settings snapshot

    Python values of a settings document: JSON values and [bytes]. *)
Inductive pyobj : Type :=
| PNone
| PBool (b : bool)
| PInt (z : Z)
| PStr (s : string)
| PBytes (b : list ascii)
| PList (l : list pyobj)
| PDict (d : list (string * pyobj)).

Fixpoint pfind (k : string) (d : list (string * pyobj)) : option pyobj :=
  match d with
  | [] => None
  | (k', v) :: d' => if String.eqb k k' then Some v else pfind k d'
  end.

(** *** The base64 codec ([codecs.encode/decode(..., 'base64')])

    [codecs.encode(b, 'base64')] is [base64.encodebytes]: the input is cut
    into pieces of 57 bytes and each piece is encoded by
    [binascii.b2a_base64], which ends it with a newline (RFC 2045).
    [codecs.decode(s, 'base64')] is [binascii.a2b_base64] in its default,
    lenient mode.  A sextet is written most significant bit first. *)
Definition sextet : Type := bool * bool * bool * bool * bool * bool.

Definition sextet_to_nat (q : sextet) : nat :=
  let '(s5, s4, s3, s2, s1, s0) := q in
  32 * Nat.b2n s5 + 16 * Nat.b2n s4 + 8 * Nat.b2n s3
  + 4 * Nat.b2n s2 + 2 * Nat.b2n s1 + Nat.b2n s0.

Definition sextet_of_nat (n : nat) : sextet :=
  (Nat.testbit n 5, Nat.testbit n 4, Nat.testbit n 3,
   Nat.testbit n 2, Nat.testbit n 1, Nat.testbit n 0).

(** The alphabet [A-Za-z0-9+/]. *)
Definition char_of_sextet (q : sextet) : ascii :=
  let n := sextet_to_nat q in
  if Nat.ltb n 26 then ascii_of_nat (65 + n)
  else if Nat.ltb n 52 then ascii_of_nat (97 + (n - 26))
  else if Nat.ltb n 62 then ascii_of_nat (48 + (n - 52))
  else if Nat.eqb n 62 then "+"%char
  else "/"%char.

Definition sextet_of_char (c : ascii) : option sextet :=
  let n := nat_of_ascii c in
  if between 65 90 c then Some (sextet_of_nat (n - 65))
  else if between 97 122 c then Some (sextet_of_nat (n - 97 + 26))
  else if between 48 57 c then Some (sextet_of_nat (n - 48 + 52))
  else if Nat.eqb n 43 then Some (sextet_of_nat 62)
  else if Nat.eqb n 47 then Some (sextet_of_nat 63)
  else None.

(** Three bytes are four sextets. *)
Definition encode3 (a b c : ascii) : list ascii :=
  let '(Ascii a0 a1 a2 a3 a4 a5 a6 a7) := a in
  let '(Ascii b0 b1 b2 b3 b4 b5 b6 b7) := b in
  let '(Ascii c0 c1 c2 c3 c4 c5 c6 c7) := c in
  [char_of_sextet (a7, a6, a5, a4, a3, a2);
   char_of_sextet (a1, a0, b7, b6, b5, b4);
   char_of_sextet (b3, b2, b1, b0, c7, c6);
   char_of_sextet (c5, c4, c3, c2, c1, c0)].

Definition encode2 (a b : ascii) : list ascii :=
  let '(Ascii a0 a1 a2 a3 a4 a5 a6 a7) := a in
  let '(Ascii b0 b1 b2 b3 b4 b5 b6 b7) := b in
  [char_of_sextet (a7, a6, a5, a4, a3, a2);
   char_of_sextet (a1, a0, b7, b6, b5, b4);
   char_of_sextet (b3, b2, b1, b0, false, false);
   "="%char].

Definition encode1 (a : ascii) : list ascii :=
  let '(Ascii a0 a1 a2 a3 a4 a5 a6 a7) := a in
  [char_of_sextet (a7, a6, a5, a4, a3, a2);
   char_of_sextet (a1, a0, false, false, false, false);
   "="%char; "="%char].

Fixpoint b2a (bs : list ascii) : list ascii :=
  match bs with
  | a :: b :: c :: rest => encode3 a b c ++ b2a rest
  | [a; b] => encode2 a b
  | [a] => encode1 a
  | [] => []
  end.

Definition newline : ascii := ascii_of_nat 10.

(** [binascii.b2a_base64(piece)] *)
Definition b2a_base64 (piece : list ascii) : list ascii :=
  b2a piece ++ [newline].

(** [base64.encodebytes(s)]; the fuel bounds the number of pieces. *)
Fixpoint encode_pieces (fuel : nat) (s : list ascii) : list ascii :=
  match fuel with
  | O => []
  | S fuel' =>
      match s with
      | [] => []
      | _ => b2a_base64 (firstn 57 s) ++ encode_pieces fuel' (skipn 57 s)
      end
  end.

Definition encodebytes (s : list ascii) : list ascii :=
  encode_pieces (length s) s.

Definition byte1 (q1 q2 : sextet) : ascii :=
  let '(s5, s4, s3, s2, s1, s0) := q1 in
  let '(t5, t4, _, _, _, _) := q2 in
  Ascii t4 t5 s0 s1 s2 s3 s4 s5.

Definition byte2 (q2 q3 : sextet) : ascii :=
  let '(_, _, t3, t2, t1, t0) := q2 in
  let '(u5, u4, u3, u2, _, _) := q3 in
  Ascii u2 u3 u4 u5 t0 t1 t2 t3.

Definition byte3 (q3 q4 : sextet) : ascii :=
  let '(_, _, _, _, u1, u0) := q3 in
  let '(v5, v4, v3, v2, v1, v0) := q4 in
  Ascii v0 v1 v2 v3 v4 v5 u0 u1.

(** The bytes already determined by an incomplete group of sextets. *)
Definition flush (quad : list sextet) : list ascii :=
  match quad with
  | [q1; q2] => [byte1 q1 q2]
  | [q1; q2; q3] => [byte1 q1 q2; byte2 q2 q3]
  | _ => []
  end.

(** [binascii.a2b_base64]: characters outside the alphabet are skipped; a
    pad sequence that completes a group ends the decoding; input that ends
    inside a group is an error.  [quad] is the group read so far, [pads]
    the number of pad characters seen since its last sextet. *)
Fixpoint a2b_go (quad : list sextet) (pads : nat) (s : list ascii)
  : result (list ascii) :=
  match s with
  | [] =>
      match quad with
      | [] => Ok []
      | _ => Raise BinasciiError
      end
  | ch :: rest =>
      if Ascii.eqb ch "=" then
        if Nat.leb 2 (length quad) then
          if Nat.leb 4 (length quad + S pads) then Ok (flush quad)
          else a2b_go quad (S pads) rest
        else a2b_go quad pads rest
      else
        match sextet_of_char ch with
        | None => a2b_go quad pads rest
        | Some v =>
            match quad with
            | [q1; q2; q3] =>
                rbind (a2b_go [] 0 rest) (fun bs =>
                  Ok (byte1 q1 q2 :: byte2 q2 q3 :: byte3 q3 v :: bs))
            | _ => a2b_go (quad ++ [v]) 0 rest
            end
        end
  end.

Definition a2b_base64 (s : list ascii) : result (list ascii) :=
  a2b_go [] 0 s.

(** [bytes.decode()]: the characters of ASCII bytes; other bytes lie
    outside what a [string] here can hold. *)
Definition UnicodeError : exn := ValueError "codec can't decode byte".

Fixpoint bytes_decode (b : list ascii) : result string :=
  match b with
  | [] => Ok EmptyString
  | c :: b' =>
      if Nat.ltb (nat_of_ascii c) 128
      then rbind (bytes_decode b') (fun s => Ok (String c s))
      else Raise UnicodeError
  end.

(** [str.encode()]: UTF-8 of code points below 256. *)
Definition utf8_char (c : ascii) : list ascii :=
  let n := nat_of_ascii c in
  if Nat.ltb n 128 then [c]
  else [ascii_of_nat (192 + n / 64); ascii_of_nat (128 + n mod 64)].

Definition str_encode (s : string) : list ascii :=
  flat_map utf8_char (list_ascii_of_string s).

(** *** [to_json] and [from_json] *)
Definition to_json (python_object : pyobj) : result pyobj :=
  match python_object with
  | PBytes b =>
      rbind (bytes_decode (encodebytes b)) (fun v =>
        Ok (PDict [("__class__", PStr "bytes"); ("__value__", PStr v)]))
  | _ => Raise TypeError
  end.

Definition from_json (json_object : list (string * pyobj)) : result pyobj :=
  match pfind "__class__" json_object with
  | Some cls =>
      match cls with
      | PStr "bytes" =>
          match pfind "__value__" json_object with
          | None => Raise (KeyError "__value__")
          | Some (PStr v) =>
              rbind (a2b_base64 (str_encode v)) (fun b => Ok (PBytes b))
          | Some _ => Raise AttributeError
          end
      | _ => Ok (PDict json_object)
      end
  | None => Ok (PDict json_object)
  end.

(** *** [json.dump(..., default=...)] and [json.load(..., object_hook=...)]

    The text between the two is not modelled: the tree of JSON values that
    [dump] writes is the tree that [load] parses.  [plain] serialises a
    value without the help of [default]; the value [default] returns is
    serialised by it. *)
Fixpoint plain (o : pyobj) : result pyobj :=
  match o with
  | PBytes _ => Raise TypeError
  | PList l =>
      rbind ((fix go (l : list pyobj) : result (list pyobj) :=
                match l with
                | [] => Ok []
                | x :: l' =>
                    rbind (plain x) (fun y => rbind (go l') (fun ys => Ok (y :: ys)))
                end) l)
            (fun ys => Ok (PList ys))
  | PDict d =>
      rbind ((fix go (d : list (string * pyobj)) : result (list (string * pyobj)) :=
                match d with
                | [] => Ok []
                | (k, x) :: d' =>
                    rbind (plain x) (fun y =>
                      rbind (go d') (fun ys => Ok ((k, y) :: ys)))
                end) d)
            (fun ys => Ok (PDict ys))
  | _ => Ok o
  end.

Fixpoint dump (default : pyobj -> result pyobj) (o : pyobj) : result pyobj :=
  match o with
  | PBytes _ => rbind (default o) plain
  | PList l =>
      rbind ((fix go (l : list pyobj) : result (list pyobj) :=
                match l with
                | [] => Ok []
                | x :: l' =>
                    rbind (dump default x) (fun y =>
                      rbind (go l') (fun ys => Ok (y :: ys)))
                end) l)
            (fun ys => Ok (PList ys))
  | PDict d =>
      rbind ((fix go (d : list (string * pyobj)) : result (list (string * pyobj)) :=
                match d with
                | [] => Ok []
                | (k, x) :: d' =>
                    rbind (dump default x) (fun y =>
                      rbind (go d') (fun ys => Ok ((k, y) :: ys)))
                end) d)
            (fun ys => Ok (PDict ys))
  | _ => Ok o
  end.

(** [object_hook] receives every decoded object, innermost first. *)
Fixpoint load (object_hook : list (string * pyobj) -> result pyobj) (j : pyobj)
  : result pyobj :=
  match j with
  | PBytes _ => Raise TypeError
  | PList l =>
      rbind ((fix go (l : list pyobj) : result (list pyobj) :=
                match l with
                | [] => Ok []
                | x :: l' =>
                    rbind (load object_hook x) (fun y =>
                      rbind (go l') (fun ys => Ok (y :: ys)))
                end) l)
            (fun ys => Ok (PList ys))
  | PDict d =>
      rbind ((fix go (d : list (string * pyobj)) : result (list (string * pyobj)) :=
                match d with
                | [] => Ok []
                | (k, x) :: d' =>
                    rbind (load object_hook x) (fun y =>
                      rbind (go d') (fun ys => Ok ((k, y) :: ys)))
                end) d)
            object_hook
  | _ => Ok j
  end.

(** Modelled from the spec: the values [api.settings] takes (the client
    module is not part of the sources at hand).  The spec describes the
    snapshot as a JSON document of cookies, tokens and binary-valued
    fields: a tree of [None], booleans, integers, strings, bytes, lists and
    string-keyed dicts.  No dict of it is marked ['__class__': 'bytes']:
    that form is the wrapper object by which the snapshot encodes its
    binary fields. *)
Fixpoint settings_value (o : pyobj) : bool :=
  match o with
  | PList l =>
      (fix all (l : list pyobj) : bool :=
         match l with
         | [] => true
         | x :: l' => settings_value x && all l'
         end) l
  | PDict d =>
      match pfind "__class__" d with
      | Some (PStr "bytes") => false
      | _ => true
      end
      && (fix all (d : list (string * pyobj)) : bool :=
            match d with
            | [] => true
            | (_, x) :: d' => settings_value x && all d'
            end) d
  | _ => true
  end.

(** Saving and loading, as [onlogin_callback] and the main script do. *)
Definition save_load (settings : pyobj) : result pyobj :=
  rbind (dump to_json settings) (load from_json).

Definition demo_settings : pyobj :=
  PDict [("uuid", PStr "8e0b1f4c-5d7a");
         ("device_id", PStr "android-85dc");
         ("cookie", PBytes [ascii_of_nat 128; ascii_of_nat 3; "}"%char; "q"%char]);
         ("created_ts", PInt 1490000000)].

(** A function applied to the values of a dict. *)
Fixpoint rmap_vals (f : pyobj -> result pyobj) (d : list (string * pyobj))
  : result (list (string * pyobj)) :=
  match d with
  | [] => Ok []
  | (k, x) :: d' =>
      rbind (f x) (fun y => rbind (rmap_vals f d') (fun ys => Ok ((k, y) :: ys)))
  end.

Definition ascii7 (c : ascii) : Prop := Nat.ltb (nat_of_ascii c) 128 = true.

(** ** User-agent descriptor *)

(** Modelled from the spec: the structured fields of a user-agent
    descriptor.  [Client.generate_useragent] and [Client.validate_useragent]
    belong to the client module, which is not part of the sources at hand;
    the tests call them.  The spec gives the layout
    [AppName Version Platform (androidVersion/androidRelease; dpi;
    resolution; manufacturer; device; model; chipset; locale)]; the tests
    fix the application name [Instagram], the platform [Android], the
    generated locale [en_US] and the integer type of the android version. *)
Record device_fields : Type := {
  app_version : string;
  android_version : nat;
  android_release : string;
  dpi : string;
  resolution : string;
  brand : string;
  device : string;
  model : string;
  chipset : string
}.

Definition decimal (n : nat) : string :=
  NilZero.string_of_uint (Nat.to_uint n).

(** Modelled from the spec: [Client.generate_useragent], which formats the
    structured fields into the descriptor string. *)
Definition generate_useragent (f : device_fields) : string :=
  ("Instagram " ++ app_version f ++ " Android ("
   ++ decimal (android_version f) ++ "/" ++ android_release f
   ++ "; " ++ dpi f ++ "; " ++ resolution f ++ "; " ++ brand f
   ++ "; " ++ device f ++ "; " ++ model f ++ "; " ++ chipset f
   ++ "; en_US)")%string.

(** The text before and after the first occurrence of a character. *)
Fixpoint split_char (c : ascii) (s : string) : option (string * string) :=
  match s with
  | EmptyString => None
  | String x s' =>
      if Ascii.eqb x c then Some (EmptyString, s')
      else match split_char c s' with
           | Some (a, b) => Some (String x a, b)
           | None => None
           end
  end.

Fixpoint strip_prefix (p s : string) : option string :=
  match p, s with
  | EmptyString, _ => Some s
  | String a p', String b s' => if Ascii.eqb a b then strip_prefix p' s' else None
  | String _ _, EmptyString => None
  end.

Definition bad_format {A} : result A :=
  Raise (ValueError "User-agent specified does not fit format required").

Definition expect {A} (o : option A) (k : A -> result device_fields)
  : result device_fields :=
  match o with
  | Some a => k a
  | None => bad_format
  end.

(** Modelled from the spec: [Client.validate_useragent], which extracts the
    structured fields of a descriptor and rejects a malformed
    android-version segment (and any string that does not follow the
    layout) with a [ValueError]. *)
Definition validate_useragent (value : string) : result device_fields :=
  expect (strip_prefix "Instagram " value) (fun r =>
  expect (split_char " " r) (fun '(app, r) =>
  expect (strip_prefix "Android (" r) (fun r =>
  expect (split_char "/" r) (fun '(version, r) =>
  match NilZero.uint_of_string version with
  | None => Raise (ValueError "invalid literal for int() with base 10")
  | Some v =>
  expect (split_char ";" r) (fun '(release, r) =>
  expect (strip_prefix " " r) (fun r =>
  expect (split_char ";" r) (fun '(dpi_, r) =>
  expect (strip_prefix " " r) (fun r =>
  expect (split_char ";" r) (fun '(resolution_, r) =>
  expect (strip_prefix " " r) (fun r =>
  expect (split_char ";" r) (fun '(brand_, r) =>
  expect (strip_prefix " " r) (fun r =>
  expect (split_char ";" r) (fun '(device_, r) =>
  expect (strip_prefix " " r) (fun r =>
  expect (split_char ";" r) (fun '(model_, r) =>
  expect (strip_prefix " " r) (fun r =>
  expect (split_char ";" r) (fun '(chipset_, r) =>
  expect (strip_prefix " " r) (fun r =>
  expect (split_char ")" r) (fun '(locale, r) =>
  match r with
  | EmptyString =>
      Ok {| app_version := app; android_version := Nat.of_uint v;
            android_release := release; dpi := dpi_;
            resolution := resolution_; brand := brand_; device := device_;
            model := model_; chipset := chipset_ |}
  | _ => bad_format
  end)))))))))))))))
  end)))).

(** A string without a given character. *)
Fixpoint free_of (c : ascii) (s : string) : bool :=
  match s with
  | EmptyString => true
  | String x s' => negb (Ascii.eqb x c) && free_of c s'
  end.

(** Modelled from the spec: validated device fields, that is fields a
    descriptor can carry, with no separator inside a field. *)
Definition valid_fields (f : device_fields) : bool :=
  free_of " " (app_version f) && free_of ";" (android_release f)
  && free_of ";" (dpi f) && free_of ";" (resolution f)
  && free_of ";" (brand f) && free_of ";" (device f)
  && free_of ";" (model f) && free_of ";" (chipset f).

Definition demo_device : device_fields :=
  {| app_version := "10.9.0"; android_version := 18; android_release := "4.3";
     dpi := "320dpi"; resolution := "720x1280"; brand := "Samsung";
     device := "Galaxy Nexus"; model := "maguro"; chipset := "qcom" |}.

(** ** Compatibility patcher *)

(** Modelled from the spec: the rules of a compat patch.  The module of
    [ClientCompatPatch] is not part of the sources at hand; the endpoints
    call it and the tests list the fields it adds.  The spec describes a
    family [patch(entity, drop_incompat_keys)], one function per entity kind
    (media, comment, user, short-form user), that adds legacy-named fields
    alongside the canonical ones, derived from current fields and never
    from already-derived ones, patches sub-objects in place, never destroys
    an original field, and removes the fields with no legacy equivalent
    when [drop_incompat_keys] is set.

    A [derive] adds the field [legacy], computed from the fields [sources],
    when the entity has all the sources and does not have the field yet. *)
Record derive : Type := {
  legacy : string;
  sources : list string;
  conv : list json -> option json
}.

Inductive rule : Type :=
| Add (d : derive)
| In_place (key : string) (sub : list derive).

Record entity_kind : Type := {
  rules : list rule;
  incompat : list string
}.

Fixpoint lookup_all (ks : list string) (e : dict) : option (list json) :=
  match ks with
  | [] => Some []
  | k :: ks' =>
      match dict_find k e, lookup_all ks' e with
      | Some v, Some vs => Some (v :: vs)
      | _, _ => None
      end
  end.

Definition compute (d : derive) (e : dict) : option json :=
  match lookup_all (sources d) e with
  | Some vs => conv d vs
  | None => None
  end.

Definition apply_derive (e : dict) (d : derive) : dict :=
  match dict_find (legacy d) e with
  | Some _ => e
  | None =>
      match compute d e with
      | Some v => dict_set (legacy d) v e
      | None => e
      end
  end.

Definition patch_flat (ds : list derive) (e : dict) : dict :=
  fold_left apply_derive ds e.

Definition apply_rule (e : dict) (r : rule) : dict :=
  match r with
  | Add d => apply_derive e d
  | In_place k sub =>
      match dict_find k e with
      | Some (JDict u) => dict_set k (JDict (patch_flat sub u)) e
      | _ => e
      end
  end.

Definition mem (k : string) (ks : list string) : bool :=
  existsb (String.eqb k) ks.

Definition drop_keys (ks : list string) (e : dict) : dict :=
  filter (fun kv => negb (mem (fst kv) ks)) e.

(** Modelled from the spec: [ClientCompatPatch.media], [.comment], [.user]
    and [.list_user] are [patch] at the kinds below. *)
Definition patch (K : entity_kind) (entity : dict) (drop_incompat_keys : bool)
  : dict :=
  let e := fold_left apply_rule (rules K) entity in
  if drop_incompat_keys then drop_keys (incompat K) e else e.

(** *** The four kinds

    Modelled from the spec and the tests: the legacy fields are those the
    tests look for ([link], [created_time], [images], [type], [filter],
    [user.id], [user.profile_picture], [caption.id], [caption.from]; [id],
    [created_time], [from]; [id], [bio], [profile_picture], [website]);
    the spec names the derivations (numeric id as string, image URL
    shorthand, computed permalink, timestamp as string). *)
Definition str_of (vs : list json) : option json :=
  match vs with
  | [JInt z] => Some (JStr (NilZero.string_of_int (Z.to_int z)))
  | [JStr s] => Some (JStr s)
  | _ => None
  end.

Definition same (vs : list json) : option json :=
  match vs with
  | [v] => Some v
  | _ => None
  end.

Definition permalink (vs : list json) : option json :=
  match vs with
  | [JStr code] =>
      Some (JStr ("https://www.instagram.com/p/" ++ code ++ "/")%string)
  | _ => None
  end.

Definition media_type_name (vs : list json) : option json :=
  match vs with
  | [JInt 2] => Some (JStr "video")
  | [JInt _] => Some (JStr "image")
  | _ => None
  end.

Definition image_shorthand (vs : list json) : option json :=
  match vs with
  | [JDict iv] =>
      match dict_find "candidates" iv with
      | Some (JList (c :: _)) => Some (JDict [("standard_resolution", c)])
      | _ => None
      end
  | _ => None
  end.

Definition list_user_derives : list derive :=
  [{| legacy := "id"; sources := ["pk"]; conv := str_of |};
   {| legacy := "profile_picture"; sources := ["profile_pic_url"]; conv := same |}].

Definition from_user (vs : list json) : option json :=
  match vs with
  | [JDict u] => Some (JDict (patch_flat list_user_derives u))
  | _ => None
  end.

Definition list_user_kind : entity_kind :=
  {| rules := map Add list_user_derives;
     incompat := ["pk"; "profile_pic_url"] |}.

Definition user_kind : entity_kind :=
  {| rules :=
       map Add list_user_derives
       ++ [Add {| legacy := "bio"; sources := ["biography"]; conv := same |};
           Add {| legacy := "website"; sources := ["external_url"]; conv := same |}];
     incompat := ["pk"; "profile_pic_url"; "biography"; "external_url"] |}.

Definition comment_kind : entity_kind :=
  {| rules :=
       [Add {| legacy := "id"; sources := ["pk"]; conv := str_of |};
        Add {| legacy := "created_time"; sources := ["created_at"]; conv := str_of |};
        Add {| legacy := "from"; sources := ["user"]; conv := from_user |}];
     incompat := ["pk"; "created_at"; "user"] |}.

Definition media_kind : entity_kind :=
  {| rules :=
       [Add {| legacy := "link"; sources := ["code"]; conv := permalink |};
        Add {| legacy := "created_time"; sources := ["taken_at"]; conv := str_of |};
        Add {| legacy := "images"; sources := ["image_versions2"];
               conv := image_shorthand |};
        Add {| legacy := "type"; sources := ["media_type"]; conv := media_type_name |};
        Add {| legacy := "filter"; sources := []; conv := fun _ => Some (JStr "") |};
        In_place "user" list_user_derives;
        In_place "caption"
          [{| legacy := "id"; sources := ["pk"]; conv := str_of |};
           {| legacy := "from"; sources := ["user"]; conv := from_user |}]];
     incompat := ["pk"; "code"; "taken_at"; "image_versions2"; "media_type"] |}.

Definition compat_kinds : list entity_kind :=
  [media_kind; comment_kind; user_kind; list_user_kind].

(** *** The discipline of a kind

    No rule reads a field that a rule of the kind adds or patches, every
    field is added or patched by one rule only, and no added field is among
    the fields dropped. *)
Definition touched (r : rule) : string :=
  match r with
  | Add d => legacy d
  | In_place k _ => k
  end.

Fixpoint nodup_keys (ks : list string) : bool :=
  match ks with
  | [] => true
  | k :: ks' => negb (mem k ks') && nodup_keys ks'
  end.

Definition disjoint (xs ys : list string) : bool :=
  forallb (fun x => negb (mem x ys)) xs.

Definition wf_flat (ds : list derive) : bool :=
  forallb (fun d => disjoint (sources d) (map legacy ds)) ds.

Definition wf_rule (all : list string) (r : rule) : bool :=
  match r with
  | Add d => disjoint (sources d) all
  | In_place _ sub => wf_flat sub
  end.

Definition wf_kind (K : entity_kind) : bool :=
  nodup_keys (map touched (rules K))
  && forallb (wf_rule (map touched (rules K))) (rules K)
  && disjoint (incompat K) (map touched (rules K)).

(** An original field is kept: its value is the same, or the same object
    with fields added. *)
Definition sub_dict (u u' : dict) : Prop :=
  forall k w, dict_find k u = Some w -> dict_find k u' = Some w.

Definition extends (v v' : json) : Prop :=
  v' = v \/ exists u u', v = JDict u /\ v' = JDict u' /\ sub_dict u u'.

Definition demo_media : dict :=
  [("pk", JInt 1206573574980690068);
   ("code", JStr "BC-xyz");
   ("taken_at", JInt 1457000000);
   ("media_type", JInt 1);
   ("image_versions2",
    JDict [("candidates", JList [JDict [("url", JStr "http://cdn/a.jpg")]])]);
   ("user", JDict [("pk", JInt 25025320); ("username", JStr "instagram");
                   ("profile_pic_url", JStr "http://cdn/p.jpg")]);
   ("caption", JDict [("pk", JInt 17); ("text", JStr "hello");
                      ("user", JDict [("pk", JInt 25025320);
                                      ("profile_pic_url", JStr "http://cdn/p.jpg")])])].

(** An entity on which the rules of a kind have nothing left to do. *)
Definition settled (rs : list rule) (x : dict) : Prop :=
  (forall d, In (Add d) rs ->
             dict_find (legacy d) x = None -> compute d x = None) /\
  (forall k sub u, In (In_place k sub) rs ->
                   dict_find k x = Some (JDict u) -> patch_flat sub u = u).

Definition demo_user : dict :=
  [("pk", JInt 124317); ("username", JStr "someone");
   ("profile_pic_url", JStr "http://cdn/u.jpg");
   ("biography", JStr "about me"); ("external_url", JStr "http://example.com")].

Definition demo_comment : dict :=
  [("pk", JInt 17865505612040669); ("text", JStr ":)");
   ("created_at", JInt 1479453671); ("user", JDict demo_user)].

(** ** Sample data

    A scripted server with three pages that carry both a timeline and a
    comment listing, a client, and a small compatibility patch. *)
Definition demo_item (code : string) (t : Z) : json :=
  JDict [("media_or_ad", JDict [("code", JStr code)]); ("created_time", JInt t)].

Definition demo_page (more : bool) (cursor : json) (xs : list json) : dict :=
  [("status", JStr "ok");
   ("more_available", JBool more);
   ("has_more_comments", JBool more);
   ("next_max_id", cursor);
   ("feed_items", JList xs);
   ("comments", JList xs)].

Definition demo_script (i : nat) : result dict :=
  match i with
  | 0 => Ok (demo_page true (JStr "cursor1") [demo_item "a" 30; demo_item "b" 10])
  | 1 => Ok (demo_page true (JStr "cursor2") [demo_item "c" 40])
  | _ => Ok (demo_page false JNull [demo_item "d" 20])
  end.

Definition demo_world : World :=
  {| script := demo_script; log := []; heap := [] |}.

Definition demo_client (patch : bool) : Client :=
  {| uuid := JStr "uuid"; csrftoken := JStr "token"; phone_id := JStr "phone";
     timezone_offset := JInt 0; auto_patch := patch;
     drop_incompat_keys := false;
     authenticated_params := [("_uuid", JStr "uuid"); ("_csrftoken", JStr "token")] |}.

Definition demo_patch : ClientCompatPatch :=
  {| media := fun v _ =>
       match v with
       | JDict kvs =>
           match dict_find "code" kvs with
           | Some c => Ok (JDict (dict_set "link" c kvs))
           | None => Raise (KeyError "code")
           end
       | _ => Raise TypeError
       end;
     comment := fun v _ =>
       match v with
       | JDict kvs =>
           match dict_find "created_time" kvs with
           | Some t => Ok (JDict (dict_set "id" t kvs))
           | None => Raise (KeyError "created_time")
           end
       | _ => Raise TypeError
       end |}.

(** One page of comments dated as in the response that the docstring of
    [post_comment] shows: a [created_at_utc], no [created_time]. *)
Definition demo_undated_page : dict :=
  demo_page false JNull
    [JDict [("pk", JInt 1); ("text", JStr ":)"); ("created_at_utc", JInt 1479482471)];
     JDict [("pk", JInt 2); ("text", JStr "ok"); ("created_at_utc", JInt 1479482400)]].

Definition demo_undated_world : World :=
  {| script := fun _ => Ok demo_undated_page; log := []; heap := [] |}.


(** ** The other endpoints of [endpoints/feed.py] and [endpoints/media.py]

    An argument that a call does not pass ([params], [query]) is the empty
    dict, and [unsigned] is [False] unless passed.  Identifiers that the
    endpoints interpolate into a path are strings. *)

(** Further attributes of the client that the feed endpoints read. *)
Record Account : Type := {
  rank_token : json;
  authenticated_user_id : string
}.

(** [ClientCompatPatch.list_user], the patch of the user listings. *)
Record UserListPatch : Type := {
  list_user : json -> bool -> result json
}.

(** A patch applied to one element of a response array: an object is
    patched in place, an immutable value cannot change. *)
Definition patch_object (f : json -> bool -> result json) (drop : bool)
    (m : json) : M unit :=
  fun w =>
    match m with
    | JRef l =>
        match f (nth l (heap w) JNull) drop with
        | Ok v' => store l v' w
        | Raise e => (w, Raise e)
        end
    | _ =>
        match f m drop with
        | Ok _ => (w, Ok tt)
        | Raise e => (w, Raise e)
        end
    end.

(** The comprehension [[patch(m, drop_incompat_keys=...) for m in
    res.get(field, [])]]. *)
Definition patch_each (f : json -> bool -> result json) (drop : bool)
    (res : dict) (field : string) : M unit :=
  items <- lift (iter_values (get_default res field (JList []))) ;;
  mapM_ (patch_object f drop) items.

(** *** endpoints/feed.py *)

Definition feed_liked (P : ClientCompatPatch) (self : Client) : M dict :=
  res <- _call_api "feed/liked/" [] [] false ;;
  (if auto_patch self && truthy (get res "items")
   then patch_each (media P) (drop_incompat_keys self) res "items"
   else ret tt) ;;;
  ret res.

Definition feed_popular (P : ClientCompatPatch) (A : Account) (self : Client)
    (kwargs : dict) : M dict :=
  let query :=
    dict_update
      [("people_teaser_supported", JStr "1");
       ("rank_token", rank_token A);
       ("ranked_content", JStr "true")]
      kwargs in
  res <- _call_api "feed/popular" [] query false ;;
  (if auto_patch self
   then patch_each (media P) (drop_incompat_keys self) res "items"
   else ret tt) ;;;
  ret res.

Definition user_feed (P : ClientCompatPatch) (A : Account) (self : Client)
    (user_id : string) (kwargs : dict) : M dict :=
  let endpoint := ("feed/user/" ++ user_id ++ "/")%string in
  let query :=
    dict_update [("rank_token", rank_token A); ("ranked_content", JStr "true")]
      kwargs in
  res <- _call_api endpoint [] query false ;;
  (if auto_patch self
   then patch_each (media P) (drop_incompat_keys self) res "items"
   else ret tt) ;;;
  ret res.

Definition self_feed (P : ClientCompatPatch) (A : Account) (self : Client)
  : M dict :=
  user_feed P A self (authenticated_user_id A) [].

Definition username_feed (P : ClientCompatPatch) (self : Client)
    (user_name : string) (kwargs : dict) : M dict :=
  let endpoint := ("feed/user/" ++ user_name ++ "/username/")%string in
  res <- _call_api endpoint [] kwargs false ;;
  (if auto_patch self
   then patch_each (media P) (drop_incompat_keys self) res "items"
   else ret tt) ;;;
  ret res.

Definition user_reel_media (P : ClientCompatPatch) (self : Client)
    (user_id : string) (kwargs : dict) : M dict :=
  let endpoint := ("feed/user/" ++ user_id ++ "/reel_media/")%string in
  res <- _call_api endpoint [] kwargs false ;;
  (if auto_patch self
   then patch_each (media P) (drop_incompat_keys self) res "items"
   else ret tt) ;;;
  ret res.

(** One turn of the loop of [reels_tray], lines 104-108, on the tray [u]:
    a tray with no items is skipped; the media of the others are patched
    where they are, inside the tray object.  When a patch raises, the
    endpoint ends and the response, with whatever was patched so far, is
    out of the caller's reach: the tray is then left as it was. *)
Definition patch_tray (P : ClientCompatPatch) (drop : bool) (u : json)
  : M unit :=
  fun w =>
    match u with
    | JRef l =>
        match nth l (heap w) JNull with
        | JDict kvs =>
            let items := get kvs "items" in
            if negb (truthy items) then (w, Ok tt)
            else
              match items with
              | JList ms =>
                  match rmap (fun m => media P m drop) ms with
                  | Ok ms' => store l (JDict (dict_set "items" (JList ms') kvs)) w
                  | Raise e => (w, Raise e)
                  end
              | _ =>
                  match rbind (iter_values items)
                          (rmap (fun m => media P m drop)) with
                  | Ok _ => (w, Ok tt)
                  | Raise e => (w, Raise e)
                  end
              end
        | _ => (w, Raise AttributeError)
        end
    | _ => (w, Raise AttributeError)
    end.

Definition reels_tray (P : ClientCompatPatch) (self : Client) (kwargs : dict)
  : M dict :=
  res <- _call_api "feed/reels_tray/" [] kwargs false ;;
  (if auto_patch self
   then trays <- lift (iter_values (get_default res "tray" (JList []))) ;;
        mapM_ (patch_tray P (drop_incompat_keys self)) trays
   else ret tt) ;;;
  ret res.

(** Lines 157-163 and 189-195: both listings are patched, each only when
    it is there. *)
Definition patch_ranked (P : ClientCompatPatch) (self : Client) (res : dict)
  : M unit :=
  if auto_patch self then
    (if truthy (get res "items")
     then patch_each (media P) (drop_incompat_keys self) res "items"
     else ret tt) ;;;
    (if truthy (get res "ranked_items")
     then patch_each (media P) (drop_incompat_keys self) res "ranked_items"
     else ret tt)
  else ret tt.

Definition feed_tag (P : ClientCompatPatch) (self : Client) (tag : string)
    (kwargs : dict) : M dict :=
  let endpoint := ("feed/tag/" ++ tag ++ "/")%string in
  res <- _call_api endpoint [] kwargs false ;;
  patch_ranked P self res ;;;
  ret res.

Definition feed_location (P : ClientCompatPatch) (self : Client)
    (location_id : string) (kwargs : dict) : M dict :=
  let endpoint := ("feed/location/" ++ location_id ++ "/")%string in
  res <- _call_api endpoint [] kwargs false ;;
  patch_ranked P self res ;;;
  ret res.

(** One element of the comprehension of [saved_feed], lines 206-207:
    [patch(m['media']) for m in ... if m.get('media')]. *)
Definition patch_saved_item (P : ClientCompatPatch) (drop : bool) (m : json)
  : M unit :=
  fun w =>
    match m with
    | JRef l =>
        match nth l (heap w) JNull with
        | JDict kvs =>
            let v := get kvs "media" in
            if truthy v then
              match media P v drop with
              | Ok v' => store l (JDict (dict_set "media" v' kvs)) w
              | Raise e => (w, Raise e)
              end
            else (w, Ok tt)
        | _ => (w, Raise AttributeError)
        end
    | _ => (w, Raise AttributeError)
    end.

Definition saved_feed (P : ClientCompatPatch) (self : Client) (kwargs : dict)
  : M dict :=
  res <- _call_api "feed/saved/" [] kwargs false ;;
  (if auto_patch self
   then items <- lift (iter_values (get_default res "items" (JList []))) ;;
        mapM_ (patch_saved_item P (drop_incompat_keys self)) items
   else ret tt) ;;;
  ret res.

(** *** endpoints/media.py *)

Definition media_info (P : ClientCompatPatch) (self : Client)
    (media_id : string) : M dict :=
  let endpoint := ("media/" ++ media_id ++ "/info/")%string in
  res <- _call_api endpoint [] [] false ;;
  (if auto_patch self
   then patch_each (media P) (drop_incompat_keys self) res "items"
   else ret tt) ;;;
  ret res.

(** [sep.join(v)]: the elements of an iterable of strings. *)
Fixpoint join_strs (sep : string) (l : list json) : result string :=
  match l with
  | [] => Ok EmptyString
  | JStr s :: l' =>
      match l' with
      | [] => Ok s
      | _ => rbind (join_strs sep l') (fun r => Ok (s ++ sep ++ r)%string)
      end
  | _ => Raise TypeError
  end.

Definition str_join (sep : string) (v : json) : result string :=
  rbind (iter_values v) (join_strs sep).

Definition medias_info (P : ClientCompatPatch) (self : Client)
    (media_ids : json) : M dict :=
  let media_ids :=
    match media_ids with
    | JStr _ => JList [media_ids]
    | _ => media_ids
    end in
  joined <- lift (str_join "," media_ids) ;;
  let params :=
    [("_uuid", uuid self);
     ("_csrftoken", csrftoken self);
     ("media_ids", JStr joined);
     ("ranked_content", JStr "true")] in
  res <- _call_api "media/infos/" params [] true ;;
  (if auto_patch self
   then patch_each (media P) (drop_incompat_keys self) res "items"
   else ret tt) ;;;
  ret res.

Definition media_permalink (self : Client) (media_id : string) : M dict :=
  _call_api ("media/" ++ media_id ++ "/permalink/")%string [] [] false.

Definition media_comments (P : ClientCompatPatch) (self : Client)
    (media_id : string) (kwargs : dict) : M dict :=
  let endpoint := ("media/" ++ media_id ++ "/comments/")%string in
  res <- _call_api endpoint [] kwargs false ;;
  (if auto_patch self
   then patch_each (comment P) (drop_incompat_keys self) res "comments"
   else ret tt) ;;;
  ret res.

Definition delete_media (self : Client) (media_id : string) : M dict :=
  let endpoint := ("media/" ++ media_id ++ "/delete/")%string in
  let params :=
    dict_update [("media_id", JStr media_id)] (authenticated_params self) in
  _call_api endpoint params [] false.

Definition delete_comment (self : Client) (media_id comment_id : string)
  : M dict :=
  let endpoint :=
    ("media/" ++ media_id ++ "/comment/" ++ comment_id ++ "/delete/")%string in
  let params := dict_update [] (authenticated_params self) in
  _call_api endpoint params [] false.

Definition media_likers (U : UserListPatch) (self : Client)
    (media_id : string) (kwargs : dict) : M dict :=
  let endpoint := ("media/" ++ media_id ++ "/likers/")%string in
  res <- _call_api endpoint [] kwargs false ;;
  (if auto_patch self
   then patch_each (list_user U) (drop_incompat_keys self) res "users"
   else ret tt) ;;;
  ret res.

Definition media_likers_chrono (U : UserListPatch) (self : Client)
    (media_id : string) : M dict :=
  res <- _call_api ("media/" ++ media_id ++ "/likers_chrono/")%string [] [] false ;;
  (if auto_patch self
   then patch_each (list_user U) (drop_incompat_keys self) res "users"
   else ret tt) ;;;
  ret res.

Definition post_like (self : Client) (media_id : string) : M dict :=
  let endpoint := ("media/" ++ media_id ++ "/like/")%string in
  let params :=
    dict_update [("media_id", JStr media_id)] (authenticated_params self) in
  _call_api endpoint params [] false.

Definition delete_like (self : Client) (media_id : string) : M dict :=
  let endpoint := ("media/" ++ media_id ++ "/unlike/")%string in
  let params :=
    dict_update [("media_id", JStr media_id)] (authenticated_params self) in
  _call_api endpoint params [] false.

Definition media_seen (self : Client) (reels : json) : M dict :=
  let params :=
    dict_update [("nuxes", JDict []); ("reels", reels)]
      (authenticated_params self) in
  _call_api "media/seen/" params [] false.

Definition comment_like (self : Client) (comment_id : string) : M dict :=
  let endpoint := ("media/" ++ comment_id ++ "/comment_like/")%string in
  _call_api endpoint (authenticated_params self) [] false.

Definition comment_likers (U : UserListPatch) (self : Client)
    (comment_id : string) : M dict :=
  let endpoint := ("media/" ++ comment_id ++ "/comment_likers/")%string in
  res <- _call_api endpoint [] [] false ;;
  (if auto_patch self
   then patch_each (list_user U) (drop_incompat_keys self) res "users"
   else ret tt) ;;;
  ret res.

Definition comment_unlike (self : Client) (comment_id : string) : M dict :=
  let endpoint := ("media/" ++ comment_id ++ "/comment_unlike/")%string in
  _call_api endpoint (authenticated_params self) [] false.

Definition save_photo (self : Client) (media_id : string) : M dict :=
  let endpoint := ("media/" ++ media_id ++ "/save/")%string in
  let params :=
    dict_update [("radio_type", JStr "WIFI")] (authenticated_params self) in
  _call_api endpoint params [] false.

Definition unsave_photo (self : Client) (media_id : string) : M dict :=
  let endpoint := ("media/" ++ media_id ++ "/unsave/")%string in
  let params :=
    dict_update [("radio_type", JStr "WIFI")] (authenticated_params self) in
  _call_api endpoint params [] false.

Definition disable_comments (self : Client) (media_id : string) : M dict :=
  let endpoint := ("media/" ++ media_id ++ "/disable_comments/")%string in
  let params := [("_csrftoken", csrftoken self); ("_uuid", uuid self)] in
  _call_api endpoint params [] true.

Definition enable_comments (self : Client) (media_id : string) : M dict :=
  let endpoint := ("media/" ++ media_id ++ "/enable_comments/")%string in
  let params := [("_csrftoken", csrftoken self); ("_uuid", uuid self)] in
  _call_api endpoint params [] true.

(** ** Notions used to state further properties of the endpoints *)

(** The requests a call issued: the entries it appended to the log. *)
Definition issued (w w' : World) : list (request * result dict) :=
  skipn (requests w) (log w').

(** Every request of a run was built by [mk] from the [next_max_id] of the
    response logged just before it. *)
Fixpoint follows (mk : json -> request) (prev : result dict)
    (es : list (request * result dict)) : Prop :=
  match es with
  | [] => True
  | (rq, r) :: es' =>
      (exists res, prev = Ok res /\ rq = mk (get res "next_max_id")) /\
      follows mk r es'
  end.

(** The first request of [feed_timeline] and the one that follows a page
    with cursor [c]. *)
Definition timeline_request (ps : dict) : request :=
  {| endpoint := "feed/timeline/"; params := ps; query := []; unsigned := true |}.

Definition comments_request (media_id : string) (qs : dict) : request :=
  {| endpoint := ("media/" ++ media_id ++ "/comments/")%string;
     params := []; query := qs; unsigned := false |}.

(** The value [patch_saved_item] leaves in an object that held [x]. *)
Definition patched_saved_item (P : ClientCompatPatch) (x : json) (drop : bool)
  : result json :=
  match x with
  | JDict kvs =>
      let v := get kvs "media" in
      if truthy v then
        rbind (media P v drop) (fun v' => Ok (JDict (dict_set "media" v' kvs)))
      else Ok x
  | _ => Raise AttributeError
  end.

(** The value [patch_tray] leaves in a tray object that held [x]. *)
Definition patched_tray (P : ClientCompatPatch) (x : json) (drop : bool)
  : result json :=
  match x with
  | JDict kvs =>
      let items := get kvs "items" in
      if negb (truthy items) then Ok x
      else
        match items with
        | JList ms =>
            rbind (rmap (fun m => media P m drop) ms) (fun ms' =>
              Ok (JDict (dict_set "items" (JList ms') kvs)))
        | _ =>
            rbind (rbind (iter_values items) (rmap (fun m => media P m drop)))
              (fun _ => Ok x)
        end
  | _ => Raise AttributeError
  end.

(** An endpoint that answers with a listing under [field]: on a response
    whose listing is an array (or absent) it issues one request; if it
    returns, the objects of the listing are, in the order served, the
    served objects each passed once through [f] (when [auto_patch] is on;
    as served otherwise); if it raises, [f] raised on one of them. *)
Definition patches_listing (f : json -> bool -> result json) (self : Client)
    (field : string) (c : M dict) : Prop :=
  forall w w' r,
    list_page field (served w 0) -> c w = (w', r) ->
    requests w' = S (requests w) /\
    match r with
    | Ok res =>
        exists refs,
          iter_values (get_default res field (JList [])) = Ok refs /\
          rmap (fun x => if auto_patch self
                         then f x (drop_incompat_keys self) else Ok x)
               (wire_items field (served w 0))
          = Ok (view w' refs)
    | Raise e =>
        auto_patch self = true /\
        exists x, In x (wire_items field (served w 0)) /\
                  f x (drop_incompat_keys self) = Raise e
    end.

(** One request, then the patch comprehension over [field], guarded or
    not by the truth of the listing. *)
Definition listing_call (step : json -> M unit) (self : Client)
    (guarded : bool) (field : string) (call : M dict) : M dict :=
  res <- call ;;
  (if auto_patch self && (negb guarded || truthy (get res field))
   then items <- lift (iter_values (get_default res field (JList []))) ;;
        mapM_ step items
   else ret tt) ;;;
  ret res.

(** [c] issues exactly one request, [rq], whatever the world. *)
Definition sends (c : M dict) (rq : request) : Prop :=
  forall w, exists r0, issued w (fst (c w)) = [(rq, r0)].

(** [d.update(upd)] read key by key: the value of [upd] where it has one,
    that of [d] elsewhere. *)
Definition overrides (upd d result : dict) : Prop :=
  forall k, dict_find k result = match dict_find k upd with
                                 | Some v => Some v
                                 | None => dict_find k d
                                 end.

(** The fields [post_comment] sends, lines 189-195. *)
Definition comment_fields (E : Helpers) (comment_text : text) (w : World)
  : dict :=
  [("comment_text", JStr (utf8 comment_text));
   ("user_breadcrumb", gen_user_breadcrumb E (length comment_text) w);
   ("idempotence_token", generate_uuid E w);
   ("containermodule", JStr "comments_feed_timeline")].

(** Number of characters of a text that satisfy a test. *)
Definition count_chars (p : N -> bool) (t : text) : nat :=
  length (filter p t).

(** The characters the base64 decoder looks at: those of the alphabet and
    the pad character. *)
Definition significant (c : ascii) : bool :=
  match sextet_of_char c with
  | Some _ => true
  | None => Ascii.eqb c "="
  end.

(** The characters of the alphabet. *)
Definition is_data (c : ascii) : bool :=
  match sextet_of_char c with
  | Some _ => true
  | None => false
  end.

(** The comment has the integer [z] for its [created_time]. *)
Definition at_time (key : json -> result json) (z : Z) (c : json) : bool :=
  match key c with
  | Ok (JInt k) => (k =? z)%Z
  | _ => false
  end.

(** The same test on a (key, element) pair of the sort, and the pairs
    with an integer key. *)
Definition pair_at (z : Z) (p : json * json) : bool :=
  match fst p with
  | JInt k => (k =? z)%Z
  | _ => false
  end.

Definition int_keyed (p : json * json) : Prop := exists k, fst p = JInt k.

(** An endpoint that answers with two listings, [f1] and [f2]: one
    request; if it returns, the objects of either listing are the served
    objects each passed once through [f] (when [auto_patch] is on); if it
    raises, [f] raised on an object of one of the listings. *)
Definition patches_two_listings (f : json -> bool -> result json)
    (self : Client) (f1 f2 : string) (c : M dict) : Prop :=
  forall w w' r,
    list_page f1 (served w 0) -> list_page f2 (served w 0) ->
    c w = (w', r) ->
    requests w' = S (requests w) /\
    match r with
    | Ok res =>
        (exists refs,
           iter_values (get_default res f1 (JList [])) = Ok refs /\
           rmap (fun x => if auto_patch self
                          then f x (drop_incompat_keys self) else Ok x)
                (wire_items f1 (served w 0))
           = Ok (view w' refs)) /\
        (exists refs,
           iter_values (get_default res f2 (JList [])) = Ok refs /\
           rmap (fun x => if auto_patch self
                          then f x (drop_incompat_keys self) else Ok x)
                (wire_items f2 (served w 0))
           = Ok (view w' refs))
    | Raise e =>
        auto_patch self = true /\
        exists x, (In x (wire_items f1 (served w 0)) \/
                   In x (wire_items f2 (served w 0))) /\
                  f x (drop_incompat_keys self) = Raise e
    end.

(** Where the decoder put the objects of a listing. *)
Definition laid_out (h' : list json) (res : dict) (field : string)
    (xs : list json) (off : nat) : Prop :=
  get_default res field (JList []) = JList (map JRef (seq off (length xs))) /\
  off + length xs <= length h' /\
  map (fun l => nth l h' JNull) (seq off (length xs)) = xs /\
  truthy (get res field) = match xs with [] => false | _ => true end.

(** The limits of the interpreter that a document has to respect for
    [json.dump] to run through: the encoder recurses once per level of
    nesting, and an integer is written only if it has at most 4300 decimal
    digits (the default of [sys.set_int_max_str_digits]).  A nesting of 100
    levels is well below the default recursion limit. *)
Fixpoint nesting (o : pyobj) : nat :=
  match o with
  | PList l =>
      S ((fix deepest (l : list pyobj) : nat :=
            match l with
            | [] => 0
            | x :: l' => Nat.max (nesting x) (deepest l')
            end) l)
  | PDict d =>
      S ((fix deepest (d : list (string * pyobj)) : nat :=
            match d with
            | [] => 0
            | (_, x) :: d' => Nat.max (nesting x) (deepest d')
            end) d)
  | _ => 0
  end.

Fixpoint ints_below (bound : Z) (o : pyobj) : bool :=
  match o with
  | PInt z => (Z.abs z <? bound)%Z
  | PList l =>
      (fix all (l : list pyobj) : bool :=
         match l with
         | [] => true
         | x :: l' => ints_below bound x && all l'
         end) l
  | PDict d =>
      (fix all (d : list (string * pyobj)) : bool :=
         match d with
         | [] => true
         | (_, x) :: d' => ints_below bound x && all d'
         end) d
  | _ => true
  end.

Definition within_limits (o : pyobj) : Prop :=
  nesting o <= 100 /\ ints_below (10 ^ 4300) o = true.

(** ** More sample data *)

(** An account, a patch of user listings and a response with listings. *)
Definition demo_account : Account :=
  {| rank_token := JStr "rank"; authenticated_user_id := "42" |}.

Definition demo_user_patch : UserListPatch :=
  {| list_user := fun v _ =>
       match v with
       | JDict kvs =>
           match dict_find "pk" kvs with
           | Some p => Ok (JDict (dict_set "id" p kvs))
           | None => Raise (KeyError "pk")
           end
       | _ => Raise TypeError
       end |}.

Definition demo_listing : dict :=
  [("status", JStr "ok");
   ("items", JList [JDict [("code", JStr "a");
                           ("media", JDict [("code", JStr "m")])];
                    JDict [("code", JStr "b")]]);
   ("ranked_items", JList [JDict [("code", JStr "r")]]);
   ("tray", JList [JDict [("id", JInt 1);
                          ("items", JList [JDict [("code", JStr "t")]])];
                   JDict [("id", JInt 2)]]);
   ("users", JList [JDict [("pk", JInt 7)]; JDict [("pk", JInt 8)]]);
   ("comments", JList [JDict [("created_time", JInt 5)];
                       JDict [("created_time", JInt 3)]])].

Definition demo_listing_world : World :=
  {| script := fun _ => Ok demo_listing; log := []; heap := [] |}.

Definition demo_null_items : dict := [("status", JStr "ok"); ("items", JNull)].

Definition demo_null_world : World :=
  {| script := fun _ => Ok demo_null_items; log := []; heap := [] |}.

(** Three pages of comments, two of them with the same timestamp. *)
Definition demo_ties_script (i : nat) : result dict :=
  match i with
  | 0 => Ok (demo_page true (JStr "c1") [demo_item "a" 20; demo_item "b" 10])
  | 1 => Ok (demo_page true (JStr "c2") [demo_item "c" 20])
  | _ => Ok (demo_page false JNull [demo_item "d" 10])
  end.

Definition demo_ties_world : World :=
  {| script := demo_ties_script; log := []; heap := [] |}.

(** Two pages of comments, the last comment without a timestamp. *)
Definition demo_untimed_script (i : nat) : result dict :=
  match i with
  | 0 => Ok (demo_page true (JStr "c1") [demo_item "a" 20])
  | _ => Ok (demo_page false JNull [JDict [("text", JStr "hi")]])
  end.

Definition demo_untimed_world : World :=
  {| script := demo_untimed_script; log := []; heap := [] |}.
(** * Properties *)

(** ** Pagination: auxiliary facts *)

Lemma timeline_loop_page_loop fuel : forall n params res media w,
  timeline_loop fuel n params res media w
  = page_loop "more_available" "feed_items" timeline_call fuel n params res media w.
Proof.
  induction fuel as [|fuel IH]; intros; simpl; [reflexivity|].
  destruct (_ && _ && _); [|reflexivity].
  unfold timeline_call at 1.
  destruct (_call_api _ _ _ _ _) as [w1 [res1|e]]; [|reflexivity].
  destruct (extend _ _) as [media1|e]; [|reflexivity].
  destruct (_ || _); [reflexivity|apply IH].
Qed.

Lemma comments_loop_page_loop fuel : forall n endpoint kwargs results comments w,
  comments_loop fuel n endpoint kwargs results comments w
  = page_loop "has_more_comments" "comments" (comments_call endpoint)
      fuel n kwargs results comments w.
Proof.
  induction fuel as [|fuel IH]; intros; simpl; [reflexivity|].
  destruct (_ && _ && _); [|reflexivity].
  unfold comments_call at 1.
  destruct (_call_api _ _ _ _ _) as [w1 [res1|e]]; [|reflexivity].
  destruct (extend _ _) as [media1|e]; [|reflexivity].
  destruct (_ || _); [reflexivity|apply IH].
Qed.

Lemma map_nth_seq_app (d : json) : forall xs h ext,
  map (fun l => nth l (h ++ xs ++ ext) d) (seq (length h) (length xs)) = xs.
Proof.
  induction xs as [|x xs IH]; intros h ext; simpl; [reflexivity|].
  f_equal.
  - rewrite nth_middle. reflexivity.
  - specialize (IH (h ++ [x]) ext).
    rewrite length_app in IH. simpl in IH. rewrite Nat.add_1_r in IH.
    rewrite <- app_assoc in IH. simpl in IH. exact IH.
Qed.

Lemma materialize_grows : forall body h h' d,
  materialize h body = (h', d) -> exists ext, h' = h ++ ext.
Proof.
  induction body as [|[k0 v0] body IH]; intros h h' d H; simpl in H.
  - inversion H. exists []. now rewrite app_nil_r.
  - destruct v0;
      try (destruct (materialize h body) as [h2 d2] eqn:E; inversion H; subst;
           eapply IH; eassumption).
    unfold alloc in H.
    destruct (materialize (h ++ xs) body) as [h2 d2] eqn:E. inversion H; subst.
    destruct (IH _ _ _ E) as [ext ->]. exists (xs ++ ext). now rewrite app_assoc.
Qed.

Lemma materialize_find : forall body h h' d k,
  materialize h body = (h', d) ->
  match dict_find k body with
  | None => dict_find k d = None
  | Some (JList xs) =>
      exists off,
        dict_find k d = Some (JList (map JRef (seq off (length xs)))) /\
        length h <= off /\ off + length xs <= length h' /\
        map (fun l => nth l h' JNull) (seq off (length xs)) = xs
  | Some v => dict_find k d = Some v
  end.
Proof.
  induction body as [|[k0 v0] body IH]; intros h h' d k H; simpl in H.
  - inversion H. reflexivity.
  - destruct v0;
      try (destruct (materialize h body) as [h2 d2] eqn:E; inversion H; subst;
           simpl; destruct (String.eqb k k0); [reflexivity | apply (IH _ _ _ k E)]).
    unfold alloc in H.
    destruct (materialize (h ++ xs) body) as [h2 d2] eqn:E. inversion H; subst.
    simpl. destruct (String.eqb k k0).
    + destruct (materialize_grows _ _ E) as [ext ->].
      exists (length h). repeat split; try lia.
      * rewrite !length_app. lia.
      * rewrite <- app_assoc. apply map_nth_seq_app.
    + specialize (IH _ _ _ k E).
      destruct (dict_find k body) as [v|]; [|exact IH].
      destruct v; try exact IH.
      destruct IH as (off & F & L1 & L2 & V).
      exists off. rewrite length_app in L1. repeat split; auto; lia.
Qed.

Lemma call_api_inv ep ps qs u w w1 r :
  _call_api ep ps qs u w = (w1, r) ->
  script w1 = script w /\ requests w1 = S (requests w) /\
  match served w 0 with
  | Raise e => r = Raise e /\ heap w1 = heap w
  | Ok body => exists d, r = Ok d /\ materialize (heap w) body = (heap w1, d)
  end.
Proof.
  unfold _call_api, served, requests. rewrite Nat.add_0_r.
  destruct (script w (length (log w))) as [body|e].
  - destruct (materialize (heap w) body) as [h d] eqn:E.
    intros H; inversion H; subst; simpl. rewrite length_app. simpl.
    repeat split; try lia. exists d. split; reflexivity.
  - intros H; inversion H; subst; simpl. rewrite length_app. simpl.
    repeat split; lia.
Qed.

Lemma materialize_truthy h body h' d k :
  materialize h body = (h', d) -> truthy (get d k) = truthy (get body k).
Proof.
  intros H. pose proof (materialize_find _ _ k H) as F. unfold get.
  destruct (dict_find k body) as [v|]; [|now rewrite F].
  destruct v; try now rewrite F.
  destruct F as (off & -> & _). simpl. now destruct xs.
Qed.

Lemma refs_of_map_JRef ls : refs_of (map JRef ls) = ls.
Proof. induction ls; simpl; congruence. Qed.

Lemma refs_of_app l1 l2 : refs_of (l1 ++ l2) = refs_of l1 ++ refs_of l2.
Proof.
  induction l1 as [|x l1 IH]; simpl; [reflexivity|].
  destruct x; simpl; congruence.
Qed.

Lemma refs_of_In l a : In a (refs_of l) <-> In (JRef a) l.
Proof.
  induction l as [|x l IH]; simpl; [tauto|].
  destruct x; simpl; rewrite IH; intuition congruence.
Qed.

Lemma strs_are_values {A} (f : A -> string) (l : list A) a b h :
  Forall (ref_in a b) (map (fun x => JStr (f x)) l) /\
  map (deref h) (map (fun x => JStr (f x)) l) = map (fun x => JStr (f x)) l /\
  refs_of (map (fun x => JStr (f x)) l) = [].
Proof.
  induction l as [|x l (IH1 & IH2 & IH3)]; simpl.
  - repeat split. constructor.
  - repeat split; [constructor; simpl; auto | congruence | assumption].
Qed.

Lemma materialize_items h body h' d items :
  materialize h body = (h', d) ->
  match iter_values (get_default body items (JList [])) with
  | Raise e => iter_values (get_default d items (JList [])) = Raise e
  | Ok xs =>
      exists last,
        iter_values (get_default d items (JList [])) = Ok last /\
        Forall (ref_in (length h) (length h')) last /\
        map (deref h') last = xs /\ NoDup (refs_of last)
  end.
Proof.
  intros H. pose proof (materialize_find _ _ items H) as F. unfold get_default.
  destruct (dict_find items body) as [v|].
  - destruct v; try (rewrite F; reflexivity).
    + rewrite F. simpl. exists (chars s).
      destruct (strs_are_values (fun c => String c EmptyString)
                  (list_ascii_of_string s) (length h) (length h') h') as (A & B & C).
      unfold chars. rewrite C. repeat split; auto. constructor.
    + destruct F as (off & -> & L1 & L2 & V). simpl.
      exists (map JRef (seq off (length xs))). repeat split.
      * apply Forall_forall. intros x Hx. apply in_map_iff in Hx.
        destruct Hx as (l & <- & Hl). apply in_seq in Hl. simpl. lia.
      * rewrite map_map. exact V.
      * rewrite refs_of_map_JRef. apply seq_NoDup.
    + rewrite F. simpl. exists (map (fun kv => JStr (fst kv)) kvs).
      destruct (strs_are_values (@fst string json) kvs (length h) (length h') h')
        as (A & B & C).
      rewrite C. repeat split; auto. constructor.
  - rewrite F. simpl. exists []. repeat split; constructor.
Qed.

Lemma deref_app hp ext l :
  Forall (ref_below (length hp)) l ->
  map (deref (hp ++ ext)) l = map (deref hp) l.
Proof.
  induction 1 as [|x l Hx _ IH]; simpl; [reflexivity|].
  f_equal; [|exact IH].
  destruct x; simpl; auto. simpl in Hx. now apply app_nth1.
Qed.

Lemma pages_items_S items s k :
  pages_items items s (S k) = pages_items items s k ++ wire_items items (s k).
Proof.
  unfold pages_items. rewrite seq_S, map_app, concat_app. simpl.
  now rewrite app_nil_r.
Qed.

(** What the invariant says about the accumulated list. *)
Lemma fetched_view items s j w res acc :
  fetched items s j w res acc ->
  view w acc = pages_items items s (S j) /\
  NoDup (refs_of acc) /\
  Forall (ref_below (length (heap w))) acc /\
  (forall k, truthy (get res k) = page_truthy k (s j)).
Proof.
  intros (body & hp & earlier & last & Hs & Hm & Hit & -> & Hb & Hv & Hnd & _).
  pose proof (materialize_items _ _ items Hm) as I.
  destruct (materialize_grows _ _ Hm) as [ext Hext].
  assert (W : wire_items items (s j)
              = match iter_values (get_default body items (JList [])) with
                | Ok l => l | Raise _ => [] end) by (now rewrite Hs).
  destruct (iter_values (get_default body items (JList []))) as [xs|e].
  2:{ rewrite I in Hit. discriminate. }
  destruct I as (last' & Hit' & Hin & Hd & Hnd').
  rewrite Hit in Hit'. inversion Hit'; subst last'. clear Hit'.
  repeat split.
  - unfold view. rewrite map_app, pages_items_S, W, Hd. f_equal.
    rewrite Hext, deref_app; assumption.
  - rewrite refs_of_app. apply NoDup_app; auto.
    intros a Ha Hb'. apply refs_of_In in Ha, Hb'.
    rewrite Forall_forall in Hb, Hin.
    specialize (Hb _ Ha). specialize (Hin _ Hb'). simpl in *. lia.
  - apply Forall_app. split.
    + eapply Forall_impl; [|exact Hb]. intros [] ; simpl; auto.
      intros. rewrite Hext, length_app. lia.
    + eapply Forall_impl; [|exact Hin]. intros []; simpl; auto. lia.
  - intros k. rewrite Hs. simpl. eapply materialize_truthy; eassumption.
Qed.

Lemma fetched_refs items s j w res acc :
  fetched items s j w res acc ->
  (forall i, i < S j -> list_page items (s i)) -> Forall is_ref acc.
Proof.
  intros (body & hp & earlier & last & Hs & Hm & Hit & -> & _ & _ & _ & Hr) HL.
  apply Forall_app. split; [apply Hr; intros; apply HL; lia|].
  destruct (HL j) as (d & xs & Hd & Hx); [lia|].
  rewrite Hs in Hd. inversion Hd; subst d. clear Hd.
  pose proof (materialize_find _ _ items Hm) as F.
  unfold get_default in Hx, Hit.
  destruct (dict_find items body) as [v|].
  - subst v. destruct F as (off & F & _). rewrite F in Hit. simpl in Hit.
    inversion Hit; subst. apply Forall_forall. intros x Hx.
    apply in_map_iff in Hx. destruct Hx as (l & <- & _). exact I.
  - rewrite F in Hit. simpl in Hit. inversion Hit. constructor.
Qed.

Lemma cond_continue flag items s j w res acc n :
  fetched items s j w res acc ->
  truthy (get res flag) && truthy (get res "next_max_id")
  && (Z.of_nat (length acc) <? n)%Z
  = continue_after flag items s n j.
Proof.
  intros F. destruct (fetched_view F) as (V & _ & _ & T).
  unfold continue_after. rewrite !T, <- V. unfold view. now rewrite length_map.
Qed.

Lemma bail_cond items s j w res acc :
  fetched items s j w res acc ->
  negb (truthy (get res "next_max_id")) || negb (truthy (get res items))
  = bail_after items s j.
Proof.
  intros F. destruct (fetched_view F) as (_ & _ & _ & T).
  unfold bail_after. now rewrite !T.
Qed.

Section PageLoop.
Variables (flag items : string) (call : dict -> M dict).
Hypothesis Hcall :
  forall args w, exists ep ps qs u, call args w = _call_api ep ps qs u w.

(** The loop, started on page [j], stops on some page [j' >= j]; every
    page in between passed the loop condition and the bail-out test. *)
Lemma page_loop_inv fuel : forall n args res acc w w' r o j s,
  (forall i, script w (o + i) = s i) ->
  requests w = o + S j ->
  fetched items s j w res acc ->
  page_loop flag items call fuel n args res acc w = Some (w', r) ->
  script w' = script w /\
  exists j', j <= j' /\
    (forall i, j <= i < j' ->
       continue_after flag items s n i = true /\
       (i = j \/ bail_after items s i = false)) /\
    match r with
    | Ok (res', acc') =>
        requests w' = o + S j' /\ fetched items s j' w' res' acc' /\
        (continue_after flag items s n j' = false \/
         (j < j' /\ bail_after items s j' = true))
    | Raise e =>
        requests w' = o + S (S j') /\ ~ wf_page items (s (S j')) /\
        continue_after flag items s n j' = true /\
        (j' = j \/ bail_after items s j' = false)
    end.
Proof.
  induction fuel as [|fuel IH]; intros n args res acc w w' r o j s Hs Hreq F H;
    cbn [page_loop] in H; rewrite (cond_continue flag n F) in H;
    destruct (continue_after flag items s n j) eqn:C;
    try discriminate;
    try (inversion H; subst; split; [reflexivity|]; exists j;
         split; [lia|]; split; [intros; lia|]; auto).
  destruct (Hcall (dict_update args [("max_id", get res "next_max_id")]) w)
    as (ep & ps & qs & u & E).
  rewrite E in H. clear E.
  destruct (_call_api ep ps qs u w) as [w1 r1] eqn:Ec.
  apply call_api_inv in Ec. destruct Ec as (Hsc & Hrq & Hsv).
  unfold served in Hsv. rewrite Hreq, Nat.add_0_r, Hs in Hsv.
  assert (Hs1 : forall i, script w1 (o + i) = s i)
    by (intros; rewrite Hsc; apply Hs).
  destruct (s (S j)) as [body1|e] eqn:Es.
  - destruct Hsv as (d1 & -> & Hm).
    pose proof (materialize_items _ _ items Hm) as I. unfold extend in H.
    destruct (iter_values (get_default body1 items (JList []))) as [xs|e] eqn:Ew.
    + destruct I as (last & Hit & Hin & Hd & Hnd). rewrite Hit in H.
      cbn [rbind] in H.
      assert (F1 : fetched items s (S j) w1 d1 (acc ++ last)).
      { destruct (fetched_view F) as (V & ND & B & _).
        exists body1, (heap w), acc, last. repeat split; auto.
        apply (fetched_refs F). }
      rewrite (bail_cond F1) in H.
      destruct (bail_after items s (S j)) eqn:B.
      * inversion H; subst. split; [assumption|]. exists (S j).
        split; [lia|]. split.
        { intros i Hi. assert (i = j) by lia. subst. auto. }
        split; [lia|]. split; [assumption|]. right. split; [lia|assumption].
      * apply IH with (o := o) (j := S j) (s := s) in H; auto; try lia.
        destruct H as (Hsc' & j' & Hj & Hmid & Hend).
        split; [congruence|]. exists j'. split; [lia|]. split.
        { intros i Hi. destruct (Nat.eq_dec i j) as [->|Hne]; [auto|].
          destruct (Hmid i) as (A & [->|A']); auto; lia. }
        destruct r as [[res' acc']|e].
        -- destruct Hend as (A1 & A2 & [A3|A3]); repeat split; auto.
           right. split; [lia|]. apply A3.
        -- destruct Hend as (A1 & A2 & A3 & [->|A4]); repeat split; auto.
    + rewrite I in H. cbn [rbind] in H. inversion H; subst.
      split; [assumption|]. exists j. split; [lia|]. split; [intros; lia|].
      repeat split; auto; try lia.
      intros (d & l & Ed & El). rewrite Es in Ed. inversion Ed; subst.
      rewrite Ew in El. discriminate.
  - destruct Hsv as (-> & Hh). inversion H; subst.
    split; [assumption|]. exists j. split; [lia|]. split; [intros; lia|].
    repeat split; auto; try lia.
    intros (d & l & Ed & El). rewrite Es in Ed. discriminate.
Qed.

(** The loop ends: the remaining distance to the threshold bounds the
    number of iterations. *)
Lemma page_loop_terminates fuel : forall n args res acc w,
  (Z.to_nat (n - Z.of_nat (length acc)) <= fuel)%nat ->
  exists w' r, page_loop flag items call fuel n args res acc w = Some (w', r).
Proof.
  induction fuel as [|fuel IH]; intros n args res acc w Hf; cbn [page_loop].
  - destruct (Z.of_nat (length acc) <? n)%Z eqn:L.
    + apply Z.ltb_lt in L. lia.
    + rewrite andb_false_r. eauto.
  - destruct (_ && _ && _) eqn:C; [|eauto].
    apply andb_prop in C. destruct C as (_ & L). apply Z.ltb_lt in L.
    destruct (call _ w) as [w1 [res1|e]]; [|eauto].
    unfold extend.
    destruct (get_default res1 items (JList [])) eqn:G; cbn; eauto.
    + (* a string *)
      destruct (_ || _) eqn:B; [eauto|].
      apply orb_false_elim in B. destruct B as (_ & B).
      apply negb_false_iff in B. unfold get in B. unfold get_default in G.
      destruct (dict_find items res1) as [v|]; [|discriminate]. subst v.
      apply IH. rewrite length_app. unfold chars. rewrite length_map.
      destruct s; [discriminate|]. simpl. lia.
    + (* an array *)
      destruct (_ || _) eqn:B; [eauto|].
      apply orb_false_elim in B. destruct B as (_ & B).
      apply negb_false_iff in B. unfold get in B. unfold get_default in G.
      destruct (dict_find items res1) as [v|].
      * subst v. apply IH. rewrite length_app.
        destruct xs; [discriminate|]. simpl. lia.
      * discriminate.
    + (* an object *)
      destruct (_ || _) eqn:B; [eauto|].
      apply orb_false_elim in B. destruct B as (_ & B).
      apply negb_false_iff in B. unfold get in B. unfold get_default in G.
      destruct (dict_find items res1) as [v|]; [|discriminate]. subst v.
      apply IH. rewrite length_app, length_map.
      destruct kvs; [discriminate|]. simpl. lia.
Qed.
End PageLoop.

Section PageFetch.
Variables (flag items : string) (call : dict -> M dict).
Hypothesis Hcall :
  forall args w, exists ep ps qs u, call args w = _call_api ep ps qs u w.

(** The fetch as a whole, read off the page sequence [served w]: it
    issues [S j'] requests, every page before [j'] passed the loop
    condition (and, from the second on, the bail-out test), and page [j']
    is where the loop ended. *)
Lemma page_fetch_inv fuel n args w w' r :
  page_fetch flag items call fuel n args w = Some (w', r) ->
  script w' = script w /\
  match r with
  | Ok (res', acc') =>
      exists j',
        requests w' = requests w + S j' /\
        fetched items (served w) j' w' res' acc' /\
        (forall i, i < j' ->
           continue_after flag items (served w) n i = true /\
           (i = 0 \/ bail_after items (served w) i = false)) /\
        (continue_after flag items (served w) n j' = false \/
         (0 < j' /\ bail_after items (served w) j' = true))
  | Raise e =>
      exists k,
        requests w' = requests w + S k /\
        ~ wf_page items (served w k) /\
        (forall i, i < k ->
           continue_after flag items (served w) n i = true /\
           (i = 0 \/ bail_after items (served w) i = false))
  end.
Proof.
  unfold page_fetch. intros H.
  destruct (Hcall args w) as (ep & ps & qs & u & E). rewrite E in H. clear E.
  destruct (_call_api ep ps qs u w) as [w1 r1] eqn:Ec.
  apply call_api_inv in Ec. destruct Ec as (Hsc & Hrq & Hsv).
  assert (Hs1 : forall i, script w1 (requests w + i) = served w i)
    by (intros; rewrite Hsc; reflexivity).
  destruct (served w 0) as [body|e] eqn:Es.
  - destruct Hsv as (d & -> & Hm).
    pose proof (materialize_items _ _ items Hm) as I. unfold extend in H.
    destruct (iter_values (get_default body items (JList []))) as [xs|e] eqn:Ew.
    + destruct I as (last & Hit & Hin & Hd & Hnd). rewrite Hit in H.
      cbn [rbind app] in H.
      assert (F0 : fetched items (served w) 0 w1 d last).
      { exists body, (heap w), [], last. repeat split; auto; constructor. }
      apply page_loop_inv with (o := requests w) (j := 0) (s := served w) in H;
        auto; try lia.
      destruct H as (Hsc' & j' & Hj & Hmid & Hend).
      split; [congruence|].
      destruct r as [[res' acc']|e].
      * destruct Hend as (A1 & A2 & A3). exists j'. repeat split; auto.
        -- apply Hmid. lia.
        -- destruct (Hmid i) as (_ & [->|B]); auto; lia.
      * destruct Hend as (A1 & A2 & A3 & A4). exists (S j'). repeat split; auto.
        -- destruct (Nat.eq_dec i j') as [->|Hne]; [auto|]. apply Hmid. lia.
        -- destruct (Nat.eq_dec i j') as [->|Hne].
           ++ destruct A4 as [->|A4]; auto.
           ++ destruct (Hmid i) as (_ & [->|B]); auto; lia.
    + rewrite I in H. cbn [rbind] in H. inversion H; subst.
      split; [assumption|]. exists 0. repeat split; try lia.
      intros (d' & l & Ed & El). rewrite Es in Ed. inversion Ed; subst.
      rewrite Ew in El. discriminate.
  - destruct Hsv as (-> & Hh). inversion H; subst.
    split; [assumption|]. exists 0. repeat split; try lia.
    intros (d' & l & Ed & El). rewrite Es in Ed. discriminate.
Qed.

Lemma page_fetch_terminates n args w :
  exists w' r,
    page_fetch flag items call (Z.to_nat n) n args w = Some (w', r).
Proof.
  unfold page_fetch.
  destruct (call args w) as [w1 [res|e]]; [|eauto].
  destruct (extend [] (get_default res items (JList []))) as [acc|e]; [|eauto].
  apply page_loop_terminates. lia.
Qed.

(** More fuel does not change the outcome. *)
Lemma page_loop_fuel fuel : forall fuel' n args res acc w o,
  page_loop flag items call fuel n args res acc w = Some o ->
  fuel <= fuel' ->
  page_loop flag items call fuel' n args res acc w = Some o.
Proof.
  induction fuel as [|fuel IH]; intros fuel' n args res acc w o H Hle.
  - cbn [page_loop] in H. destruct fuel'; cbn [page_loop];
      destruct (_ && _ && _); auto; discriminate.
  - destruct fuel' as [|fuel']; [lia|]. cbn [page_loop] in *.
    destruct (_ && _ && _); auto.
    destruct (call _ w) as [w1 [res1|e]]; auto.
    destruct (extend _ _) as [acc1|e]; auto.
    destruct (_ || _); auto. apply IH; auto. lia.
Qed.

Lemma page_fetch_fuel fuel fuel' n args w o :
  page_fetch flag items call fuel n args w = Some o ->
  fuel <= fuel' ->
  page_fetch flag items call fuel' n args w = Some o.
Proof.
  unfold page_fetch. intros H Hle.
  destruct (call args w) as [w1 [res|e]]; auto.
  destruct (extend _ _) as [acc|e]; auto.
  eapply page_loop_fuel; eauto.
Qed.

(** Which requests a fetch issues when every page is well formed. *)
Lemma page_fetch_requests fuel n args w w' r :
  (forall i, wf_page items (served w i)) ->
  page_fetch flag items call fuel n args w = Some (w', r) ->
  exists k res acc,
    r = Ok (res, acc) /\ requests w' = requests w + k /\ 1 <= k /\
    (forall i, i < k -> i = 0 \/ bail_after items (served w) i = false ->
       (S i < k <-> continue_after flag items (served w) n i = true)) /\
    (forall i, 0 < i < k -> bail_after items (served w) i = true -> k = S i).
Proof.
  intros Hwf H. apply page_fetch_inv in H. destruct H as (_ & H).
  destruct r as [[res acc]|e].
  - destruct H as (j' & Hr & _ & Hmid & Hend).
    exists (S j'), res, acc. repeat split; auto; try lia.
    + intros Hi. apply Hmid. lia.
    + intros C. destruct (Nat.eq_dec i j') as [->|Hne]; [|lia].
      destruct Hend as [E|(Hpos & B)]; [congruence|].
      destruct H0 as [->|B']; [lia|congruence].
    + intros i Hi B. destruct (Nat.eq_dec i j') as [->|Hne]; [reflexivity|].
      destruct (Hmid i) as (_ & [->|B']); [lia|lia|congruence].
  - destruct H as (k & _ & Hn & _). destruct (Hn (Hwf k)).
Qed.
End PageFetch.

Lemma timeline_call_is_call :
  forall args w, exists ep ps qs u, timeline_call args w = _call_api ep ps qs u w.
Proof. intros. unfold timeline_call. eauto. Qed.

Lemma comments_call_is_call endpoint :
  forall args w, exists ep ps qs u,
    comments_call endpoint args w = _call_api ep ps qs u w.
Proof. intros. unfold comments_call. eauto. Qed.

Lemma timeline_pages_fetch fuel self n kwargs w :
  timeline_pages fuel self n kwargs w
  = page_fetch "more_available" "feed_items" timeline_call fuel n
      (timeline_params self kwargs) w.
Proof.
  unfold timeline_pages, page_fetch, timeline_call.
  fold (timeline_params self kwargs).
  destruct (_call_api _ _ _ _ _) as [w1 [res|e]]; [|reflexivity].
  destruct (extend _ _); [|reflexivity].
  apply timeline_loop_page_loop.
Qed.

Lemma comments_pages_fetch fuel media_id n kwargs w :
  comments_pages fuel media_id n kwargs w
  = page_fetch "has_more_comments" "comments"
      (comments_call ("media/" ++ media_id ++ "/comments/")%string)
      fuel n kwargs w.
Proof.
  unfold comments_pages, page_fetch, comments_call.
  destruct (_call_api _ _ _ _ _) as [w1 [res|e]]; [|reflexivity].
  destruct (extend _ _); [|reflexivity].
  apply comments_loop_page_loop.
Qed.

(** ** In-place patches on the heap *)

Lemma length_update l v h : length (update l v h) = length h.
Proof.
  revert l. induction h as [|x h IH]; intros [|l]; simpl; auto.
Qed.

Lemma nth_update_same l v h d : l < length h -> nth l (update l v h) d = v.
Proof.
  revert l. induction h as [|x h IH]; intros [|l] H; simpl in *; try lia; auto.
  apply IH. lia.
Qed.

Lemma nth_update_other l l' v h d : l <> l' -> nth l' (update l v h) d = nth l' h d.
Proof.
  revert l l'. induction h as [|x h IH]; intros [|l] [|l'] H; simpl; auto;
    try congruence.
Qed.

Lemma is_ref_map l : Forall is_ref l -> l = map JRef (refs_of l).
Proof.
  induction 1 as [|x l Hx _ IH]; simpl; [reflexivity|].
  destruct x; try destruct Hx. simpl. congruence.
Qed.

Lemma mapM_cons {A} (f : A -> M unit) x l w w' :
  mapM_ f (x :: l) w = (w', Ok tt) ->
  exists w1, f x w = (w1, Ok tt) /\ mapM_ f l w1 = (w', Ok tt).
Proof.
  simpl. unfold bind. destruct (f x w) as [w1 [[]|e]]; intros H.
  - eauto.
  - discriminate.
Qed.

Section PatchAll.
Variables (step : json -> M unit) (f : json -> result json).
Hypothesis Hstep : forall l w w',
  step (JRef l) w = (w', Ok tt) ->
  exists v, f (nth l (heap w) JNull) = Ok v /\
            heap w' = update l v (heap w) /\
            script w' = script w /\ log w' = log w.

(** Patching distinct objects one after the other leaves in each the
    value [f] computes from its previous content, and touches nothing
    else. *)
Lemma mapM_refs : forall ls w w',
  NoDup ls -> (forall l, In l ls -> l < length (heap w)) ->
  mapM_ step (map JRef ls) w = (w', Ok tt) ->
  script w' = script w /\ log w' = log w /\
  length (heap w') = length (heap w) /\
  (forall l, ~ In l ls -> nth l (heap w') JNull = nth l (heap w) JNull) /\
  rmap f (map (fun l => nth l (heap w) JNull) ls)
  = Ok (map (fun l => nth l (heap w') JNull) ls).
Proof.
  induction ls as [|a ls IH]; intros w w' ND Hb H.
  - simpl in H. inversion H; subst. simpl. auto.
  - simpl map in H. apply mapM_cons in H. destruct H as (w1 & H1 & H2).
    apply Hstep in H1. destruct H1 as (v & Hf & Hh & Hs & Hl).
    inversion ND as [|? ? Hna ND']; subst.
    apply IH in H2; auto.
    2:{ intros l Hl'. rewrite Hh, length_update. apply Hb. now right. }
    destruct H2 as (A1 & A2 & A3 & A4 & A5).
    rewrite Hh, length_update in A3.
    assert (Hrest : map (fun l => nth l (heap w1) JNull) ls
                    = map (fun l => nth l (heap w) JNull) ls).
    { apply map_ext_in. intros l Hl'. rewrite Hh. apply nth_update_other.
      intros ->. contradiction. }
    repeat split; try congruence.
    + intros l Hl'. simpl in Hl'. rewrite A4 by tauto.
      rewrite Hh. apply nth_update_other. tauto.
    + simpl. rewrite Hf. simpl. rewrite <- Hrest, A5. simpl.
      rewrite (A4 a Hna), Hh, nth_update_same; auto.
      apply Hb. now left.
Qed.
End PatchAll.

Lemma store_inv l v w w' r :
  store l v w = (w', r) ->
  r = Ok tt /\ heap w' = update l v (heap w) /\
  script w' = script w /\ log w' = log w.
Proof. unfold store. intros H. inversion H; subst. simpl. auto. Qed.

Lemma update_same l h : update l (nth l h JNull) h = h.
Proof.
  revert l. induction h as [|x h IH]; intros [|l]; simpl; auto.
  now rewrite IH.
Qed.

Lemma patch_feed_item_ref P drop c w w' :
  patch_feed_item P drop c w = (w', Ok tt) -> is_ref c.
Proof. destruct c; simpl; intros H; try discriminate. exact I. Qed.

Lemma patch_feed_item_spec P drop l w w' :
  patch_feed_item P drop (JRef l) w = (w', Ok tt) ->
  exists v, patched_feed_item P drop (nth l (heap w) JNull) = Ok v /\
            heap w' = update l v (heap w) /\
            script w' = script w /\ log w' = log w.
Proof.
  unfold patch_feed_item, patched_feed_item.
  destruct (nth l (heap w) JNull) eqn:E; try discriminate.
  destruct (truthy (get kvs "media_or_ad")).
  - destruct (media P (get kvs "media_or_ad") drop) as [v'|e]; [|discriminate].
    intros H. apply store_inv in H. simpl.
    exists (JDict (dict_set "media_or_ad" v' kvs)). tauto.
  - intros H. inversion H; subst. exists (JDict kvs).
    rewrite <- E, update_same. auto.
Qed.

Lemma patch_comment_spec P drop l w w' :
  patch_comment P drop (JRef l) w = (w', Ok tt) ->
  exists v, (fun x => comment P x drop) (nth l (heap w) JNull) = Ok v /\
            heap w' = update l v (heap w) /\
            script w' = script w /\ log w' = log w.
Proof.
  unfold patch_comment.
  destruct (comment P (nth l (heap w) JNull) drop) as [v'|e]; [|discriminate].
  intros H. apply store_inv in H. exists v'. tauto.
Qed.

Lemma mapM_feed_refs P drop l w w' :
  mapM_ (patch_feed_item P drop) l w = (w', Ok tt) -> Forall is_ref l.
Proof.
  revert w. induction l as [|x l IH]; intros w H; [constructor|].
  apply mapM_cons in H. destruct H as (w1 & H1 & H2).
  constructor; [eapply patch_feed_item_ref; eauto | eapply IH; eauto].
Qed.

(** Values of objects outside the patched cells. *)
Lemma view_frame h h' l ls :
  (forall a, ~ In a ls -> nth a h' JNull = nth a h JNull) ->
  (forall a, In a (refs_of l) -> ~ In a ls) ->
  map (deref h') l = map (deref h) l.
Proof.
  intros Hf. induction l as [|x l IH]; intros Hd; simpl; [reflexivity|].
  f_equal.
  - destruct x; simpl; auto. apply Hf, Hd. simpl. now left.
  - apply IH. intros a Ha. apply Hd. destruct x; simpl; auto.
Qed.

Lemma fetched_layout items s j w res acc :
  fetched items s j w res acc ->
  exists hp earlier last,
    acc = earlier ++ last /\
    iter_values (get_default res items (JList [])) = Ok last /\
    (exists ext, heap w = hp ++ ext) /\
    Forall (ref_below (length hp)) earlier /\
    map (deref hp) earlier = pages_items items s j /\
    Forall (ref_in (length hp) (length (heap w))) last /\
    map (deref (heap w)) last = wire_items items (s j) /\
    NoDup (refs_of last).
Proof.
  intros (body & hp & earlier & last & Hs & Hm & Hit & -> & Hb & Hv & Hnd & _).
  pose proof (materialize_items _ _ items Hm) as I.
  rewrite Hs. simpl.
  destruct (iter_values (get_default body items (JList []))) as [xs|e].
  2:{ rewrite I in Hit. discriminate. }
  destruct I as (last' & Hit' & Hin & Hd & Hnd').
  rewrite Hit in Hit'. inversion Hit'; subst last'.
  exists hp, earlier, last. repeat split; auto.
  eapply materialize_grows; eauto.
Qed.

Lemma refs_below_not_in hp hw earlier last a :
  Forall (ref_below hp) earlier -> Forall (ref_in hp hw) last ->
  In a (refs_of earlier) -> ~ In a (refs_of last).
Proof.
  intros Hb Hin Ha Hl. apply refs_of_In in Ha, Hl.
  rewrite Forall_forall in Hb, Hin.
  specialize (Hb _ Ha). specialize (Hin _ Hl). simpl in *. lia.
Qed.

(** The patch of [feed_timeline] after the fetch: the objects of the last
    response are patched, the values of all earlier ones are as served. *)
Lemma feed_patch_view P drop s j w1 res media w2 last :
  fetched "feed_items" s j w1 res media ->
  iter_values (get_default res "feed_items" (JList [])) = Ok last ->
  mapM_ (patch_feed_item P drop) last w1 = (w2, Ok tt) ->
  script w2 = script w1 /\ log w2 = log w1 /\
  exists patched,
    rmap (patched_feed_item P drop) (wire_items "feed_items" (s j)) = Ok patched /\
    view w2 media = pages_items "feed_items" s j ++ patched.
Proof.
  intros F Hit H.
  destruct (fetched_layout F)
    as (hp & earlier & last' & -> & Hit' & (ext & Hext) & Hb & Hv & Hin & Hd & Hnd).
  rewrite Hit in Hit'. inversion Hit'; subst last'. clear Hit'.
  pose proof (mapM_feed_refs _ _ _ _ H) as Hr.
  rewrite (is_ref_map Hr) in H.
  apply (@mapM_refs _ _ (@patch_feed_item_spec P drop)) in H; auto.
  2:{ intros l Hl. apply refs_of_In in Hl. rewrite Forall_forall in Hin.
      specialize (Hin _ Hl). simpl in Hin. lia. }
  destruct H as (A1 & A2 & A3 & A4 & A5).
  split; [assumption|]. split; [assumption|].
  assert (E : map (fun l => nth l (heap w1) JNull) (refs_of last)
              = wire_items "feed_items" (s j)).
  { rewrite <- Hd. rewrite (is_ref_map Hr) at 2. now rewrite map_map. }
  rewrite E in A5.
  exists (map (fun l => nth l (heap w2) JNull) (refs_of last)).
  split; [assumption|].
  unfold view. rewrite map_app. f_equal.
  - rewrite <- Hv.
    rewrite (@view_frame (heap w1) (heap w2) earlier (refs_of last) A4).
    + rewrite Hext. now apply deref_app.
    + intros a Ha. eapply refs_below_not_in; eauto.
  - rewrite (is_ref_map Hr) at 1. now rewrite map_map.
Qed.

(** ** Sorting *)

Lemma rmap_Forall2 {A B} (f : A -> result B) : forall l ys,
  rmap f l = Ok ys -> Forall2 (fun x y => f x = Ok y) l ys.
Proof.
  induction l as [|x l IH]; intros ys H; simpl in H.
  - inversion H. constructor.
  - destruct (f x) as [y|e] eqn:E; [|discriminate]. simpl in H.
    destruct (rmap f l) as [ys'|e]; [|discriminate]. simpl in H.
    inversion H; subst. constructor; auto.
Qed.

Lemma Forall2_rmap {A B} (f : A -> result B) : forall l ys,
  Forall2 (fun x y => f x = Ok y) l ys -> rmap f l = Ok ys.
Proof.
  induction 1 as [|x y l ys H _ IH]; simpl; [reflexivity|].
  now rewrite H, IH.
Qed.

Lemma string_ltb_asym a b : String.ltb a b = true -> String.ltb b a = false.
Proof.
  unfold String.ltb. rewrite (String.compare_antisym a b).
  destruct (String.compare b a); simpl; congruence.
Qed.

Lemma string_ltb_lt a b :
  String.ltb a b = true <-> OrderedTypeEx.String_as_OT.lt a b.
Proof.
  rewrite <- OrderedTypeEx.String_as_OT.cmp_lt.
  unfold String.ltb, OrderedTypeEx.String_as_OT.cmp.
  destruct (String.compare a b); split; congruence.
Qed.

Lemma string_ltb_total a b :
  String.ltb a b = false -> a = b \/ String.ltb b a = true.
Proof.
  unfold String.ltb. rewrite (String.compare_antisym b a).
  destruct (String.compare a b) eqn:E; simpl; auto; try discriminate.
  left. now apply String.compare_eq_iff.
Qed.

Lemma string_leb_trans a b c :
  String.ltb b a = false -> String.ltb c b = false -> String.ltb c a = false.
Proof.
  intros H1 H2. destruct (String.ltb c a) eqn:E; [|reflexivity].
  exfalso.
  destruct (string_ltb_total _ _ H1) as [Hba|Hab].
  - subst b. congruence.
  - destruct (string_ltb_total _ _ H2) as [Hcb|Hbc].
    + subst c. apply string_ltb_asym in E. congruence.
    + apply string_ltb_lt in E, Hab, Hbc.
      pose proof (OrderedTypeEx.String_as_OT.lt_trans _ _ _
                    (OrderedTypeEx.String_as_OT.lt_trans _ _ _ Hab Hbc) E) as C.
      apply OrderedTypeEx.String_as_OT.lt_not_eq in C. now apply C.
Qed.

Section SortSpec.
Variable good : json -> Prop.
Hypothesis total : forall a b, good a -> good b -> exists c, py_lt a b = Ok c.
Hypothesis asym : forall a b, good a -> good b ->
  py_lt a b = Ok true -> py_lt b a = Ok false.
Hypothesis trans : forall a b c, good a -> good b -> good c ->
  py_lt b a = Ok false -> py_lt c b = Ok false -> py_lt c a = Ok false.

#[local] Abbreviation R := (fun p q : json * json => py_lt (fst q) (fst p) = Ok false).
#[local] Abbreviation G := (fun p : json * json => good (fst p)).

Lemma insert_by_spec x : forall l,
  G x -> Forall G l -> StronglySorted R l ->
  exists r, insert_by x l = Ok r /\ Permutation r (x :: l) /\
            StronglySorted R r.
Proof.
  induction l as [|y l IH]; intros Gx Gl Sl; simpl.
  - exists [x]. repeat split; auto. repeat constructor.
  - inversion Gl as [|? ? Gy Gl']; subst.
    inversion Sl as [|? ? Sl' Hy]; subst.
    destruct (total Gy Gx) as [[|] E]; rewrite E; simpl.
    + destruct (IH Gx Gl' Sl') as (r & -> & Pr & Sr). simpl.
      exists (y :: r). repeat split.
      * rewrite Pr. apply perm_swap.
      * constructor; [assumption|].
        apply Forall_forall. intros z Hz.
        apply (Permutation_in _ Pr) in Hz. destruct Hz as [<-|Hz].
        -- cbn beta. now apply asym.
        -- rewrite Forall_forall in Hy. now apply Hy.
    + exists (x :: y :: l). repeat split; auto.
      constructor; [assumption|]. constructor; [exact E|].
      apply Forall_forall. intros z Hz. rewrite Forall_forall in Hy, Gl'.
      cbn beta.
      eapply trans with (b := fst y); auto;
        try (now apply Gl'); try (now apply Hy).
Qed.

Lemma sort_by_spec : forall l,
  Forall G l ->
  exists r, sort_by l = Ok r /\ Permutation r l /\ StronglySorted R r.
Proof.
  induction l as [|x l IH]; intros Gl; simpl.
  - exists []. repeat split; auto. constructor.
  - inversion Gl as [|? ? Gx Gl']; subst.
    destruct (IH Gl') as (r & -> & Pr & Sr). simpl.
    destruct (@insert_by_spec x r Gx) as (r' & E & Pr' & Sr'); auto.
    + apply Forall_forall. intros z Hz. rewrite Forall_forall in Gl'.
      apply Gl'. eapply Permutation_in; eauto.
    + exists r'. repeat split; auto. rewrite Pr'. now constructor.
Qed.
End SortSpec.

Lemma StronglySorted_snoc {A} (R : A -> A -> Prop) l x :
  StronglySorted R l -> Forall (fun y => R y x) l -> StronglySorted R (l ++ [x]).
Proof.
  induction 1 as [|y l Sl IH Hy]; intros Hx; simpl.
  - repeat constructor.
  - inversion Hx; subst. constructor; [auto|].
    apply Forall_app. split; [assumption|]. now constructor.
Qed.

Lemma StronglySorted_rev {A} (R : A -> A -> Prop) l :
  StronglySorted R l -> StronglySorted (fun a b => R b a) (rev l).
Proof.
  induction 1 as [|x l Sl IH Hx]; simpl; [constructor|].
  apply StronglySorted_snoc; [assumption|]. now apply Forall_rev.
Qed.

Lemma StronglySorted_map {A B} (R : A -> A -> Prop) (R' : B -> B -> Prop)
    (Q : A -> Prop) (f : A -> B) l :
  (forall a b, Q a -> Q b -> R a b -> R' (f a) (f b)) ->
  Forall Q l -> StronglySorted R l -> StronglySorted R' (map f l).
Proof.
  intros HR HQ. induction 1 as [|x l Sl IH Hx]; simpl; [constructor|].
  inversion HQ as [|? ? Qx Ql]; subst.
  constructor; [auto|]. apply Forall_map.
  rewrite Forall_forall in Hx, Ql |- *. intros y Hy. apply HR; auto.
Qed.

Lemma py_lt_int_facts :
  (forall a b, is_int a -> is_int b -> exists c, py_lt a b = Ok c) /\
  (forall a b, is_int a -> is_int b ->
     py_lt a b = Ok true -> py_lt b a = Ok false) /\
  (forall a b c, is_int a -> is_int b -> is_int c ->
     py_lt b a = Ok false -> py_lt c b = Ok false -> py_lt c a = Ok false).
Proof.
  repeat split.
  - intros a b [x ->] [y ->]. simpl. eauto.
  - intros a b [x ->] [y ->]. simpl. intros H. injection H as H'. f_equal.
    apply Z.ltb_lt in H'. apply Z.ltb_ge. lia.
  - intros a b c [x ->] [y ->] [z ->]. simpl. intros H1 H2.
    injection H1 as H1'. injection H2 as H2'. f_equal.
    apply Z.ltb_ge in H1', H2'. apply Z.ltb_ge. lia.
Qed.

Lemma py_lt_str_facts :
  (forall a b, is_str a -> is_str b -> exists c, py_lt a b = Ok c) /\
  (forall a b, is_str a -> is_str b ->
     py_lt a b = Ok true -> py_lt b a = Ok false) /\
  (forall a b c, is_str a -> is_str b -> is_str c ->
     py_lt b a = Ok false -> py_lt c b = Ok false -> py_lt c a = Ok false).
Proof.
  repeat split.
  - intros a b [x ->] [y ->]. simpl. eauto.
  - intros a b [x ->] [y ->]. simpl. intros H. injection H as H'. f_equal.
    now apply string_ltb_asym.
  - intros a b c [x ->] [y ->] [z ->]. simpl. intros H1 H2.
    injection H1 as H1'. injection H2 as H2'. f_equal.
    eapply string_leb_trans; eauto.
Qed.

(** [sorted] on keys of one kind: the result is a permutation of the
    input, in key order. *)
Lemma sorted_spec (key : json -> result json) l reverse keys :
  rmap key l = Ok keys ->
  Forall is_int keys \/ Forall is_str keys ->
  exists r, sorted key l reverse = Ok r /\ Permutation r l /\
            StronglySorted (in_order key reverse) r.
Proof.
  intros Hk Hkind. unfold sorted. rewrite Hk. simpl.
  pose proof (rmap_Forall2 _ _ Hk) as F2.
  assert (Hsnd : map snd (combine keys l) = l).
  { clear Hk Hkind. induction F2; simpl; congruence. }
  assert (Hkey : Forall (fun p => key (snd p) = Ok (fst p)) (combine keys l)).
  { clear Hk Hkind Hsnd. induction F2; simpl; constructor; auto. }
  assert (Hgood : forall good, Forall good keys ->
                    Forall (fun p => good (fst p)) (combine keys l)).
  { intros good Hg. clear Hk Hkind Hsnd Hkey. revert Hg.
    induction F2; simpl; intros Hg; [constructor|].
    inversion Hg; subst. constructor; auto. }
  assert (Hsort : forall kl, Permutation kl (combine keys l) ->
            exists r, sort_by kl = Ok r /\ Permutation r kl /\
              StronglySorted (fun p q => py_lt (fst q) (fst p) = Ok false) r).
  { intros kl Pk. destruct Hkind as [Hi|Hs].
    - destruct py_lt_int_facts as (T & A & Tr).
      apply (@sort_by_spec is_int T A Tr).
      apply Forall_forall. intros p Hp.
      pose proof (Hgood _ Hi) as Hg. rewrite Forall_forall in Hg.
      apply Hg. eapply Permutation_in; eauto.
    - destruct py_lt_str_facts as (T & A & Tr).
      apply (@sort_by_spec is_str T A Tr).
      apply Forall_forall. intros p Hp.
      pose proof (Hgood _ Hs) as Hg. rewrite Forall_forall in Hg.
      apply Hg. eapply Permutation_in; eauto. }
  destruct reverse.
  - destruct (Hsort (rev (combine keys l))) as (r & -> & Pr & Sr).
    { symmetry. apply Permutation_rev. }
    simpl. exists (map snd (rev r)). repeat split.
    + transitivity (map snd (combine keys l)); [|now rewrite Hsnd].
      apply Permutation_map.
      rewrite <- Permutation_rev, Pr. symmetry. apply Permutation_rev.
    + apply StronglySorted_rev in Sr.
      eapply StronglySorted_map
        with (Q := fun p => key (snd p) = Ok (fst p)); [| |exact Sr].
      * intros a b Qa Qb Hab. exists (fst a), (fst b). auto.
      * apply Forall_forall. intros p Hp. rewrite Forall_forall in Hkey.
        apply Hkey. apply in_rev.
        eapply Permutation_in; [exact Pr|]. now apply in_rev.
  - destruct (Hsort (combine keys l)) as (r & -> & Pr & Sr); [reflexivity|].
    simpl. exists (map snd r). repeat split.
    + transitivity (map snd (combine keys l)); [|now rewrite Hsnd].
      now apply Permutation_map.
    + eapply StronglySorted_map
        with (Q := fun p => key (snd p) = Ok (fst p)); [| |exact Sr].
      * intros a b Qa Qb Hab. exists (fst a), (fst b). auto.
      * apply Forall_forall. intros p Hp. rewrite Forall_forall in Hkey.
        apply Hkey. eapply Permutation_in; eauto.
Qed.

(** ** [media_n_comments]: patch and sort after the fetch *)

Section PatchRaise.
Variables (step : json -> M unit) (f : json -> result json).
Hypothesis Hstep : forall l w w',
  step (JRef l) w = (w', Ok tt) ->
  exists v, f (nth l (heap w) JNull) = Ok v /\
            heap w' = update l v (heap w) /\
            script w' = script w /\ log w' = log w.
Hypothesis Hraise : forall l w w' e,
  step (JRef l) w = (w', Raise e) -> f (nth l (heap w) JNull) = Raise e.

Lemma mapM_refs_raise : forall ls w w' e,
  NoDup ls ->
  mapM_ step (map JRef ls) w = (w', Raise e) ->
  exists l, In l ls /\ f (nth l (heap w) JNull) = Raise e.
Proof.
  induction ls as [|a ls IH]; intros w w' e ND H; simpl in H.
  - discriminate.
  - unfold bind in H. destruct (step (JRef a) w) as [w1 [[]|e1]] eqn:E.
    + inversion ND as [|? ? Hna ND']; subst.
      apply Hstep in E. destruct E as (v & _ & Hh & _).
      destruct (IH _ _ _ ND' H) as (l & Hl & Hf).
      exists l. split; [now right|].
      rewrite Hh, nth_update_other in Hf; auto. intros ->. contradiction.
    + inversion H; subst. exists a. split; [now left|]. eapply Hraise; eauto.
Qed.
End PatchRaise.

Lemma patch_comment_raise P drop l w w' e :
  patch_comment P drop (JRef l) w = (w', Raise e) ->
  (fun x => comment P x drop) (nth l (heap w) JNull) = Raise e.
Proof.
  unfold patch_comment.
  destruct (comment P (nth l (heap w) JNull) drop) as [v'|e'].
  - intros H. apply store_inv in H. destruct H as (H & _). discriminate.
  - intros H. inversion H. reflexivity.
Qed.

Lemma rmap_map {A B C} (f : B -> result C) (g : A -> B) l :
  rmap f (map g l) = rmap (fun x => f (g x)) l.
Proof. induction l as [|x l IH]; simpl; [reflexivity|]. now rewrite IH. Qed.

Lemma rmap_In_raise {A B} (f : A -> result B) l ys x e :
  rmap f l = Ok ys -> In x l -> f x = Raise e -> False.
Proof.
  intros H. apply rmap_Forall2 in H. induction H as [|a y l ys Ha _ IH].
  - intros [].
  - intros [->|Hin] He; [congruence|auto].
Qed.

(** The patch of [media_n_comments] reaches every accumulated comment. *)
Lemma comments_patch_view P drop s j w1 res cs vs :
  fetched "comments" s j w1 res cs ->
  (forall i, i < S j -> list_page "comments" (s i)) ->
  rmap (fun x => comment P x drop) (pages_items "comments" s (S j)) = Ok vs ->
  exists w2,
    mapM_ (patch_comment P drop) cs w1 = (w2, Ok tt) /\
    script w2 = script w1 /\ log w2 = log w1 /\ view w2 cs = vs.
Proof.
  intros F HL Hvs.
  pose proof (fetched_refs F HL) as Hr.
  destruct (fetched_view F) as (V & ND & B & _).
  assert (E : map (fun l => nth l (heap w1) JNull) (refs_of cs)
              = pages_items "comments" s (S j)).
  { rewrite <- V. unfold view. rewrite (is_ref_map Hr) at 2. now rewrite map_map. }
  assert (Hb : forall l, In l (refs_of cs) -> l < length (heap w1)).
  { intros l Hl. apply refs_of_In in Hl. rewrite Forall_forall in B.
    apply (B _ Hl). }
  destruct (mapM_ (patch_comment P drop) cs w1) as [w2 [[]|e]] eqn:Em.
  - exists w2. rewrite (is_ref_map Hr) in Em.
    apply (@mapM_refs _ _ (@patch_comment_spec P drop)) in Em; auto.
    destruct Em as (A1 & A2 & A3 & A4 & A5).
    rewrite E, Hvs in A5. inversion A5 as [A6].
    repeat split; auto.
    unfold view. rewrite (is_ref_map Hr) at 1. now rewrite map_map.
  - exfalso. rewrite (is_ref_map Hr) in Em.
    apply (@mapM_refs_raise _ _ (@patch_comment_spec P drop)
             (@patch_comment_raise P drop)) in Em; auto.
    destruct Em as (l & Hl & Hf).
    eapply (rmap_In_raise _ _ _ Hvs); [|exact Hf].
    rewrite <- E. apply in_map_iff. eauto.
Qed.

Lemma Forall_keyed kind self P xs :
  Forall (keyed kind self P) xs ->
  exists vs keys,
    rmap (final_comment self P) xs = Ok vs /\
    rmap (fun v => getitem v "created_time") vs = Ok keys /\
    Forall kind keys.
Proof.
  induction 1 as [|x xs (v & k & Hv & Hk & Hkind) _ (vs & keys & A & B & C)].
  - exists [], []. repeat split; constructor.
  - exists (v :: vs), (k :: keys). simpl. rewrite Hv, A, Hk, B. simpl.
    repeat split. now constructor.
Qed.

Lemma pages_items_In items s k x :
  In x (pages_items items s k) <->
  exists i, i < k /\ In x (wire_items items (s i)).
Proof.
  unfold pages_items. rewrite in_concat. split.
  - intros (l & Hl & Hx). apply in_map_iff in Hl. destruct Hl as (i & <- & Hi).
    apply in_seq in Hi. exists i. split; [lia|assumption].
  - intros (i & Hi & Hx). exists (wire_items items (s i)). split; [|assumption].
    apply in_map_iff. exists i. split; [reflexivity|]. apply in_seq. lia.
Qed.

(** [media_n_comments] once the fetch has returned pages [0..j]. *)
Lemma media_n_comments_spec P fuel self media_id n reverse kwargs w w1
    results comments j vs keys :
  comments_pages fuel media_id n kwargs w = Some (w1, Ok (results, comments)) ->
  fetched "comments" (served w) j w1 results comments ->
  requests w1 = requests w + S j ->
  (forall i, i < S j -> list_page "comments" (served w i)) ->
  rmap (final_comment self P) (pages_items "comments" (served w) (S j)) = Ok vs ->
  rmap (fun v => getitem v "created_time") vs = Ok keys ->
  Forall is_int keys \/ Forall is_str keys ->
  exists w' l,
    media_n_comments P fuel self media_id n reverse kwargs w = Some (w', Ok l) /\
    requests w' = requests w + S j /\
    view w' comments = vs /\
    sorted (created_time (heap w')) comments reverse = Ok l /\
    Permutation l comments /\
    StronglySorted (in_order (created_time (heap w')) reverse) l.
Proof.
  intros Hf F Hreq HL Hvs Hkeys Hkind.
  unfold media_n_comments. rewrite Hf. unfold final_comment in Hvs.
  assert (Hpatch : exists w2,
            (if auto_patch self
             then mapM_ (patch_comment P (drop_incompat_keys self)) comments
             else ret tt) w1 = (w2, Ok tt) /\
            log w2 = log w1 /\ view w2 comments = vs).
  { destruct (auto_patch self).
    - destruct (comments_patch_view _ _ F HL Hvs) as (w2 & A & _ & B & C).
      exists w2. auto.
    - exists w1. repeat split.
      destruct (fetched_view F) as (V & _). rewrite V.
      clear -Hvs. revert vs Hvs.
      induction (pages_items "comments" (served w) (S j)) as [|x xs IH];
        intros vs H; simpl in H.
      + now inversion H.
      + destruct (rmap (fun x => Ok x) xs) as [ys|e]; [|discriminate].
        simpl in H. inversion H; subst. f_equal. now apply IH. }
  destruct Hpatch as (w2 & Hp & Hlog & Hview).
  unfold bind at 1. rewrite Hp.
  assert (Hk : rmap (created_time (heap w2)) comments = Ok keys).
  { unfold created_time. rewrite <- Hkeys, <- Hview. unfold view.
    now rewrite rmap_map. }
  destruct (@sorted_spec _ _ reverse _ Hk Hkind) as (l & Hs & Pl & Sl).
  exists w2, l. rewrite Hs. repeat split; auto.
  unfold requests in *. now rewrite Hlog.
Qed.

Lemma list_page_wf items p : list_page items p -> wf_page items p.
Proof.
  intros (d & xs & -> & H). exists d, xs. split; [reflexivity|]. now rewrite H.
Qed.

Lemma no_cursor_stops flag items s n L :
  page_truthy "next_max_id" (s L) = false ->
  continue_after flag items s n L = false.
Proof.
  intros H. unfold continue_after. rewrite H.
  now rewrite andb_false_r.
Qed.

Section FetchBounded.
Variables (flag items : string) (call : dict -> M dict).
Hypothesis Hcall :
  forall args w, exists ep ps qs u, call args w = _call_api ep ps qs u w.

(** A fetch never goes past a page on which the loop condition fails. *)
Lemma page_fetch_bounded fuel n args w w' r L :
  (forall i, i <= L -> wf_page items (served w i)) ->
  continue_after flag items (served w) n L = false ->
  page_fetch flag items call fuel n args w = Some (w', r) ->
  exists j res acc,
    r = Ok (res, acc) /\ j <= L /\ requests w' = requests w + S j /\
    fetched items (served w) j w' res acc.
Proof.
  intros Hwf Hstop H. apply (@page_fetch_inv _ _ _ Hcall) in H.
  destruct H as (_ & H). destruct r as [[res acc]|e].
  - destruct H as (j & Hr & F & Hmid & _). exists j, res, acc.
    repeat split; auto.
    destruct (Nat.le_gt_cases j L) as [|Hlt]; [assumption|].
    destruct (Hmid L Hlt) as (C & _). congruence.
  - destruct H as (k & _ & Hn & Hmid). exfalso.
    destruct (Nat.le_gt_cases k L) as [Hle|Hlt].
    + apply Hn, Hwf, Hle.
    + destruct (Hmid L Hlt) as (C & _). congruence.
Qed.
End FetchBounded.

(** ** Pagination: results *)

Lemma feed_timeline_returns P fuel self n kwargs w o :
  timeline_pages fuel self n kwargs w = Some o ->
  exists o', feed_timeline P fuel self n kwargs w = Some o'.
Proof.
  unfold feed_timeline. intros ->. destruct o as [w1 [[res media]|e]]; eauto.
  destruct (auto_patch self); eauto.
  destruct (bind _ _ w1) as [w2 [u|e]]; eauto.
Qed.

Lemma media_n_comments_returns P fuel self media_id n reverse kwargs w o :
  comments_pages fuel media_id n kwargs w = Some o ->
  exists o', media_n_comments P fuel self media_id n reverse kwargs w = Some o'.
Proof.
  unfold media_n_comments. intros ->. destruct o as [w1 [[res cs]|e]]; eauto.
Qed.

(** The outcome of a helper does not depend on the fuel, once there is
    enough of it. *)
Lemma feed_timeline_fuel P fuel fuel' self n kwargs w o :
  feed_timeline P fuel self n kwargs w = Some o -> fuel <= fuel' ->
  feed_timeline P fuel' self n kwargs w = Some o.
Proof.
  unfold feed_timeline. intros H Hle.
  destruct (timeline_pages fuel self n kwargs w) as [o1|] eqn:E; [|discriminate].
  rewrite timeline_pages_fetch in E.
  apply (@page_fetch_fuel _ _ _ fuel fuel') in E; [|assumption].
  rewrite <- timeline_pages_fetch in E. now rewrite E.
Qed.

Lemma media_n_comments_fuel P fuel fuel' self media_id n reverse kwargs w o :
  media_n_comments P fuel self media_id n reverse kwargs w = Some o ->
  fuel <= fuel' ->
  media_n_comments P fuel' self media_id n reverse kwargs w = Some o.
Proof.
  unfold media_n_comments. intros H Hle.
  destruct (comments_pages fuel media_id n kwargs w) as [o1|] eqn:E; [|discriminate].
  rewrite comments_pages_fetch in E.
  apply (@page_fetch_fuel _ _ _ fuel fuel') in E; [|assumption].
  rewrite <- comments_pages_fetch in E. now rewrite E.
Qed.

(** No page sequence keeps either helper running: [max 0 n] loop
    iterations always suffice. *)
Lemma pagination_bounded P self media_id n reverse kwargs w :
  (exists o, feed_timeline P (Z.to_nat n) self n kwargs w = Some o) /\
  (exists o, media_n_comments P (Z.to_nat n) self media_id n reverse kwargs w
             = Some o).
Proof.
  split.
  - destruct (page_fetch_terminates "more_available" "feed_items" timeline_call
                n (timeline_params self kwargs) w) as (w' & r & H).
    rewrite <- timeline_pages_fetch in H. eapply feed_timeline_returns; eauto.
  - destruct (page_fetch_terminates "has_more_comments" "comments"
                (comments_call ("media/" ++ media_id ++ "/comments/")%string)
                n kwargs w) as (w' & r & H).
    rewrite <- comments_pages_fetch in H.
    eapply media_n_comments_returns; eauto.
Qed.

(** C2.  In [feed_timeline] and [media_n_comments], with every page well
    formed, the fetch returns without raising after [k >= 1] requests, and:
    after the initial page, and after every later page that did not trigger
    the bail-out, the next page is requested if and only if the response's
    more-pages flag is truthy, its [next_max_id] is truthy and the
    accumulated count is below [n]; a page fetched by the loop that carries
    no [next_max_id] or no items ends the loop, whatever its flag says. *)
Theorem next_page_requested_iff self media_id n kwargs w :
  ((forall i, wf_page "feed_items" (served w i)) ->
   exists fuel w' res media k,
     timeline_pages fuel self n kwargs w = Some (w', Ok (res, media)) /\
     requests w' = requests w + k /\ 1 <= k /\
     (forall i, i < k ->
        i = 0 \/ bail_after "feed_items" (served w) i = false ->
        (S i < k <->
         continue_after "more_available" "feed_items" (served w) n i = true)) /\
     (forall i, 0 < i < k ->
        bail_after "feed_items" (served w) i = true -> k = S i)) /\
  ((forall i, wf_page "comments" (served w i)) ->
   exists fuel w' results comments k,
     comments_pages fuel media_id n kwargs w = Some (w', Ok (results, comments)) /\
     requests w' = requests w + k /\ 1 <= k /\
     (forall i, i < k ->
        i = 0 \/ bail_after "comments" (served w) i = false ->
        (S i < k <->
         continue_after "has_more_comments" "comments" (served w) n i = true)) /\
     (forall i, 0 < i < k ->
        bail_after "comments" (served w) i = true -> k = S i)).
Proof.
  split; intros Hwf.
  - destruct (page_fetch_terminates "more_available" "feed_items" timeline_call
                n (timeline_params self kwargs) w) as (w' & r & H).
    destruct (@page_fetch_requests _ _ _ timeline_call_is_call _ _ _ _ _ _ Hwf H)
      as (k & res & acc & -> & Hk).
    rewrite <- timeline_pages_fetch in H.
    exists (Z.to_nat n), w', res, acc, k. split; [exact H|exact Hk].
  - set (ep := ("media/" ++ media_id ++ "/comments/")%string).
    destruct (page_fetch_terminates "has_more_comments" "comments"
                (comments_call ep) n kwargs w) as (w' & r & H).
    destruct (@page_fetch_requests _ _ _ (comments_call_is_call ep) _ _ _ _ _ _ Hwf H)
      as (k & res & acc & -> & Hk).
    unfold ep in H. rewrite <- comments_pages_fetch in H.
    exists (Z.to_nat n), w', res, acc, k. split; [exact H|exact Hk].
Qed.

Lemma demo_pages_wf items :
  items = "feed_items" \/ items = "comments" ->
  forall i, wf_page items (served demo_world i).
Proof.
  intros [-> | ->] i; unfold served; simpl;
    destruct i as [|[|i]]; simpl; eexists; eexists; split; reflexivity.
Defined.

Lemma next_page_requested_iff_witness :
  (forall i, wf_page "feed_items" (served demo_world i)) /\
  (forall i, wf_page "comments" (served demo_world i)) /\
  (exists fuel w' res media k,
     timeline_pages fuel (demo_client true) 50 [] demo_world
     = Some (w', Ok (res, media)) /\
     requests w' = requests demo_world + k /\ 1 <= k) /\
  (exists fuel w' results comments k,
     comments_pages fuel "1" 50 [] demo_world
     = Some (w', Ok (results, comments)) /\
     requests w' = requests demo_world + k /\ 1 <= k).
Proof.
  split; [apply demo_pages_wf; auto|].
  split; [apply demo_pages_wf; auto|].
  destruct (next_page_requested_iff (demo_client true) "1" 50 [] demo_world)
    as (H1 & H2).
  split.
  - destruct (H1 (demo_pages_wf (or_introl eq_refl)))
      as (fuel & w' & res & media & k & A & B & C & _).
    exists fuel, w', res, media, k. auto.
  - destruct (H2 (demo_pages_wf (or_intror eq_refl)))
      as (fuel & w' & res & cs & k & A & B & C & _).
    exists fuel, w', res, cs, k. auto.
Defined.

(** C3.  The pagination loops of [feed_timeline] and [media_n_comments]
    terminate on every page sequence in which some page has a falsy
    more-pages flag, no [next_max_id] or no items, or brings the
    accumulated count to [n]: some amount of fuel lets the helper finish,
    with a result or an exception. *)
Theorem pagination_terminates P self media_id n reverse kwargs w :
  ((exists j, stops_at "more_available" "feed_items" (served w) n j) ->
   exists fuel o, feed_timeline P fuel self n kwargs w = Some o) /\
  ((exists j, stops_at "has_more_comments" "comments" (served w) n j) ->
   exists fuel o,
     media_n_comments P fuel self media_id n reverse kwargs w = Some o).
Proof.
  destruct (pagination_bounded P self media_id n reverse kwargs w) as (A & B).
  split; intros _; exists (Z.to_nat n); assumption.
Qed.

Lemma pagination_terminates_witness :
  (exists j, stops_at "more_available" "feed_items" (served demo_world) 50 j) /\
  (exists j, stops_at "has_more_comments" "comments" (served demo_world) 50 j) /\
  (exists fuel o,
     feed_timeline demo_patch fuel (demo_client true) 50 [] demo_world = Some o) /\
  (exists fuel o,
     media_n_comments demo_patch fuel (demo_client true) "1" 50 false [] demo_world
     = Some o).
Proof.
  assert (H1 : exists j, stops_at "more_available" "feed_items"
                           (served demo_world) 50 j)
    by (exists 2; left; reflexivity).
  assert (H2 : exists j, stops_at "has_more_comments" "comments"
                           (served demo_world) 50 j)
    by (exists 2; left; reflexivity).
  destruct (pagination_terminates demo_patch (demo_client true) "1" 50 false []
              demo_world) as (A & B).
  split; [exact H1|]. split; [exact H2|]. split; [exact (A H1)|exact (B H2)].
Defined.

(** C10.  With [auto_patch] enabled, a [feed_timeline] that returns after
    fetching pages [0..k] has compat-patched the items of page [k], the
    last response, only: the returned list shows the items of all earlier
    pages exactly as they were served, followed by the patched items of the
    last page. *)
Theorem auto_patch_final_page_only P fuel self n kwargs w w' media :
  auto_patch self = true ->
  feed_timeline P fuel self n kwargs w = Some (w', Ok media) ->
  exists k patched,
    requests w' = requests w + S k /\
    rmap (patched_feed_item P (drop_incompat_keys self))
         (wire_items "feed_items" (served w k)) = Ok patched /\
    view w' media = pages_items "feed_items" (served w) k ++ patched.
Proof.
  intros Hap H. unfold feed_timeline in H. rewrite Hap in H.
  destruct (timeline_pages fuel self n kwargs w) as [[w1 [[res media1]|e]]|] eqn:Ef;
    try discriminate.
  rewrite timeline_pages_fetch in Ef.
  apply (@page_fetch_inv _ _ _ timeline_call_is_call) in Ef.
  destruct Ef as (_ & j & Hreq & F & _).
  unfold bind, lift in H.
  destruct (fetched_layout F) as (_ & _ & last & _ & Hit & _).
  rewrite Hit in H.
  destruct (mapM_ _ last w1) as [w2 [[]|e]] eqn:Em; inversion H; subst.
  destruct (@feed_patch_view _ _ _ _ _ _ _ _ _ F Hit Em) as (_ & Hlog & patched & Hp & Hv).
  exists j, patched. repeat split; auto.
  unfold requests in *. now rewrite Hlog.
Qed.

Lemma demo_auto_patch_run :
  exists w' media,
    feed_timeline demo_patch 2 (demo_client true) 50 [] demo_world
    = Some (w', Ok media).
Proof. eexists. eexists. vm_compute. reflexivity. Defined.

Lemma auto_patch_final_page_only_witness :
  exists w' media k patched,
    feed_timeline demo_patch 2 (demo_client true) 50 [] demo_world
    = Some (w', Ok media) /\
    requests w' = requests demo_world + S k /\
    rmap (patched_feed_item demo_patch false)
         (wire_items "feed_items" (served demo_world k)) = Ok patched /\
    view w' media = pages_items "feed_items" (served demo_world) k ++ patched.
Proof.
  destruct demo_auto_patch_run as (w' & media & H).
  destruct (@auto_patch_final_page_only demo_patch 2 (demo_client true) 50 []
              demo_world w' media eq_refl H) as (k & patched & A).
  exists w', media, k, patched. split; [exact H|exact A].
Defined.

(** C9, as stated, fails on a page sequence whose comments have no
    [created_time]: on one page of two comments dated by [created_at_utc]
    only, with [auto_patch] off, [media_n_comments] fetches the page and
    raises [KeyError]; it returns no list. *)
Lemma comments_sorted_counterexample :
  (forall i, list_page "comments" (served demo_undated_world i)) /\
  length (pages_items "comments" (served demo_undated_world) 1) = 2 /\
  exists w',
    media_n_comments demo_patch 2 (demo_client false) "1" 150 false []
      demo_undated_world
    = Some (w', Raise (KeyError "created_time")) /\
    requests w' = 1.
Proof.
  split; [intros i; eexists; eexists; split; reflexivity|].
  split; [reflexivity|].
  eexists. split; vm_compute; reflexivity.
Qed.

(** C9, amended.  When every page is an array of comments that end up
    (after the compat patch, if enabled) with [created_time] keys of one
    kind, all integers or all strings, [media_n_comments] returns a
    permutation of the concatenated comments of the fetched pages, sorted
    by [created_time]: ascending for [reverse = false], descending for
    [reverse = true]. *)
Theorem comments_sorted_by_created_time P self media_id n reverse kwargs w :
  (forall i, list_page "comments" (served w i)) ->
  (forall i x, In x (wire_items "comments" (served w i)) ->
               keyed is_int self P x) \/
  (forall i x, In x (wire_items "comments" (served w i)) ->
               keyed is_str self P x) ->
  exists fuel w' l comments j,
    media_n_comments P fuel self media_id n reverse kwargs w = Some (w', Ok l) /\
    requests w' = requests w + S j /\
    rmap (final_comment self P) (pages_items "comments" (served w) (S j))
    = Ok (view w' comments) /\
    Permutation l comments /\
    StronglySorted (in_order (created_time (heap w')) reverse) l.
Proof.
  intros HL Hkeyed.
  set (ep := ("media/" ++ media_id ++ "/comments/")%string).
  destruct (page_fetch_terminates "has_more_comments" "comments"
              (comments_call ep) n kwargs w) as (w1 & r & H).
  pose proof H as H'.
  apply (@page_fetch_inv _ _ _ (comments_call_is_call ep)) in H'.
  destruct H' as (_ & H'). destruct r as [[res cs]|e].
  2:{ destruct H' as (k & _ & Hn & _). destruct Hn. apply list_page_wf, HL. }
  destruct H' as (j & Hreq & F & _).
  unfold ep in H. rewrite <- comments_pages_fetch in H.
  assert (Hk : exists vs keys,
            rmap (final_comment self P)
                 (pages_items "comments" (served w) (S j)) = Ok vs /\
            rmap (fun v => getitem v "created_time") vs = Ok keys /\
            (Forall is_int keys \/ Forall is_str keys)).
  { destruct Hkeyed as [Hi|Hs].
    - destruct (@Forall_keyed is_int self P
                  (pages_items "comments" (served w) (S j)))
        as (vs & keys & A & B & C).
      { apply Forall_forall. intros x Hx. apply pages_items_In in Hx.
        destruct Hx as (i & _ & Hx). eapply Hi; eauto. }
      exists vs, keys. auto.
    - destruct (@Forall_keyed is_str self P
                  (pages_items "comments" (served w) (S j)))
        as (vs & keys & A & B & C).
      { apply Forall_forall. intros x Hx. apply pages_items_In in Hx.
        destruct Hx as (i & _ & Hx). eapply Hs; eauto. }
      exists vs, keys. auto. }
  destruct Hk as (vs & keys & Hvs & Hkeys & Hkind).
  destruct (@media_n_comments_spec P (Z.to_nat n) self media_id n reverse kwargs
              w w1 res cs j vs keys H F Hreq (fun i _ => HL i) Hvs Hkeys Hkind)
    as (w' & l & A & B & C & _ & D & E).
  exists (Z.to_nat n), w', l, cs, j. rewrite C. auto.
Qed.

Lemma demo_comments_list_pages : forall i, list_page "comments" (served demo_world i).
Proof.
  intros i. unfold served. simpl.
  destruct i as [|[|i]]; simpl; eexists; eexists; split; reflexivity.
Defined.

Lemma demo_comments_keyed patch :
  forall i x, In x (wire_items "comments" (served demo_world i)) ->
              keyed is_int (demo_client patch) demo_patch x.
Proof.
  intros i x. unfold served. simpl.
  destruct patch; destruct i as [|[|i]]; simpl;
    repeat (intros [<-|H]; [|revert H]); try (intros []);
    eexists; eexists; (split; [reflexivity|]); (split; [reflexivity|]);
    eexists; reflexivity.
Defined.

Lemma comments_sorted_by_created_time_witness :
  (forall i, list_page "comments" (served demo_world i)) /\
  exists fuel w' l comments j,
    media_n_comments demo_patch fuel (demo_client true) "1" 50 true [] demo_world
    = Some (w', Ok l) /\
    requests w' = requests demo_world + S j /\
    rmap (final_comment (demo_client true) demo_patch)
         (pages_items "comments" (served demo_world) (S j))
    = Ok (view w' comments) /\
    Permutation l comments /\
    StronglySorted (in_order (created_time (heap w')) true) l.
Proof.
  split; [exact demo_comments_list_pages|].
  exact (@comments_sorted_by_created_time demo_patch (demo_client true) "1" 50
           true [] demo_world demo_comments_list_pages
           (or_introl (demo_comments_keyed true))).
Defined.

(** C1, as stated, fails for [media_n_comments]: on the three demo pages,
    the last of which has no cursor, it returns the comments ordered by
    [created_time], not in fetch order. *)
Lemma fetch_order_counterexample :
  page_truthy "next_max_id" (served demo_world 2) = false /\
  exists w' l,
    media_n_comments demo_patch 2 (demo_client false) "1" 50 false [] demo_world
    = Some (w', Ok l) /\
    requests w' = 3 /\
    view w' l <> pages_items "comments" (served demo_world) 3.
Proof.
  split; [reflexivity|].
  eexists. eexists. split; [vm_compute; reflexivity|].
  split; [reflexivity|]. vm_compute. discriminate.
Qed.

(** C1, amended.  On a page sequence whose page [L] has no [next_max_id]
    and whose pages up to [L] are well formed, both helpers stop after at
    most page [L].  [feed_timeline] returns exactly the concatenation, in
    fetch order, of the item lists of the fetched pages (with [auto_patch]
    the items of the last fetched page as the compat patch left them, and no
    list if that patch raises).  [media_n_comments] returns that
    concatenation of its pages' comments passed through [sorted] on
    [created_time], a permutation of it. *)
Theorem pages_concatenated P self media_id n reverse kwargs w L :
  page_truthy "next_max_id" (served w L) = false ->
  ((forall i, i <= L -> wf_page "feed_items" (served w i)) ->
   exists fuel w' r j,
     feed_timeline P fuel self n kwargs w = Some (w', r) /\
     requests w' = requests w + S j /\ j <= L /\
     match r with
     | Ok media =>
         if auto_patch self then
           exists patched,
             rmap (patched_feed_item P (drop_incompat_keys self))
                  (wire_items "feed_items" (served w j)) = Ok patched /\
             view w' media = pages_items "feed_items" (served w) j ++ patched
         else view w' media = pages_items "feed_items" (served w) (S j)
     | Raise _ => auto_patch self = true
     end) /\
  ((forall i, i <= L -> list_page "comments" (served w i)) ->
   (forall i x, i <= L -> In x (wire_items "comments" (served w i)) ->
                keyed is_int self P x) \/
   (forall i x, i <= L -> In x (wire_items "comments" (served w i)) ->
                keyed is_str self P x) ->
   exists fuel w' l comments j,
     media_n_comments P fuel self media_id n reverse kwargs w = Some (w', Ok l) /\
     requests w' = requests w + S j /\ j <= L /\
     rmap (final_comment self P) (pages_items "comments" (served w) (S j))
     = Ok (view w' comments) /\
     sorted (created_time (heap w')) comments reverse = Ok l /\
     Permutation l comments).
Proof.
  intros Hcur. split.
  - intros Hwf.
    destruct (page_fetch_terminates "more_available" "feed_items" timeline_call
                n (timeline_params self kwargs) w) as (w1 & r1 & H).
    destruct (@page_fetch_bounded _ _ _ timeline_call_is_call _ _ _ _ _ _ L Hwf
                (no_cursor_stops _ _ _ _ _ Hcur) H)
      as (j & res & media & -> & Hj & Hreq & F).
    rewrite <- timeline_pages_fetch in H.
    exists (Z.to_nat n). unfold feed_timeline. rewrite H.
    destruct (auto_patch self) eqn:Hap.
    + destruct (fetched_layout F) as (_ & _ & last & _ & Hit & _).
      unfold bind, lift. rewrite Hit.
      destruct (mapM_ _ last w1) as [w2 [[]|e]] eqn:Em.
      * destruct (@feed_patch_view _ _ _ _ _ _ _ _ _ F Hit Em)
          as (_ & Hlog & patched & Hp & Hv).
        exists w2, (Ok media), j. repeat split; auto.
        -- unfold requests in *. now rewrite Hlog.
        -- exists patched. auto.
      * assert (Hlog : log w2 = log w1).
        { clear -Em. revert w1 Em. induction last as [|x last IH]; intros w1 Em.
          - discriminate.
          - simpl in Em. unfold bind in Em.
            destruct (patch_feed_item P (drop_incompat_keys self) x w1)
              as [w3 [[]|e1]] eqn:E1.
            + rewrite (IH _ Em). destruct x; simpl in E1; try discriminate.
              apply patch_feed_item_spec in E1. now destruct E1 as (_ & _ & _ & _ & ->).
            + inversion Em; subst. unfold patch_feed_item in E1.
              destruct x; try (inversion E1; reflexivity).
              destruct (nth l (heap w1) JNull); try (inversion E1; reflexivity).
              destruct (truthy _); [|discriminate].
              destruct (media P _ _); [|inversion E1; reflexivity].
              apply store_inv in E1. now destruct E1 as (_ & _ & _ & ->). }
        exists w2, (Raise e), j. repeat split; auto.
        unfold requests in *. now rewrite Hlog.
    + exists w1, (Ok media), j. repeat split; auto.
      apply (fetched_view F).
  - intros HL Hkeyed.
    set (ep := ("media/" ++ media_id ++ "/comments/")%string).
    destruct (page_fetch_terminates "has_more_comments" "comments"
                (comments_call ep) n kwargs w) as (w1 & r1 & H).
    destruct (@page_fetch_bounded _ _ _ (comments_call_is_call ep) _ _ _ _ _ _ L
                (fun i Hi => list_page_wf (HL i Hi))
                (no_cursor_stops _ _ _ _ _ Hcur) H)
      as (j & res & cs & -> & Hj & Hreq & F).
    unfold ep in H. rewrite <- comments_pages_fetch in H.
    assert (Hk : exists vs keys,
              rmap (final_comment self P)
                   (pages_items "comments" (served w) (S j)) = Ok vs /\
              rmap (fun v => getitem v "created_time") vs = Ok keys /\
              (Forall is_int keys \/ Forall is_str keys)).
    { destruct Hkeyed as [Hi|Hs].
      - destruct (@Forall_keyed is_int self P
                    (pages_items "comments" (served w) (S j)))
          as (vs & keys & A & B & C).
        { apply Forall_forall. intros x Hx. apply pages_items_In in Hx.
          destruct Hx as (i & Hi' & Hx). apply (Hi i); auto. lia. }
        exists vs, keys. auto.
      - destruct (@Forall_keyed is_str self P
                    (pages_items "comments" (served w) (S j)))
          as (vs & keys & A & B & C).
        { apply Forall_forall. intros x Hx. apply pages_items_In in Hx.
          destruct Hx as (i & Hi' & Hx). apply (Hs i); auto. lia. }
        exists vs, keys. auto. }
    destruct Hk as (vs & keys & Hvs & Hkeys & Hkind).
    destruct (@media_n_comments_spec P (Z.to_nat n) self media_id n reverse
                kwargs w w1 res cs j vs keys H F Hreq
                (fun i Hi => HL i (Nat.le_trans _ _ _ (proj1 (Nat.lt_succ_r _ _) Hi) Hj))
                Hvs Hkeys Hkind)
      as (w' & l & A & B & C & D & E & _).
    exists (Z.to_nat n), w', l, cs, j. rewrite C. repeat split; auto.
Qed.

Lemma demo_feed_wf : forall i, wf_page "feed_items" (served demo_world i).
Proof. exact (demo_pages_wf (or_introl eq_refl)). Defined.

Lemma pages_concatenated_witness :
  page_truthy "next_max_id" (served demo_world 2) = false /\
  (exists fuel w' r j,
     feed_timeline demo_patch fuel (demo_client false) 50 [] demo_world
     = Some (w', r) /\
     requests w' = requests demo_world + S j /\ j <= 2 /\
     match r with
     | Ok media =>
         view w' media = pages_items "feed_items" (served demo_world) (S j)
     | Raise _ => false = true
     end) /\
  (exists fuel w' l comments j,
     media_n_comments demo_patch fuel (demo_client false) "1" 50 false []
       demo_world = Some (w', Ok l) /\
     requests w' = requests demo_world + S j /\ j <= 2 /\
     rmap (final_comment (demo_client false) demo_patch)
          (pages_items "comments" (served demo_world) (S j))
     = Ok (view w' comments) /\
     sorted (created_time (heap w')) comments false = Ok l /\
     Permutation l comments).
Proof.
  assert (Hcur : page_truthy "next_max_id" (served demo_world 2) = false)
    by reflexivity.
  destruct (@pages_concatenated demo_patch (demo_client false) "1" 50 false []
              demo_world 2 Hcur) as (A & B).
  split; [exact Hcur|]. split.
  - exact (A (fun i _ => demo_feed_wf i)).
  - exact (B (fun i _ => demo_comments_list_pages i)
             (or_introl (fun i x _ => demo_comments_keyed false i x))).
Defined.

(** ** Comment validation, rule by rule *)

Lemma is_upper_spec t : is_upper t = true <-> t = upper t.
Proof.
  unfold is_upper.
  destruct (list_eq_dec N.eq_dec t (upper t)); split; auto; discriminate.
Qed.

Lemma call_api_requests ep ps qs u w :
  requests (fst (_call_api ep ps qs u w)) = S (requests w).
Proof.
  destruct (_call_api ep ps qs u w) as [w1 r] eqn:E.
  apply call_api_inv in E. simpl. tauto.
Qed.

(** The validation tests, read as one decision. *)
Lemma post_comment_cases P E self media_id t w :
  (invalid_comment t /\
   exists msg, post_comment P E self media_id t w = (w, Raise (ValueError msg))) \/
  (~ invalid_comment t /\
   requests (fst (post_comment P E self media_id t w)) = S (requests w)).
Proof.
  unfold post_comment, invalid_comment, too_long, all_capitals,
    too_many_hashtags, too_many_urls.
  destruct (Nat.ltb 300 (length t)) eqn:E1.
  { left. apply Nat.ltb_lt in E1. split; [tauto|eauto]. }
  destruct (re_search letters_re t && is_upper t) eqn:E2.
  { left. apply andb_prop in E2. destruct E2 as (A & B).
    apply is_upper_spec in B. split; [tauto|eauto]. }
  destruct (Nat.ltb 4 (length (re_findall hashtag_re t))) eqn:E3.
  { left. apply Nat.ltb_lt in E3. split; [tauto|eauto]. }
  destruct (Nat.ltb 1 (length (re_findall url_re t))) eqn:E4.
  { left. apply Nat.ltb_lt in E4. split; [tauto|eauto]. }
  right. split.
  - apply Nat.ltb_ge in E1, E3, E4.
    intros [H|[(A & B)|[H|H]]]; try lia.
    apply is_upper_spec in B. rewrite A, B in E2. discriminate.
  - match goal with
    | |- context [_call_api ?ep ?ps ?qs ?u w] =>
        pose proof (call_api_requests ep ps qs u w) as R;
        destruct (_call_api ep ps qs u w) as [w1 [res|e]]
    end; simpl in R; [|exact R].
    destruct (auto_patch self); [|exact R].
    destruct (getitem (JDict res) "comment") as [c|e]; [|exact R].
    destruct (comment P c (drop_incompat_keys self)); exact R.
Qed.

(** *** Letters and upper case *)

Lemma letters_match prev x s :
  match_here letters_re prev (x :: s)
  = if is_letter x
    then match match_here letters_re (Some x) s with
         | Some rest => Some rest
         | None => Some s
         end
    else None.
Proof.
  unfold letters_re. cbn [match_here].
  destruct (is_letter x); [|reflexivity].
  destruct s as [|y s]; reflexivity.
Qed.

Lemma search_letters : forall s prev,
  findall_from letters_re prev s 0 <> [] <->
  exists c, In c s /\ is_letter c = true.
Proof.
  induction s as [|x s IH]; intros prev.
  - simpl. split; [congruence|]. intros (c & [] & _).
  - cbn [findall_from]. rewrite letters_match.
    destruct (is_letter x) eqn:Lx.
    + split.
      * intros _. exists x. split; [now left|exact Lx].
      * intros _. destruct (match_here letters_re (Some x) s); discriminate.
    + rewrite IH. split.
      * intros (c & Hc & Hl). exists c. split; [now right|exact Hl].
      * intros (c & [<-|Hc] & Hl); [congruence|]. eauto.
Qed.

Lemma re_search_letters t :
  re_search letters_re t = true <-> exists c, In c t /\ is_letter c = true.
Proof.
  unfold re_search, re_findall. rewrite <- search_letters with (prev := None).
  destruct (findall_from letters_re None t 0); split; congruence.
Qed.


(** The upper case of a character is never empty. *)
Lemma upper_char_cons c : exists m rest, upper_char c = m :: rest.
Proof.
  unfold upper_char.
  destruct (find _ upper_long) as [[k [m rest]]|]; eauto.
Qed.

Lemma upper_length : forall l, length l <= length (upper l).
Proof.
  induction l as [|x l IH]; [simpl; lia|].
  unfold upper in *. cbn [flat_map].
  destruct (upper_char_cons x) as (m & rest & E). rewrite E.
  rewrite length_app. simpl. lia.
Qed.

(** A text is its own upper-casing exactly when each of its characters is
    its own upper case. *)
Lemma upper_fixed : forall l,
  l = upper l <-> forall c, In c l -> upper_char c = [c].
Proof.
  induction l as [|x l IH].
  - split; [intros _ c []|reflexivity].
  - unfold upper in *. cbn [flat_map]. split.
    + intros H. destruct (upper_char_cons x) as (m & rest & E).
      rewrite E in H. cbn [app] in H. injection H as H1 H2.
      assert (rest = []).
      { pose proof (upper_length l) as Hl. unfold upper in Hl.
        assert (Hlen : length l = length (rest ++ flat_map upper_char l))
          by now rewrite <- H2.
        rewrite length_app in Hlen.
        destruct rest; [reflexivity|simpl in Hlen; lia]. }
      subst rest m. cbn [app] in H2.
      intros c [Hx|Hc]; [subst c; exact E|].
      now apply (proj1 IH H2).
    + intros H. rewrite (H x (or_introl eq_refl)). cbn [app]. f_equal.
      apply IH. intros c Hc. apply H. now right.
Qed.

Lemma all_capitals_spec t :
  all_capitals t <->
  (exists c, In c t /\ is_letter c = true) /\
  (forall c, In c t -> upper_char c = [c]).
Proof.
  unfold all_capitals. now rewrite re_search_letters, upper_fixed.
Qed.

(** *** Matches *)

(** A match is a prefix of the text it is looked for in. *)
Lemma match_here_suffix : forall r prev s rest,
  match_here r prev s = Some rest -> exists m, s = m ++ rest.
Proof.
  induction r as [|a r IH]; intros prev s rest; cbn [match_here].
  - intros H; inversion H; subst. now exists [].
  - destruct a as [c|c|cls|].
    + destruct s as [|x s]; [discriminate|].
      destruct (x =? c)%N; [|discriminate].
      intros H. apply IH in H. destruct H as (m & ->). now exists (x :: m).
    + destruct s as [|x s].
      * intros H. now apply IH in H.
      * destruct (x =? c)%N.
        -- destruct (match_here r (Some x) s) as [rest'|] eqn:E.
           ++ intros H; inversion H; subst.
              apply IH in E. destruct E as (m & ->). now exists (x :: m).
           ++ intros H. now apply IH in H.
        -- intros H. now apply IH in H.
    + revert rest. induction s as [|x s IHs]; intros rest; [discriminate|].
      destruct (cls x); [|discriminate].
      match goal with
      | |- match ?p with _ => _ end = _ -> _ => destruct p as [rest'|] eqn:E
      end.
      * intros H; inversion H; subst.
        destruct (IHs _ eq_refl) as (m & ->). now exists (x :: m).
      * intros H. apply IH in H. destruct H as (m & ->). now exists (x :: m).
    + destruct (xorb _ _); [|discriminate].
      intros H. now apply IH in H.
Qed.

Lemma hashtag_match prev s rest :
  match_here hashtag_re prev s = Some rest ->
  exists m, s = ch "#" :: m ++ rest.
Proof.
  unfold hashtag_re.
  change (match_here (Chr (ch "#") :: ?r) prev s)
    with (match s with
          | x :: s' => if (x =? ch "#")%N then match_here r (Some x) s' else None
          | [] => None
          end).
  destruct s as [|x s]; [discriminate|].
  destruct (x =? ch "#")%N eqn:E; [|discriminate].
  apply N.eqb_eq in E. subst x.
  intros H. apply match_here_suffix in H. destruct H as (m & ->). now exists m.
Qed.

Lemma chr_match c r prev s rest :
  match_here (Chr c :: r) prev s = Some rest ->
  exists s', s = c :: s' /\ match_here r (Some c) s' = Some rest.
Proof.
  cbn [match_here]. destruct s as [|x s]; [discriminate|].
  destruct (x =? c)%N eqn:E; [|discriminate].
  apply N.eqb_eq in E. subst x. eauto.
Qed.

Lemma url_match prev s rest :
  match_here url_re prev s = Some rest ->
  exists m1 m2, s = m1 ++ ch ":" :: m2 ++ rest.
Proof.
  unfold url_re.
  change (match_here (WordB :: ?r) prev s)
    with (if xorb (is_word_at prev) (is_word_at (hd_error s))
          then match_here r prev s else None).
  destruct (xorb _ _); [|discriminate].
  intros H.
  apply chr_match in H. destruct H as (s1 & -> & H).
  apply chr_match in H. destruct H as (s2 & -> & H).
  apply chr_match in H. destruct H as (s3 & -> & H).
  apply chr_match in H. destruct H as (s4 & -> & H).
  assert (Hopt : exists pre p s5,
            s4 = pre ++ s5 /\
            match_here (Chr (ch ":") :: Chr (ch "/") :: Chr (ch "/")
                          :: Plus (fun c => negb (is_space c)) :: Chr (ch ".")
                          :: [Plus (fun c => negb (is_space c))]) p s5
            = Some rest).
  { cbn [match_here] in H. cbn [match_here].
    destruct s4 as [|x s4].
    - exists [], (Some (ch "p")), []. auto.
    - destruct (x =? ch "s")%N.
      + match type of H with
        | match ?p with _ => _ end = _ => destruct p as [rest'|] eqn:E
        end.
        * inversion H; subst. exists [x], (Some x), s4. auto.
        * exists [], (Some (ch "p")), (x :: s4). auto.
      + exists [], (Some (ch "p")), (x :: s4). auto. }
  destruct Hopt as (pre & p & s5 & -> & H5).
  apply chr_match in H5. destruct H5 as (s6 & -> & H6).
  apply match_here_suffix in H6. destruct H6 as (m & ->).
  exists (ch "h" :: ch "t" :: ch "t" :: ch "p" :: pre), m.
  reflexivity.
Qed.

Lemma findall_skip r : forall s k prev,
  exists prev', findall_from r prev s k = findall_from r prev' (skipn k s) 0.
Proof.
  induction s as [|x s IH]; intros k prev.
  - exists prev. now destruct k.
  - destruct k as [|k]; [now exists prev|].
    cbn [findall_from skipn]. apply IH.
Qed.

Section CountMatches.
Variables (r : regex) (p : N -> bool).
Hypothesis Hmark : forall prev s rest,
  match_here r prev s = Some rest ->
  exists m1 c m2, s = m1 ++ c :: m2 ++ rest /\ p c = true.

(** Matches do not overlap and each holds a marked character: there are
    at most as many matches as marked characters. *)
Lemma findall_count : forall n s prev,
  length s <= n ->
  length (findall_from r prev s 0) <= length (filter p s).
Proof.
  induction n as [|n IH]; intros s prev Hn.
  - destruct s; [simpl; lia|simpl in Hn; lia].
  - destruct s as [|x s]; [simpl; lia|].
    cbn [findall_from].
    destruct (match_here r prev (x :: s)) as [rest|] eqn:E.
    + destruct (Hmark _ _ E) as (m1 & c & m2 & Hs & Hp).
      assert (Hlen : length (x :: s) - length rest = S (length m1 + length m2)).
      { rewrite Hs. rewrite !length_app. simpl. rewrite length_app. lia. }
      rewrite Hlen. cbn [length Nat.sub]. rewrite Nat.sub_0_r.
      destruct (findall_skip r s (length m1 + length m2) (Some x))
        as (prev' & ->).
      assert (Hrest : skipn (length m1 + length m2) s = rest).
      { assert (Hx : skipn (S (length m1 + length m2)) (x :: s) = rest).
        { rewrite Hs.
          replace (m1 ++ c :: m2 ++ rest) with ((m1 ++ c :: m2) ++ rest)
            by (rewrite <- app_assoc; reflexivity).
          replace (S (length m1 + length m2)) with (length (m1 ++ c :: m2))
            by (rewrite length_app; simpl; lia).
          rewrite skipn_app, skipn_all, Nat.sub_diag. reflexivity. }
        exact Hx. }
      rewrite Hrest.
      assert (Hr : length rest <= n).
      { simpl in Hn. assert (length (x :: s) = length (m1 ++ c :: m2 ++ rest))
          by now rewrite Hs.
        rewrite length_app in H. simpl in H. rewrite length_app in H. lia. }
      specialize (IH rest prev' Hr).
      rewrite Hs. rewrite filter_app. cbn [filter]. rewrite Hp.
      rewrite filter_app, !length_app. cbn [length]. rewrite length_app. lia.
    + specialize (IH s (Some x)). simpl in Hn.
      cbn [filter]. destruct (p x); simpl; lia.
Qed.
End CountMatches.

Lemma hashtag_matches_bound t :
  length (re_findall hashtag_re t) <= count_chars (fun c => (c =? ch "#")%N) t.
Proof.
  unfold re_findall, count_chars. eapply findall_count; [|reflexivity].
  intros prev s rest H. apply hashtag_match in H. destruct H as (m & ->).
  exists [], (ch "#"), m. split; reflexivity.
Qed.

Lemma url_matches_bound t :
  length (re_findall url_re t) <= count_chars (fun c => (c =? ch ":")%N) t.
Proof.
  unfold re_findall, count_chars. eapply findall_count; [|reflexivity].
  intros prev s rest H. apply url_match in H. destruct H as (m1 & m2 & ->).
  exists m1, (ch ":"), m2. split; reflexivity.
Qed.

(** *** Hashtags *)

Lemma plus_unfold cls r prev x s :
  match_here (Plus cls :: r) prev (x :: s)
  = if cls x
    then match match_here (Plus cls :: r) (Some x) s with
         | Some rest => Some rest
         | None => match_here r (Some x) s
         end
    else None.
Proof. reflexivity. Qed.

Lemma plus_nil cls r prev : match_here (Plus cls :: r) prev [] = None.
Proof. reflexivity. Qed.

Lemma hash_not_word : is_word (ch "#") = false.
Proof. vm_compute. reflexivity. Qed.

Lemma hash_scan_cons c t :
  hash_scan (c :: t)
  = if (c =? ch "#")%N
    then (false, if fst (hash_scan t) then S (snd (hash_scan t)) else snd (hash_scan t))
    else (fst (hash_scan t) || is_word c, snd (hash_scan t)).
Proof.
  cbn [hash_scan]. destruct (hash_scan t) as [word n]. reflexivity.
Qed.

(** Before its first [#], a text without a word character there does not
    start with one. *)
Lemma no_word_head s :
  fst (hash_scan s) = false -> is_word_at (hd_error s) = false.
Proof.
  destruct s as [|y s]; [reflexivity|].
  rewrite hash_scan_cons. cbn [hd_error is_word_at].
  destruct (y =? ch "#")%N eqn:E.
  - apply N.eqb_eq in E. subst y. intros _. exact hash_not_word.
  - cbn [fst]. intros H. apply orb_false_iff in H. tauto.
Qed.

(** After a [#], the pattern matches exactly when a word character comes
    before the next [#]. *)
Lemma hashtag_tail : forall s prev,
  match match_here [Plus (fun c => negb (c =? ch "#")%N); WordB] prev s with
  | Some _ => true
  | None => false
  end = fst (hash_scan s).
Proof.
  induction s as [|x s IH]; intros prev; [reflexivity|].
  rewrite plus_unfold, hash_scan_cons.
  destruct (x =? ch "#")%N; cbn [negb fst]; [reflexivity|].
  specialize (IH (Some x)).
  destruct (match_here _ (Some x) s) as [rest|].
  - rewrite <- IH. reflexivity.
  - rewrite <- IH. cbn [match_here orb is_word_at].
    rewrite (no_word_head s (eq_sym IH)). rewrite xorb_false_r.
    destruct (is_word x); reflexivity.
Qed.

(** What the pattern matches after the [#] holds no [#]. *)
Lemma hashtag_tail_class : forall s prev rest,
  match_here [Plus (fun c => negb (c =? ch "#")%N); WordB] prev s = Some rest ->
  exists m, s = m ++ rest /\ forallb (fun c => negb (c =? ch "#")%N) m = true.
Proof.
  induction s as [|x s IH]; intros prev rest; [discriminate|].
  rewrite plus_unfold.
  destruct (negb (x =? ch "#")%N) eqn:Ex; [|discriminate].
  destruct (match_here _ (Some x) s) as [rest'|] eqn:E.
  - intros H. inversion H; subst. destruct (IH _ _ E) as (m & -> & Hm).
    exists (x :: m). split; [reflexivity|]. cbn [forallb]. now rewrite Ex.
  - cbn [match_here]. destruct (xorb _ _); [|discriminate].
    intros H. inversion H; subst. exists [x]. split; [reflexivity|].
    cbn [forallb]. now rewrite Ex.
Qed.

Lemma hash_scan_skip : forall m rest,
  forallb (fun c => negb (c =? ch "#")%N) m = true ->
  snd (hash_scan (m ++ rest)) = snd (hash_scan rest).
Proof.
  induction m as [|x m IH]; intros rest H; [reflexivity|].
  cbn [forallb] in H. apply andb_prop in H. destruct H as (Hx & Hm).
  cbn [app]. rewrite hash_scan_cons.
  apply negb_true_iff in Hx. rewrite Hx. cbn [snd]. now apply IH.
Qed.

Lemma hashtag_head prev x s :
  match_here hashtag_re prev (x :: s)
  = if (x =? ch "#")%N
    then match_here [Plus (fun c => negb (c =? ch "#")%N); WordB] (Some x) s
    else None.
Proof. reflexivity. Qed.

Lemma findall_hashtags : forall n s prev,
  length s <= n ->
  length (findall_from hashtag_re prev s 0) = snd (hash_scan s).
Proof.
  induction n as [|n IH]; intros s prev Hn.
  - destruct s; [reflexivity|simpl in Hn; lia].
  - destruct s as [|x s]; [reflexivity|].
    cbn [findall_from]. rewrite hashtag_head, hash_scan_cons.
    simpl in Hn.
    destruct (x =? ch "#")%N; cbn [snd]; [|apply IH; lia].
    pose proof (hashtag_tail s (Some x)) as Ht.
    destruct (match_here _ (Some x) s) as [rest|] eqn:E.
    + rewrite <- Ht.
      destruct (hashtag_tail_class _ _ E) as (m & -> & Hm).
      replace (length (x :: m ++ rest) - length rest) with (S (length m))
        by (cbn [length]; rewrite length_app; lia).
      cbn [length Nat.sub]. rewrite Nat.sub_0_r.
      destruct (findall_skip hashtag_re (m ++ rest) (length m) (Some x))
        as (prev' & ->).
      rewrite skipn_app, skipn_all, Nat.sub_diag. cbn [skipn app].
      rewrite hash_scan_skip by exact Hm. f_equal. apply IH.
      rewrite length_app in Hn. lia.
    + rewrite <- Ht. apply IH. lia.
Qed.

(** [re.findall] with the hashtag pattern finds one match for every [#]
    that is followed, before the next [#], by a word character. *)
Lemma hashtags_found t :
  length (re_findall hashtag_re t) = hash_segments t.
Proof. unfold re_findall, hash_segments. now apply findall_hashtags with (n := length t). Qed.




(** *** URLs *)

Lemma run_split : forall u, u = run u ++ after_run u.
Proof.
  induction u as [|x u IH]; [reflexivity|].
  cbn [run after_run]. destruct (is_space x); [reflexivity|].
  cbn [app]. now f_equal.
Qed.

Lemma run_noblank : forall u, forallb (fun c => negb (is_space c)) (run u) = true.
Proof.
  induction u as [|x u IH]; [reflexivity|].
  cbn [run]. destruct (is_space x) eqn:E; [reflexivity|].
  cbn [forallb]. now rewrite E.
Qed.

(** What follows a run is empty or starts with a blank. *)
Lemma after_run_blank u :
  match after_run u with
  | [] => True
  | y :: _ => is_space y = true
  end.
Proof.
  induction u as [|x u IH]; [exact I|].
  cbn [after_run]. destruct (is_space x) eqn:E; [exact E|exact IH].
Qed.

(** The last repetition of the URL pattern takes a whole run. *)
Lemma plus_run : forall s prev,
  match_here [Plus (fun c => negb (is_space c))] prev s
  = match run s with
    | [] => None
    | _ :: _ => Some (after_run s)
    end.
Proof.
  induction s as [|x s IH]; intros prev; [reflexivity|].
  rewrite plus_unfold. cbn [run after_run].
  destruct (is_space x); cbn [negb]; [reflexivity|].
  rewrite IH. destruct s as [|y s]; [reflexivity|].
  cbn [run after_run match_here]. destruct (is_space y); reflexivity.
Qed.

Lemma dot_noblank : is_space (ch ".") = false.
Proof. vm_compute. reflexivity. Qed.

Lemma dot_inside_cons x u :
  is_space x = false ->
  dot_inside (x :: u)
  = dot_inside u
    || match u with
       | d :: u' => (d =? ch ".")%N
                    && match run u' with [] => false | _ :: _ => true end
       | [] => false
       end.
Proof.
  intros Hx. unfold dot_inside. cbn [run]. rewrite Hx. cbn [tl].
  destruct u as [|d u]; [reflexivity|].
  cbn [run]. destruct (is_space d) eqn:Ed.
  - cbn [removelast tl existsb orb].
    destruct (d =? ch ".")%N eqn:E; [|reflexivity].
    apply N.eqb_eq in E. subst d. rewrite dot_noblank in Ed. discriminate.
  - cbn [tl]. destruct (run u) as [|y r]; cbn [removelast existsb].
    + now rewrite andb_false_r.
    + rewrite andb_true_r.
      change (match r with
              | [] => []
              | _ :: _ => y :: removelast r
              end) with (removelast (y :: r)).
      apply orb_comm.
Qed.

(** The part of the URL pattern after [://]. *)
Lemma url_tail : forall u prev,
  match_here [Plus (fun c => negb (is_space c)); Chr (ch ".");
              Plus (fun c => negb (is_space c))] prev u
  = if dot_inside u then Some (after_run u) else None.
Proof.
  induction u as [|x u IH]; intros prev; [reflexivity|].
  rewrite plus_unfold.
  destruct (is_space x) eqn:Ex; cbn [negb].
  - unfold dot_inside. cbn [run]. now rewrite Ex.
  - rewrite (@dot_inside_cons x u Ex), IH. cbn [after_run]. rewrite Ex.
    destruct (dot_inside u); [reflexivity|]. cbn [orb].
    destruct u as [|d u]; [reflexivity|].
    change (match_here (Chr (ch ".") :: ?r) (Some x) (d :: u))
      with (if (d =? ch ".")%N then match_here r (Some d) u else None).
    destruct (d =? ch ".")%N eqn:Ed; cbn [andb]; [|reflexivity].
    apply N.eqb_eq in Ed. subst d. rewrite plus_run.
    cbn [after_run]. rewrite dot_noblank.
    destruct (run u); reflexivity.
Qed.
Lemma chr_unfold c r prev s :
  match_here (Chr c :: r) prev s
  = match s with
    | x :: s' => if (x =? c)%N then match_here r (Some x) s' else None
    | [] => None
    end.
Proof. reflexivity. Qed.

Lemma strip_cons a p b s :
  strip (a :: p) (b :: s) = if (b =? a)%N then strip p s else None.
Proof. reflexivity. Qed.

(** A literal part of a pattern matches the text that starts with it. *)
Lemma literal_match : forall p r prev s,
  match_here (map Chr p ++ r) prev s
  = match strip p s with
    | Some s' => match_here r (fold_left (fun _ c => Some c) p prev) s'
    | None => None
    end.
Proof.
  induction p as [|c p IH]; intros r prev s; [reflexivity|].
  cbn [map app fold_left]. rewrite chr_unfold.
  destruct s as [|x s]; [reflexivity|]. rewrite strip_cons.
  destruct (x =? c)%N eqn:E; [|reflexivity].
  apply N.eqb_eq in E. subst x. apply IH.
Qed.

Lemma strip_app : forall p q s,
  strip (p ++ q) s
  = match strip p s with
    | Some s' => strip q s'
    | None => None
    end.
Proof.
  induction p as [|a p IH]; intros q s; [reflexivity|].
  cbn [app]. destruct s as [|b s]; [reflexivity|].
  rewrite !strip_cons. destruct (b =? a)%N; [apply IH|reflexivity].
Qed.

Lemma strip_eq : forall p s u, strip p s = Some u -> s = p ++ u.
Proof.
  induction p as [|a p IH]; intros s u H.
  - inversion H. reflexivity.
  - destruct s as [|b s]; [discriminate|]. rewrite strip_cons in H.
    destruct (b =? a)%N eqn:E; [|discriminate].
    apply N.eqb_eq in E. subst b. cbn [app]. f_equal. now apply IH.
Qed.

Lemma h_is_word : is_word (ch "h") = true.
Proof. vm_compute. reflexivity. Qed.

(** A word boundary before a word character: the character before is not
    one. *)
Lemma boundary_before_word c r prev s :
  is_word c = true ->
  match_here (WordB :: Chr c :: r) prev s
  = if is_word_at prev then None else match_here (Chr c :: r) prev s.
Proof.
  intros Hc.
  change (match_here (WordB :: Chr c :: r) prev s)
    with (if xorb (is_word_at prev) (is_word_at (hd_error s))
          then match_here (Chr c :: r) prev s else None).
  rewrite chr_unfold. destruct s as [|x s].
  - destruct (is_word_at prev); reflexivity.
  - cbn [hd_error is_word_at]. destruct (x =? c)%N eqn:E.
    + apply N.eqb_eq in E. subst x. rewrite Hc.
      destruct (is_word_at prev); reflexivity.
    + destruct (xorb _ _), (is_word_at prev); reflexivity.
Qed.

(** The part of the URL pattern after [http] and the optional [s]. *)
Lemma url_path prev s :
  match_here (map Chr (text_of "://")
              ++ [Plus (fun c => negb (is_space c)); Chr (ch ".");
                  Plus (fun c => negb (is_space c))]) prev s
  = match strip (text_of "://") s with
    | Some u => if dot_inside u then Some (after_run u) else None
    | None => None
    end.
Proof.
  rewrite literal_match. destruct (strip _ s); [apply url_tail|reflexivity].
Qed.

Lemma s_then_colon s' : strip (text_of "://") (ch "s" :: s') = None.
Proof. reflexivity. Qed.

(** The URL pattern matches where a URL starts, up to the end of the run
    of non-blank characters. *)
Lemma url_match_starts prev s :
  match_here url_re prev s
  = if url_starts prev s
    then match after_scheme s with
         | Some u => Some (after_run u)
         | None => None
         end
    else None.
Proof.
  change url_re
    with (WordB :: Chr (ch "h")
            :: (map Chr (text_of "ttp")
                ++ Opt (ch "s")
                   :: (map Chr (text_of "://")
                       ++ [Plus (fun c => negb (is_space c)); Chr (ch ".");
                           Plus (fun c => negb (is_space c))]))).
  rewrite (@boundary_before_word _ _ _ _ h_is_word).
  unfold url_starts, after_scheme.
  destruct (is_word_at prev); cbn [negb andb]; [reflexivity|].
  change (Chr (ch "h") :: map Chr (text_of "ttp") ++ ?r)
    with (map Chr (text_of "http") ++ r).
  rewrite literal_match.
  change (text_of "https://") with (text_of "http" ++ text_of "s" ++ text_of "://").
  change (text_of "http://") with (text_of "http" ++ text_of "://").
  rewrite !strip_app.
  destruct (strip (text_of "http") s) as [s1|]; [|reflexivity].
  rewrite strip_app.
  change (match_here (Opt (ch "s") :: ?r) ?p s1)
    with (match (match s1 with
                 | x :: s' => if (x =? ch "s")%N then match_here r (Some x) s' else None
                 | [] => None
                 end) with
          | Some rest => Some rest
          | None => match_here r p s1
          end).
  destruct s1 as [|x s'].
  - rewrite url_path. reflexivity.
  - change (strip (text_of "s") (x :: s'))
      with (if (x =? ch "s")%N then Some s' else None).
    destruct (x =? ch "s")%N eqn:E.
    + apply N.eqb_eq in E. subst x. rewrite !url_path, s_then_colon.
      destruct (strip (text_of "://") s') as [u|]; [|reflexivity].
      destruct (dot_inside u); reflexivity.
    + rewrite url_path.
      destruct (strip (text_of "://") (x :: s')) as [u|]; [|reflexivity].
      destruct (dot_inside u); reflexivity.
Qed.
Lemma scheme_noblank s u :
  after_scheme s = Some u ->
  exists c m, s = c :: m ++ u /\ forallb (fun c => negb (is_space c)) m = true.
Proof.
  unfold after_scheme.
  destruct (strip (text_of "https://") s) as [u'|] eqn:E.
  - intros H. inversion H; subst u'. apply strip_eq in E. subst s.
    eexists. eexists. split; [reflexivity|]. vm_compute. reflexivity.
  - intros H. apply strip_eq in H. subst s.
    eexists. eexists. split; [reflexivity|]. vm_compute. reflexivity.
Qed.

Lemma urls_inside_prev s p p' : urls true p s = urls true p' s.
Proof. destruct s; reflexivity. Qed.

Lemma urls_skip : forall m rest p,
  forallb (fun c => negb (is_space c)) m = true ->
  urls true p (m ++ rest) = urls true p rest.
Proof.
  induction m as [|x m IH]; intros rest p H; [reflexivity|].
  cbn [forallb] in H. apply andb_prop in H. destruct H as (Hx & Hm).
  cbn [app urls]. rewrite Hx, (IH rest (Some x) Hm).
  apply urls_inside_prev.
Qed.

Lemma h_noblank : is_space (ch "h") = false.
Proof. vm_compute. reflexivity. Qed.

Lemma blank_no_url p y r : is_space y = true -> url_starts p (y :: r) = false.
Proof.
  intros Hy. unfold url_starts, after_scheme.
  change (text_of "https://") with (ch "h" :: text_of "ttps://").
  change (text_of "http://") with (ch "h" :: text_of "ttp://").
  rewrite !strip_cons.
  destruct (y =? ch "h")%N eqn:E.
  - apply N.eqb_eq in E. subst y. rewrite h_noblank in Hy. discriminate.
  - apply andb_false_r.
Qed.

Lemma urls_leave rest p p' :
  match rest with
  | [] => True
  | y :: _ => is_space y = true
  end ->
  urls true p rest = urls false p' rest.
Proof.
  destruct rest as [|y r]; [reflexivity|]. intros Hy.
  cbn [urls]. rewrite (@blank_no_url p' y r Hy), Hy. reflexivity.
Qed.

Lemma findall_urls : forall n s prev,
  length s <= n ->
  length (findall_from url_re prev s 0) = urls false prev s.
Proof.
  induction n as [|n IH]; intros s prev Hn.
  - destruct s; [reflexivity|simpl in Hn; lia].
  - destruct s as [|x s]; [reflexivity|].
    cbn [findall_from urls]. rewrite url_match_starts. simpl in Hn.
    destruct (url_starts prev (x :: s)) eqn:Hs; [|apply IH; lia].
    unfold url_starts in Hs. apply andb_prop in Hs. destruct Hs as (_ & Hs).
    destruct (after_scheme (x :: s)) as [u|] eqn:Ea; [|discriminate].
    destruct (@scheme_noblank _ _ Ea) as (c & m & Hm & Hnb).
    inversion Hm; subst c s. clear Hm.
    assert (Hbody : forallb (fun c => negb (is_space c)) (m ++ run u) = true).
    { rewrite forallb_app, Hnb. apply run_noblank. }
    assert (Hsplit : m ++ u = (m ++ run u) ++ after_run u).
    { rewrite <- app_assoc. f_equal. apply run_split. }
    rewrite Hsplit in *.
    replace (length (x :: (m ++ run u) ++ after_run u) - length (after_run u))
      with (S (length (m ++ run u)))
      by (cbn [length]; rewrite (length_app (m ++ run u)); lia).
    cbn [length Nat.sub]. rewrite Nat.sub_0_r.
    destruct (findall_skip url_re ((m ++ run u) ++ after_run u)
                (length (m ++ run u)) (Some x)) as (prev' & ->).
    rewrite skipn_app, skipn_all, Nat.sub_diag. cbn [skipn app].
    rewrite (@urls_skip _ _ (Some x) Hbody).
    rewrite (@urls_leave (after_run u) (Some x) prev' (after_run_blank u)).
    f_equal. apply IH. rewrite length_app in Hn. lia.
Qed.

(** [re.findall] with the URL pattern finds the URLs of the text. *)
Lemma urls_found t : length (re_findall url_re t) = url_count t.
Proof.
  unfold re_findall, url_count. now apply findall_urls with (n := length t).
Qed.

(** ** [post_comment]: comment validation *)

(** What the four tests decide, said on the text: [post_comment] raises
    its validation error exactly for the texts over 300 characters, the
    texts with a letter of [[a-z]], case ignored, whose characters are all
    their own upper case, the texts with more than 4 [#] that a word
    character follows before the next [#], and the texts with more than 1
    URL. *)
Lemma comment_rejected_iff P E self media_id t w :
  (exists msg, post_comment P E self media_id t w = (w, Raise (ValueError msg)))
  <->
  300 < length t \/
  ((exists c, In c t /\ is_letter c = true) /\
   (forall c, In c t -> upper_char c = [c])) \/
  4 < hash_segments t \/
  1 < url_count t.
Proof.
  rewrite <- all_capitals_spec, <- hashtags_found, <- urls_found.
  fold (too_long t) (too_many_hashtags t) (too_many_urls t).
  fold (invalid_comment t).
  destruct (post_comment_cases P E self media_id t w)
    as [(Hi & msg & Hr)|(Hv & Hr)]; split; auto.
  - intros _. eauto.
  - intros (msg & H). rewrite H in Hr. simpl in Hr. lia.
  - intros Hi. contradiction.
Qed.

Example stray_hashes_counted :
  hash_segments (text_of "C# and F# and J# and X# and Q# rock") = 5 /\
  hashtag_tokens (text_of "C# and F# and J# and X# and Q# rock") = 0 /\
  hash_segments (text_of "#a ## #-b # c#") = 3 /\
  hashtag_tokens (text_of "#a ## #-b # c#") = 1.
Proof. repeat split; vm_compute; reflexivity. Qed.

Example urls_counted :
  url_count (text_of "see http://a.b, (https://c.d/e) xhttp://e.f http://g. http://.h")
  = 2.
Proof. vm_compute. reflexivity. Qed.





(** C5.  For a text that fails one of the four rules, [post_comment]
    raises before any API call: the world it returns is the one it was
    given, with the same request log and the same heap. *)
Theorem validation_error_before_any_call P E self media_id t w :
  invalid_comment t ->
  exists msg,
    post_comment P E self media_id t w = (w, Raise (ValueError msg)) /\
    log (fst (post_comment P E self media_id t w)) = log w /\
    heap (fst (post_comment P E self media_id t w)) = heap w.
Proof.
  intros Hi.
  destruct (post_comment_cases P E self media_id t w)
    as [(_ & msg & Hr)|(Hv & _)]; [|contradiction].
  exists msg. rewrite Hr. auto.
Qed.

Lemma demo_invalid_comment : invalid_comment (text_of "#a #b #c #d #e").
Proof. right. right. left. unfold too_many_hashtags. vm_compute. lia. Defined.

Lemma validation_error_before_any_call_witness :
  invalid_comment (text_of "#a #b #c #d #e") /\
  exists msg,
    post_comment demo_patch demo_helpers (demo_client true) "1"
      (text_of "#a #b #c #d #e") demo_world
    = (demo_world, Raise (ValueError msg)) /\
    log (fst (post_comment demo_patch demo_helpers (demo_client true) "1"
                (text_of "#a #b #c #d #e") demo_world)) = log demo_world /\
    heap (fst (post_comment demo_patch demo_helpers (demo_client true) "1"
                 (text_of "#a #b #c #d #e") demo_world)) = heap demo_world.
Proof.
  split; [exact demo_invalid_comment|].
  exact (validation_error_before_any_call demo_patch demo_helpers
           (demo_client true) "1" demo_world demo_invalid_comment).
Defined.

(** The rules on sample texts. *)
Example valid_comment_posts :
  ~ invalid_comment (text_of "Nice shot! #sunset http://example.com") /\
  requests (fst (post_comment demo_patch demo_helpers (demo_client false) "1"
                   (text_of "Nice shot! #sunset http://example.com")
                   demo_world)) = 1.
Proof.
  split; [|vm_compute; reflexivity].
  unfold invalid_comment, too_long, all_capitals, too_many_hashtags,
    too_many_urls.
  intros [H|[(A & B)|[H|H]]]; vm_compute in *; try lia; discriminate.
Qed.

Example capitals_rejected :
  all_capitals (text_of "HELLO WORLD 1") /\ ~ all_capitals (text_of "Hello")
  /\ ~ all_capitals (text_of "123") /\ all_capitals [304%N]
  /\ ~ all_capitals [192; 201; 206]%N.
Proof.
  repeat split; try (vm_compute; reflexivity);
    intros (A & B); vm_compute in *; discriminate.
Qed.

Example two_urls_rejected :
  too_many_urls (text_of "http://a.b https://c.d")
  /\ ~ too_many_urls (text_of "http://a.b http://nodot").
Proof.
  split; unfold too_many_urls; vm_compute; lia.
Qed.

(** ** Settings snapshot: base64 and the JSON hooks *)

Lemma sextet_char q :
  sextet_of_char (char_of_sextet q) = Some q /\
  Ascii.eqb (char_of_sextet q) "=" = false /\
  Nat.ltb (nat_of_ascii (char_of_sextet q)) 128 = true.
Proof.
  destruct q as [[[[[s5 s4] s3] s2] s1] s0].
  destruct s5, s4, s3, s2, s1, s0; vm_compute; auto.
Qed.

Lemma a2b_go_sextet quad p q rest :
  a2b_go quad p (char_of_sextet q :: rest)
  = match quad with
    | [q1; q2; q3] =>
        rbind (a2b_go [] 0 rest) (fun bs =>
          Ok (byte1 q1 q2 :: byte2 q2 q3 :: byte3 q3 q :: bs))
    | _ => a2b_go (quad ++ [q]) 0 rest
    end.
Proof.
  destruct (sextet_char q) as (A & B & _).
  cbn [a2b_go]. rewrite B, A. reflexivity.
Qed.

Lemma rbind_Ok_r {A} (r : result A) : rbind r (fun x => Ok x) = r.
Proof. now destruct r. Qed.

Lemma rbind_assoc {A B C} (r : result A) (f : A -> result B) (g : B -> result C) :
  rbind (rbind r f) g = rbind r (fun x => rbind (f x) g).
Proof. now destruct r. Qed.

Lemma a2b_go_triple p a b c rest :
  a2b_go [] p (encode3 a b c ++ rest)
  = rbind (a2b_go [] 0 rest) (fun bs => Ok (a :: b :: c :: bs)).
Proof.
  destruct a as [a0 a1 a2 a3 a4 a5 a6 a7].
  destruct b as [b0 b1 b2 b3 b4 b5 b6 b7].
  destruct c as [c0 c1 c2 c3 c4 c5 c6 c7].
  unfold encode3. cbn [app].
  repeat (rewrite a2b_go_sextet; cbn [app]). reflexivity.
Qed.

Lemma a2b_go_pair p a b rest :
  a2b_go [] p (encode2 a b ++ rest) = Ok [a; b].
Proof.
  destruct a as [a0 a1 a2 a3 a4 a5 a6 a7].
  destruct b as [b0 b1 b2 b3 b4 b5 b6 b7].
  unfold encode2. cbn [app].
  repeat (rewrite a2b_go_sextet; cbn [app]). reflexivity.
Qed.

Lemma a2b_go_single p a rest :
  a2b_go [] p (encode1 a ++ rest) = Ok [a].
Proof.
  destruct a as [a0 a1 a2 a3 a4 a5 a6 a7].
  unfold encode1. cbn [app].
  repeat (rewrite a2b_go_sextet; cbn [app]). reflexivity.
Qed.

Lemma a2b_go_newline quad p rest :
  a2b_go quad p (newline :: rest) = a2b_go quad p rest.
Proof. reflexivity. Qed.

(** Lists taken three elements at a time. *)
Lemma list_ind3 {A} (Q : list A -> Prop) :
  Q [] -> (forall a, Q [a]) -> (forall a b, Q [a; b]) ->
  (forall a b c l, Q l -> Q (a :: b :: c :: l)) ->
  forall l, Q l.
Proof.
  intros H0 H1 H2 H3 l.
  enough (H : forall n l, length l <= n -> Q l) by (apply (H (length l)); lia).
  intros n. induction n as [n IH] using lt_wf_ind. intros l' Hl.
  destruct l' as [|a [|b [|c l'']]]; auto.
  apply H3. apply (IH (length l'')); simpl in Hl; lia.
Qed.

(** One encoded piece decodes to its bytes; the decoding goes on behind
    the newline exactly when the piece had no padding. *)
Lemma a2b_b2a_piece s : forall rest,
  a2b_go [] 0 (b2a s ++ newline :: rest)
  = if Nat.eqb (length s mod 3) 0
    then rbind (a2b_go [] 0 rest) (fun r => Ok (s ++ r))
    else Ok s.
Proof.
  induction s as [|a|a b|a b c s IH] using list_ind3; intros rest.
  - cbn [b2a app length]. rewrite a2b_go_newline. simpl.
    now rewrite rbind_Ok_r.
  - apply a2b_go_single.
  - apply a2b_go_pair.
  - cbn [b2a]. rewrite <- app_assoc, a2b_go_triple, IH.
    replace (length (a :: b :: c :: s) mod 3) with (length s mod 3).
    2:{ cbn [length]. replace (S (S (S (length s)))) with (length s + 1 * 3) by lia.
        now rewrite Nat.Div0.mod_add. }
    destruct (Nat.eqb (length s mod 3) 0).
    + rewrite rbind_assoc. reflexivity.
    + reflexivity.
Qed.

Lemma encode_pieces_nil fuel : encode_pieces fuel [] = [].
Proof. now destruct fuel. Qed.

(** The codec round-trips: decoding the encoding of [s] gives [s]. *)
Lemma a2b_encode_pieces fuel : forall s,
  length s <= fuel -> a2b_go [] 0 (encode_pieces fuel s) = Ok s.
Proof.
  induction fuel as [|fuel IH]; intros s Hl.
  - destruct s; [reflexivity|simpl in Hl; lia].
  - destruct s as [|x s']; [reflexivity|].
    set (s := x :: s') in *. cbn [encode_pieces]. unfold s at 1. fold s.
    unfold b2a_base64. rewrite <- app_assoc. cbn [app].
    rewrite a2b_b2a_piece.
    destruct (Nat.le_gt_cases 57 (length s)) as [Hge|Hlt].
    + rewrite length_firstn, Nat.min_l by assumption.
      change (Nat.eqb (57 mod 3) 0) with true. cbn iota.
      rewrite IH.
      * cbn [rbind]. now rewrite firstn_skipn.
      * rewrite length_skipn. unfold s in *. simpl in *. lia.
    + rewrite skipn_all2 by lia. rewrite firstn_all2 by lia.
      rewrite encode_pieces_nil.
      destruct (Nat.eqb (length s mod 3) 0); [|reflexivity].
      simpl. now rewrite app_nil_r.
Qed.

Lemma base64_roundtrip s : a2b_base64 (encodebytes s) = Ok s.
Proof. apply a2b_encode_pieces. apply Nat.le_refl. Qed.

Lemma b2a_ascii7 s : Forall ascii7 (b2a s).
Proof.
  induction s as [|a|a b|a b c s IH] using list_ind3.
  - constructor.
  - destruct a. unfold b2a, encode1.
    repeat constructor; try apply (sextet_char _).
  - destruct a, b. unfold b2a, encode2.
    repeat constructor; try apply (sextet_char _).
  - cbn [b2a]. apply Forall_app. split; [|exact IH].
    destruct a, b, c. unfold encode3.
    repeat constructor; apply (sextet_char _).
Qed.

Lemma encode_pieces_ascii7 fuel : forall s, Forall ascii7 (encode_pieces fuel s).
Proof.
  induction fuel as [|fuel IH]; intros s; [constructor|].
  destruct s as [|x s']; [constructor|]. cbn [encode_pieces].
  apply Forall_app. split; [|apply IH].
  unfold b2a_base64. apply Forall_app. split; [apply b2a_ascii7|].
  repeat constructor.
Qed.

Lemma bytes_decode_ascii7 l :
  Forall ascii7 l -> bytes_decode l = Ok (string_of_list_ascii l).
Proof.
  induction 1 as [|c l Hc _ IH]; simpl; [reflexivity|].
  unfold ascii7 in Hc. now rewrite Hc, IH.
Qed.

Lemma str_encode_ascii7 l :
  Forall ascii7 l -> str_encode (string_of_list_ascii l) = l.
Proof.
  unfold str_encode. rewrite list_ascii_of_string_of_list_ascii.
  induction 1 as [|c l Hc _ IH]; cbn [flat_map]; [reflexivity|].
  rewrite IH. unfold utf8_char. unfold ascii7 in Hc. now rewrite Hc.
Qed.

(** [from_json] undoes [to_json]. *)
Lemma from_json_to_json b :
  exists v,
    to_json (PBytes b)
    = Ok (PDict [("__class__", PStr "bytes"); ("__value__", PStr v)]) /\
    from_json [("__class__", PStr "bytes"); ("__value__", PStr v)]
    = Ok (PBytes b).
Proof.
  pose proof (encode_pieces_ascii7 (length b) b) as H7. fold (encodebytes b) in H7.
  exists (string_of_list_ascii (encodebytes b)). split.
  - unfold to_json. now rewrite (bytes_decode_ascii7 H7).
  - unfold from_json. cbn [pfind String.eqb Ascii.eqb Bool.eqb].
    rewrite (str_encode_ascii7 H7), base64_roundtrip. reflexivity.
Qed.

Lemma pyobj_ind2 (Q : pyobj -> Prop) :
  Q PNone -> (forall b, Q (PBool b)) -> (forall z, Q (PInt z)) ->
  (forall s, Q (PStr s)) -> (forall b, Q (PBytes b)) ->
  (forall l, Forall Q l -> Q (PList l)) ->
  (forall d, Forall (fun kv => Q (snd kv)) d -> Q (PDict d)) ->
  forall o, Q o.
Proof.
  intros HN HB HI HS HY HL HD.
  fix IH 1. intros [ |b|z|s|b|l|d].
  - exact HN.
  - apply HB.
  - apply HI.
  - apply HS.
  - apply HY.
  - apply HL. induction l as [|x l IHl]; constructor; [apply IH|exact IHl].
  - apply HD. induction d as [|[k x] d IHd]; constructor; [apply IH|exact IHd].
Qed.

Lemma dump_PList f l :
  dump f (PList l) = rbind (rmap (dump f) l) (fun ys => Ok (PList ys)).
Proof.
  cbn [dump]. f_equal. induction l as [|x l IH]; [reflexivity|].
  cbn [rmap]. now rewrite <- IH.
Qed.

Lemma dump_PDict f d :
  dump f (PDict d) = rbind (rmap_vals (dump f) d) (fun ys => Ok (PDict ys)).
Proof.
  cbn [dump]. f_equal. induction d as [|[k x] d IH]; [reflexivity|].
  cbn [rmap_vals]. now rewrite <- IH.
Qed.

Lemma load_PList h l :
  load h (PList l) = rbind (rmap (load h) l) (fun ys => Ok (PList ys)).
Proof.
  cbn [load]. f_equal. induction l as [|x l IH]; [reflexivity|].
  cbn [rmap]. now rewrite <- IH.
Qed.

Lemma load_PDict h d :
  load h (PDict d) = rbind (rmap_vals (load h) d) h.
Proof.
  cbn [load]. f_equal. induction d as [|[k x] d IH]; [reflexivity|].
  cbn [rmap_vals]. now rewrite <- IH.
Qed.

Lemma settings_value_PList l :
  settings_value (PList l) = true ->
  Forall (fun x => settings_value x = true) l.
Proof.
  cbn [settings_value]. induction l as [|x l IH]; intros H; [constructor|].
  apply andb_prop in H. destruct H as (A & B). constructor; auto.
Qed.

Lemma settings_value_PDict d :
  settings_value (PDict d) = true ->
  pfind "__class__" d <> Some (PStr "bytes") /\
  Forall (fun kv => settings_value (snd kv) = true) d.
Proof.
  cbn [settings_value]. intros H. apply andb_prop in H. destruct H as (A & B).
  split.
  - intros E. rewrite E in A. discriminate.
  - clear A. induction d as [|[k x] d IH]; [constructor|].
    apply andb_prop in B. destruct B as (B1 & B2). constructor; auto.
Qed.

Lemma from_json_untagged d :
  pfind "__class__" d <> Some (PStr "bytes") -> from_json d = Ok (PDict d).
Proof.
  unfold from_json. intros H.
  destruct (pfind "__class__" d) as [cls|]; [|reflexivity].
  destruct cls as [| | |s| | |]; try reflexivity.
  destruct (string_dec s "bytes") as [->|Hs]; [congruence|].
  destruct s as [|c0 s]; [reflexivity|].
  repeat (match goal with
          | |- context [match ?c with Ascii _ _ _ _ _ _ _ _ => _ end] =>
              destruct c as [[] [] [] [] [] [] [] []]; try reflexivity
          | |- context [match ?s with EmptyString => _ | String _ _ => _ end] =>
              destruct s; try reflexivity
          end).
  congruence.
Qed.

Lemma plain_wrapper v :
  plain (PDict [("__class__", PStr "bytes"); ("__value__", PStr v)])
  = Ok (PDict [("__class__", PStr "bytes"); ("__value__", PStr v)]).
Proof. reflexivity. Qed.

Lemma load_wrapper h v :
  load h (PDict [("__class__", PStr "bytes"); ("__value__", PStr v)])
  = h [("__class__", PStr "bytes"); ("__value__", PStr v)].
Proof. reflexivity. Qed.

Lemma save_load_list l :
  Forall (fun x => settings_value x = true -> save_load x = Ok x) l ->
  Forall (fun x => settings_value x = true) l ->
  rbind (rmap (dump to_json) l) (rmap (load from_json)) = Ok l.
Proof.
  induction 1 as [|x l Hx _ IH]; intros Hs; [reflexivity|].
  inversion Hs as [|? ? Sx Sl]; subst. specialize (Hx Sx). specialize (IH Sl).
  unfold save_load in Hx. cbn [rmap].
  destruct (dump to_json x) as [y|e]; [|discriminate]. cbn [rbind] in *.
  destruct (rmap (dump to_json) l) as [ys|e]; [|discriminate]. cbn [rbind rmap] in *.
  now rewrite Hx, IH.
Qed.

Lemma save_load_dict d :
  Forall (fun kv => settings_value (snd kv) = true -> save_load (snd kv) = Ok (snd kv)) d ->
  Forall (fun kv => settings_value (snd kv) = true) d ->
  rbind (rmap_vals (dump to_json) d) (rmap_vals (load from_json)) = Ok d.
Proof.
  induction 1 as [|[k x] d Hx _ IH]; intros Hs; [reflexivity|].
  inversion Hs as [|? ? Sx Sl]; subst. simpl in Hx, Sx.
  specialize (Hx Sx). specialize (IH Sl).
  unfold save_load in Hx. cbn [rmap_vals].
  destruct (dump to_json x) as [y|e]; [|discriminate]. cbn [rbind] in *.
  destruct (rmap_vals (dump to_json) d) as [ys|e]; [|discriminate].
  cbn [rbind rmap_vals] in *.
  now rewrite Hx, IH.
Qed.

(** C7.  The settings snapshot round-trips through save and load: dumping
    a settings value with [to_json] as [default] and loading the result
    with [from_json] as [object_hook] gives the value back, bytes
    included; and for every bytes value [b], [from_json (to_json b)] is
    [b]. *)
Theorem snapshot_roundtrip :
  (forall settings,
     settings_value settings = true -> save_load settings = Ok settings) /\
  (forall b,
     exists wrapper,
       to_json (PBytes b) = Ok (PDict wrapper) /\
       from_json wrapper = Ok (PBytes b)).
Proof.
  split.
  - induction settings as [ |b|z|s|b|l IH|d IH] using pyobj_ind2;
      intros Hs; try reflexivity.
    + destruct (from_json_to_json b) as (v & Ht & Hf).
      unfold save_load. cbn [dump]. rewrite Ht. cbn [rbind].
      rewrite plain_wrapper. cbn [rbind]. rewrite load_wrapper. exact Hf.
    + apply settings_value_PList in Hs.
      pose proof (save_load_list IH Hs) as H.
      unfold save_load. rewrite dump_PList.
      destruct (rmap (dump to_json) l) as [ys|e]; [|discriminate].
      cbn [rbind] in *. rewrite load_PList, H. reflexivity.
    + apply settings_value_PDict in Hs. destruct Hs as (Htag & Hs).
      pose proof (save_load_dict IH Hs) as H.
      unfold save_load. rewrite dump_PDict.
      destruct (rmap_vals (dump to_json) d) as [ys|e]; [|discriminate].
      cbn [rbind] in *. rewrite load_PDict, H. cbn [rbind].
      now apply from_json_untagged.
  - intros b. destruct (from_json_to_json b) as (v & Ht & Hf). eauto.
Qed.

Lemma snapshot_roundtrip_witness :
  settings_value demo_settings = true /\ save_load demo_settings = Ok demo_settings.
Proof.
  split; [reflexivity|].
  exact (proj1 snapshot_roundtrip demo_settings eq_refl).
Defined.

(** What the wrapper looks like, and why its form is reserved: a dict of
    that form loads as bytes. *)
Example to_json_sample :
  to_json (PBytes ["h"; "i"; "!"]%char)
  = Ok (PDict [("__class__", PStr "bytes");
               ("__value__", PStr (String.append "aGkh" (String newline EmptyString)))]).
Proof. reflexivity. Qed.

Example tagged_dict_loads_as_bytes :
  save_load (PDict [("__class__", PStr "bytes"); ("__value__", PStr "aGkh")])
  = Ok (PBytes ["h"; "i"; "!"]%char).
Proof. reflexivity. Qed.

(** ** User-agent descriptor: generation and parsing *)

Lemma split_char_app c a b :
  free_of c a = true -> split_char c (a ++ String c b) = Some (a, b).
Proof.
  induction a as [|x a IH]; simpl; intros H.
  - now rewrite Ascii.eqb_refl.
  - apply andb_prop in H. destruct H as (Hx & Ha).
    apply negb_true_iff in Hx. rewrite Hx, (IH Ha). reflexivity.
Qed.

Lemma digits_free_of u : free_of "/" (NilEmpty.string_of_uint u) = true.
Proof. induction u; simpl; auto. Qed.

Lemma decimal_free_of n : free_of "/" (decimal n) = true.
Proof.
  unfold decimal, NilZero.string_of_uint.
  destruct (Nat.to_uint n); try reflexivity; apply digits_free_of.
Qed.

Lemma to_uint_nonnil n : Nat.to_uint n <> Nil.
Proof.
  intros E. pose proof (DecimalNat.Unsigned.of_to n) as H. rewrite E in H.
  simpl in H. subst n. discriminate.
Qed.

Lemma decimal_parses n :
  exists u, NilZero.uint_of_string (decimal n) = Some u /\ Nat.of_uint u = n.
Proof.
  exists (Nat.to_uint n). split.
  - apply NilZero.usu, to_uint_nonnil.
  - apply DecimalNat.Unsigned.of_to.
Qed.

Lemma field_step c a b (k : string * string -> result device_fields) :
  free_of c a = true ->
  expect (split_char c (a ++ String c b)) k = k (a, b).
Proof. intros H. now rewrite split_char_app. Qed.

Lemma split_char_free c : forall s a b,
  split_char c s = Some (a, b) -> free_of c a = true.
Proof.
  induction s as [|x s IH]; intros a b H; simpl in H; [discriminate|].
  destruct (Ascii.eqb x c) eqn:E.
  - inversion H; subst. reflexivity.
  - destruct (split_char c s) as [[a' b']|]; [|discriminate].
    inversion H; subst. simpl. rewrite E. simpl. eapply IH. reflexivity.
Qed.

(** The fields of a descriptor that parses are valid fields. *)
Lemma validated_fields d f :
  validate_useragent d = Ok f -> valid_fields f = true.
Proof.
  unfold validate_useragent, expect. intros H.
  repeat match type of H with
  | match split_char ?c ?s with _ => _ end = Ok _ =>
      let E := fresh "E" in
      destruct (split_char c s) as [[? ?]|] eqn:E; [|discriminate]
  | match ?o with _ => _ end = Ok _ =>
      let E := fresh "E" in
      destruct o eqn:E; try discriminate
  end.
  inversion H; subst. unfold valid_fields. simpl.
  repeat match goal with
  | E : split_char _ _ = Some _ |- _ => apply split_char_free in E
  end.
  repeat (apply andb_true_intro; split); assumption.
Qed.

Lemma parse_of_generated f :
  valid_fields f = true -> validate_useragent (generate_useragent f) = Ok f.
Proof.
  destruct f as [app v rel d res br dev mo ch]. intros H.
  unfold valid_fields in H. simpl in H.
  repeat (apply andb_prop in H; destruct H as (H & ?)).
  destruct (decimal_parses v) as (u & Hu & Hv).
  unfold validate_useragent, generate_useragent.
  cbn [app_version android_version android_release dpi resolution brand
       device model chipset].
  cbn [strip_prefix String.append Ascii.eqb Bool.eqb expect].
  rewrite field_step by assumption.
  cbn [strip_prefix String.append Ascii.eqb Bool.eqb expect].
  rewrite field_step by apply decimal_free_of.
  rewrite Hu.
  repeat (rewrite field_step by assumption;
          cbn [strip_prefix String.append Ascii.eqb Bool.eqb expect]).
  rewrite Hv. reflexivity.
Qed.

(** C8, as stated, fails in one direction: generation does not undo
    parsing.  The descriptor of [test_validate_useragent] parses, and the
    descriptor generated from its fields is another string, with the locale
    [en_US] that generation always writes. *)
Lemma useragent_not_mutual_inverses :
  exists f,
    validate_useragent
      "Instagram 9.2.0 Android (22/5.1.1; 480dpi; 1080x1920; Xiaomi; Redmi Note 3; kenzo; qcom; en_GB)"
    = Ok f /\
    valid_fields f = true /\
    generate_useragent f
    = "Instagram 9.2.0 Android (22/5.1.1; 480dpi; 1080x1920; Xiaomi; Redmi Note 3; kenzo; qcom; en_US)" /\
    generate_useragent f
    <> "Instagram 9.2.0 Android (22/5.1.1; 480dpi; 1080x1920; Xiaomi; Redmi Note 3; kenzo; qcom; en_GB)".
Proof.
  eexists. split; [reflexivity|]. split; [reflexivity|].
  split; [reflexivity|]. vm_compute. discriminate.
Qed.

(** C8, amended.  Parsing undoes generation: the descriptor generated from
    valid fields parses to exactly those fields.  In the other direction the
    descriptor generated from the fields of a parsed descriptor need not be
    that descriptor, but it parses to the same fields.  A descriptor whose
    android-version segment is not a number is rejected with a
    [ValueError]. *)
Theorem useragent_parse_generate :
  (forall f, valid_fields f = true ->
     validate_useragent (generate_useragent f) = Ok f) /\
  (forall d f, validate_useragent d = Ok f ->
     validate_useragent (generate_useragent f) = Ok f) /\
  (forall app version rest,
     free_of " " app = true -> free_of "/" version = true ->
     NilZero.uint_of_string version = None ->
     exists msg,
       validate_useragent
         ("Instagram " ++ app ++ " Android (" ++ version ++ "/" ++ rest)%string
       = Raise (ValueError msg)).
Proof.
  split; [exact parse_of_generated|]. split.
  - intros d f H. apply parse_of_generated. exact (validated_fields _ H).
  - intros app version rest Ha Hv Hn.
    unfold validate_useragent.
    cbn [strip_prefix String.append Ascii.eqb Bool.eqb expect].
    rewrite field_step by assumption.
    cbn [strip_prefix String.append Ascii.eqb Bool.eqb expect].
    rewrite field_step by assumption.
    rewrite Hn. eauto.
Qed.

Lemma useragent_parse_generate_witness :
  valid_fields demo_device = true /\
  validate_useragent (generate_useragent demo_device) = Ok demo_device /\
  (exists f,
     validate_useragent
       "Instagram 9.2.0 Android (022/5.1.1; 480dpi; 1080x1920; Xiaomi; Redmi Note 3; kenzo; qcom; en_GB)"
     = Ok f /\
     validate_useragent (generate_useragent f) = Ok f) /\
  exists msg,
    validate_useragent
      "Instagram 9.2.0 Android (xx/5.1.1; 480dpi; 1080x1920; Xiaomi; Redmi Note 3; kenzo; qcom; en_GB)"
    = Raise (ValueError msg).
Proof.
  split; [reflexivity|]. split; [|split].
  - exact (proj1 useragent_parse_generate demo_device eq_refl).
  - eexists. split; [reflexivity|].
    exact (proj1 (proj2 useragent_parse_generate)
             "Instagram 9.2.0 Android (022/5.1.1; 480dpi; 1080x1920; Xiaomi; Redmi Note 3; kenzo; qcom; en_GB)"
             _ eq_refl).
  - exact (proj2 (proj2 useragent_parse_generate) "9.2.0" "xx"
             "5.1.1; 480dpi; 1080x1920; Xiaomi; Redmi Note 3; kenzo; qcom; en_GB"
             eq_refl eq_refl eq_refl).
Defined.

(** The two descriptors of the tests. *)
Example generate_useragent_test :
  generate_useragent demo_device
  = "Instagram 10.9.0 Android (18/4.3; 320dpi; 720x1280; Samsung; Galaxy Nexus; maguro; qcom; en_US)".
Proof. reflexivity. Qed.

Example validate_useragent_test :
  validate_useragent
    "Instagram 9.2.0 Android (22/5.1.1; 480dpi; 1080x1920; Xiaomi; Redmi Note 3; kenzo; qcom; en_GB)"
  = Ok {| app_version := "9.2.0"; android_version := 22;
          android_release := "5.1.1"; dpi := "480dpi";
          resolution := "1080x1920"; brand := "Xiaomi";
          device := "Redmi Note 3"; model := "kenzo"; chipset := "qcom" |}.
Proof. reflexivity. Qed.

(** ** Compatibility patcher: idempotent and additive *)

Lemma find_set_same k v e : dict_find k (dict_set k v e) = Some v.
Proof.
  induction e as [|[k' v'] e IH]; simpl.
  - now rewrite String.eqb_refl.
  - destruct (String.eqb k k') eqn:E; simpl; rewrite E; auto.
Qed.

Lemma find_set_other k k' v e :
  k <> k' -> dict_find k' (dict_set k v e) = dict_find k' e.
Proof.
  intros Hne. assert (N : String.eqb k' k = false).
  { apply String.eqb_neq. congruence. }
  induction e as [|[k0 v0] e IH]; simpl.
  - now rewrite N.
  - destruct (String.eqb k k0) eqn:E; simpl.
    + apply String.eqb_eq in E. subst k0. now rewrite N.
    + now rewrite IH.
Qed.

Lemma set_same k v e : dict_find k e = Some v -> dict_set k v e = e.
Proof.
  induction e as [|[k0 v0] e IH]; simpl; [discriminate|].
  destruct (String.eqb k k0) eqn:E.
  - intros H. inversion H. reflexivity.
  - intros H. now rewrite IH.
Qed.

Lemma mem_In k ks : mem k ks = true <-> In k ks.
Proof.
  unfold mem. rewrite existsb_exists. split.
  - intros (x & Hx & E). apply String.eqb_eq in E. now subst.
  - intros H. exists k. split; [assumption|apply String.eqb_refl].
Qed.

Lemma disjoint_spec xs ys x :
  disjoint xs ys = true -> In x xs -> mem x ys = false.
Proof.
  unfold disjoint. rewrite forallb_forall. intros H Hx.
  apply negb_true_iff. now apply H.
Qed.

Lemma find_drop k inc e :
  dict_find k (drop_keys inc e) = if mem k inc then None else dict_find k e.
Proof.
  induction e as [|[k0 v0] e IH]; simpl.
  - now destruct (mem k inc).
  - destruct (mem k0 inc) eqn:M; simpl.
    + rewrite IH. destruct (String.eqb k k0) eqn:E; [|reflexivity].
      apply String.eqb_eq in E. subst. now rewrite M.
    + rewrite IH. destruct (String.eqb k k0) eqn:E; [|reflexivity].
      apply String.eqb_eq in E. subst. now rewrite M.
Qed.

Lemma drop_drop inc e : drop_keys inc (drop_keys inc e) = drop_keys inc e.
Proof.
  unfold drop_keys. induction e as [|[k0 v0] e IH]; simpl; [reflexivity|].
  destruct (mem k0 inc) eqn:M; simpl; [assumption|].
  rewrite M. simpl. now rewrite IH.
Qed.

Lemma lookup_all_ext ks e e' :
  (forall k, In k ks -> dict_find k e = dict_find k e') ->
  lookup_all ks e = lookup_all ks e'.
Proof.
  induction ks as [|k ks IH]; intros H; simpl; [reflexivity|].
  rewrite (H k) by now left. rewrite IH; [reflexivity|].
  intros k' Hk'. apply H. now right.
Qed.

Lemma lookup_all_drop inc ks e vs :
  lookup_all ks (drop_keys inc e) = Some vs -> lookup_all ks e = Some vs.
Proof.
  revert vs. induction ks as [|k ks IH]; intros vs; simpl; [auto|].
  rewrite find_drop. destruct (mem k inc); [discriminate|].
  destruct (dict_find k e); [|discriminate].
  destruct (lookup_all ks (drop_keys inc e)) as [vs'|]; [|discriminate].
  rewrite (IH vs' eq_refl). auto.
Qed.

(** One derivation. *)
Lemma apply_derive_other e d k :
  k <> legacy d -> dict_find k (apply_derive e d) = dict_find k e.
Proof.
  intros Hne. unfold apply_derive.
  destruct (dict_find (legacy d) e); [reflexivity|].
  destruct (compute d e); [|reflexivity].
  apply find_set_other. congruence.
Qed.

Lemma apply_derive_keeps e d k v :
  dict_find k e = Some v -> dict_find k (apply_derive e d) = Some v.
Proof.
  intros H. destruct (string_dec k (legacy d)) as [->|Hne].
  - unfold apply_derive. now rewrite H.
  - now rewrite apply_derive_other.
Qed.

Lemma apply_derive_absent e d :
  dict_find (legacy d) (apply_derive e d) = None -> compute d e = None.
Proof.
  unfold apply_derive. destruct (dict_find (legacy d) e) eqn:F.
  - rewrite F. discriminate.
  - destruct (compute d e); [|reflexivity].
    rewrite find_set_same. discriminate.
Qed.

Lemma patch_flat_keeps ds : forall e k v,
  dict_find k e = Some v -> dict_find k (patch_flat ds e) = Some v.
Proof.
  unfold patch_flat. induction ds as [|d ds IH]; intros e k v H; simpl; [assumption|].
  apply IH. now apply apply_derive_keeps.
Qed.

Lemma compute_ext d e e' :
  (forall k, In k (sources d) -> dict_find k e = dict_find k e') ->
  compute d e = compute d e'.
Proof. intros H. unfold compute. now rewrite (lookup_all_ext _ _ _ H). Qed.

Lemma flat_absent_none d0 ds : forall e,
  disjoint (sources d0) (map legacy ds) = true -> In d0 ds ->
  dict_find (legacy d0) (patch_flat ds e) = None -> compute d0 e = None.
Proof.
  unfold patch_flat. induction ds as [|d ds IH]; intros e Hd Hin Hf; [destruct Hin|].
  simpl in Hf.
  assert (Hd' : disjoint (sources d0) (map legacy ds) = true).
  { unfold disjoint in *. rewrite forallb_forall in *. intros x Hx.
    specialize (Hd x Hx). apply negb_true_iff in Hd. apply negb_true_iff.
    simpl in Hd. apply orb_false_elim in Hd. tauto. }
  assert (Hstable : compute d0 (apply_derive e d) = compute d0 e).
  { apply compute_ext. intros k Hk. apply apply_derive_other. intros ->.
    pose proof (@disjoint_spec _ _ _ Hd Hk) as M. simpl in M.
    rewrite String.eqb_refl in M. discriminate. }
  destruct Hin as [->|Hin].
  - apply apply_derive_absent.
    destruct (dict_find (legacy d0) (apply_derive e d0)) eqn:F; [|reflexivity].
    pose proof (@patch_flat_keeps ds _ _ _ F) as K. unfold patch_flat in K.
    congruence.
  - rewrite <- Hstable. now apply IH.
Qed.

Lemma fold_fixed {A B} (f : A -> B -> A) (l : list B) (x : A) :
  (forall b, In b l -> f x b = x) -> fold_left f l x = x.
Proof.
  induction l as [|b l IH]; intros H; simpl; [reflexivity|].
  rewrite (H b) by now left. apply IH. intros b' Hb'. apply H. now right.
Qed.

Lemma patch_flat_other ds : forall e k,
  mem k (map legacy ds) = false ->
  dict_find k (patch_flat ds e) = dict_find k e.
Proof.
  unfold patch_flat. induction ds as [|d ds IH]; intros e k H; simpl; [reflexivity|].
  simpl in H. apply orb_false_elim in H. destruct H as (H1 & H2).
  rewrite IH by assumption. apply apply_derive_other.
  intros ->. rewrite String.eqb_refl in H1. discriminate.
Qed.

Lemma patch_flat_idem ds e :
  wf_flat ds = true -> patch_flat ds (patch_flat ds e) = patch_flat ds e.
Proof.
  intros W. unfold patch_flat at 1. apply fold_fixed. intros d Hd.
  unfold wf_flat in W. rewrite forallb_forall in W. specialize (W d Hd).
  unfold apply_derive.
  destruct (dict_find (legacy d) (patch_flat ds e)) eqn:F; [reflexivity|].
  pose proof (@flat_absent_none d ds e W Hd F) as C.
  assert (E : compute d (patch_flat ds e) = compute d e).
  { apply compute_ext. intros k Hk. apply patch_flat_other.
    eapply disjoint_spec; eauto. }
  now rewrite E, C.
Qed.

(** One rule. *)
Lemma apply_rule_other e r k :
  k <> touched r -> dict_find k (apply_rule e r) = dict_find k e.
Proof.
  destruct r as [d|k0 sub]; simpl; intros Hne.
  - now apply apply_derive_other.
  - destruct (dict_find k0 e) as [[]|]; try reflexivity.
    apply find_set_other. congruence.
Qed.

Lemma extends_refl v : extends v v.
Proof. now left. Qed.

Lemma extends_trans a b c : extends a b -> extends b c -> extends a c.
Proof.
  intros [->|(u & u' & -> & -> & S1)] [->|(w & w' & E & -> & S2)].
  - now left.
  - right. eauto.
  - right. eauto.
  - inversion E; subst. right. exists u, w'. repeat split; auto.
    intros k x Hk. apply S2, S1, Hk.
Qed.

Lemma apply_rule_extends e r k v :
  dict_find k e = Some v ->
  exists v', dict_find k (apply_rule e r) = Some v' /\ extends v v'.
Proof.
  intros H. destruct r as [d|k0 sub]; simpl.
  - exists v. split; [now apply apply_derive_keeps|apply extends_refl].
  - destruct (dict_find k0 e) as [x|] eqn:F.
    2:{ exists v. split; [assumption|apply extends_refl]. }
    destruct x; try (exists v; split; [assumption|apply extends_refl]).
    destruct (string_dec k0 k) as [->|Hne].
    + rewrite F in H. inversion H; subst. eexists. split; [apply find_set_same|].
      right. exists kvs, (patch_flat sub kvs). repeat split.
      intros k' w Hk'. now apply patch_flat_keeps.
    + exists v. split; [|apply extends_refl].
      now rewrite find_set_other.
Qed.

Lemma fold_extends rs : forall e k v,
  dict_find k e = Some v ->
  exists v', dict_find k (fold_left apply_rule rs e) = Some v' /\ extends v v'.
Proof.
  induction rs as [|r rs IH]; intros e k v H; simpl.
  - exists v. split; [assumption|apply extends_refl].
  - destruct (@apply_rule_extends e r k v H) as (v1 & H1 & E1).
    destruct (IH _ _ _ H1) as (v2 & H2 & E2).
    exists v2. split; [assumption|eapply extends_trans; eauto].
Qed.

Lemma fold_other rs : forall e k,
  mem k (map touched rs) = false ->
  dict_find k (fold_left apply_rule rs e) = dict_find k e.
Proof.
  induction rs as [|r rs IH]; intros e k H; simpl; [reflexivity|].
  simpl in H. apply orb_false_elim in H. destruct H as (H1 & H2).
  rewrite IH by assumption. apply apply_rule_other.
  intros ->. rewrite String.eqb_refl in H1. discriminate.
Qed.

Lemma disjoint_tail xs y ys :
  disjoint xs (y :: ys) = true -> disjoint xs ys = true.
Proof.
  unfold disjoint. rewrite !forallb_forall. intros H x Hx.
  specialize (H x Hx). apply negb_true_iff in H. apply negb_true_iff.
  simpl in H. apply orb_false_elim in H. tauto.
Qed.

Lemma rules_absent_none d0 rs : forall e,
  disjoint (sources d0) (map touched rs) = true -> In (Add d0) rs ->
  dict_find (legacy d0) (fold_left apply_rule rs e) = None ->
  compute d0 e = None.
Proof.
  induction rs as [|r rs IH]; intros e Hd Hin Hf; [destruct Hin|].
  simpl in Hf. simpl map in Hd.
  assert (Hstable : compute d0 (apply_rule e r) = compute d0 e).
  { apply compute_ext. intros k Hk. apply apply_rule_other. intros ->.
    pose proof (@disjoint_spec _ _ _ Hd Hk) as M. simpl in M.
    rewrite String.eqb_refl in M. discriminate. }
  destruct Hin as [->|Hin].
  - simpl in *. apply apply_derive_absent.
    destruct (dict_find (legacy d0) (apply_derive e d0)) eqn:F; [|reflexivity].
    destruct (@fold_extends rs _ _ _ F) as (v' & K & _). congruence.
  - rewrite <- Hstable. apply IH; auto. eapply disjoint_tail; eauto.
Qed.

Lemma in_place_fixed k sub rs : forall e,
  nodup_keys (map touched rs) = true -> In (In_place k sub) rs ->
  wf_flat sub = true ->
  forall u, dict_find k (fold_left apply_rule rs e) = Some (JDict u) ->
            patch_flat sub u = u.
Proof.
  induction rs as [|r rs IH]; intros e Hnd Hin W u Hf; [destruct Hin|].
  simpl in Hnd. apply andb_prop in Hnd. destruct Hnd as (Hm & Hnd).
  apply negb_true_iff in Hm. simpl in Hf.
  destruct Hin as [->|Hin].
  - simpl in Hm. rewrite fold_other in Hf by assumption. simpl in Hf.
    destruct (dict_find k e) as [x|] eqn:F.
    + destruct x; try (rewrite F in Hf; discriminate).
      rewrite find_set_same in Hf. inversion Hf; subst.
      now apply patch_flat_idem.
    + rewrite F in Hf. discriminate.
  - eapply IH; eauto.
Qed.

Lemma fold_settled K e :
  wf_kind K = true -> settled (rules K) (fold_left apply_rule (rules K) e).
Proof.
  unfold wf_kind. intros W. apply andb_prop in W. destruct W as (W & _).
  apply andb_prop in W. destruct W as (Hnd & Hwf).
  rewrite forallb_forall in Hwf. split.
  - intros d Hd Hf. specialize (Hwf _ Hd). simpl in Hwf.
    pose proof (@rules_absent_none d (rules K) e Hwf Hd Hf) as C.
    rewrite <- C. apply compute_ext. intros k Hk. apply fold_other.
    eapply disjoint_spec; eauto.
  - intros k sub u Hin Hf. specialize (Hwf _ Hin). simpl in Hwf.
    eapply in_place_fixed; eauto.
Qed.

Lemma drop_settled inc rs x :
  disjoint inc (map touched rs) = true ->
  settled rs x -> settled rs (drop_keys inc x).
Proof.
  intros Hd (S1 & S2). split.
  - intros d Hin Hf. rewrite find_drop in Hf.
    destruct (mem (legacy d) inc) eqn:M.
    + apply mem_In in M. pose proof (@disjoint_spec _ _ _ Hd M) as N.
      assert (In (legacy d) (map touched rs)) as I.
      { apply in_map_iff. exists (Add d). auto. }
      apply mem_In in I. congruence.
    + specialize (S1 d Hin Hf). unfold compute in *.
      destruct (lookup_all (sources d) (drop_keys inc x)) as [vs|] eqn:L;
        [|reflexivity].
      apply lookup_all_drop in L. now rewrite L in S1.
  - intros k sub u Hin Hf. rewrite find_drop in Hf.
    destruct (mem k inc); [discriminate|]. eapply S2; eauto.
Qed.

Lemma settled_fixed rs x : settled rs x -> fold_left apply_rule rs x = x.
Proof.
  intros (S1 & S2). apply fold_fixed. intros [d|k sub] Hin; simpl.
  - unfold apply_derive. destruct (dict_find (legacy d) x) eqn:F; [reflexivity|].
    now rewrite (S1 d Hin F).
  - destruct (dict_find k x) as [v|] eqn:F; [|reflexivity].
    destruct v; try reflexivity.
    rewrite (S2 k sub kvs Hin F). now apply set_same.
Qed.

Lemma patch_idempotent K e drop :
  wf_kind K = true -> patch K (patch K e drop) drop = patch K e drop.
Proof.
  intros W. pose proof (fold_settled K e W) as S.
  unfold patch. destruct drop.
  - assert (D : disjoint (incompat K) (map touched (rules K)) = true).
    { unfold wf_kind in W. apply andb_prop in W. tauto. }
    rewrite (settled_fixed (@drop_settled _ _ _ D S)). apply drop_drop.
  - now apply settled_fixed.
Qed.

Lemma compat_kinds_wf K : In K compat_kinds -> wf_kind K = true.
Proof.
  intros [<-|[<-|[<-|[<-|[]]]]]; reflexivity.
Qed.

(** C6.  Each of the four compat patches (media, comment, user, list
    user) is idempotent, and without [drop_incompat_keys] it is additive:
    every field of the original entity is still there, with its value, or,
    for a sub-object patched in place, with that object and all its
    original fields. *)
Theorem compat_patch_idempotent_additive K entity :
  In K compat_kinds ->
  (forall drop, patch K (patch K entity drop) drop = patch K entity drop) /\
  (forall k v, dict_find k entity = Some v ->
     exists v', dict_find k (patch K entity false) = Some v' /\ extends v v').
Proof.
  intros HK. split.
  - intros drop. apply patch_idempotent. now apply compat_kinds_wf.
  - intros k v H. unfold patch. now apply fold_extends.
Qed.

Lemma compat_patch_idempotent_additive_witness :
  In media_kind compat_kinds /\
  patch media_kind (patch media_kind demo_media false) false
  = patch media_kind demo_media false /\
  exists v',
    dict_find "user" (patch media_kind demo_media false) = Some v' /\
    extends (JDict [("pk", JInt 25025320); ("username", JStr "instagram");
                    ("profile_pic_url", JStr "http://cdn/p.jpg")]) v'.
Proof.
  assert (H : In media_kind compat_kinds) by (left; reflexivity).
  destruct (@compat_patch_idempotent_additive media_kind demo_media H) as (A & B).
  split; [exact H|]. split; [exact (A false)|].
  exact (B "user" _ eq_refl).
Defined.

(** The fields the tests look for after a media patch. *)
Example compat_media_test :
  let patched := patch media_kind demo_media false in
  dict_find "link" demo_media = None /\
  dict_find "link" patched = Some (JStr "https://www.instagram.com/p/BC-xyz/") /\
  dict_find "created_time" patched = Some (JStr "1457000000") /\
  dict_find "type" patched = Some (JStr "image") /\
  dict_find "filter" patched = Some (JStr "") /\
  (exists u, dict_find "user" patched = Some (JDict u) /\
             dict_find "id" u = Some (JStr "25025320") /\
             dict_find "profile_picture" u = Some (JStr "http://cdn/p.jpg")) /\
  (exists c, dict_find "caption" patched = Some (JDict c) /\
             dict_find "id" c = Some (JStr "17") /\
             dict_find "from" c <> None).
Proof.
  vm_compute. repeat split; try reflexivity.
  - eexists. repeat split; reflexivity.
  - eexists. repeat split; try reflexivity. discriminate.
Qed.

Example compat_comment_test :
  let patched := patch comment_kind demo_comment false in
  dict_find "id" demo_comment = None /\
  dict_find "id" patched = Some (JStr "17865505612040669") /\
  dict_find "created_time" patched = Some (JStr "1479453671") /\
  dict_find "from" patched <> None.
Proof. vm_compute. repeat split; try reflexivity. discriminate. Qed.

Example compat_user_test :
  let patched := patch user_kind demo_user false in
  dict_find "id" demo_user = None /\
  dict_find "id" patched = Some (JStr "124317") /\
  dict_find "bio" patched = Some (JStr "about me") /\
  dict_find "profile_picture" patched = Some (JStr "http://cdn/u.jpg") /\
  dict_find "website" patched = Some (JStr "http://example.com").
Proof. vm_compute. repeat split; reflexivity. Qed.

Example compat_user_list_test :
  let patched := patch list_user_kind demo_user true in
  dict_find "id" patched = Some (JStr "124317") /\
  dict_find "profile_picture" patched = Some (JStr "http://cdn/u.jpg") /\
  dict_find "pk" patched = None.
Proof. vm_compute. repeat split; reflexivity. Qed.


(** * Further properties

    ** The pagination helpers: request count, result size, cursors *)

Lemma call_api_log ep ps qs u w w1 r :
  _call_api ep ps qs u w = (w1, r) ->
  log w1 = log w ++ [({| endpoint := ep; params := ps; query := qs; unsigned := u |}, r)].
Proof.
  unfold _call_api.
  destruct (script w (length (log w))) as [body|e].
  - destruct (materialize (heap w) body) as [h d].
    intros H; inversion H; subst; reflexivity.
  - intros H; inversion H; subst; reflexivity.
Qed.

Lemma truthy_items_nonempty v xs :
  truthy v = true -> iter_values v = Ok xs -> xs <> [].
Proof.
  destruct v; simpl; try discriminate; intros T H; inversion H; subst.
  - destruct s; [discriminate|]. simpl. discriminate.
  - destruct xs; [discriminate|]. discriminate.
  - destruct kvs; [discriminate|]. simpl. discriminate.
Qed.

Lemma get_default_truthy d k v :
  truthy (get d k) = true -> get_default d k v = get d k.
Proof.
  unfold get, get_default. destruct (dict_find k d); [reflexivity|discriminate].
Qed.

Section PageCount.
Variables (flag items : string) (call : dict -> M dict).
Hypothesis Hcall :
  forall args w, exists ep ps qs u, call args w = _call_api ep ps qs u w.

Lemma call_requests args w w1 r :
  call args w = (w1, r) -> requests w1 = S (requests w).
Proof.
  destruct (Hcall args w) as (ep & ps & qs & u & E). rewrite E.
  intros H. now apply call_api_inv in H.
Qed.

Lemma page_loop_count fuel : forall n args res acc w w' r,
  page_loop flag items call fuel n args res acc w = Some (w', r) ->
  requests w' <= requests w + Z.to_nat (n - Z.of_nat (length acc)).
Proof.
  induction fuel as [|fuel IH]; intros n args res acc w w' r; cbn [page_loop].
  - destruct (_ && _ && _); [discriminate|].
    intros H; inversion H; subst. lia.
  - destruct (_ && _ && _) eqn:C; [|intros H; inversion H; subst; lia].
    apply andb_prop in C. destruct C as (_ & L). apply Z.ltb_lt in L.
    destruct (call _ w) as [w1 [res1|e]] eqn:Ec.
    2:{ intros H; inversion H; subst. apply call_requests in Ec. lia. }
    apply call_requests in Ec.
    unfold extend.
    destruct (iter_values (get_default res1 items (JList []))) as [xs|e] eqn:It;
      cbn [rbind].
    2:{ intros H; inversion H; subst. lia. }
    destruct (_ || _) eqn:B.
    { intros H; inversion H; subst. lia. }
    apply orb_false_elim in B. destruct B as (_ & B).
    apply negb_false_iff in B.
    rewrite (get_default_truthy _ _ _ B) in It.
    pose proof (truthy_items_nonempty _ B It) as Hne.
    intros H. apply IH in H. rewrite length_app in H.
    destruct xs; [congruence|]. simpl in H. lia.
Qed.

Lemma page_fetch_count fuel n args w w' r :
  page_fetch flag items call fuel n args w = Some (w', r) ->
  requests w' <= requests w + 1 + Z.to_nat n.
Proof.
  unfold page_fetch.
  destruct (call args w) as [w1 [res1|e]] eqn:Ec; apply call_requests in Ec.
  2:{ intros H; inversion H; subst. lia. }
  destruct (extend _ _) as [acc|e].
  2:{ intros H; inversion H; subst. lia. }
  intros H. apply page_loop_count in H. lia.
Qed.
End PageCount.

Lemma store_log l v w : log (fst (store l v w)) = log w.
Proof. reflexivity. Qed.

Lemma mapM_log {A} (step : A -> M unit) :
  (forall x w, log (fst (step x w)) = log w) ->
  forall l w, log (fst (mapM_ step l w)) = log w.
Proof.
  intros Hs. induction l as [|x l IH]; intros w; simpl; [reflexivity|].
  unfold bind. pose proof (Hs x w) as H.
  destruct (step x w) as [w1 [[]|e]]; simpl in *; [|assumption].
  now rewrite IH.
Qed.

Lemma patch_feed_item_log P drop m w :
  log (fst (patch_feed_item P drop m w)) = log w.
Proof.
  unfold patch_feed_item. destruct m; try reflexivity.
  destruct (nth l (heap w) JNull); try reflexivity.
  destruct (truthy _); [|reflexivity].
  destruct (media P _ drop); reflexivity.
Qed.

Lemma patch_comment_log P drop m w :
  log (fst (patch_comment P drop m w)) = log w.
Proof.
  unfold patch_comment.
  destruct m; try (destruct (comment P _ drop); reflexivity).
Qed.

(** What [feed_timeline] and [media_n_comments] add to the log is what
    their page fetches add. *)
Lemma feed_timeline_log P fuel self n kwargs w w' r :
  feed_timeline P fuel self n kwargs w = Some (w', r) ->
  exists w1 r1, timeline_pages fuel self n kwargs w = Some (w1, r1) /\
                log w' = log w1 /\
                (forall media, r = Ok media -> exists res, r1 = Ok (res, media)).
Proof.
  unfold feed_timeline.
  destruct (timeline_pages fuel self n kwargs w) as [[w1 [[res media]|e]]|];
    [| |discriminate].
  2:{ intros H; inversion H; subst. exists w', (Raise e).
      repeat split. intros m Hm. discriminate. }
  destruct (auto_patch self).
  2:{ intros H; inversion H; subst. exists w', (Ok (res, media)).
      repeat split. intros m Hm. inversion Hm; subst. eauto. }
  unfold bind, lift.
  destruct (iter_values _) as [its|e].
  2:{ intros H; inversion H; subst. exists w', (Ok (res, media)).
      repeat split. intros m Hm. discriminate. }
  pose proof (mapM_log (patch_feed_item P (drop_incompat_keys self))
                (patch_feed_item_log P (drop_incompat_keys self)) its w1) as Hl.
  destruct (mapM_ _ its w1) as [w2 [[]|e]]; simpl in Hl;
    intros H; inversion H; subst; exists w1, (Ok (res, media)); repeat split; auto.
  - intros m Hm. inversion Hm; subst. eauto.
  - intros m Hm. discriminate.
Qed.

Lemma media_n_comments_log P fuel self media_id n reverse kwargs w w' r :
  media_n_comments P fuel self media_id n reverse kwargs w = Some (w', r) ->
  exists w1 r1, comments_pages fuel media_id n kwargs w = Some (w1, r1) /\
                log w' = log w1 /\
                (forall l, r = Ok l ->
                   exists res comments,
                     r1 = Ok (res, comments) /\
                     sorted (created_time (heap w')) comments reverse = Ok l).
Proof.
  unfold media_n_comments.
  destruct (comments_pages fuel media_id n kwargs w) as [[w1 [[res cs]|e]]|];
    [| |discriminate].
  2:{ intros H; inversion H; subst. exists w', (Raise e).
      repeat split. intros m Hm. discriminate. }
  unfold bind.
  destruct (auto_patch self).
  - pose proof (mapM_log (patch_comment P (drop_incompat_keys self))
                  (patch_comment_log P (drop_incompat_keys self)) cs w1) as Hl.
    destruct (mapM_ _ cs w1) as [w2 [[]|e]]; simpl in Hl;
      intros H; inversion H; subst; exists w1, (Ok (res, cs)); repeat split; auto.
    + intros l Hm. eauto.
    + intros l Hm. discriminate.
  - unfold ret. intros H; inversion H; subst. exists w', (Ok (res, cs)).
    repeat split. intros l Hm. eauto.
Qed.

(** X1.  Whatever the server answers, a pagination helper called with [n]
    issues at most [1 + max(0, n)] requests. *)
Theorem pagination_request_bound P fuel self media_id n reverse kwargs w :
  (forall w' r, feed_timeline P fuel self n kwargs w = Some (w', r) ->
                requests w' <= requests w + 1 + Z.to_nat n) /\
  (forall w' r,
     media_n_comments P fuel self media_id n reverse kwargs w = Some (w', r) ->
     requests w' <= requests w + 1 + Z.to_nat n).
Proof.
  split; intros w' r H.
  - apply feed_timeline_log in H. destruct H as (w1 & r1 & H & Hl & _).
    rewrite timeline_pages_fetch in H.
    apply (@page_fetch_count _ _ _ timeline_call_is_call) in H.
    unfold requests in *. rewrite Hl. exact H.
  - apply media_n_comments_log in H. destruct H as (w1 & r1 & H & Hl & _).
    rewrite comments_pages_fetch in H.
    apply (@page_fetch_count _ _ _ (comments_call_is_call _)) in H.
    unfold requests in *. rewrite Hl. exact H.
Qed.

Lemma insert_by_perm x : forall l r,
  insert_by x l = Ok r -> Permutation r (x :: l).
Proof.
  induction l as [|y l IH]; intros r; simpl.
  - intros H; inversion H; subst. reflexivity.
  - destruct (py_lt (fst y) (fst x)) as [[|]|e]; simpl; try discriminate.
    + destruct (insert_by x l) as [r'|e]; simpl; [|discriminate].
      intros H; inversion H; subst.
      rewrite (IH _ eq_refl). apply perm_swap.
    + intros H; inversion H; subst. reflexivity.
Qed.

Lemma sort_by_perm : forall l r, sort_by l = Ok r -> Permutation r l.
Proof.
  induction l as [|x l IH]; intros r; simpl.
  - intros H; inversion H; subst. reflexivity.
  - destruct (sort_by l) as [r'|e]; simpl; [|discriminate].
    intros H. apply insert_by_perm in H. rewrite H.
    constructor. now apply IH.
Qed.

Lemma sorted_perm key l reverse r :
  sorted key l reverse = Ok r -> Permutation r l.
Proof.
  unfold sorted.
  destruct (rmap key l) as [keys|e] eqn:Hk; simpl; [|discriminate].
  pose proof (rmap_Forall2 _ _ Hk) as F2.
  assert (Hsnd : map snd (combine keys l) = l).
  { clear Hk. induction F2; simpl; congruence. }
  destruct reverse.
  - destruct (sort_by (rev (combine keys l))) as [s|e] eqn:Es; simpl; [|discriminate].
    intros H; inversion H; subst.
    apply sort_by_perm in Es.
    transitivity (map snd (combine keys l)); [|now rewrite Hsnd].
    apply Permutation_map.
    rewrite <- Permutation_rev, Es. symmetry. apply Permutation_rev.
  - destruct (sort_by (combine keys l)) as [s|e] eqn:Es; simpl; [|discriminate].
    intros H; inversion H; subst.
    apply sort_by_perm in Es.
    transitivity (map snd (combine keys l)); [|now rewrite Hsnd].
    now apply Permutation_map.
Qed.

Lemma stop_reason flag items s n j w res acc :
  fetched items s j w res acc ->
  (Z.of_nat (length acc) < n)%Z ->
  continue_after flag items s n j = false \/
  (0 < j /\ bail_after items s j = true) ->
  page_truthy flag (s j) = false \/
  page_truthy "next_max_id" (s j) = false \/
  (0 < j /\ page_truthy items (s j) = false).
Proof.
  intros F L [C|(Hj & B)].
  - apply fetched_view in F. destruct F as (V & _).
    unfold continue_after in C. rewrite <- V in C.
    unfold view in C. rewrite length_map in C.
    apply andb_false_iff in C. destruct C as [C|C].
    + apply andb_false_iff in C. tauto.
    + apply Z.ltb_ge in C. lia.
  - unfold bail_after in B. apply orb_true_iff in B.
    destruct B as [B|B]; apply negb_true_iff in B; auto.
Qed.

(** X2.  A helper that returns fewer than [n] items was told by the server
    that nothing more is to come: the last page it fetched has no
    more-pages flag, no cursor, or (a later page) no items. *)
Theorem fewer_than_n_only_when_exhausted P fuel self media_id n reverse kwargs w :
  (forall w' media,
     feed_timeline P fuel self n kwargs w = Some (w', Ok media) ->
     (Z.of_nat (length media) < n)%Z ->
     exists j, requests w' = requests w + S j /\
       (page_truthy "more_available" (served w j) = false \/
        page_truthy "next_max_id" (served w j) = false \/
        (0 < j /\ page_truthy "feed_items" (served w j) = false))) /\
  (forall w' l,
     media_n_comments P fuel self media_id n reverse kwargs w = Some (w', Ok l) ->
     (Z.of_nat (length l) < n)%Z ->
     exists j, requests w' = requests w + S j /\
       (page_truthy "has_more_comments" (served w j) = false \/
        page_truthy "next_max_id" (served w j) = false \/
        (0 < j /\ page_truthy "comments" (served w j) = false))).
Proof.
  split.
  - intros w' media H L.
    apply feed_timeline_log in H. destruct H as (w1 & r1 & H & Hl & Hr).
    destruct (Hr _ eq_refl) as (res & ->).
    rewrite timeline_pages_fetch in H.
    apply (@page_fetch_inv _ _ _ timeline_call_is_call) in H.
    destruct H as (_ & j & Hq & F & _ & Hstop).
    exists j. split; [unfold requests in *; now rewrite Hl|].
    eapply stop_reason; eauto.
  - intros w' l H L.
    apply media_n_comments_log in H. destruct H as (w1 & r1 & H & Hl & Hr).
    destruct (Hr _ eq_refl) as (res & cs & -> & Hs).
    apply sorted_perm in Hs. apply Permutation_length in Hs.
    rewrite comments_pages_fetch in H.
    apply (@page_fetch_inv _ _ _ (comments_call_is_call _)) in H.
    destruct H as (_ & j & Hq & F & _ & Hstop).
    exists j. split; [unfold requests in *; now rewrite Hl|].
    eapply stop_reason; eauto. lia.
Qed.

Lemma dict_set_set k v v' : forall d,
  dict_set k v (dict_set k v' d) = dict_set k v d.
Proof.
  induction d as [|[k0 v0] d IH]; simpl.
  - now rewrite String.eqb_refl.
  - destruct (String.eqb k k0) eqn:E; simpl; rewrite E; [reflexivity|].
    now rewrite IH.
Qed.

Section PageLog.
Variables (flag items : string) (call : dict -> M dict) (mk : dict -> request).
Hypothesis Hmk : forall args w,
  call args w
  = _call_api (endpoint (mk args)) (params (mk args)) (query (mk args))
      (unsigned (mk args)) w.

Lemma call_log args w w1 r :
  call args w = (w1, r) -> log w1 = log w ++ [(mk args, r)].
Proof.
  rewrite Hmk. intros H. apply call_api_log in H. rewrite H.
  now destruct (mk args).
Qed.

Lemma page_loop_log fuel : forall n args0 args res acc w w' r,
  (forall c, dict_set "max_id" c args = dict_set "max_id" c args0) ->
  page_loop flag items call fuel n args res acc w = Some (w', r) ->
  exists es, log w' = log w ++ es /\
             follows (fun c => mk (dict_set "max_id" c args0)) (Ok res) es.
Proof.
  induction fuel as [|fuel IH]; intros n args0 args res acc w w' r Ha;
    cbn [page_loop].
  - destruct (_ && _ && _); [discriminate|].
    intros H; inversion H; subst. exists []. now rewrite app_nil_r.
  - destruct (_ && _ && _).
    2:{ intros H; inversion H; subst. exists []. now rewrite app_nil_r. }
    cbn [dict_update fold_left fst snd]. rewrite Ha.
    destruct (call _ w) as [w1 [res1|e]] eqn:Ec; apply call_log in Ec.
    2:{ intros H; inversion H; subst. eexists. split; [exact Ec|].
        simpl. split; eauto. }
    destruct (extend _ _) as [acc'|e].
    2:{ intros H; inversion H; subst. eexists. split; [exact Ec|].
        simpl. split; eauto. }
    destruct (_ || _).
    { intros H; inversion H; subst. eexists. split; [exact Ec|].
      simpl. split; eauto. }
    intros H. apply IH with (args0 := args0) in H.
    + destruct H as (es & Hl & Hf). rewrite Ec, <- app_assoc in Hl.
      eexists. split; [exact Hl|]. simpl. split; eauto.
    + intros c. apply dict_set_set.
Qed.

Lemma page_fetch_log fuel n args w w' r :
  page_fetch flag items call fuel n args w = Some (w', r) ->
  exists r0 rest,
    issued w w' = (mk args, r0) :: rest /\
    follows (fun c => mk (dict_set "max_id" c args)) r0 rest.
Proof.
  assert (Hsk : forall (l es : list (request * result dict)),
            skipn (length l) (l ++ es) = es).
  { intros l es. rewrite skipn_app, skipn_all, Nat.sub_diag. reflexivity. }
  unfold page_fetch, issued, requests.
  destruct (call args w) as [w1 [res1|e]] eqn:Ec; apply call_log in Ec.
  2:{ intros H; inversion H; subst. rewrite Ec, Hsk. exists (Raise e), [].
      split; simpl; auto. }
  destruct (extend _ _) as [acc|e].
  2:{ intros H; inversion H; subst. rewrite Ec, Hsk. exists (Ok res1), [].
      split; simpl; auto. }
  intros H. apply page_loop_log with (args0 := args) in H; [|reflexivity].
  destruct H as (es & Hl & Hf). rewrite Ec, <- app_assoc in Hl.
  rewrite Hl, Hsk. exists (Ok res1), es. split; auto.
Qed.
End PageLog.

(** X3.  The requests of a pagination helper: the first one carries the
    caller's arguments, and every later one is the first one with [max_id]
    set to the [next_max_id] of the response received just before it. *)
Theorem cursor_threaded_through_requests P fuel self media_id n reverse kwargs w :
  (forall w' r,
     feed_timeline P fuel self n kwargs w = Some (w', r) ->
     exists r0 rest,
       issued w w' = (timeline_request (timeline_params self kwargs), r0) :: rest /\
       follows (fun c => timeline_request
                           (dict_set "max_id" c (timeline_params self kwargs)))
               r0 rest) /\
  (forall w' r,
     media_n_comments P fuel self media_id n reverse kwargs w = Some (w', r) ->
     exists r0 rest,
       issued w w' = (comments_request media_id kwargs, r0) :: rest /\
       follows (fun c => comments_request media_id (dict_set "max_id" c kwargs))
               r0 rest).
Proof.
  split; intros w' r H.
  - apply feed_timeline_log in H. destruct H as (w1 & r1 & H & Hl & _).
    rewrite timeline_pages_fetch in H.
    apply (@page_fetch_log "more_available" "feed_items" timeline_call
             timeline_request) in H; [|reflexivity].
    unfold issued in *. now rewrite Hl.
  - apply media_n_comments_log in H. destruct H as (w1 & r1 & H & Hl & _).
    rewrite comments_pages_fetch in H.
    apply (@page_fetch_log "has_more_comments" "comments"
             (comments_call ("media/" ++ media_id ++ "/comments/")%string)
             (comments_request media_id)) in H; [|reflexivity].
    unfold issued in *. now rewrite Hl.
Qed.

Lemma demo_timeline_run_3 :
  exists w' r, feed_timeline demo_patch 3 (demo_client true) 3 [] demo_world
               = Some (w', r).
Proof. eexists. eexists. vm_compute. reflexivity. Defined.

Lemma demo_comments_run_3 :
  exists w' r,
    media_n_comments demo_patch 3 (demo_client true) "1" 3 false [] demo_world
    = Some (w', r).
Proof. eexists. eexists. vm_compute. reflexivity. Defined.

Lemma pagination_request_bound_witness :
  (exists w' r,
     feed_timeline demo_patch 3 (demo_client true) 3 [] demo_world = Some (w', r) /\
     requests w' <= requests demo_world + 1 + Z.to_nat 3) /\
  (exists w' r,
     media_n_comments demo_patch 3 (demo_client true) "1" 3 false [] demo_world
     = Some (w', r) /\
     requests w' <= requests demo_world + 1 + Z.to_nat 3).
Proof.
  split.
  - destruct demo_timeline_run_3 as (w' & r & H). exists w', r.
    split; [exact H|].
    exact (proj1 (@pagination_request_bound demo_patch 3 (demo_client true) "1"
                    3 false [] demo_world) w' r H).
  - destruct demo_comments_run_3 as (w' & r & H). exists w', r.
    split; [exact H|].
    exact (proj2 (@pagination_request_bound demo_patch 3 (demo_client true) "1"
                    3 false [] demo_world) w' r H).
Defined.

Lemma demo_timeline_run_50 :
  exists w' media,
    feed_timeline demo_patch 3 (demo_client false) 50 [] demo_world
    = Some (w', Ok media) /\ (Z.of_nat (length media) < 50)%Z.
Proof. eexists. eexists. vm_compute. split; reflexivity. Defined.

Lemma demo_comments_run_50 :
  exists w' l,
    media_n_comments demo_patch 3 (demo_client false) "1" 50 true [] demo_world
    = Some (w', Ok l) /\ (Z.of_nat (length l) < 50)%Z.
Proof. eexists. eexists. vm_compute. split; reflexivity. Defined.

Lemma fewer_than_n_only_when_exhausted_witness :
  (exists w' media j,
     feed_timeline demo_patch 3 (demo_client false) 50 [] demo_world
     = Some (w', Ok media) /\
     (Z.of_nat (length media) < 50)%Z /\
     requests w' = requests demo_world + S j /\
     (page_truthy "more_available" (served demo_world j) = false \/
      page_truthy "next_max_id" (served demo_world j) = false \/
      (0 < j /\ page_truthy "feed_items" (served demo_world j) = false))) /\
  (exists w' l j,
     media_n_comments demo_patch 3 (demo_client false) "1" 50 true [] demo_world
     = Some (w', Ok l) /\
     (Z.of_nat (length l) < 50)%Z /\
     requests w' = requests demo_world + S j /\
     (page_truthy "has_more_comments" (served demo_world j) = false \/
      page_truthy "next_max_id" (served demo_world j) = false \/
      (0 < j /\ page_truthy "comments" (served demo_world j) = false))).
Proof.
  split.
  - destruct demo_timeline_run_50 as (w' & media & H & L).
    destruct (proj1 (@fewer_than_n_only_when_exhausted demo_patch 3
                       (demo_client false) "1" 50 true [] demo_world)
                w' media H L) as (j & A).
    exists w', media, j. split; [exact H|]. split; [exact L|exact A].
  - destruct demo_comments_run_50 as (w' & l & H & L).
    destruct (proj2 (@fewer_than_n_only_when_exhausted demo_patch 3
                       (demo_client false) "1" 50 true [] demo_world)
                w' l H L) as (j & A).
    exists w', l, j. split; [exact H|]. split; [exact L|exact A].
Defined.

Lemma cursor_threaded_through_requests_witness :
  (exists w' r r0 rest,
     feed_timeline demo_patch 3 (demo_client true) 3 [] demo_world = Some (w', r) /\
     issued demo_world w'
     = (timeline_request (timeline_params (demo_client true) []), r0) :: rest /\
     follows (fun c => timeline_request
                         (dict_set "max_id" c (timeline_params (demo_client true) [])))
             r0 rest) /\
  (exists w' r r0 rest,
     media_n_comments demo_patch 3 (demo_client true) "1" 3 false [] demo_world
     = Some (w', r) /\
     issued demo_world w' = (comments_request "1" [], r0) :: rest /\
     follows (fun c => comments_request "1" (dict_set "max_id" c [])) r0 rest).
Proof.
  split.
  - destruct demo_timeline_run_3 as (w' & r & H).
    destruct (proj1 (@cursor_threaded_through_requests demo_patch 3
                       (demo_client true) "1" 3 false [] demo_world) w' r H)
      as (r0 & rest & A).
    exists w', r, r0, rest. split; [exact H|exact A].
  - destruct demo_comments_run_3 as (w' & r & H).
    destruct (proj2 (@cursor_threaded_through_requests demo_patch 3
                       (demo_client true) "1" 3 false [] demo_world) w' r H)
      as (r0 & rest & A).
    exists w', r, r0, rest. split; [exact H|exact A].
Defined.

(** ** Stability of the comment order *)

Lemma insert_by_stable z x : forall l r,
  int_keyed x -> Forall int_keyed l ->
  insert_by x l = Ok r ->
  filter (pair_at z) r = filter (pair_at z) (x :: l).
Proof.
  induction l as [|y l IH]; intros r Hx Hl; cbn [insert_by].
  - intros H; inversion H; subst. reflexivity.
  - inversion Hl as [|? ? Hy Hl']; subst.
    destruct Hx as (kx & Ex). destruct Hy as (ky & Ey).
    assert (Ax : pair_at z x = (kx =? z)%Z) by (unfold pair_at; now rewrite Ex).
    assert (Ay : pair_at z y = (ky =? z)%Z) by (unfold pair_at; now rewrite Ey).
    rewrite Ex, Ey. cbn [py_lt as_number rbind].
    destruct (ky <? kx)%Z eqn:L.
    + destruct (insert_by x l) as [r'|e] eqn:Ei; [|discriminate].
      cbn [rbind]. intros H; inversion H; subst.
      cbn [filter]. rewrite (IH r' (ex_intro _ kx Ex) Hl' eq_refl).
      cbn [filter]. rewrite Ax, Ay.
      apply Z.ltb_lt in L.
      destruct (ky =? z)%Z eqn:A; destruct (kx =? z)%Z eqn:B; try reflexivity.
      apply Z.eqb_eq in A, B. lia.
    + intros H; inversion H; subst. reflexivity.
Qed.

Lemma sort_by_stable z : forall l r,
  Forall int_keyed l -> sort_by l = Ok r ->
  filter (pair_at z) r = filter (pair_at z) l.
Proof.
  induction l as [|x l IH]; intros r Hl; cbn [sort_by].
  - intros H; inversion H; subst. reflexivity.
  - inversion Hl as [|? ? Hx Hl']; subst.
    destruct (sort_by l) as [r'|e] eqn:Es; [|discriminate]. cbn [rbind].
    intros H. apply insert_by_stable with (z := z) in H; auto.
    + rewrite H. cbn [filter]. now rewrite (IH r' Hl' eq_refl).
    + apply sort_by_perm in Es. apply Forall_forall. intros p Hp.
      rewrite Forall_forall in Hl'. apply Hl'.
      eapply Permutation_in; eauto.
Qed.

Lemma filter_rev' {A} (f : A -> bool) : forall l,
  filter f (rev l) = rev (filter f l).
Proof.
  induction l as [|x l IH]; [reflexivity|].
  cbn [rev filter]. rewrite filter_app, IH. cbn [filter].
  destruct (f x); [reflexivity|apply app_nil_r].
Qed.

Lemma filter_snd key z : forall (r : list (json * json)),
  Forall (fun p => key (snd p) = Ok (fst p)) r ->
  filter (at_time key z) (map snd r) = map snd (filter (pair_at z) r).
Proof.
  induction 1 as [|p r Hp _ IH]; [reflexivity|].
  cbn [map filter]. unfold at_time at 1, pair_at at 1. rewrite Hp, IH.
  destruct (fst p) as [ | |k| | | | ]; try reflexivity.
  destruct (k =? z)%Z; reflexivity.
Qed.

(** [sorted] is stable on integer keys, also with [reverse]: elements
    with the same key come out in the order they went in. *)
Lemma sorted_stable key l reverse r z :
  (forall c, In c l -> exists k, key c = Ok (JInt k)) ->
  sorted key l reverse = Ok r ->
  filter (at_time key z) r = filter (at_time key z) l.
Proof.
  intros Hk. unfold sorted.
  destruct (rmap key l) as [keys|e] eqn:Hr; [|discriminate]. cbn [rbind].
  pose proof (rmap_Forall2 _ _ Hr) as F2.
  assert (Hsnd : map snd (combine keys l) = l).
  { clear Hr Hk. induction F2; simpl; congruence. }
  assert (Hkey : Forall (fun p => key (snd p) = Ok (fst p)) (combine keys l)).
  { clear Hr Hk Hsnd. induction F2; simpl; constructor; auto. }
  assert (Hint : Forall int_keyed (combine keys l)).
  { clear Hr Hsnd Hkey. induction F2 as [|c k l keys Hc _ IH]; simpl;
      constructor.
    - destruct (Hk c (or_introl eq_refl)) as (z' & Hz).
      exists z'. simpl. congruence.
    - apply IH. intros c' Hc'. apply Hk. now right. }
  assert (Hperm : forall s s', Permutation s' s ->
            Forall (fun p => key (snd p) = Ok (fst p)) s ->
            Forall (fun p => key (snd p) = Ok (fst p)) s').
  { intros s s' Hp Hs. apply Forall_forall. intros p Hin.
    rewrite Forall_forall in Hs. apply Hs. eapply Permutation_in; eauto. }
  destruct reverse.
  - destruct (sort_by (rev (combine keys l))) as [s|e] eqn:Es; [|discriminate].
    cbn [rbind]. intros H; inversion H; subst. clear H.
    pose proof (sort_by_perm _ Es) as Ps.
    apply sort_by_stable with (z := z) in Es.
    2:{ apply Forall_rev. exact Hint. }
    rewrite filter_snd.
    2:{ apply Hperm with (s := combine keys l); [|exact Hkey].
        rewrite <- Permutation_rev, Ps. symmetry. apply Permutation_rev. }
    rewrite filter_rev', Es, filter_rev', rev_involutive.
    rewrite <- (@filter_snd key z _ Hkey). now rewrite Hsnd.
  - destruct (sort_by (combine keys l)) as [s|e] eqn:Es; [|discriminate].
    cbn [rbind]. intros H; inversion H; subst. clear H.
    pose proof (sort_by_perm _ Es) as Ps.
    apply sort_by_stable with (z := z) in Es; [|exact Hint].
    rewrite filter_snd by (eapply Hperm; eauto).
    rewrite Es. rewrite <- (@filter_snd key z _ Hkey). now rewrite Hsnd.
Qed.

(** X4.  [media_n_comments] keeps the fetch order among comments of equal
    [created_time], whether it sorts ascending or descending: with integer
    timestamps, the comments of any one timestamp appear in the result in
    the order in which they were fetched. *)
Theorem equal_times_keep_fetch_order P fuel self media_id n reverse kwargs
    w w' l :
  media_n_comments P fuel self media_id n reverse kwargs w = Some (w', Ok l) ->
  (forall c, In c l -> exists k, created_time (heap w') c = Ok (JInt k)) ->
  exists w1 results comments j,
    comments_pages fuel media_id n kwargs w = Some (w1, Ok (results, comments)) /\
    requests w' = requests w + S j /\
    view w1 comments = pages_items "comments" (served w) (S j) /\
    forall z,
      filter (at_time (created_time (heap w')) z) l
      = filter (at_time (created_time (heap w')) z) comments.
Proof.
  intros H Hk.
  apply media_n_comments_log in H. destruct H as (w1 & r1 & H & Hl & Hr).
  destruct (Hr _ eq_refl) as (res & cs & -> & Hs).
  pose proof H as Hf. rewrite comments_pages_fetch in Hf.
  apply (@page_fetch_inv _ _ _ (comments_call_is_call _)) in Hf.
  destruct Hf as (_ & j & Hq & F & _).
  apply fetched_view in F. destruct F as (V & _).
  exists w1, res, cs, j. repeat split; auto.
  - unfold requests in *. now rewrite Hl.
  - intros z. eapply sorted_stable; [|exact Hs].
    intros c Hc. apply Hk. apply sorted_perm in Hs.
    eapply Permutation_in; [symmetry; exact Hs|exact Hc].
Qed.

(** ** The listing endpoints *)

Lemma rmap_Ok {A} (l : list A) : rmap (fun x => Ok x) l = Ok l.
Proof. induction l as [|x l IH]; simpl; [reflexivity|]. now rewrite IH. Qed.

Lemma patch_object_spec f drop l w w' :
  patch_object f drop (JRef l) w = (w', Ok tt) ->
  exists v, (fun x => f x drop) (nth l (heap w) JNull) = Ok v /\
            heap w' = update l v (heap w) /\
            script w' = script w /\ log w' = log w.
Proof.
  unfold patch_object.
  destruct (f (nth l (heap w) JNull) drop) as [v'|e]; [|discriminate].
  intros H. apply store_inv in H. destruct H as (_ & H). exists v'. tauto.
Qed.

Lemma patch_object_raise f drop l w w' e :
  patch_object f drop (JRef l) w = (w', Raise e) ->
  (fun x => f x drop) (nth l (heap w) JNull) = Raise e.
Proof.
  unfold patch_object.
  destruct (f (nth l (heap w) JNull) drop) as [v'|e'].
  - intros H. apply store_inv in H. destruct H as (H & _). discriminate.
  - intros H. inversion H. reflexivity.
Qed.

Lemma patch_saved_item_spec P drop l w w' :
  patch_saved_item P drop (JRef l) w = (w', Ok tt) ->
  exists v, (fun x => patched_saved_item P x drop) (nth l (heap w) JNull) = Ok v /\
            heap w' = update l v (heap w) /\
            script w' = script w /\ log w' = log w.
Proof.
  unfold patch_saved_item, patched_saved_item.
  destruct (nth l (heap w) JNull) eqn:N; try discriminate.
  destruct (truthy (get kvs "media")).
  - destruct (media P _ drop) as [v'|e]; [|discriminate].
    intros H. apply store_inv in H. destruct H as (_ & H).
    eexists. split; [reflexivity|]. tauto.
  - intros H. inversion H; subst. eexists. split; [reflexivity|].
    rewrite <- N, update_same. auto.
Qed.

Lemma patch_saved_item_raise P drop l w w' e :
  patch_saved_item P drop (JRef l) w = (w', Raise e) ->
  (fun x => patched_saved_item P x drop) (nth l (heap w) JNull) = Raise e.
Proof.
  unfold patch_saved_item, patched_saved_item.
  destruct (nth l (heap w) JNull); try (intros H; inversion H; reflexivity).
  destruct (truthy (get kvs "media")); [|discriminate].
  destruct (media P _ drop) as [v'|e'].
  - intros H. apply store_inv in H. destruct H as (H & _). discriminate.
  - intros H. inversion H. reflexivity.
Qed.

Section Listing.
Variables (step : json -> M unit) (g : json -> result json).
Hypothesis Hstep : forall l w w',
  step (JRef l) w = (w', Ok tt) ->
  exists v, g (nth l (heap w) JNull) = Ok v /\
            heap w' = update l v (heap w) /\
            script w' = script w /\ log w' = log w.
Hypothesis Hraise : forall l w w' e,
  step (JRef l) w = (w', Raise e) -> g (nth l (heap w) JNull) = Raise e.
Hypothesis Hlog : forall x w, log (fst (step x w)) = log w.

(** The patch comprehension run on a freshly decoded response. *)
Lemma patch_listing field (patch guard : bool) h body w1 res xs w' r :
  materialize h body = (heap w1, res) ->
  get_default body field (JList []) = JList xs ->
  guard = true \/ guard = truthy (get res field) ->
  (if patch && guard
   then items <- lift (iter_values (get_default res field (JList []))) ;;
        mapM_ step items
   else ret tt) w1 = (w', r) ->
  log w' = log w1 /\
  match r with
  | Ok _ =>
      exists refs,
        iter_values (get_default res field (JList [])) = Ok refs /\
        rmap (fun x => if patch then g x else Ok x) xs = Ok (view w' refs)
  | Raise e => patch = true /\ exists x, In x xs /\ g x = Raise e
  end.
Proof.
  intros Hm Hx Hg.
  pose proof (materialize_find _ _ field Hm) as F.
  pose proof (materialize_truthy _ _ field Hm) as T.
  assert (Hres : exists off,
            get_default res field (JList [])
            = JList (map JRef (seq off (length xs))) /\
            off + length xs <= length (heap w1) /\
            map (fun l => nth l (heap w1) JNull) (seq off (length xs)) = xs).
  { unfold get_default in *. destruct (dict_find field body) as [v|].
    - subst v. destruct F as (off & -> & _ & L & V). eauto.
    - rewrite F. inversion Hx; subst. exists 0. simpl. repeat split. lia. }
  destruct Hres as (off & Hres & Lb & V).
  assert (Hview : forall w2,
            (forall l, In l (seq off (length xs)) ->
                       nth l (heap w2) JNull = nth l (heap w1) JNull) ->
            view w2 (map JRef (seq off (length xs))) = xs).
  { intros w2 Hsame. unfold view. rewrite map_map. simpl.
    rewrite <- V at 2. apply map_ext_in. exact Hsame. }
  assert (Hskip : (w1, Ok tt) = (w', r) ->
            log w' = log w1 /\
            match r with
            | Ok _ =>
                exists refs,
                  iter_values (get_default res field (JList [])) = Ok refs /\
                  rmap (fun x => if false then g x else Ok x) xs = Ok (view w' refs)
            | Raise e => false = true /\ exists x, In x xs /\ g x = Raise e
            end).
  { intros H; inversion H; subst. split; [reflexivity|].
    exists (map JRef (seq off (length xs))). rewrite Hres. split; [reflexivity|].
    rewrite rmap_Ok. f_equal. symmetry. now apply Hview. }
  destruct patch; [|exact Hskip].
  destruct guard; cbn [andb].
  - unfold bind, lift. rewrite Hres. cbn [iter_values].
    destruct (mapM_ step (map JRef (seq off (length xs))) w1)
      as [w2 [[]|e]] eqn:Em; intros H; inversion H; subst.
    + apply (@mapM_refs step g Hstep) in Em.
      * destruct Em as (_ & Hl & _ & _ & Hr). split; [exact Hl|].
        exists (map JRef (seq off (length xs))). split; [reflexivity|].
        rewrite V in Hr. transitivity (rmap g xs); [reflexivity|].
        rewrite Hr. unfold view. now rewrite map_map.
      * apply seq_NoDup.
      * intros l Hl. apply in_seq in Hl. lia.
    + split.
      * pose proof (mapM_log step Hlog (map JRef (seq off (length xs))) w1) as Hl.
        now rewrite Em in Hl.
      * split; [reflexivity|].
        apply (@mapM_refs_raise step g Hstep Hraise) in Em; [|apply seq_NoDup].
        destruct Em as (l & Hl & Hf). exists (nth l (heap w1) JNull).
        split; [|exact Hf]. rewrite <- V. apply in_map_iff. eauto.
  - (* the guard is off: the listing is empty *)
    destruct Hg as [Hg|Hg]; [discriminate|].
    intros H. rewrite T in Hg.
    assert (xs = []).
    { unfold get, get_default in *. destruct (dict_find field body) as [v|].
      - subst v. destruct xs; [reflexivity|discriminate].
      - now inversion Hx. }
    subst xs. destruct (Hskip H) as (Hl & Hr). split; [exact Hl|].
    destruct r as [u|e]; [|tauto]. simpl. destruct Hr as (refs & Hi & Hv).
    simpl in Hv. exists refs. auto.
Qed.
End Listing.

Lemma patch_tray_spec P drop l w w' :
  patch_tray P drop (JRef l) w = (w', Ok tt) ->
  exists v, (fun x => patched_tray P x drop) (nth l (heap w) JNull) = Ok v /\
            heap w' = update l v (heap w) /\
            script w' = script w /\ log w' = log w.
Proof.
  unfold patch_tray, patched_tray.
  destruct (nth l (heap w) JNull) eqn:N; try discriminate.
  assert (Hsame : forall w0 : World,
            (w, Ok tt) = (w0, Ok tt) ->
            exists v, Ok (JDict kvs) = Ok v /\
                      heap w0 = update l v (heap w) /\
                      script w0 = script w /\ log w0 = log w).
  { intros w0 H. inversion H; subst. eexists. split; [reflexivity|].
    rewrite <- N, update_same. auto. }
  destruct (negb (truthy (get kvs "items"))); [apply Hsame|].
  destruct (get kvs "items") as [ | | |s|ms|d| ];
    try (cbn [iter_values rbind]; discriminate).
  - cbn [iter_values rbind].
    destruct (rmap _ (chars s)); [apply Hsame|discriminate].
  - destruct (rmap _ ms) as [ms'|e]; [|discriminate].
    intros H. apply store_inv in H. destruct H as (_ & H).
    eexists. split; [reflexivity|]. tauto.
  - cbn [iter_values rbind].
    destruct (rmap _ (map _ d)); [apply Hsame|discriminate].
Qed.

Lemma patch_tray_raise P drop l w w' e :
  patch_tray P drop (JRef l) w = (w', Raise e) ->
  (fun x => patched_tray P x drop) (nth l (heap w) JNull) = Raise e.
Proof.
  unfold patch_tray, patched_tray.
  destruct (nth l (heap w) JNull); try (intros H; inversion H; reflexivity).
  destruct (negb (truthy (get kvs "items"))); [discriminate|].
  destruct (get kvs "items") as [ | | |s|ms|d| ];
    try (cbn [iter_values rbind]; intros H; inversion H; reflexivity).
  - cbn [iter_values rbind].
    destruct (rmap _ (chars s)); [discriminate|].
    intros H; inversion H; reflexivity.
  - destruct (rmap _ ms) as [ms'|e'].
    + intros H. apply store_inv in H. destruct H as (H & _). discriminate.
    + intros H; inversion H; reflexivity.
  - cbn [iter_values rbind].
    destruct (rmap _ (map _ d)); [discriminate|].
    intros H; inversion H; reflexivity.
Qed.

Lemma patch_tray_log P drop m w :
  log (fst (patch_tray P drop m w)) = log w.
Proof.
  unfold patch_tray. destruct m; try reflexivity.
  destruct (nth l (heap w) JNull); try reflexivity.
  destruct (negb _); [reflexivity|].
  destruct (get kvs "items"); cbn [iter_values rbind]; try reflexivity.
  - destruct (rmap _ _); reflexivity.
  - destruct (rmap _ _); reflexivity.
  - destruct (rmap _ _); reflexivity.
Qed.

Lemma patch_object_log f drop m w :
  log (fst (patch_object f drop m w)) = log w.
Proof.
  unfold patch_object.
  destruct m; try (destruct (f _ drop); reflexivity).
Qed.

Lemma patch_saved_item_log P drop m w :
  log (fst (patch_saved_item P drop m w)) = log w.
Proof.
  unfold patch_saved_item. destruct m; try reflexivity.
  destruct (nth l (heap w) JNull); try reflexivity.
  destruct (truthy _); [|reflexivity].
  destruct (media P _ drop); reflexivity.
Qed.

Lemma bind_inv {A B} (c : M A) (k : A -> M B) w w' r :
  (x <- c ;; k x) w = (w', r) ->
  (exists w1 a, c w = (w1, Ok a) /\ k a w1 = (w', r)) \/
  (exists e, c w = (w', Raise e) /\ r = Raise e).
Proof.
  unfold bind. destruct (c w) as [w1 [a|e]]; intros H.
  - left. eauto.
  - right. inversion H; subst. eauto.
Qed.

Lemma listing_call_spec step f self guarded field ep ps qs u c :
  (forall l w w',
     step (JRef l) w = (w', Ok tt) ->
     exists v, f (nth l (heap w) JNull) (drop_incompat_keys self) = Ok v /\
               heap w' = update l v (heap w) /\
               script w' = script w /\ log w' = log w) ->
  (forall l w w' e,
     step (JRef l) w = (w', Raise e) ->
     f (nth l (heap w) JNull) (drop_incompat_keys self) = Raise e) ->
  (forall x w, log (fst (step x w)) = log w) ->
  (forall w, c w = listing_call step self guarded field (_call_api ep ps qs u) w) ->
  patches_listing f self field c.
Proof.
  intros Hstep Hraise Hlog Hc w w' r (d & xs & Hs & Hx) H.
  rewrite Hc in H. unfold listing_call in H.
  apply bind_inv in H. destruct H as [(w1 & res & Ec & H)|(e & Ec & _)].
  2:{ apply call_api_inv in Ec. destruct Ec as (_ & _ & Hb).
      rewrite Hs in Hb. destruct Hb as (res & Hb & _). discriminate. }
  apply call_api_inv in Ec. destruct Ec as (_ & Hq & Hb).
  rewrite Hs in Hb. destruct Hb as (res' & Hres & Hm).
  inversion Hres; subst res'.
  assert (Hw : wire_items field (served w 0) = xs).
  { unfold wire_items. now rewrite Hs, Hx. }
  rewrite Hw.
  apply bind_inv in H. destruct H as [(w2 & [] & Ep & H)|(e & Ep & ->)].
  - eapply (@patch_listing step (fun x => f x (drop_incompat_keys self))
              Hstep Hraise Hlog field (auto_patch self)
              (negb guarded || truthy (get res field))) in Ep; eauto.
    2:{ destruct guarded; simpl; auto. }
    destruct Ep as (Hl & Hr). unfold ret in H. inversion H; subst.
    split; [unfold requests in *; congruence|]. exact Hr.
  - eapply (@patch_listing step (fun x => f x (drop_incompat_keys self))
              Hstep Hraise Hlog field (auto_patch self)
              (negb guarded || truthy (get res field))) in Ep; eauto.
    2:{ destruct guarded; simpl; auto. }
    destruct Ep as (Hl & Hr).
    split; [unfold requests in *; congruence|]. exact Hr.
Qed.

Ltac listing_by_unfolding :=
  let w0 := fresh "w" in
  intros w0; unfold listing_call, patch_each, bind;
  match goal with
  | |- context [_call_api ?e1 ?p1 ?q1 ?u1 w0] =>
      destruct (_call_api e1 p1 q1 u1 w0) as [? [?|?]]; [|reflexivity]
  end;
  match goal with
  | |- context [auto_patch ?self] => destruct (auto_patch self)
  end; reflexivity.

Lemma media_listing P self guarded ep ps qs u c :
  (forall w, c w = listing_call (patch_object (media P) (drop_incompat_keys self))
                     self guarded "items" (_call_api ep ps qs u) w) ->
  patches_listing (media P) self "items" c.
Proof.
  apply listing_call_spec.
  - intros l w w'. apply patch_object_spec.
  - intros l w w' e. apply patch_object_raise.
  - apply patch_object_log.
Qed.

Lemma comment_listing P self guarded ep ps qs u c :
  (forall w, c w = listing_call (patch_object (comment P) (drop_incompat_keys self))
                     self guarded "comments" (_call_api ep ps qs u) w) ->
  patches_listing (comment P) self "comments" c.
Proof.
  apply listing_call_spec.
  - intros l w w'. apply patch_object_spec.
  - intros l w w' e. apply patch_object_raise.
  - apply patch_object_log.
Qed.

Lemma user_listing U self guarded ep ps qs u c :
  (forall w, c w = listing_call (patch_object (list_user U) (drop_incompat_keys self))
                     self guarded "users" (_call_api ep ps qs u) w) ->
  patches_listing (list_user U) self "users" c.
Proof.
  apply listing_call_spec.
  - intros l w w'. apply patch_object_spec.
  - intros l w w' e. apply patch_object_raise.
  - apply patch_object_log.
Qed.

Lemma saved_listing P self guarded ep ps qs u c :
  (forall w, c w = listing_call (patch_saved_item P (drop_incompat_keys self))
                     self guarded "items" (_call_api ep ps qs u) w) ->
  patches_listing (patched_saved_item P) self "items" c.
Proof.
  apply listing_call_spec.
  - intros l w w'. apply patch_saved_item_spec.
  - intros l w w' e. apply patch_saved_item_raise.
  - apply patch_saved_item_log.
Qed.

Lemma tray_listing P self guarded ep ps qs u c :
  (forall w, c w = listing_call (patch_tray P (drop_incompat_keys self))
                     self guarded "tray" (_call_api ep ps qs u) w) ->
  patches_listing (patched_tray P) self "tray" c.
Proof.
  apply listing_call_spec.
  - intros l w w'. apply patch_tray_spec.
  - intros l w w' e. apply patch_tray_raise.
  - apply patch_tray_log.
Qed.

Ltac listing lem g :=
  cbv zeta;
  match goal with
  | |- patches_listing _ _ _ (bind (_call_api ?e1 ?p1 ?q1 ?u1) _) =>
      apply lem with (guarded := g) (ep := e1) (ps := p1) (qs := q1) (u := u1)
  end;
  listing_by_unfolding.

(** X5.  The feed endpoints that answer with an [items] listing issue one
    request and patch every object of the listing exactly once, in place and
    in the order served; [saved_feed] patches the [media] of the entries
    that have one and leaves the others as they are; [reels_tray] patches
    the media inside every tray that has items. *)
Theorem feed_listings_patched_once P A self user_id kwargs :
  patches_listing (media P) self "items" (feed_liked P self) /\
  patches_listing (media P) self "items" (feed_popular P A self kwargs) /\
  patches_listing (media P) self "items" (user_feed P A self user_id kwargs) /\
  patches_listing (media P) self "items" (self_feed P A self) /\
  patches_listing (media P) self "items" (username_feed P self user_id kwargs) /\
  patches_listing (media P) self "items" (user_reel_media P self user_id kwargs) /\
  patches_listing (patched_saved_item P) self "items" (saved_feed P self kwargs) /\
  patches_listing (patched_tray P) self "tray" (reels_tray P self kwargs).
Proof.
  repeat match goal with |- _ /\ _ => split end.
  - unfold feed_liked. listing media_listing true.
  - unfold feed_popular. listing media_listing false.
  - unfold user_feed. listing media_listing false.
  - unfold self_feed, user_feed. listing media_listing false.
  - unfold username_feed. listing media_listing false.
  - unfold user_reel_media. listing media_listing false.
  - unfold saved_feed. listing saved_listing false.
  - unfold reels_tray. listing tray_listing false.
Qed.

(** X6.  The listing endpoints of [media.py]: one request, and every object
    of the listing ([items], [comments], [users]) patched exactly once, in
    place and in the order served. *)
Theorem media_listings_patched_once P U self media_id kwargs :
  patches_listing (media P) self "items" (media_info P self media_id) /\
  patches_listing (comment P) self "comments"
    (media_comments P self media_id kwargs) /\
  patches_listing (list_user U) self "users"
    (media_likers U self media_id kwargs) /\
  patches_listing (list_user U) self "users"
    (media_likers_chrono U self media_id) /\
  patches_listing (list_user U) self "users" (comment_likers U self media_id).
Proof.
  repeat match goal with |- _ /\ _ => split end.
  - unfold media_info. listing media_listing false.
  - unfold media_comments. listing comment_listing false.
  - unfold media_likers. listing user_listing false.
  - unfold media_likers_chrono. listing user_listing false.
  - unfold comment_likers. listing user_listing false.
Qed.

Lemma listing_call_not_iterable step self guarded field ep ps qs u w body v :
  served w 0 = Ok body ->
  dict_find field body = Some v ->
  iter_values v = Raise TypeError ->
  auto_patch self = true ->
  exists w',
    listing_call step self guarded field (_call_api ep ps qs u) w
    = (w', if negb guarded || truthy v then Raise TypeError
           else Ok (snd (materialize (heap w) body))) /\
    requests w' = S (requests w).
Proof.
  intros Hs Hf Hi Ha. unfold listing_call, bind.
  destruct (_call_api ep ps qs u w) as [w1 r1] eqn:Ec.
  apply call_api_inv in Ec. destruct Ec as (_ & Hq & Hb).
  rewrite Hs in Hb. destruct Hb as (res & -> & Hm).
  pose proof (materialize_find _ _ field Hm) as F. rewrite Hf in F.
  assert (Hv : dict_find field res = Some v).
  { destruct v; try exact F. discriminate. }
  unfold get, get_default, lift. rewrite Hv, Ha, Hi, Hm. simpl.
  destruct (negb guarded || truthy v); simpl; unfold ret; eauto.
Qed.

(** X7.  A response whose [items] field is there but cannot be iterated
    ([null], a number, a boolean), with [auto_patch] on: the endpoints that
    patch unconditionally raise [TypeError] after the request has been
    answered; [feed_liked], [feed_tag] and [feed_location] test the field
    first and return the response when it is false. *)
Theorem items_not_iterable P A self id kwargs w body v :
  served w 0 = Ok body ->
  dict_find "items" body = Some v ->
  iter_values v = Raise TypeError ->
  auto_patch self = true ->
  (forall c,
     In c [feed_popular P A self kwargs; user_feed P A self id kwargs;
           self_feed P A self; username_feed P self id kwargs;
           user_reel_media P self id kwargs; saved_feed P self kwargs;
           media_info P self id] ->
     exists w', c w = (w', Raise TypeError) /\ requests w' = S (requests w)) /\
  (truthy v = false ->
   exists w' res,
     feed_liked P self w = (w', Ok res) /\ requests w' = S (requests w)) /\
  (truthy v = false -> truthy (get body "ranked_items") = false ->
   forall c, In c [feed_tag P self id kwargs; feed_location P self id kwargs] ->
   exists w' res, c w = (w', Ok res) /\ requests w' = S (requests w)).
Proof.
  intros Hs Hf Hi Ha.
  assert (Hun : forall step ep ps qs u c,
            (forall w, c w = listing_call step self false "items"
                               (_call_api ep ps qs u) w) ->
            exists w', c w = (w', Raise TypeError) /\ requests w' = S (requests w)).
  { intros step ep ps qs u c Hc. rewrite Hc.
    destruct (@listing_call_not_iterable step self false "items" ep ps qs u
                w body v Hs Hf Hi Ha) as (w' & H & Hq).
    exists w'. split; [exact H|exact Hq]. }
  split; [|split].
  - intros c Hc. simpl in Hc.
    repeat (destruct Hc as [<-|Hc]); [..|contradiction].
    all: try (unfold self_feed); 
      unfold feed_popular, user_feed, username_feed, user_reel_media,
        saved_feed, media_info; cbv zeta;
      match goal with
      | |- exists _, bind (_call_api ?e1 ?p1 ?q1 ?u1) _ _ = _ /\ _ =>
          first
            [ apply Hun with (ep := e1) (ps := p1) (qs := q1) (u := u1)
                (step := patch_object (media P) (drop_incompat_keys self));
              listing_by_unfolding
            | apply Hun with (ep := e1) (ps := p1) (qs := q1) (u := u1)
                (step := patch_saved_item P (drop_incompat_keys self));
              listing_by_unfolding ]
      end.
  - intros Hv.
    destruct (@listing_call_not_iterable
                (patch_object (media P) (drop_incompat_keys self)) self true
                "items" "feed/liked/" [] [] false w body v Hs Hf Hi Ha)
      as (w' & H & Hq).
    rewrite Hv in H. simpl in H. exists w'. eexists. split; [|exact Hq].
    rewrite <- H. clear. revert w. unfold feed_liked. listing_by_unfolding.
  - intros Hv Hr c Hc.
    assert (Hg : forall ep,
              exists w' res,
                (res <- _call_api ep [] kwargs false ;;
                 patch_ranked P self res ;;; ret res) w = (w', Ok res) /\
                requests w' = S (requests w)).
    { intros ep. unfold bind.
      destruct (_call_api ep [] kwargs false w) as [w1 r1] eqn:Ec.
      apply call_api_inv in Ec. destruct Ec as (_ & Hq & Hb).
      rewrite Hs in Hb. destruct Hb as (res & -> & Hm).
      unfold patch_ranked. rewrite Ha.
      rewrite (materialize_truthy _ _ "items" Hm).
      rewrite (materialize_truthy _ _ "ranked_items" Hm).
      unfold get at 1. rewrite Hf, Hv, Hr. unfold bind, ret.
      exists w1, res. auto. }
    simpl in Hc. destruct Hc as [<-|[<-|[]]]; apply Hg.
Qed.

(** X8.  When the first page already ends the pagination (no more-comments
    flag, no cursor, or [n] comments are in hand), [media_n_comments] does
    what [media_comments] does (the same request, the same patched objects)
    and returns the comments of that page sorted by [created_time]. *)
Theorem single_page_is_media_comments P fuel self media_id n reverse kwargs
    w w1 res cs :
  media_comments P self media_id kwargs w = (w1, Ok res) ->
  iter_values (get_default res "comments" (JList [])) = Ok cs ->
  truthy (get res "has_more_comments") && truthy (get res "next_max_id")
  && (Z.of_nat (length cs) <? n)%Z = false ->
  media_n_comments P fuel self media_id n reverse kwargs w
  = Some (w1, sorted (created_time (heap w1)) cs reverse).
Proof.
  unfold media_comments, media_n_comments, comments_pages. cbv zeta.
  intros H Hi Hc.
  apply bind_inv in H. destruct H as [(w0 & res0 & Ec & H)|(e & _ & He)];
    [|discriminate].
  rewrite Ec.
  apply bind_inv in H. destruct H as [(w2 & [] & Ep & H)|(e & _ & He)];
    [|discriminate].
  unfold ret in H. inversion H; subst w2 res0. clear H.
  unfold extend. rewrite Hi. cbn [rbind app].
  assert (Hl : comments_loop fuel n ("media/" ++ media_id ++ "/comments/")%string
                 kwargs res cs w0 = Some (w0, Ok (res, cs))).
  { destruct fuel; cbn [comments_loop]; now rewrite Hc. }
  rewrite Hl. unfold bind.
  destruct (auto_patch self).
  - unfold patch_each, bind, lift in Ep. rewrite Hi in Ep.
    change (mapM_ (patch_comment P (drop_incompat_keys self)) cs w0
            = (w1, Ok tt)) in Ep.
    now rewrite Ep.
  - unfold ret in *. inversion Ep; subst. reflexivity.
Qed.

(** ** Endpoints with two listings *)

Lemma field_layout h body h' res field xs :
  materialize h body = (h', res) ->
  get_default body field (JList []) = JList xs ->
  exists off, length h <= off /\ laid_out h' res field xs off.
Proof.
  intros Hm Hx.
  pose proof (materialize_find _ _ field Hm) as F.
  pose proof (materialize_grows _ _ Hm) as (ext & Hext).
  unfold laid_out, get, get_default in *.
  destruct (dict_find field body) as [v|].
  - subst v. destruct F as (off & -> & L0 & L & V).
    exists off. repeat split; auto. simpl. now destruct xs.
  - rewrite F. inversion Hx; subst. exists (length h). simpl.
    repeat split; auto. rewrite length_app. lia.
Qed.

Lemma two_fields_layout : forall body h h' res f1 f2 xs1 xs2,
  materialize h body = (h', res) -> f1 <> f2 ->
  get_default body f1 (JList []) = JList xs1 ->
  get_default body f2 (JList []) = JList xs2 ->
  exists off1 off2,
    laid_out h' res f1 xs1 off1 /\ laid_out h' res f2 xs2 off2 /\
    (off1 + length xs1 <= off2 \/ off2 + length xs2 <= off1).
Proof.
  induction body as [|[k0 v0] body IH]; intros h h' res f1 f2 xs1 xs2 Hm Hne H1 H2.
  - simpl in Hm. inversion Hm; subst. unfold get_default in H1, H2.
    simpl in H1, H2. inversion H1; inversion H2; subst.
    exists 0, 0. unfold laid_out. simpl. repeat split; auto; lia.
  - pose proof Hm as Hm0. simpl in Hm.
    assert (Hcase :
      (exists xs h1 d2,
         v0 = JList xs /\ h1 = h ++ xs /\
         materialize h1 body = (h', d2) /\
         res = (k0, JList (map JRef (seq (length h) (length xs)))) :: d2) \/
      ((forall xs, v0 <> JList xs) /\
       exists d2, materialize h body = (h', d2) /\ res = (k0, v0) :: d2)).
    { destruct v0;
        try (right; split; [intros xs0; discriminate|];
             destruct (materialize h body) as [h2 d2]; inversion Hm; subst;
             eexists; split; reflexivity).
      left. unfold alloc in Hm.
      destruct (materialize (h ++ xs) body) as [h2 d2] eqn:E.
      inversion Hm; subst. exists xs, (h ++ xs), d2. auto. }
    destruct Hcase as [(xs & h1 & d2 & -> & -> & Hm2 & ->)|(Hnl & d2 & Hm2 & ->)].
    + (* the head is an array, laid out at [length h] *)
      pose proof (materialize_grows _ _ Hm2) as (ext & Hext).
      assert (Hhead : forall f ys,
                String.eqb f k0 = true ->
                get_default ((k0, JList xs) :: body) f (JList []) = JList ys ->
                laid_out h' ((k0, JList (map JRef (seq (length h) (length xs)))) :: d2)
                  f ys (length h) /\ ys = xs).
      { intros f ys Ef Hy. unfold get_default in Hy. simpl in Hy.
        rewrite Ef in Hy. inversion Hy; subst ys.
        split; [|reflexivity]. unfold laid_out, get, get_default. simpl.
        rewrite Ef. repeat split.
        - rewrite Hext, !length_app. lia.
        - rewrite Hext, <- app_assoc. apply map_nth_seq_app.
        - simpl. now destruct xs. }
      assert (Htail : forall f ys,
                String.eqb f k0 = false ->
                get_default ((k0, JList xs) :: body) f (JList []) = JList ys ->
                exists off, length h + length xs <= off /\
                  laid_out h' ((k0, JList (map JRef (seq (length h) (length xs)))) :: d2)
                    f ys off).
      { intros f ys Ef Hy. unfold get_default in Hy. simpl in Hy.
        rewrite Ef in Hy.
        destruct (@field_layout _ _ _ _ f ys Hm2 Hy) as (off & L0 & L).
        rewrite length_app in L0. exists off. split; [exact L0|].
        unfold laid_out, get, get_default in *. simpl. rewrite Ef. exact L. }
      destruct (String.eqb f1 k0) eqn:E1; destruct (String.eqb f2 k0) eqn:E2.
      * apply String.eqb_eq in E1, E2. congruence.
      * destruct (Hhead _ _ E1 H1) as (L1 & ->).
        destruct (Htail _ _ E2 H2) as (off2 & B2 & L2).
        exists (length h), off2.
        split; [exact L1|]. split; [exact L2|]. left. exact B2.
      * destruct (Hhead _ _ E2 H2) as (L2 & ->).
        destruct (Htail _ _ E1 H1) as (off1 & B1 & L1).
        exists off1, (length h).
        split; [exact L1|]. split; [exact L2|]. right. exact B1.
      * unfold get_default in H1, H2. simpl in H1, H2. rewrite E1 in H1.
        rewrite E2 in H2.
        destruct (IH _ _ _ _ _ _ _ Hm2 Hne H1 H2) as (off1 & off2 & L1 & L2 & D).
        exists off1, off2. unfold laid_out, get, get_default in *. simpl.
        rewrite E1, E2. auto.
    + (* the head is not an array *)
      assert (E1 : String.eqb f1 k0 = false).
      { destruct (String.eqb f1 k0) eqn:E; [|reflexivity].
        unfold get_default in H1. simpl in H1. rewrite E in H1.
        now contradiction (Hnl xs1). }
      assert (E2 : String.eqb f2 k0 = false).
      { destruct (String.eqb f2 k0) eqn:E; [|reflexivity].
        unfold get_default in H2. simpl in H2. rewrite E in H2.
        now contradiction (Hnl xs2). }
      unfold get_default in H1, H2. simpl in H1, H2. rewrite E1 in H1.
      rewrite E2 in H2.
      destruct (IH _ _ _ _ _ _ _ Hm2 Hne H1 H2) as (off1 & off2 & L1 & L2 & D).
      exists off1, off2. unfold laid_out, get, get_default in *. simpl.
      rewrite E1, E2. auto.
Qed.

Section PatchRange.
Variables (step : json -> M unit) (g : json -> result json).
Hypothesis Hstep : forall l w w',
  step (JRef l) w = (w', Ok tt) ->
  exists v, g (nth l (heap w) JNull) = Ok v /\
            heap w' = update l v (heap w) /\
            script w' = script w /\ log w' = log w.
Hypothesis Hraise : forall l w w' e,
  step (JRef l) w = (w', Raise e) -> g (nth l (heap w) JNull) = Raise e.
Hypothesis Hlog : forall x w, log (fst (step x w)) = log w.

(** The comprehension over one laid-out listing, run or skipped. *)
Lemma patch_range (b : bool) res field xs off w1 w' r :
  laid_out (heap w1) res field xs off ->
  (if b && truthy (get res field)
   then items <- lift (iter_values (get_default res field (JList []))) ;;
        mapM_ step items
   else ret tt) w1 = (w', r) ->
  log w' = log w1 /\
  match r with
  | Ok _ =>
      length (heap w') = length (heap w1) /\
      (forall l, ~ In l (seq off (length xs)) ->
                 nth l (heap w') JNull = nth l (heap w1) JNull) /\
      rmap (fun x => if b then g x else Ok x) xs
      = Ok (map (fun l => nth l (heap w') JNull) (seq off (length xs)))
  | Raise e => b = true /\ exists x, In x xs /\ g x = Raise e
  end.
Proof.
  intros (Hres & Lb & V & T).
  assert (Hskip : (w1, Ok tt) = (w', r) ->
            log w' = log w1 /\
            match r with
            | Ok _ =>
                length (heap w') = length (heap w1) /\
                (forall l, ~ In l (seq off (length xs)) ->
                           nth l (heap w') JNull = nth l (heap w1) JNull) /\
                rmap (fun x => Ok x) xs
                = Ok (map (fun l => nth l (heap w') JNull) (seq off (length xs)))
            | Raise e => false = true /\ exists x, In x xs /\ g x = Raise e
            end).
  { intros H; inversion H; subst. repeat split; auto.
    rewrite rmap_Ok. now rewrite V. }
  destruct b; cbn [andb]; [|exact Hskip].
  rewrite T. destruct xs as [|x0 xs'] eqn:Ex.
  { intros H. destruct (Hskip H) as (A & B). split; [exact A|].
    destruct r; [|tauto]. simpl in *. tauto. }
  rewrite <- Ex in *. clear Hskip.
  unfold bind, lift. rewrite Hres. cbn [iter_values].
  destruct (mapM_ step (map JRef (seq off (length xs))) w1)
    as [w2 [[]|e]] eqn:Em; intros H; inversion H; subst w2 r.
  - apply (@mapM_refs step g Hstep) in Em.
    + destruct Em as (_ & Hl & Hlen & Hfr & Hr). split; [exact Hl|].
      repeat split; auto. rewrite V in Hr. exact Hr.
    + apply seq_NoDup.
    + intros l Hl. apply in_seq in Hl. lia.
  - split.
    + pose proof (mapM_log step Hlog (map JRef (seq off (length xs))) w1) as Hl.
      now rewrite Em in Hl.
    + split; [reflexivity|].
      apply (@mapM_refs_raise step g Hstep Hraise) in Em; [|apply seq_NoDup].
      destruct Em as (l & Hl & Hf). exists (nth l (heap w1) JNull).
      split; [|exact Hf]. rewrite <- V. apply in_map_iff. eauto.
Qed.
End PatchRange.

Lemma patch_ranked_spec P self h body w1 res xs1 xs2 w' r :
  materialize h body = (heap w1, res) ->
  get_default body "items" (JList []) = JList xs1 ->
  get_default body "ranked_items" (JList []) = JList xs2 ->
  patch_ranked P self res w1 = (w', r) ->
  log w' = log w1 /\
  match r with
  | Ok _ =>
      (exists refs,
         iter_values (get_default res "items" (JList [])) = Ok refs /\
         rmap (fun x => if auto_patch self
                        then media P x (drop_incompat_keys self) else Ok x) xs1
         = Ok (view w' refs)) /\
      (exists refs,
         iter_values (get_default res "ranked_items" (JList [])) = Ok refs /\
         rmap (fun x => if auto_patch self
                        then media P x (drop_incompat_keys self) else Ok x) xs2
         = Ok (view w' refs))
  | Raise e =>
      auto_patch self = true /\
      exists x, (In x xs1 \/ In x xs2) /\
                media P x (drop_incompat_keys self) = Raise e
  end.
Proof.
  intros Hm H1 H2.
  destruct (@two_fields_layout _ _ _ _ "items" "ranked_items" _ _ Hm
              ltac:(discriminate) H1 H2) as (off1 & off2 & L1 & L2 & D).
  assert (Hv : forall w2 field xs off,
            laid_out (heap w1) res field xs off ->
            exists refs,
              iter_values (get_default res field (JList [])) = Ok refs /\
              view w2 refs
              = map (fun l => nth l (heap w2) JNull) (seq off (length xs))).
  { intros w2 field xs off (Hres & _). rewrite Hres.
    eexists. split; [reflexivity|]. unfold view. now rewrite map_map. }
  unfold patch_ranked. destruct (auto_patch self) eqn:Ha.
  - intros H. apply bind_inv in H.
    destruct H as [(w2 & [] & Ep1 & Ep2)|(e & Ep1 & ->)].
    + change (if truthy (get res "items") then ?t else ?e)
        with (if true && truthy (get res "items") then t else e) in Ep1.
      eapply (@patch_range _ (fun x => media P x (drop_incompat_keys self))
                (@patch_object_spec (media P) (drop_incompat_keys self))
                (@patch_object_raise (media P) (drop_incompat_keys self))
                (patch_object_log _ _) true) in Ep1; [|exact L1].
      destruct Ep1 as (Hl1 & Hlen1 & Hfr1 & Hr1).
      assert (L2' : laid_out (heap w2) res "ranked_items" xs2 off2).
      { destruct L2 as (A & B & C & E). repeat split; auto; [lia|].
        rewrite <- C at 2. apply map_ext_in. intros l Hl. apply Hfr1.
        intros Hl'. apply in_seq in Hl, Hl'. lia. }
      change (if truthy (get res "ranked_items") then ?t else ?e)
        with (if true && truthy (get res "ranked_items") then t else e) in Ep2.
      eapply (@patch_range _ (fun x => media P x (drop_incompat_keys self))
                (@patch_object_spec (media P) (drop_incompat_keys self))
                (@patch_object_raise (media P) (drop_incompat_keys self))
                (patch_object_log _ _) true) in Ep2; [|exact L2'].
      destruct Ep2 as (Hl2 & Hr2). split; [congruence|].
      destruct r as [u|e].
      * destruct Hr2 as (Hlen2 & Hfr2 & Hr2). split.
        -- destruct (Hv w' _ _ _ L1) as (refs & Hi & Hview).
           exists refs. split; [exact Hi|]. rewrite Hview, Hr1. f_equal.
           apply map_ext_in. intros l Hl. symmetry. apply Hfr2.
           intros Hl'. apply in_seq in Hl, Hl'. lia.
        -- destruct (Hv w' _ _ _ L2) as (refs & Hi & Hview).
           exists refs. split; [exact Hi|]. now rewrite Hview.
      * destruct Hr2 as (_ & x & Hx & Hf). split; [reflexivity|]. eauto.
    + change (if truthy (get res "items") then ?t else ?e)
        with (if true && truthy (get res "items") then t else e) in Ep1.
      eapply (@patch_range _ (fun x => media P x (drop_incompat_keys self))
                (@patch_object_spec (media P) (drop_incompat_keys self))
                (@patch_object_raise (media P) (drop_incompat_keys self))
                (patch_object_log _ _) true) in Ep1; [|exact L1].
      destruct Ep1 as (Hl1 & _ & x & Hx & Hf). split; [exact Hl1|].
      split; [reflexivity|]. eauto.
  - unfold ret. intros H; inversion H; subst. split; [reflexivity|]. split.
    + destruct (Hv w' _ _ _ L1) as (refs & Hi & Hview).
      exists refs. split; [exact Hi|]. rewrite rmap_Ok, Hview.
      destruct L1 as (_ & _ & V & _). now rewrite V.
    + destruct (Hv w' _ _ _ L2) as (refs & Hi & Hview).
      exists refs. split; [exact Hi|]. rewrite rmap_Ok, Hview.
      destruct L2 as (_ & _ & V & _). now rewrite V.
Qed.

Lemma ranked_endpoint P self ep kwargs :
  patches_two_listings (media P) self "items" "ranked_items"
    (res <- _call_api ep [] kwargs false ;; patch_ranked P self res ;;; ret res).
Proof.
  intros w w' r (d & xs1 & Hs & H1) (d' & xs2 & Hs' & H2) H.
  rewrite Hs in Hs'. inversion Hs'; subst d'. clear Hs'.
  apply bind_inv in H. destruct H as [(w1 & res & Ec & H)|(e & Ec & _)].
  2:{ apply call_api_inv in Ec. destruct Ec as (_ & _ & Hb).
      rewrite Hs in Hb. destruct Hb as (res & Hb & _). discriminate. }
  apply call_api_inv in Ec. destruct Ec as (_ & Hq & Hb).
  rewrite Hs in Hb. destruct Hb as (res' & Hres & Hm).
  inversion Hres; subst res'.
  assert (Hw1 : wire_items "items" (served w 0) = xs1).
  { unfold wire_items. now rewrite Hs, H1. }
  assert (Hw2 : wire_items "ranked_items" (served w 0) = xs2).
  { unfold wire_items. now rewrite Hs, H2. }
  rewrite Hw1, Hw2.
  apply bind_inv in H. destruct H as [(w2 & [] & Ep & H)|(e & Ep & ->)].
  - apply (@patch_ranked_spec P self _ _ _ _ _ _ _ _ Hm H1 H2) in Ep.
    destruct Ep as (Hl & Hr). unfold ret in H. inversion H; subst.
    split; [unfold requests in *; congruence|]. exact Hr.
  - apply (@patch_ranked_spec P self _ _ _ _ _ _ _ _ Hm H1 H2) in Ep.
    destruct Ep as (Hl & Hr).
    split; [unfold requests in *; congruence|]. exact Hr.
Qed.

(** X9.  [feed_tag] and [feed_location] issue one request and patch every
    object of both listings of the answer, [items] and [ranked_items],
    exactly once, in place and in the order served; patching one listing
    leaves the objects of the other as they are. *)
Theorem ranked_listings_patched_once P self id kwargs :
  patches_two_listings (media P) self "items" "ranked_items"
    (feed_tag P self id kwargs) /\
  patches_two_listings (media P) self "items" "ranked_items"
    (feed_location P self id kwargs).
Proof.
  split; apply ranked_endpoint.
Qed.

(** ** What the endpoints send *)

Lemma find_update k : forall u d,
  NoDup (map fst u) ->
  dict_find k (dict_update d u)
  = match dict_find k u with
    | Some v => Some v
    | None => dict_find k d
    end.
Proof.
  unfold dict_update.
  induction u as [|[k1 v1] u IH]; intros d ND; simpl; [reflexivity|].
  inversion ND as [|? ? Hn ND']; subst. rewrite IH by assumption.
  destruct (String.eqb k k1) eqn:E.
  - apply String.eqb_eq in E. subst k1.
    assert (Hnone : dict_find k u = None).
    { clear - Hn. induction u as [|[k2 v2] u IH]; simpl; [reflexivity|].
      simpl in Hn. destruct (String.eqb k k2) eqn:E2.
      - apply String.eqb_eq in E2. subst. tauto.
      - apply IH. tauto. }
    rewrite Hnone. apply find_set_same.
  - destruct (dict_find k u); [reflexivity|].
    apply find_set_other. intros ->. rewrite String.eqb_refl in E. discriminate.
Qed.

Lemma update_overrides u d : NoDup (map fst u) -> overrides u d (dict_update d u).
Proof. intros ND k. now apply find_update. Qed.

Lemma issued_one w w1 e :
  log w1 = log w ++ [e] -> issued w w1 = [e].
Proof.
  intros H. unfold issued, requests. rewrite H.
  rewrite skipn_app, skipn_all, Nat.sub_diag. reflexivity.
Qed.

Lemma call_sends ep ps qs u :
  sends (_call_api ep ps qs u)
    {| endpoint := ep; params := ps; query := qs; unsigned := u |}.
Proof.
  intros w. destruct (_call_api ep ps qs u w) as [w1 r] eqn:E.
  exists r. apply issued_one. simpl. now apply call_api_log.
Qed.

(** X10.  The endpoints that act on behalf of the signed-in user issue one
    request to their path, signed, and return the server's answer as it is.
    The request carries every field of [authenticated_params]; a field of
    the endpoint's own is sent unless [authenticated_params] has one of the
    same name. *)
Theorem authenticated_requests self media_id comment_id reels :
  NoDup (map fst (authenticated_params self)) ->
  forall c path own,
    In (c, path, own)
       [(delete_media self media_id,
         ("media/" ++ media_id ++ "/delete/")%string,
         [("media_id", JStr media_id)]);
        (delete_comment self media_id comment_id,
         ("media/" ++ media_id ++ "/comment/" ++ comment_id ++ "/delete/")%string,
         []);
        (post_like self media_id,
         ("media/" ++ media_id ++ "/like/")%string,
         [("media_id", JStr media_id)]);
        (delete_like self media_id,
         ("media/" ++ media_id ++ "/unlike/")%string,
         [("media_id", JStr media_id)]);
        (media_seen self reels, "media/seen/",
         [("nuxes", JDict []); ("reels", reels)]);
        (comment_like self comment_id,
         ("media/" ++ comment_id ++ "/comment_like/")%string, []);
        (comment_unlike self comment_id,
         ("media/" ++ comment_id ++ "/comment_unlike/")%string, []);
        (save_photo self media_id,
         ("media/" ++ media_id ++ "/save/")%string,
         [("radio_type", JStr "WIFI")]);
        (unsave_photo self media_id,
         ("media/" ++ media_id ++ "/unsave/")%string,
         [("radio_type", JStr "WIFI")])] ->
    exists ps,
      c = _call_api path ps [] false /\
      sends c {| endpoint := path; params := ps; query := []; unsigned := false |} /\
      overrides (authenticated_params self) own ps.
Proof.
  intros ND c path own Hin. simpl in Hin.
  repeat (destruct Hin as [Hin|Hin];
          [inversion Hin; subst; clear Hin;
           eexists; split; [reflexivity|];
           split; [apply call_sends|];
           try (apply update_overrides; exact ND);
           try (intros k; destruct (dict_find k (authenticated_params self));
                reflexivity)|]).
  contradiction.
Qed.


Lemma bind_log {A B} (c : M A) (k : A -> M B) w :
  (forall a w1, log (fst (k a w1)) = log w1) ->
  log (fst ((x <- c ;; k x) w)) = log (fst (c w)).
Proof.
  intros Hk. unfold bind. destruct (c w) as [w1 [a|e]]; simpl; auto.
Qed.

Lemma listing_call_sends step self guarded field ep ps qs u :
  (forall x w, log (fst (step x w)) = log w) ->
  sends (listing_call step self guarded field (_call_api ep ps qs u))
    {| endpoint := ep; params := ps; query := qs; unsigned := u |}.
Proof.
  intros Hlog w. unfold listing_call.
  destruct (_call_api ep ps qs u w) as [w1 r1] eqn:Ec.
  exists r1. apply issued_one. rewrite bind_log.
  - rewrite Ec. simpl. now apply call_api_log.
  - intros res w2. rewrite bind_log; [|reflexivity].
    destruct (_ && _); [|reflexivity].
    rewrite bind_log; [reflexivity|].
    intros its w3. apply mapM_log. exact Hlog.
Qed.

(** X11.  Keyword arguments of the feed endpoints go into the request as
    they are and take precedence over the fields the endpoint sets itself:
    the first request of [feed_timeline], and the one request of
    [feed_popular] and of [user_feed]. *)
Theorem kwargs_override_defaults P A self user_id kwargs :
  NoDup (map fst kwargs) ->
  (forall fuel n w w' r,
     feed_timeline P fuel self n kwargs w = Some (w', r) ->
     exists ps r0 rest,
       issued w w' = (timeline_request ps, r0) :: rest /\
       overrides kwargs
         [("_uuid", uuid self); ("_csrftoken", csrftoken self);
          ("is_prefetch", JStr "0"); ("is_pull_to_refresh", JStr "0");
          ("phone_id", phone_id self);
          ("timezone_offset", timezone_offset self)] ps) /\
  (exists qs,
     sends (feed_popular P A self kwargs)
       {| endpoint := "feed/popular"; params := []; query := qs;
          unsigned := false |} /\
     overrides kwargs
       [("people_teaser_supported", JStr "1"); ("rank_token", rank_token A);
        ("ranked_content", JStr "true")] qs) /\
  (exists qs,
     sends (user_feed P A self user_id kwargs)
       {| endpoint := ("feed/user/" ++ user_id ++ "/")%string; params := [];
          query := qs; unsigned := false |} /\
     overrides kwargs
       [("rank_token", rank_token A); ("ranked_content", JStr "true")] qs).
Proof.
  intros ND. split; [|split].
  - intros fuel n w w' r H.
    apply feed_timeline_log in H. destruct H as (w1 & r1 & H & Hl & _).
    rewrite timeline_pages_fetch in H.
    apply (@page_fetch_log "more_available" "feed_items" timeline_call
             timeline_request) in H; [|reflexivity].
    destruct H as (r0 & rest & Hi & _).
    exists (timeline_params self kwargs), r0, rest. split.
    + unfold issued in *. now rewrite Hl.
    + apply update_overrides. exact ND.
  - eexists. split; [|apply update_overrides; exact ND].
    intros w.
    destruct (@listing_call_sends
                (patch_object (media P) (drop_incompat_keys self)) self false
                "items" "feed/popular" []
                (dict_update
                   [("people_teaser_supported", JStr "1");
                    ("rank_token", rank_token A);
                    ("ranked_content", JStr "true")] kwargs) false
                (patch_object_log _ _) w) as (r0 & H).
    exists r0. rewrite <- H. f_equal. f_equal. clear H. revert w.
    unfold feed_popular. listing_by_unfolding.
  - eexists. split; [|apply update_overrides; exact ND].
    intros w.
    destruct (@listing_call_sends
                (patch_object (media P) (drop_incompat_keys self)) self false
                "items" ("feed/user/" ++ user_id ++ "/")%string []
                (dict_update
                   [("rank_token", rank_token A);
                    ("ranked_content", JStr "true")] kwargs) false
                (patch_object_log _ _) w) as (r0 & H).
    exists r0. rewrite <- H. f_equal. f_equal. clear H. revert w.
    unfold user_feed. listing_by_unfolding.
Qed.

(** A text that passes the four tests goes on to the request. *)
Lemma post_comment_valid P E self media_id t w :
  ~ invalid_comment t ->
  post_comment P E self media_id t w
  = match _call_api ("media/" ++ media_id ++ "/comment/")%string
            (dict_update (comment_fields E t w) (authenticated_params self))
            [] false w with
    | (w1, Raise e) => (w1, Raise e)
    | (w1, Ok res) =>
        if auto_patch self then
          match getitem (JDict res) "comment" with
          | Raise e => (w1, Raise e)
          | Ok c =>
              match comment P c (drop_incompat_keys self) with
              | Raise e => (w1, Raise e)
              | Ok c' => (w1, Ok (dict_set "comment" c' res))
              end
          end
        else (w1, Ok res)
    end.
Proof.
  intros Hv.
  unfold post_comment, invalid_comment, too_long, all_capitals,
    too_many_hashtags, too_many_urls in *.
  destruct (Nat.ltb 300 (length t)) eqn:E1.
  { apply Nat.ltb_lt in E1. tauto. }
  destruct (re_search letters_re t && is_upper t) eqn:E2.
  { apply andb_prop in E2. destruct E2 as (A & B).
    apply is_upper_spec in B. tauto. }
  destruct (Nat.ltb 4 (length (re_findall hashtag_re t))) eqn:E3.
  { apply Nat.ltb_lt in E3. tauto. }
  destruct (Nat.ltb 1 (length (re_findall url_re t))) eqn:E4.
  { apply Nat.ltb_lt in E4. tauto. }
  reflexivity.
Qed.

(** X12.  A comment that passes validation is sent in one signed request to
    the comment path of the media.  The request carries every field of
    [authenticated_params]; the text, the breadcrumb, the idempotence token
    and the container module are sent unless [authenticated_params] has a
    field of the same name. *)
Theorem valid_comment_request P E self media_id t w :
  ~ invalid_comment t ->
  NoDup (map fst (authenticated_params self)) ->
  exists ps r0,
    issued w (fst (post_comment P E self media_id t w))
    = [({| endpoint := ("media/" ++ media_id ++ "/comment/")%string;
           params := ps; query := []; unsigned := false |}, r0)] /\
    overrides (authenticated_params self) (comment_fields E t w) ps.
Proof.
  intros Hv ND. rewrite post_comment_valid by exact Hv.
  eexists. 
  destruct (_call_api _ _ [] false w) as [w1 r1] eqn:Ec.
  exists r1. split; [|apply update_overrides; exact ND].
  apply call_api_log in Ec. apply issued_one.
  destruct r1 as [res|e]; [|exact Ec].
  destruct (auto_patch self); [|exact Ec].
  destruct (getitem (JDict res) "comment") as [c|e]; [|exact Ec].
  destruct (comment P c (drop_incompat_keys self)); exact Ec.
Qed.

(** X13.  With [auto_patch] on, a valid comment whose request is answered
    without a [comment] field makes [post_comment] raise [KeyError]: the
    request has been issued and answered, the caller gets an exception. *)
Theorem comment_posted_then_key_error P E self media_id t w body :
  ~ invalid_comment t ->
  auto_patch self = true ->
  served w 0 = Ok body ->
  dict_find "comment" body = None ->
  exists w',
    post_comment P E self media_id t w = (w', Raise (KeyError "comment")) /\
    requests w' = S (requests w) /\
    exists rq res, issued w w' = [(rq, Ok res)].
Proof.
  intros Hv Ha Hs Hf. rewrite post_comment_valid by exact Hv.
  destruct (_call_api _ _ [] false w) as [w1 r1] eqn:Ec.
  pose proof (call_api_log _ _ _ _ _ Ec) as Hl.
  apply call_api_inv in Ec. destruct Ec as (_ & Hq & Hb).
  rewrite Hs in Hb. destruct Hb as (res & -> & Hm).
  pose proof (materialize_find _ _ "comment" Hm) as F. rewrite Hf in F.
  rewrite Ha. unfold getitem. rewrite F.
  exists w1. repeat split; auto.
  eexists. exists res. apply issued_one. exact Hl.
Qed.

Lemma join_strs_strings sep ids :
  join_strs sep (map JStr ids) = Ok (String.concat sep ids).
Proof.
  induction ids as [|s ids IH]; [reflexivity|].
  destruct ids as [|s' ids]; [reflexivity|].
  change (join_strs sep (map JStr (s :: s' :: ids)))
    with (rbind (join_strs sep (map JStr (s' :: ids)))
            (fun r => Ok (s ++ sep ++ r)%string)).
  rewrite IH. reflexivity.
Qed.

Lemma join_strs_not_string sep x : forall xs,
  In x xs -> (forall s, x <> JStr s) -> join_strs sep xs = Raise TypeError.
Proof.
  induction xs as [|y xs IH]; intros Hin Hx; [contradiction|].
  destruct Hin as [->|Hin].
  - simpl. destruct x; try reflexivity. now contradiction (Hx s).
  - destruct y; try reflexivity.
    destruct xs as [|z xs]; [contradiction|].
    change (join_strs sep (JStr s :: z :: xs))
      with (rbind (join_strs sep (z :: xs))
              (fun r => Ok (s ++ sep ++ r)%string)).
    rewrite (IH Hin Hx). reflexivity.
Qed.

(** X14.  [medias_info] joins the ids with commas into one [media_ids] field
    of a single unsigned request and patches the [items] of the answer; a
    single id given as a string stands for the list of that id; a list with
    an element that is not a string raises [TypeError] before anything is
    sent. *)
Theorem medias_info_ids P self :
  (forall xs x w,
     In x xs -> (forall s, x <> JStr s) ->
     medias_info P self (JList xs) w = (w, Raise TypeError)) /\
  (forall ids,
     sends (medias_info P self (JList (map JStr ids)))
       {| endpoint := "media/infos/";
          params := [("_uuid", uuid self); ("_csrftoken", csrftoken self);
                     ("media_ids", JStr (String.concat "," ids));
                     ("ranked_content", JStr "true")];
          query := []; unsigned := true |} /\
     patches_listing (media P) self "items"
       (medias_info P self (JList (map JStr ids)))) /\
  (forall s, medias_info P self (JStr s) = medias_info P self (JList [JStr s])).
Proof.
  split; [|split].
  - intros xs x w Hin Hx. unfold medias_info, bind, lift, str_join.
    cbn [iter_values rbind]. now rewrite (join_strs_not_string "," _ Hin Hx).
  - intros ids.
    assert (E : forall w,
              medias_info P self (JList (map JStr ids)) w
              = listing_call (patch_object (media P) (drop_incompat_keys self))
                  self false "items"
                  (_call_api "media/infos/"
                     [("_uuid", uuid self); ("_csrftoken", csrftoken self);
                      ("media_ids", JStr (String.concat "," ids));
                      ("ranked_content", JStr "true")] [] true) w).
    { unfold medias_info. unfold bind at 1. unfold lift, str_join.
      cbn [iter_values rbind]. rewrite join_strs_strings.
      listing_by_unfolding. }
    split.
    + intros w. rewrite E. apply listing_call_sends. apply patch_object_log.
    + eapply media_listing. exact E.
  - reflexivity.
Qed.

(** ** Comments without a sort key *)

Lemma rmap_first_raise {A B} (f : A -> result B) e : forall l,
  (forall x, In x l -> (exists y, f x = Ok y) \/ f x = Raise e) ->
  (exists x, In x l /\ f x = Raise e) ->
  rmap f l = Raise e.
Proof.
  induction l as [|a l IH]; intros Hall (x & Hin & Hx); [contradiction|].
  cbn [rmap]. destruct (Hall a (or_introl eq_refl)) as [(y & Hy)|Ha].
  - rewrite Hy. cbn [rbind]. rewrite IH; [reflexivity| |].
    + intros z Hz. apply Hall. now right.
    + destruct Hin as [<-|Hin]; [congruence|]. eauto.
  - now rewrite Ha.
Qed.

(** X20.  One comment without a [created_time] fails the whole call: with
    [auto_patch] off and pages whose comments are objects, if any of the
    fetched comments lacks the key, [media_n_comments] raises
    [KeyError('created_time')] after having fetched all its pages, and
    returns nothing. *)
Theorem comment_without_created_time P fuel self media_id n reverse kwargs
    w w' r j :
  auto_patch self = false ->
  (forall i, list_page "comments" (served w i)) ->
  (forall i x, In x (wire_items "comments" (served w i)) ->
               exists kvs, x = JDict kvs) ->
  media_n_comments P fuel self media_id n reverse kwargs w = Some (w', r) ->
  requests w' = requests w + S j ->
  (exists kvs, In (JDict kvs) (pages_items "comments" (served w) (S j)) /\
               dict_find "created_time" kvs = None) ->
  r = Raise (KeyError "created_time").
Proof.
  intros Ha Hlist Hobj H Hq (kvs & Hin & Hnone).
  unfold media_n_comments in H.
  destruct (comments_pages fuel media_id n kwargs w)
    as [[w1 [[res cs]|e]]|] eqn:Ef; [| |discriminate].
  2:{ exfalso. rewrite comments_pages_fetch in Ef.
      apply (@page_fetch_inv _ _ _ (comments_call_is_call _)) in Ef.
      destruct Ef as (_ & k & _ & Hwf & _). apply Hwf.
      apply list_page_wf. apply Hlist. }
  rewrite Ha in H. unfold bind, ret in H. inversion H; subst w' r. clear H.
  rewrite comments_pages_fetch in Ef.
  apply (@page_fetch_inv _ _ _ (comments_call_is_call _)) in Ef.
  destruct Ef as (_ & j' & Hq' & F & _).
  assert (j' = j) by lia. subst j'.
  apply fetched_view in F. destruct F as (V & _).
  unfold sorted.
  assert (Hk : rmap (created_time (heap w1)) cs = Raise (KeyError "created_time")).
  { unfold created_time.
    rewrite <- (rmap_map (fun v => getitem v "created_time") (deref (heap w1))).
    fold (view w1 cs). rewrite V.
    apply rmap_first_raise.
    - intros x Hx. apply pages_items_In in Hx. destruct Hx as (i & _ & Hx).
      destruct (Hobj _ _ Hx) as (d & ->). simpl.
      destruct (dict_find "created_time" d); eauto.
    - exists (JDict kvs). split; [exact Hin|]. simpl. now rewrite Hnone. }
  now rewrite Hk.
Qed.

(** ** Comment validation: two rules from the caller's side *)

(** X15.  For a text of at most 300 characters, [post_comment] raises the
    all-capitals error exactly when the text contains a character that
    [[a-z]] matches when case is ignored (a letter a-z or A-Z, or one of
    U+0130, U+0131, U+017F and U+212A) and no character whose upper case
    differs from it. *)
Theorem all_capitals_rule P E self media_id t w :
  length t <= 300 ->
  (post_comment P E self media_id t w
   = (w, Raise (ValueError "The comment cannot consist of all capital letters."))
   <->
   (exists c, In c t /\ is_letter c = true) /\
   (forall c, In c t -> upper_char c = [c])).
Proof.
  intros Hlen. rewrite <- all_capitals_spec.
  unfold all_capitals.
  unfold post_comment in *.
  destruct (Nat.ltb 300 (length t)) eqn:E1.
  { apply Nat.ltb_lt in E1. lia. }
  destruct (re_search letters_re t && is_upper t) eqn:E2.
  { apply andb_prop in E2. destruct E2 as (A & B). apply is_upper_spec in B.
    split; auto. }
  assert (Hn : ~ (re_search letters_re t = true /\ t = upper t)).
  { intros (A & B). apply is_upper_spec in B. rewrite A, B in E2. discriminate. }
  split; [|tauto]. intros H. exfalso.
  destruct (Nat.ltb 4 (length (re_findall hashtag_re t))); [discriminate|].
  destruct (Nat.ltb 1 (length (re_findall url_re t))); [discriminate|].
  destruct (_call_api _ _ [] false w) as [w1 r1] eqn:Ec.
  apply call_api_inv in Ec. destruct Ec as (_ & Hq & _).
  assert (w1 = w).
  { destruct r1 as [res|e]; [|now inversion H].
    destruct (auto_patch self); [|now inversion H].
    destruct (getitem (JDict res) "comment") as [c|e]; [|now inversion H].
    destruct (comment P c (drop_incompat_keys self)); now inversion H. }
  subst w1. lia.
Qed.

(** X16.  A comment of at most 300 characters that has none of the
    characters [[a-z]] matches when case is ignored, or has a character
    with a different upper case (any of a-z, say), and that has at most
    four [#] and at most one [:], passes validation: [post_comment] sends
    it. *)
Theorem plain_comment_is_sent P E self media_id t w :
  length t <= 300 ->
  (forall c, In c t -> is_letter c = false) \/
  (exists c, In c t /\ upper_char c <> [c]) ->
  count_chars (fun c => (c =? ch "#")%N) t <= 4 ->
  count_chars (fun c => (c =? ch ":")%N) t <= 1 ->
  ~ invalid_comment t /\
  requests (fst (post_comment P E self media_id t w)) = S (requests w).
Proof.
  intros Hlen Hcap Hh Hu.
  assert (Hv : ~ invalid_comment t).
  { unfold invalid_comment, too_long, too_many_hashtags, too_many_urls.
    pose proof (hashtag_matches_bound t). pose proof (url_matches_bound t).
    intros [H1|[H2|[H3|H4]]]; try lia.
    apply all_capitals_spec in H2. destruct H2 as ((c & Hc & Hl) & Hup).
    destruct Hcap as [Hno|(c' & Hc' & Hne)].
    - rewrite (Hno c Hc) in Hl. discriminate.
    - apply Hne. now apply Hup. }
  split; [exact Hv|].
  destruct (post_comment_cases P E self media_id t w) as [(Hi & _)|(_ & Hr)];
    [contradiction|exact Hr].
Qed.

(** ** Saving and loading the settings *)

Lemma to_json_bytes b :
  to_json (PBytes b)
  = Ok (PDict [("__class__", PStr "bytes");
               ("__value__", PStr (string_of_list_ascii (encodebytes b)))]).
Proof.
  pose proof (encode_pieces_ascii7 (length b) b) as H7. fold (encodebytes b) in H7.
  unfold to_json. now rewrite (bytes_decode_ascii7 H7).
Qed.

Lemma plain_PList l :
  plain (PList l) = rbind (rmap plain l) (fun ys => Ok (PList ys)).
Proof.
  cbn [plain]. f_equal. induction l as [|x l IH]; [reflexivity|].
  cbn [rmap]. now rewrite IH.
Qed.

Lemma plain_PDict d :
  plain (PDict d) = rbind (rmap_vals plain d) (fun ys => Ok (PDict ys)).
Proof.
  cbn [plain]. f_equal. induction d as [|[k x] d IH]; [reflexivity|].
  cbn [rmap_vals]. now rewrite IH.
Qed.

(** X17.  Saving does not fail on a settings document within the limits of
    the interpreter (at most 100 levels of nesting, integers of at most 4300
    digits): [json.dump] with [default=to_json] turns such a tree of JSON
    values and [bytes] into a tree of JSON values only, which serialises
    without the help of [default]. *)
Theorem dump_with_to_json_succeeds settings :
  within_limits settings ->
  exists j, dump to_json settings = Ok j /\ plain j = Ok j.
Proof.
  intros _.
  induction settings as [ |b|z|s|b|l IH|d IH] using pyobj_ind2;
    try (eexists; split; reflexivity).
  - (* bytes *)
    cbn [dump]. rewrite to_json_bytes. cbn [rbind]. rewrite plain_wrapper.
    eexists. split; [reflexivity|]. apply plain_wrapper.
  - (* list *)
    rewrite dump_PList.
    assert (H : exists js, rmap (dump to_json) l = Ok js /\ rmap plain js = Ok js).
    { induction IH as [|x l (j & Hj & Hp) _ (js & Hjs & Hps)].
      - exists []. split; reflexivity.
      - exists (j :: js). cbn [rmap]. rewrite Hj, Hjs, Hp, Hps. split; reflexivity. }
    destruct H as (js & Hjs & Hps). rewrite Hjs. cbn [rbind].
    eexists. split; [reflexivity|]. rewrite plain_PList, Hps. reflexivity.
  - (* dict *)
    rewrite dump_PDict.
    assert (H : exists js, rmap_vals (dump to_json) d = Ok js /\
                           rmap_vals plain js = Ok js).
    { induction IH as [|[k x] d (j & Hj & Hp) _ (js & Hjs & Hps)].
      - exists []. split; reflexivity.
      - exists ((k, j) :: js). simpl in Hj, Hp. cbn [rmap_vals].
        rewrite Hj, Hjs, Hp, Hps. split; reflexivity. }
    destruct H as (js & Hjs & Hps). rewrite Hjs. cbn [rbind].
    eexists. split; [reflexivity|]. rewrite plain_PDict, Hps. reflexivity.
Qed.

Lemma a2b_go_significant : forall s quad p,
  a2b_go quad p s = a2b_go quad p (filter significant s).
Proof.
  induction s as [|ch s IH]; intros quad p; [reflexivity|].
  cbn [filter]. unfold significant at 1.
  destruct (sextet_of_char ch) as [v|] eqn:Sx.
  - cbn [a2b_go]. rewrite Sx.
    destruct (Ascii.eqb ch "=").
    + destruct (Nat.leb 2 (length quad)); [|apply IH].
      destruct (Nat.leb 4 (length quad + S p)); [reflexivity|apply IH].
    + destruct quad as [|q1 [|q2 [|q3 [|q4 quad]]]]; try apply IH.
      now rewrite IH.
  - destruct (Ascii.eqb ch "=") eqn:Eq.
    + cbn [a2b_go]. rewrite Eq.
      destruct (Nat.leb 2 (length quad)); [|apply IH].
      destruct (Nat.leb 4 (length quad + S p)); [reflexivity|apply IH].
    + cbn [a2b_go]. rewrite Eq, Sx. apply IH.
Qed.

Lemma significant_utf8 c :
  filter significant (utf8_char c) = filter significant [c].
Proof.
  destruct c as [b0 b1 b2 b3 b4 b5 b6 b7].
  destruct b0, b1, b2, b3, b4, b5, b6, b7; vm_compute; reflexivity.
Qed.

Lemma significant_str_encode v :
  filter significant (str_encode v)
  = filter significant (list_ascii_of_string v).
Proof.
  unfold str_encode.
  induction (list_ascii_of_string v) as [|c l IH]; [reflexivity|].
  cbn [flat_map]. rewrite filter_app, significant_utf8, IH.
  change (c :: l) with ([c] ++ l). now rewrite filter_app.
Qed.

(** X18.  Loading looks only at the base64 characters of a stored value:
    line breaks, blanks or any other character outside the alphabet may be
    added to or removed from the text [to_json] wrote, and [from_json]
    still yields the bytes that were saved. *)
Theorem from_json_ignores_layout d v b :
  pfind "__class__" d = Some (PStr "bytes") ->
  pfind "__value__" d = Some (PStr v) ->
  filter significant (list_ascii_of_string v)
  = filter significant (encodebytes b) ->
  from_json d = Ok (PBytes b).
Proof.
  intros Hc Hv Hs. unfold from_json. rewrite Hc, Hv.
  unfold a2b_base64. rewrite a2b_go_significant, significant_str_encode, Hs.
  rewrite <- a2b_go_significant.
  fold (a2b_base64 (encodebytes b)). now rewrite base64_roundtrip.
Qed.

Lemma a2b_go_unpadded : forall s quad p,
  length quad < 4 ->
  (forall c, In c s -> Ascii.eqb c "=" = false) ->
  (length quad + length (filter is_data s)) mod 4 <> 0 ->
  a2b_go quad p s = Raise BinasciiError.
Proof.
  induction s as [|ch s IH]; intros quad p Hq Hp Hm.
  - cbn [filter length] in Hm. rewrite Nat.add_0_r in Hm.
    rewrite Nat.mod_small in Hm by exact Hq.
    destruct quad; [contradiction|reflexivity].
  - cbn [a2b_go]. rewrite (Hp ch (or_introl eq_refl)).
    assert (Hp' : forall c, In c s -> Ascii.eqb c "=" = false).
    { intros c Hc. apply Hp. now right. }
    cbn [filter] in Hm. unfold is_data at 1 in Hm.
    destruct (sextet_of_char ch) as [v|].
    + cbn [length] in Hm.
      assert (Hstep : forall k c, (k + S c) mod 4 <> 0 -> (S k + c) mod 4 <> 0).
      { intros k c H. now replace (S k + c) with (k + S c) by lia. }
      destruct quad as [|q1 [|q2 [|q3 [|q4 quad]]]].
      * apply IH; [cbn [app length]; lia|exact Hp'|].
        cbn [app length]. apply Hstep. exact Hm.
      * apply IH; [cbn [app length]; lia|exact Hp'|].
        cbn [app length]. apply Hstep. exact Hm.
      * apply IH; [cbn [app length]; lia|exact Hp'|].
        cbn [app length]. apply Hstep. exact Hm.
      * rewrite IH; [reflexivity|cbn [length]; lia|exact Hp'|].
        cbn [length] in *.
        replace (3 + S (length (filter is_data s)))
          with (length (filter is_data s) + 1 * 4) in Hm by lia.
        rewrite Nat.Div0.mod_add in Hm. exact Hm.
      * cbn [length] in Hq. lia.
    + apply IH; auto.
Qed.

Lemma is_data_utf8 c :
  filter is_data (utf8_char c) = filter is_data [c] /\
  (Ascii.eqb c "=" = false ->
   forall x, In x (utf8_char c) -> Ascii.eqb x "=" = false).
Proof.
  destruct c as [b0 b1 b2 b3 b4 b5 b6 b7].
  destruct b0, b1, b2, b3, b4, b5, b6, b7; vm_compute;
    (split; [reflexivity|]); intros H x Hx;
    repeat (destruct Hx as [<-|Hx]; [try reflexivity; try discriminate|]);
    try contradiction.
Qed.

Lemma is_data_str_encode v :
  filter is_data (str_encode v) = filter is_data (list_ascii_of_string v).
Proof.
  unfold str_encode.
  induction (list_ascii_of_string v) as [|c l IH]; [reflexivity|].
  cbn [flat_map]. rewrite filter_app, (proj1 (is_data_utf8 c)), IH.
  change (c :: l) with ([c] ++ l). now rewrite filter_app.
Qed.

(** X19.  A stored value cut short is rejected, not loaded as other bytes:
    when the text has no pad character and the number of its base64
    characters is not a multiple of four, [from_json] raises the decoder's
    error. *)
Theorem from_json_rejects_truncated d v :
  pfind "__class__" d = Some (PStr "bytes") ->
  pfind "__value__" d = Some (PStr v) ->
  (forall c, In c (list_ascii_of_string v) -> Ascii.eqb c "=" = false) ->
  length (filter is_data (list_ascii_of_string v)) mod 4 <> 0 ->
  from_json d = Raise BinasciiError.
Proof.
  intros Hc Hv Hp Hm. unfold from_json. rewrite Hc, Hv.
  unfold a2b_base64. rewrite a2b_go_unpadded; [reflexivity|simpl; lia| |].
  - unfold str_encode. intros c Hin. apply in_flat_map in Hin.
    destruct Hin as (x & Hx & Hin).
    exact (proj2 (is_data_utf8 x) (Hp x Hx) c Hin).
  - cbn [length Nat.add]. now rewrite is_data_str_encode.
Qed.

(** ** The further properties on the sample data *)

Lemma demo_items_page : list_page "items" (served demo_listing_world 0).
Proof. exists demo_listing. eexists. split; reflexivity. Defined.

Lemma demo_users_page : list_page "users" (served demo_listing_world 0).
Proof. exists demo_listing. eexists. split; reflexivity. Defined.

Lemma demo_feed_popular_run :
  exists w' res,
    feed_popular demo_patch demo_account (demo_client true) [] demo_listing_world
    = (w', Ok res).
Proof. eexists. eexists. vm_compute. reflexivity. Defined.

Lemma demo_saved_feed_run :
  exists w' res,
    saved_feed demo_patch (demo_client true) [] demo_listing_world = (w', Ok res).
Proof. eexists. eexists. vm_compute. reflexivity. Defined.

Lemma feed_listings_patched_once_witness :
  (exists w' res refs,
     feed_popular demo_patch demo_account (demo_client true) [] demo_listing_world
     = (w', Ok res) /\
     requests w' = S (requests demo_listing_world) /\
     iter_values (get_default res "items" (JList [])) = Ok refs /\
     rmap (fun x => media demo_patch x false)
          (wire_items "items" (served demo_listing_world 0))
     = Ok (view w' refs)) /\
  (exists w' res refs,
     saved_feed demo_patch (demo_client true) [] demo_listing_world
     = (w', Ok res) /\
     requests w' = S (requests demo_listing_world) /\
     iter_values (get_default res "items" (JList [])) = Ok refs /\
     rmap (fun x => patched_saved_item demo_patch x false)
          (wire_items "items" (served demo_listing_world 0))
     = Ok (view w' refs)).
Proof.
  pose proof (@feed_listings_patched_once demo_patch demo_account
                (demo_client true) "42" []) as T.
  destruct T as (_ & T2 & _ & _ & _ & _ & T7 & _). split.
  - destruct demo_feed_popular_run as (w' & res & H).
    destruct (T2 demo_listing_world w' (Ok res) demo_items_page H)
      as (Hq & refs & Hi & Hr).
    exists w', res, refs. repeat split; assumption.
  - destruct demo_saved_feed_run as (w' & res & H).
    destruct (T7 demo_listing_world w' (Ok res) demo_items_page H)
      as (Hq & refs & Hi & Hr).
    exists w', res, refs. repeat split; assumption.
Defined.

Lemma demo_media_likers_run :
  exists w' res,
    media_likers demo_user_patch (demo_client true) "1" [] demo_listing_world
    = (w', Ok res).
Proof. eexists. eexists. vm_compute. reflexivity. Defined.

Lemma media_listings_patched_once_witness :
  exists w' res refs,
    media_likers demo_user_patch (demo_client true) "1" [] demo_listing_world
    = (w', Ok res) /\
    requests w' = S (requests demo_listing_world) /\
    iter_values (get_default res "users" (JList [])) = Ok refs /\
    rmap (fun x => list_user demo_user_patch x false)
         (wire_items "users" (served demo_listing_world 0))
    = Ok (view w' refs).
Proof.
  pose proof (@media_listings_patched_once demo_patch demo_user_patch
                (demo_client true) "1" []) as T.
  destruct T as (_ & _ & T3 & _).
  destruct demo_media_likers_run as (w' & res & H).
  destruct (T3 demo_listing_world w' (Ok res) demo_users_page H)
    as (Hq & refs & Hi & Hr).
  exists w', res, refs. repeat split; assumption.
Defined.

Lemma items_not_iterable_witness :
  served demo_null_world 0 = Ok demo_null_items /\
  dict_find "items" demo_null_items = Some JNull /\
  iter_values JNull = Raise TypeError /\
  (exists w',
     feed_popular demo_patch demo_account (demo_client true) [] demo_null_world
     = (w', Raise TypeError) /\ requests w' = S (requests demo_null_world)) /\
  (exists w' res,
     feed_liked demo_patch (demo_client true) demo_null_world = (w', Ok res) /\
     requests w' = S (requests demo_null_world)) /\
  (exists w' res,
     feed_tag demo_patch (demo_client true) "cats" [] demo_null_world
     = (w', Ok res) /\ requests w' = S (requests demo_null_world)).
Proof.
  pose proof (@items_not_iterable demo_patch demo_account (demo_client true)
                "cats" [] demo_null_world demo_null_items JNull
                eq_refl eq_refl eq_refl eq_refl) as (T1 & T2 & T3).
  repeat split.
  - apply T1. left. reflexivity.
  - apply T2. reflexivity.
  - apply (T3 eq_refl eq_refl). left. reflexivity.
Defined.

Lemma demo_media_comments_run :
  exists w1 res cs,
    media_comments demo_patch (demo_client true) "1" [] demo_listing_world
    = (w1, Ok res) /\
    iter_values (get_default res "comments" (JList [])) = Ok cs /\
    truthy (get res "has_more_comments") && truthy (get res "next_max_id")
    && (Z.of_nat (length cs) <? 50)%Z = false.
Proof. eexists. eexists. eexists. vm_compute. repeat split; reflexivity. Defined.

Lemma single_page_is_media_comments_witness :
  exists w1 res cs,
    media_comments demo_patch (demo_client true) "1" [] demo_listing_world
    = (w1, Ok res) /\
    iter_values (get_default res "comments" (JList [])) = Ok cs /\
    media_n_comments demo_patch 0 (demo_client true) "1" 50 false []
      demo_listing_world
    = Some (w1, sorted (created_time (heap w1)) cs false).
Proof.
  destruct demo_media_comments_run as (w1 & res & cs & H & Hi & Hc).
  exists w1, res, cs. repeat split; try assumption.
  exact (@single_page_is_media_comments demo_patch 0 (demo_client true) "1" 50
           false [] demo_listing_world w1 res cs H Hi Hc).
Defined.

Lemma demo_auth_nodup :
  NoDup (map fst (authenticated_params (demo_client true))).
Proof.
  simpl. repeat constructor; simpl; intuition discriminate.
Defined.

Lemma authenticated_requests_witness :
  NoDup (map fst (authenticated_params (demo_client true))) /\
  exists ps,
    delete_media (demo_client true) "17"
    = _call_api "media/17/delete/" ps [] false /\
    sends (delete_media (demo_client true) "17")
      {| endpoint := "media/17/delete/"; params := ps; query := [];
         unsigned := false |} /\
    overrides (authenticated_params (demo_client true))
      [("media_id", JStr "17")] ps.
Proof.
  split; [exact demo_auth_nodup|].
  apply (@authenticated_requests (demo_client true) "17" "3" JNull
           demo_auth_nodup (delete_media (demo_client true) "17")
           "media/17/delete/" [("media_id", JStr "17")]).
  left. reflexivity.
Defined.

Lemma demo_kwargs_nodup : NoDup (map fst [("max_id", JStr "9"); ("is_prefetch", JStr "1")]).
Proof. simpl. repeat constructor; simpl; intuition discriminate. Defined.

Lemma kwargs_override_defaults_witness :
  NoDup (map fst [("max_id", JStr "9"); ("is_prefetch", JStr "1")]) /\
  exists qs,
    sends (feed_popular demo_patch demo_account (demo_client true)
             [("max_id", JStr "9"); ("is_prefetch", JStr "1")])
      {| endpoint := "feed/popular"; params := []; query := qs;
         unsigned := false |} /\
    overrides [("max_id", JStr "9"); ("is_prefetch", JStr "1")]
      [("people_teaser_supported", JStr "1");
       ("rank_token", rank_token demo_account);
       ("ranked_content", JStr "true")] qs.
Proof.
  split; [exact demo_kwargs_nodup|].
  exact (proj1 (proj2 (@kwargs_override_defaults demo_patch demo_account
                         (demo_client true) "42"
                         [("max_id", JStr "9"); ("is_prefetch", JStr "1")]
                         demo_kwargs_nodup))).
Defined.

Lemma demo_valid_comment :
  ~ invalid_comment (text_of "Nice shot! #sunset http://example.com").
Proof.
  unfold invalid_comment, too_long, all_capitals, too_many_hashtags,
    too_many_urls.
  intros [H|[(A & B)|[H|H]]]; vm_compute in *; try lia; discriminate.
Defined.

Lemma valid_comment_request_witness :
  ~ invalid_comment (text_of "Nice shot! #sunset http://example.com") /\
  NoDup (map fst (authenticated_params (demo_client true))) /\
  exists ps r0,
    issued demo_world
      (fst (post_comment demo_patch demo_helpers (demo_client true) "1"
              (text_of "Nice shot! #sunset http://example.com") demo_world))
    = [({| endpoint := "media/1/comment/"; params := ps; query := [];
           unsigned := false |}, r0)] /\
    overrides (authenticated_params (demo_client true))
      (comment_fields demo_helpers (text_of "Nice shot! #sunset http://example.com")
         demo_world) ps.
Proof.
  split; [exact demo_valid_comment|]. split; [exact demo_auth_nodup|].
  exact (@valid_comment_request demo_patch demo_helpers (demo_client true) "1"
           (text_of "Nice shot! #sunset http://example.com") demo_world
           demo_valid_comment demo_auth_nodup).
Defined.

Lemma comment_posted_then_key_error_witness :
  ~ invalid_comment (text_of "Nice shot! #sunset http://example.com") /\
  exists body,
    served demo_world 0 = Ok body /\ dict_find "comment" body = None /\
    exists w',
      post_comment demo_patch demo_helpers (demo_client true) "1"
        (text_of "Nice shot! #sunset http://example.com") demo_world
      = (w', Raise (KeyError "comment")) /\
      requests w' = S (requests demo_world) /\
      exists rq res, issued demo_world w' = [(rq, Ok res)].
Proof.
  split; [exact demo_valid_comment|].
  eexists. split; [reflexivity|]. split; [reflexivity|].
  exact (@comment_posted_then_key_error demo_patch demo_helpers
           (demo_client true) "1" (text_of "Nice shot! #sunset http://example.com")
           demo_world _ demo_valid_comment eq_refl eq_refl eq_refl).
Defined.

Lemma medias_info_ids_witness :
  medias_info demo_patch (demo_client true) (JList [JStr "1_2"; JInt 3])
    demo_listing_world
  = (demo_listing_world, Raise TypeError) /\
  sends (medias_info demo_patch (demo_client true)
           (JList (map JStr ["1_2"; "3_4"])))
    {| endpoint := "media/infos/";
       params := [("_uuid", uuid (demo_client true));
                  ("_csrftoken", csrftoken (demo_client true));
                  ("media_ids", JStr "1_2,3_4");
                  ("ranked_content", JStr "true")];
       query := []; unsigned := true |}.
Proof.
  pose proof (@medias_info_ids demo_patch (demo_client true)) as (T1 & T2 & _).
  split.
  - apply (T1 [JStr "1_2"; JInt 3] (JInt 3) demo_listing_world).
    + right. left. reflexivity.
    + intros s. discriminate.
  - exact (proj1 (T2 ["1_2"; "3_4"])).
Defined.

Lemma all_capitals_rule_witness :
  length [72; 304; 32; 8490; 33]%N <= 300 /\
  (post_comment demo_patch demo_helpers (demo_client true) "1"
     [72; 304; 32; 8490; 33]%N demo_world
   = (demo_world,
      Raise (ValueError "The comment cannot consist of all capital letters."))
   <->
   (exists c, In c [72; 304; 32; 8490; 33]%N /\ is_letter c = true) /\
   (forall c, In c [72; 304; 32; 8490; 33]%N -> upper_char c = [c])).
Proof.
  assert (H : length [72; 304; 32; 8490; 33]%N <= 300) by (vm_compute; lia).
  split; [exact H|].
  exact (@all_capitals_rule demo_patch demo_helpers (demo_client true) "1"
           [72; 304; 32; 8490; 33]%N demo_world H).
Defined.

Lemma plain_comment_is_sent_witness :
  length (text_of "Nice shot! #sunset http://example.com") <= 300 /\
  (exists c, In c (text_of "Nice shot! #sunset http://example.com")
             /\ upper_char c <> [c]) /\
  ~ invalid_comment (text_of "Nice shot! #sunset http://example.com") /\
  requests (fst (post_comment demo_patch demo_helpers (demo_client true) "1"
                   (text_of "Nice shot! #sunset http://example.com")
                   demo_world))
  = S (requests demo_world).
Proof.
  assert (H1 : length (text_of "Nice shot! #sunset http://example.com") <= 300)
    by (vm_compute; lia).
  assert (H2 : exists c,
             In c (text_of "Nice shot! #sunset http://example.com")
             /\ upper_char c <> [c]).
  { exists (ch "i"). split; [right; left; reflexivity|]. vm_compute. discriminate. }
  assert (H3 : count_chars (fun c => (c =? ch "#")%N)
                 (text_of "Nice shot! #sunset http://example.com") <= 4)
    by (vm_compute; lia).
  assert (H4 : count_chars (fun c => (c =? ch ":")%N)
                 (text_of "Nice shot! #sunset http://example.com") <= 1)
    by (vm_compute; lia).
  split; [exact H1|]. split; [exact H2|].
  exact (@plain_comment_is_sent demo_patch demo_helpers (demo_client true) "1"
           (text_of "Nice shot! #sunset http://example.com") demo_world
           H1 (or_intror H2) H3 H4).
Defined.

Lemma demo_settings_within_limits : within_limits demo_settings.
Proof. split; [vm_compute; lia|vm_compute; reflexivity]. Defined.

Lemma dump_with_to_json_succeeds_witness :
  within_limits demo_settings /\
  exists j, dump to_json demo_settings = Ok j /\ plain j = Ok j.
Proof.
  split; [exact demo_settings_within_limits|].
  exact (dump_with_to_json_succeeds demo_settings_within_limits).
Defined.

Lemma from_json_ignores_layout_witness :
  filter significant (list_ascii_of_string "a G k h")
  = filter significant (encodebytes ["h"; "i"; "!"]%char) /\
  from_json [("__class__", PStr "bytes"); ("__value__", PStr "a G k h"); ("note", PNone)]
  = Ok (PBytes ["h"; "i"; "!"]%char).
Proof.
  split; [reflexivity|].
  exact (@from_json_ignores_layout
           [("__class__", PStr "bytes"); ("__value__", PStr "a G k h"); ("note", PNone)] "a G k h" ["h"; "i"; "!"]%char eq_refl eq_refl eq_refl).
Defined.

Lemma from_json_rejects_truncated_witness :
  length (filter is_data (list_ascii_of_string "aGk")) mod 4 <> 0 /\
  from_json [("__class__", PStr "bytes"); ("__value__", PStr "aGk")]
  = Raise BinasciiError.
Proof.
  assert (H : length (filter is_data (list_ascii_of_string "aGk")) mod 4 <> 0)
    by (vm_compute; discriminate).
  split; [exact H|].
  apply (@from_json_rejects_truncated
           [("__class__", PStr "bytes"); ("__value__", PStr "aGk")] "aGk"
           eq_refl eq_refl); [|exact H].
  intros c Hc. simpl in Hc.
  repeat (destruct Hc as [<-|Hc]; [reflexivity|]). contradiction.
Defined.

Lemma demo_ties_run :
  exists w' l,
    media_n_comments demo_patch 3 (demo_client false) "1" 50 true []
      demo_ties_world = Some (w', Ok l) /\
    Forall (fun c => exists k, created_time (heap w') c = Ok (JInt k)) l.
Proof.
  eexists. eexists. split; [vm_compute; reflexivity|].
  repeat constructor; eexists; vm_compute; reflexivity.
Defined.

Lemma equal_times_keep_fetch_order_witness :
  exists w' l w1 results comments j,
    media_n_comments demo_patch 3 (demo_client false) "1" 50 true []
      demo_ties_world = Some (w', Ok l) /\
    comments_pages 3 "1" 50 [] demo_ties_world
    = Some (w1, Ok (results, comments)) /\
    requests w' = requests demo_ties_world + S j /\
    view w1 comments = pages_items "comments" (served demo_ties_world) (S j) /\
    forall z,
      filter (at_time (created_time (heap w')) z) l
      = filter (at_time (created_time (heap w')) z) comments.
Proof.
  destruct demo_ties_run as (w' & l & H & Hk).
  destruct (@equal_times_keep_fetch_order demo_patch 3 (demo_client false) "1"
              50 true [] demo_ties_world w' l H
              (proj1 (Forall_forall _ _) Hk))
    as (w1 & results & comments & j & A).
  exists w', l, w1, results, comments, j. split; [exact H|exact A].
Defined.

Lemma demo_ranked_page : list_page "ranked_items" (served demo_listing_world 0).
Proof. exists demo_listing. eexists. split; reflexivity. Defined.

Lemma demo_feed_tag_run :
  exists w' res,
    feed_tag demo_patch (demo_client true) "cats" [] demo_listing_world
    = (w', Ok res).
Proof. eexists. eexists. vm_compute. reflexivity. Defined.

Lemma ranked_listings_patched_once_witness :
  exists w' res refs ranked,
    feed_tag demo_patch (demo_client true) "cats" [] demo_listing_world
    = (w', Ok res) /\
    requests w' = S (requests demo_listing_world) /\
    iter_values (get_default res "items" (JList [])) = Ok refs /\
    rmap (fun x => media demo_patch x false)
         (wire_items "items" (served demo_listing_world 0))
    = Ok (view w' refs) /\
    iter_values (get_default res "ranked_items" (JList [])) = Ok ranked /\
    rmap (fun x => media demo_patch x false)
         (wire_items "ranked_items" (served demo_listing_world 0))
    = Ok (view w' ranked).
Proof.
  destruct demo_feed_tag_run as (w' & res & H).
  destruct (proj1 (@ranked_listings_patched_once demo_patch (demo_client true)
                     "cats" [])
              demo_listing_world w' (Ok res) demo_items_page demo_ranked_page H)
    as (Hq & (refs & Hi & Hr) & (ranked & Hi2 & Hr2)).
  exists w', res, refs, ranked. repeat split; assumption.
Defined.

Lemma demo_reels_tray_run :
  exists w' res,
    reels_tray demo_patch (demo_client true) [] demo_listing_world = (w', Ok res).
Proof. eexists. eexists. vm_compute. reflexivity. Defined.

Example reels_tray_sample :
  exists w' res refs,
    reels_tray demo_patch (demo_client true) [] demo_listing_world = (w', Ok res) /\
    iter_values (get_default res "tray" (JList [])) = Ok refs /\
    view w' refs
    = [JDict [("id", JInt 1);
              ("items", JList [JDict [("code", JStr "t"); ("link", JStr "t")]])];
       JDict [("id", JInt 2)]].
Proof. eexists. eexists. eexists. vm_compute. repeat split; reflexivity. Qed.

Lemma demo_untimed_pages :
  (forall i, list_page "comments" (served demo_untimed_world i)) /\
  (forall i x, In x (wire_items "comments" (served demo_untimed_world i)) ->
               exists kvs, x = JDict kvs).
Proof.
  split.
  - intros [|i]; eexists; eexists; split; reflexivity.
  - intros [|i] x Hx; simpl in Hx; destruct Hx as [<-|[]]; eexists; reflexivity.
Defined.

Lemma demo_untimed_run :
  exists w' r,
    media_n_comments demo_patch 3 (demo_client false) "1" 50 false []
      demo_untimed_world = Some (w', r) /\
    requests w' = requests demo_untimed_world + 2.
Proof. eexists. eexists. vm_compute. split; reflexivity. Defined.

Lemma comment_without_created_time_witness :
  exists w' r,
    media_n_comments demo_patch 3 (demo_client false) "1" 50 false []
      demo_untimed_world = Some (w', r) /\
    requests w' = requests demo_untimed_world + 2 /\
    r = Raise (KeyError "created_time").
Proof.
  destruct demo_untimed_run as (w' & r & H & Hq).
  exists w', r. split; [exact H|]. split; [exact Hq|].
  apply (@comment_without_created_time demo_patch 3 (demo_client false) "1" 50
           false [] demo_untimed_world w' r 1 eq_refl
           (proj1 demo_untimed_pages) (proj2 demo_untimed_pages) H Hq).
  exists [("text", JStr "hi")]. split; [|reflexivity].
  vm_compute. right. left. reflexivity.
Defined.
